(** * The atoms table of js/src/vm/JSAtom.cpp

    A shallow embedding of the interned-string table: lookup keys and
    [AtomHasher::match], the partitioned [AtomsTable] with its secondary
    sets, the permanent atoms set, the per-zone atom cache, atomization,
    pinning, the full and incremental sweeps, the tracing of the roots,
    the beginning and the end of the runtime's atoms, the conversions to
    atoms and the transcoding of atoms.

    Pointers to atoms are indices of cells in a heap; every function that
    mutates the runtime is a computation in a small state-and-abort monad.
    The collector and the allocator are outside this file: their verdicts
    (is this atom about to be finalized, does this allocation fail) are
    arguments of the operations that consult them.

    The embedding comes first; the properties of the table follow, each
    with the invariants it needs; the file ends with a small engine on
    which the operations run and the theorems are instantiated. *)

From Stdlib Require Import ZArith Lia Bool.
From stdpp Require Import base tactics option list relations.

(** ** Basic types *)

(** [HashNumber] is [uint32_t]. *)
Abbreviation HashNumber := Z (only parsing).

(** A [JSAtom*]: the identity of an atom is the index of its heap cell. *)
Abbreviation AtomId := nat (only parsing).

Inductive PinningBehavior := DoNotPinAtom | PinAtom.

(** [bool(pin)]. *)
Definition pinned (pin : PinningBehavior) : bool :=
  match pin with PinAtom => true | DoNotPinAtom => false end.

(** The characters handed to the templated entry points: the [CharT] the
    template is instantiated at, and the code units [tbchars[0..length)]
    as numbers. *)
Inductive Chars :=
  | Latin1Chars (cs : list Z)
  | TwoByteChars (cs : list Z).

Definition units (c : Chars) : list Z :=
  match c with Latin1Chars cs | TwoByteChars cs => cs end.

Definition isLatin1Chars (c : Chars) : bool :=
  match c with Latin1Chars _ => true | TwoByteChars _ => false end.

(** What JSAtom.cpp takes from other files of the engine, as parameters. *)
Class Engine := {
  (** Modelled from the spec: [mozilla::HashString(chars, length)] is
      declared outside this file; the spec has the hash a pure function
      of the content, the same for a narrow and a wide encoding of the
      same code points. It is one function of the code units. *)
  HashString : list Z → HashNumber;
  HashString_uint32 : ∀ cs, (0 ≤ HashString cs < 2 ^ 32)%Z;
  (** [AtomsTable::PartitionShift]; [PartitionCount] is [1 << PartitionShift]. *)
  PartitionShift : nat;
  PartitionShift_range : 0 < PartitionShift ≤ 32;
  (** [StaticStrings::lookup(chars, length)]. *)
  staticStrings_lookup : list Z → option AtomId;
  (** [JSString::MAX_LENGTH]. *)
  MAX_LENGTH : nat;
  (** Whether [NewStringCopyN] stores two-byte source characters deflated. *)
  CanStoreCharsAsLatin1 : list Z → bool
}.

(** ** Atoms and set entries *)

(** Modelled from the spec: [JSAtom] and [AtomStateEntry] are declared
    outside this file; the spec gives an atom its content, length,
    precomputed hash, pinned flag and permanent flag, and an entry a
    reference to an atom and a pinned bit. *)
Module JSAtom.
Record t := mk {
  chars : list Z;
  hasLatin1Chars : bool;
  hash : HashNumber;
  isPinned : bool;
  isPermanent : bool;
  indexValue : option Z
}.

Definition length (a : t) : nat := List.length (chars a).

Definition setPinned (a : t) : t :=
  mk (chars a) (hasLatin1Chars a) (hash a) true (isPermanent a) (indexValue a).

(** [morphIntoPermanentAtom] sets the permanent flags, which include the
    pinned bit: [TracePermanentAtoms] asserts [isPinned()] of every entry
    of the permanent set. *)
Definition morphIntoPermanentAtom (a : t) : t :=
  mk (chars a) (hasLatin1Chars a) (hash a) true true (indexValue a).
End JSAtom.

Module AtomStateEntry.
(** The tagged pointer: an atom and the pinned bit. *)
Record t := mk { asPtrUnbarriered : AtomId; isPinned : bool }.

Definition setPinned (b : bool) (e : t) : t := mk (asPtrUnbarriered e) b.
End AtomStateEntry.

Abbreviation Heap := (list JSAtom.t) (only parsing).

(** ** Character comparison *)

(** Modelled from the spec: [mozilla::ArrayEqual(a, b, n)] is declared
    outside this file; the first [n] elements agree. Reading past the
    end of a buffer is [false] here. *)
Fixpoint ArrayEqual (a b : list Z) (n : nat) {struct n} : bool :=
  match n with
  | O => true
  | S n' =>
    match a, b with
    | x :: a', y :: b' => if (x =? y)%Z then ArrayEqual a' b' n' else false
    | _, _ => false
    end
  end.

(** Modelled from the spec: [EqualChars(s1, s2, len)] on two character
    types is declared outside this file; representations compare equal
    when their code points are equal. The loop compares the code units
    as numbers and stops at the first difference. *)
Fixpoint EqualChars (s1 s2 : list Z) (len : nat) {struct len} : bool :=
  match len with
  | O => true
  | S len' =>
    match s1, s2 with
    | c1 :: s1', c2 :: s2' => if negb (c1 =? c2)%Z then false else EqualChars s1' s2' len'
    | _, _ => false
    end
  end.

(** ** Lookup keys *)

Module AtomHasher.
Record Lookup := mkLookup {
  chars : list Z;           (* the union latin1Chars / twoByteChars *)
  isLatin1 : bool;
  length : nat;
  atom : option AtomId;     (* optional *)
  hash : HashNumber
}.

Section WithEngine.
Context `{Engine}.

(** [Lookup(const char16_t* chars, size_t length)]. *)
Definition ofTwoByteChars (cs : list Z) : Lookup :=
  mkLookup cs false (List.length cs) None (HashString cs).

(** [Lookup(const JS::Latin1Char* chars, size_t length)]. *)
Definition ofLatin1Chars (cs : list Z) : Lookup :=
  mkLookup cs true (List.length cs) None (HashString cs).

(** The overload chosen by [AtomHasher::Lookup lookup(tbchars, length)]. *)
Definition ofChars (c : Chars) : Lookup :=
  match c with
  | Latin1Chars cs => ofLatin1Chars cs
  | TwoByteChars cs => ofTwoByteChars cs
  end.

(** [Lookup(const JSAtom* atom)], given the atom's cell. *)
Definition ofAtom (a : AtomId) (cell : JSAtom.t) : Lookup :=
  mkLookup (JSAtom.chars cell) (JSAtom.hasLatin1Chars cell) (JSAtom.length cell)
           (Some a) (JSAtom.hash cell).
End WithEngine.

(** [AtomHasher::match(entry, lookup)]. An entry whose pointer is dangling
    matches no content. *)
Definition match_ (heap : Heap) (entry : AtomStateEntry.t) (lookup : Lookup) : bool :=
  let key := AtomStateEntry.asPtrUnbarriered entry in
  match atom lookup with
  | Some a => Nat.eqb a key
  | None =>
    match heap !! key with
    | None => false
    | Some k =>
      if negb (JSAtom.length k =? length lookup) || negb (JSAtom.hash k =? hash lookup)%Z
      then false
      else if JSAtom.hasLatin1Chars k
      then (if isLatin1 lookup
            then ArrayEqual (JSAtom.chars k) (chars lookup) (length lookup)
            else EqualChars (JSAtom.chars k) (chars lookup) (length lookup))
      else (if isLatin1 lookup
            then EqualChars (chars lookup) (JSAtom.chars k) (length lookup)
            else ArrayEqual (JSAtom.chars k) (chars lookup) (length lookup))
    end
  end.
End AtomHasher.

(** ** Atom sets

    Modelled from the spec: [AtomSet] is a [js::HashSet], declared outside
    this file, of entries keyed by [AtomHasher]. The table is a list in
    insertion order; probing is a scan for the first entry that matches,
    and a [Ptr] or [AddPtr] is the position found, with its entry. *)

Module AtomSet.
Abbreviation t := (list AtomStateEntry.t) (only parsing).
Abbreviation Ptr := (option (nat * AtomStateEntry.t)) (only parsing).

(** [lookup], [lookupForAdd] and [readonlyThreadsafeLookup]. *)
Definition lookup (heap : Heap) (set : t) (l : AtomHasher.Lookup) : Ptr :=
  list_find (λ e, AtomHasher.match_ heap e l = true) set.

(** [add(p, entry)] after a miss, and [putNew(lookup, entry)]. *)
Definition add (set : t) (e : AtomStateEntry.t) : t := set ++ [e].

(** [p->setPinned(true)]. *)
Definition setPinned (i : nat) (set : t) : t :=
  alter (AtomStateEntry.setPinned true) i set.
End AtomSet.

(** ** The runtime *)

Module Partition.
(** [AtomsTable::Partition]; its mutex is kept in the runtime's log. *)
Record t := mk { atoms : AtomSet.t; atomsAddedWhileSweeping : option AtomSet.t }.
End Partition.

Inductive MutexOp := Lock (i : nat) | Unlock (i : nat).

Inductive Exception := OutOfMemory | AllocationOverflow.

Record JSRuntime := mkRuntime {
  heap : Heap;
  permanentAtomsDuringInit_ : option AtomSet.t;
  permanentAtoms_ : option AtomSet.t;
  partitions : list Partition.t;          (* atoms_->partitions; empty before init *)
  atomCaches : list AtomSet.t;            (* zone->atomCache(), by zone *)
  hasHelperThreadZones : bool;
  mutexLog : list MutexOp;                (* lock() and unlock() calls, in order *)
  pendingException : option Exception     (* what the context is throwing *)
}.

Definition set_heap (h : Heap) (rt : JSRuntime) : JSRuntime :=
  mkRuntime h (permanentAtomsDuringInit_ rt) (permanentAtoms_ rt) (partitions rt)
            (atomCaches rt) (hasHelperThreadZones rt) (mutexLog rt) (pendingException rt).

Definition set_permanentAtomsDuringInit (s : option AtomSet.t) (rt : JSRuntime) : JSRuntime :=
  mkRuntime (heap rt) s (permanentAtoms_ rt) (partitions rt)
            (atomCaches rt) (hasHelperThreadZones rt) (mutexLog rt) (pendingException rt).

Definition set_permanentAtoms (s : option AtomSet.t) (rt : JSRuntime) : JSRuntime :=
  mkRuntime (heap rt) (permanentAtomsDuringInit_ rt) s (partitions rt)
            (atomCaches rt) (hasHelperThreadZones rt) (mutexLog rt) (pendingException rt).

Definition set_partitions (ps : list Partition.t) (rt : JSRuntime) : JSRuntime :=
  mkRuntime (heap rt) (permanentAtomsDuringInit_ rt) (permanentAtoms_ rt) ps
            (atomCaches rt) (hasHelperThreadZones rt) (mutexLog rt) (pendingException rt).

Definition set_atomCaches (cs : list AtomSet.t) (rt : JSRuntime) : JSRuntime :=
  mkRuntime (heap rt) (permanentAtomsDuringInit_ rt) (permanentAtoms_ rt) (partitions rt)
            cs (hasHelperThreadZones rt) (mutexLog rt) (pendingException rt).

Definition set_mutexLog (l : list MutexOp) (rt : JSRuntime) : JSRuntime :=
  mkRuntime (heap rt) (permanentAtomsDuringInit_ rt) (permanentAtoms_ rt) (partitions rt)
            (atomCaches rt) (hasHelperThreadZones rt) l (pendingException rt).

Definition set_pendingException (e : option Exception) (rt : JSRuntime) : JSRuntime :=
  mkRuntime (heap rt) (permanentAtomsDuringInit_ rt) (permanentAtoms_ rt) (partitions rt)
            (atomCaches rt) (hasHelperThreadZones rt) (mutexLog rt) e.

(** [JSRuntime::permanentAtomsPopulated()]. *)
Definition permanentAtomsPopulated (rt : JSRuntime) : bool :=
  bool_decide (is_Some (permanentAtoms_ rt)).

(** The context of a call: [cx->zone()] may be null. *)
Record JSContext := mkContext { zone : option nat }.

(** The collector's verdict, [IsAboutToBeFinalizedUnbarriered(&atom)]. *)
Definition Collector := AtomId → bool.

(** Which of the allocations an atomization may attempt fail. *)
Record Allocator := mkAllocator {
  newStringFails : bool;     (* NewStringCopyN<NoGC> returns null *)
  setAddFails : bool;        (* AtomSet::add returns false *)
  cacheAddFails : bool       (* zone->atomCache().add returns false *)
}.

(** ** The monad of runtime operations *)

Inductive Failure :=
  | AssertionFailure        (* a MOZ_ASSERT does not hold *)
  | OOMCrash                (* AutoEnterOOMUnsafeRegion::crash *)
  | InvalidPointer          (* a null or dangling pointer is dereferenced *)
  | OutOfFuel.              (* a loop of the model ran out of steps *)

Inductive Outcome (A : Type) :=
  | Return (a : A) (rt : JSRuntime)
  | Abort (f : Failure).
Arguments Return {A} a rt.
Arguments Abort {A} f.

Definition M (A : Type) : Type := JSRuntime → Outcome A.

#[global] Instance M_ret : MRet M := λ A a rt, Return a rt.

#[global] Instance M_bind : MBind M := λ A B f m rt,
  match m rt with
  | Return a rt' => f a rt'
  | Abort e => Abort e
  end.

Definition gets {A} (f : JSRuntime → A) : M A := λ rt, Return (f rt) rt.

Definition modify (f : JSRuntime → JSRuntime) : M unit := λ rt, Return tt (f rt).

Definition abort {A} (e : Failure) : M A := λ _, Abort e.

Definition MOZ_ASSERT (b : bool) : M unit :=
  if b then mret tt else abort AssertionFailure.

(** Dereference of a pointer that may be null. *)
Definition deref {A} (p : option A) : M A :=
  match p with Some a => mret a | None => abort InvalidPointer end.

(** Modelled from the spec: [js::ReportOutOfMemory] and
    [js::ReportAllocationOverflow] are declared outside this file; the
    spec has an allocation failure reported to the caller. A report is
    recorded as the error pending on the context, whatever thread the
    context belongs to. *)
Definition ReportOutOfMemory : M unit :=
  modify (set_pendingException (Some OutOfMemory)).

Definition ReportAllocationOverflow : M unit :=
  modify (set_pendingException (Some AllocationOverflow)).

(** Reading and writing an atom's cell. *)
Definition readAtom (a : AtomId) : M JSAtom.t :=
  h ← gets heap; deref (h !! a).

Definition setPinned (a : AtomId) : M unit :=
  _ ← readAtom a; modify (λ rt, set_heap (alter JSAtom.setPinned a (heap rt)) rt).

Definition morphIntoPermanentAtom (a : AtomId) : M unit :=
  _ ← readAtom a; modify (λ rt, set_heap (alter JSAtom.morphIntoPermanentAtom a (heap rt)) rt).

(** [AtomsTable::AutoLock]: the mutex is taken only when the runtime has
    helper-thread zones, and released when the scope is left. *)
Definition AutoLock {A} (i : nat) (body : M A) : M A :=
  locked ← gets hasHelperThreadZones;
  _ ← (if locked : bool then modify (λ rt, set_mutexLog (mutexLog rt ++ [Lock i]) rt) else mret tt);
  r ← body;
  _ ← (if locked : bool then modify (λ rt, set_mutexLog (mutexLog rt ++ [Unlock i]) rt) else mret tt);
  mret r.

(** [*partitions[i]]. *)
Definition getPartition (i : nat) : M Partition.t :=
  ps ← gets partitions; deref (ps !! i).

Definition setPartition (i : nat) (p : Partition.t) : M unit :=
  modify (λ rt, set_partitions (<[i := p]> (partitions rt)) rt).

(** [zone->atomCache()]. *)
Definition atomCache (z : nat) : M AtomSet.t :=
  cs ← gets atomCaches; deref (cs !! z).

(** [zone->atomCache().add] at the zone pointer; the result is whether
    the entry was added. *)
Definition atomCache_add (oom : Allocator) (z : nat) (e : AtomStateEntry.t) : M bool :=
  if cacheAddFails oom then mret false
  else
    c ← atomCache z;
    _ ← modify (λ rt, set_atomCaches (<[z := AtomSet.add c e]> (atomCaches rt)) rt);
    mret true.

(** [AtomHasher::Lookup lookup(atom)] with the debug assertion of the
    constructor: the cached hash is the hash of the atom's characters. *)
Definition Lookup_ofAtom `{Engine} (a : AtomId) : M AtomHasher.Lookup :=
  cell ← readAtom a;
  _ ← MOZ_ASSERT (HashString (JSAtom.chars cell) =? JSAtom.hash cell)%Z;
  mret (AtomHasher.ofAtom a cell).

(** ** Enumeration with removal

    Modelled from the spec: [AtomSet::Enum], declared outside this file,
    is a cursor into a set. [removeFront] takes the entry
    under the cursor out of the set, and the [popFront] that follows moves
    to what was the next entry. *)

Module Enum.
Record t := mk { pos : nat; removed : bool }.

Definition start : t := mk 0 false.

Definition empty (set : AtomSet.t) (e : t) : bool :=
  bool_decide (List.length set ≤ pos e).

Definition front (set : AtomSet.t) (e : t) : option AtomStateEntry.t := set !! pos e.

Definition removeFront (set : AtomSet.t) (e : t) : AtomSet.t * t :=
  (delete (pos e) set, mk (pos e) true).

Definition popFront (e : t) : t :=
  if removed e then mk (pos e) false else mk (S (pos e)) false.
End Enum.

(** ** Slice budgets *)

Module SliceBudget.
(** Modelled from the spec: [SliceBudget] is declared outside this excerpt;
    the spec has a step budget that, once exhausted, makes the sweep stop.
    The budget is a count of steps left. *)
Record t := mk { counter : Z }.

Definition step (b : t) : t := mk (counter b - 1).

Definition isOverBudget (b : t) : bool := (counter b <=? 0)%Z.
End SliceBudget.

(** ** Strings *)

(** What [AtomizeString] is given: an atom, a linear string, or a rope
    that [ensureLinear] has to flatten first. *)
Inductive JSString :=
  | AtomString (a : AtomId)
  | LinearString (c : Chars) (index : option Z)
  | RopeString (c : Chars) (index : option Z).

(** ** The atoms table *)

(** Which set of a partition a pointer points into: [part.atoms] or
    [*part.atomsAddedWhileSweeping]. *)
Inductive SetRef := MainSet | AddedSet.

(** [for (size_t i = 0; i < PartitionCount; i++) body(i)], from [i] with
    [n] rounds left. *)
Fixpoint forEachPartition (body : nat → M unit) (n i : nat) : M unit :=
  match n with
  | O => mret tt
  | S n' => _ ← body i; forEachPartition body n' (S i)
  end.

(** [AllocateNewAtom]. The new cell is appended to the heap; its position
    is the atom's identity. *)
Definition AllocateNewAtom `{Engine} (oom : Allocator) (tbchars : Chars)
    (pin : PinningBehavior) (indexValue : option Z) (lookup : AtomHasher.Lookup)
  : M (option AtomId) :=
  if newStringFails oom then
    _ ← ReportOutOfMemory; mret None
  else
    h ← gets heap;
    let latin1 := isLatin1Chars tbchars || CanStoreCharsAsLatin1 (units tbchars) in
    let flat := JSAtom.mk (units tbchars) latin1 0%Z false false None in
    (* morphAtomizedStringIntoAtom(lookup.hash) *)
    let atom := JSAtom.mk (JSAtom.chars flat) (JSAtom.hasLatin1Chars flat)
                          (AtomHasher.hash lookup) false false None in
    _ ← MOZ_ASSERT (JSAtom.hash atom =? AtomHasher.hash lookup)%Z;
    let atom := if pinned pin then JSAtom.setPinned atom else atom in
    (* maybeInitializeIndex *)
    let atom := match indexValue with
                | Some i => JSAtom.mk (JSAtom.chars atom) (JSAtom.hasLatin1Chars atom)
                                      (JSAtom.hash atom) (JSAtom.isPinned atom)
                                      (JSAtom.isPermanent atom) (Some i)
                | None => atom
                end in
    _ ← modify (set_heap (h ++ [atom]));
    mret (Some (List.length h)).

Module AtomsTable.
Section WithEngine.
Context `{Engine}.

Definition PartitionCount : nat := 2 ^ PartitionShift.

(** [AtomsTable::init]: [fails i] tells whether the allocation of
    partition [i] fails. *)
Fixpoint init_loop (fails : nat → bool) (n i : nat) : M bool :=
  match n with
  | O => mret true
  | S n' =>
    if fails i then mret false
    else
      _ ← modify (λ rt, set_partitions (partitions rt ++ [Partition.mk [] None]) rt);
      init_loop fails n' (S i)
  end.

Definition init (fails : nat → bool) : M bool := init_loop fails PartitionCount 0.





(** [lookup.hash >> (32 - PartitionShift)]. *)
Definition indexOf (lookup : AtomHasher.Lookup) : nat :=
  Z.to_nat (Z.shiftr (AtomHasher.hash lookup) (32 - Z.of_nat PartitionShift)).

(** [AtomsTable::getPartitionIndex]. *)
Definition getPartitionIndex (lookup : AtomHasher.Lookup) : M nat :=
  let index := indexOf lookup in
  _ ← MOZ_ASSERT (index <? PartitionCount);
  mret index.

(** [AtomsTable::tracePinnedAtomsInSet]: the result is the list of atoms
    handed to the tracer as roots. *)
Fixpoint tracePinnedAtomsInSet (atoms : AtomSet.t) : M (list AtomId) :=
  match atoms with
  | [] => mret []
  | entry :: rest =>
    cell ← readAtom (AtomStateEntry.asPtrUnbarriered entry);
    _ ← MOZ_ASSERT (eqb (AtomStateEntry.isPinned entry) (JSAtom.isPinned cell));
    roots ← tracePinnedAtomsInSet rest;
    mret (if AtomStateEntry.isPinned entry
          then AtomStateEntry.asPtrUnbarriered entry :: roots
          else roots)
  end.

(** [AtomsTable::tracePinnedAtoms]. *)
Fixpoint tracePinnedAtoms_loop (n i : nat) : M (list AtomId) :=
  match n with
  | O => mret []
  | S n' =>
    part ← getPartition i;
    r1 ← tracePinnedAtomsInSet (Partition.atoms part);
    r2 ← match Partition.atomsAddedWhileSweeping part with
         | Some added => tracePinnedAtomsInSet added
         | None => mret []
         end;
    r3 ← tracePinnedAtoms_loop n' (S i);
    mret (r1 ++ r2 ++ r3)
  end.

Definition tracePinnedAtoms : M (list AtomId) := tracePinnedAtoms_loop PartitionCount 0.

(** The loop of [sweepAll] over one set:
    [for (AtomSet::Enum e(atoms); !e.empty(); e.popFront())]. Every round
    passes one entry, so [length atoms] rounds reach the end. *)
Fixpoint sweepAll_enum (gc : Collector) (fuel : nat) (atoms : AtomSet.t) (e : Enum.t)
  : AtomSet.t :=
  match fuel with
  | O => atoms
  | S fuel' =>
    match Enum.front atoms e with
    | None => atoms
    | Some entry =>
      let '(atoms', e') :=
        if gc (AtomStateEntry.asPtrUnbarriered entry)
        then Enum.removeFront atoms e
        else (atoms, e) in
      sweepAll_enum gc fuel' atoms' (Enum.popFront e')
    end
  end.

(** [AtomsTable::sweepAll]. *)
Definition sweepAll (gc : Collector) : M unit :=
  forEachPartition (λ i,
    AutoLock i (
      part ← getPartition i;
      let atoms := Partition.atoms part in
      setPartition i (Partition.mk (sweepAll_enum gc (List.length atoms) atoms Enum.start)
                                   (Partition.atomsAddedWhileSweeping part))))
    PartitionCount 0.

(** [AtomsTable::startIncrementalSweep]: [fails i] tells whether the
    allocation of the secondary set of partition [i] fails. The
    assertion [JS::RuntimeHeapIsCollecting()] at its head is about the
    state of the collector, which is no part of the runtime here. *)
Fixpoint startIncrementalSweep_alloc (fails : nat → bool) (n i : nat) : M bool :=
  match n with
  | O => mret true
  | S n' =>
    part ← getPartition i;
    if fails i then mret false
    else
      _ ← MOZ_ASSERT (negb (bool_decide (is_Some (Partition.atomsAddedWhileSweeping part))));
      _ ← setPartition i (Partition.mk (Partition.atoms part) (Some []));
      startIncrementalSweep_alloc fails n' (S i)
  end.

Definition startIncrementalSweep (fails : nat → bool) : M bool :=
  ok ← startIncrementalSweep_alloc fails PartitionCount 0;
  _ ← (if ok : bool then mret tt
       else forEachPartition (λ i,
              part ← getPartition i;
              setPartition i (Partition.mk (Partition.atoms part) None))
            PartitionCount 0);
  mret ok.

(** [AtomsTable::mergeAtomsAddedWhileSweeping]: [fails j] tells whether
    the [putNew] of the [j]-th entry of the secondary set fails. *)
Fixpoint merge_loop (fails : nat → bool) (i j : nat) (newAtoms : AtomSet.t) : M unit :=
  match newAtoms with
  | [] => mret tt
  | entry :: rest =>
    _ ← Lookup_ofAtom (AtomStateEntry.asPtrUnbarriered entry);
    _ ← (if fails j then abort OOMCrash
         else
           part ← getPartition i;
           setPartition i (Partition.mk (AtomSet.add (Partition.atoms part) entry)
                                        (Partition.atomsAddedWhileSweeping part)));
    merge_loop fails i (S j) rest
  end.

Definition mergeAtomsAddedWhileSweeping (fails : nat → bool) (i : nat) : M unit :=
  part ← getPartition i;
  let newAtoms := Partition.atomsAddedWhileSweeping part in
  _ ← setPartition i (Partition.mk (Partition.atoms part) None);
  newAtoms ← deref newAtoms;
  merge_loop fails i 0 newAtoms.

(** [AtomsTable::Partition::~Partition]. *)
Definition Partition_destructor (part : Partition.t) : M unit :=
  MOZ_ASSERT (negb (bool_decide (is_Some (Partition.atomsAddedWhileSweeping part)))).

(** [AtomsTable::~AtomsTable]: [js_delete(partitions[i])] runs the
    destructor of every partition that [init] has made, and does nothing
    on the null pointer of one that it has not. *)
Definition destructor : M unit :=
  forEachPartition (λ i,
      ps ← gets partitions;
      match ps !! i with
      | Some part => Partition_destructor part
      | None => mret tt
      end)
    PartitionCount 0.

End WithEngine.

(** [AtomsTable::SweepIterator]: the partition being swept and the cursor
    into its main set. *)
Module SweepIterator.
Record t := mk { partitionIndex : nat; atomsIter : option Enum.t }.

Section WithEngine.
Context `{Engine}.

Definition empty (it : t) : bool := partitionIndex it =? PartitionCount.

Definition startSweepingPartition (it : t) : M t :=
  part ← getPartition (partitionIndex it);
  _ ← MOZ_ASSERT (bool_decide (is_Some (Partition.atomsAddedWhileSweeping part)));
  mret (mk (partitionIndex it) (Some Enum.start)).

Definition finishSweepingPartition (fails : nat → bool) (it : t) : M t :=
  _ ← mergeAtomsAddedWhileSweeping fails (partitionIndex it);
  mret (mk (partitionIndex it) None).

(** [atomsIter->empty()]. *)
Definition atomsIter_empty (it : t) : M bool :=
  e ← deref (atomsIter it);
  part ← getPartition (partitionIndex it);
  mret (Enum.empty (Partition.atoms part) e).

(** The loop of [settle]; every round moves to the next partition. *)
Fixpoint settle_loop (fails : nat → bool) (fuel : nat) (it : t) : M t :=
  match fuel with
  | O => abort OutOfFuel
  | S fuel' =>
    done ← atomsIter_empty it;
    if done : bool then
      it ← finishSweepingPartition fails it;
      let it := mk (S (partitionIndex it)) (atomsIter it) in
      if empty it then mret it
      else
        it ← startSweepingPartition it;
        settle_loop fails fuel' it
    else mret it
  end.

Definition settle (fails : nat → bool) (it : t) : M t :=
  _ ← MOZ_ASSERT (negb (empty it));
  n ← gets (λ rt, List.length (partitions rt));
  settle_loop fails (S n) it.

(** [SweepIterator::SweepIterator(AtomsTable&)]. *)
Definition new (fails : nat → bool) : M t :=
  it ← startSweepingPartition (mk 0 None);
  settle fails it.

Definition front (it : t) : M AtomId :=
  _ ← MOZ_ASSERT (negb (empty it));
  e ← deref (atomsIter it);
  part ← getPartition (partitionIndex it);
  entry ← deref (Enum.front (Partition.atoms part) e);
  mret (AtomStateEntry.asPtrUnbarriered entry).

Definition removeFront (it : t) : M t :=
  _ ← MOZ_ASSERT (negb (empty it));
  e ← deref (atomsIter it);
  part ← getPartition (partitionIndex it);
  let '(atoms, e) := Enum.removeFront (Partition.atoms part) e in
  _ ← setPartition (partitionIndex it)
        (Partition.mk atoms (Partition.atomsAddedWhileSweeping part));
  mret (mk (partitionIndex it) (Some e)).

Definition popFront (fails : nat → bool) (it : t) : M t :=
  _ ← MOZ_ASSERT (negb (empty it));
  e ← deref (atomsIter it);
  settle fails (mk (partitionIndex it) (Some (Enum.popFront e))).

End WithEngine.
End SweepIterator.

Section WithEngine.
Context `{Engine}.

(** The loop of [sweepIncrementally]; every round passes one entry of a
    main set. The result is the value returned and what the caller's
    iterator and budget have become. *)
Fixpoint sweepIncrementally_loop (gc : Collector) (fails : nat → bool) (fuel : nat)
    (atomsToSweep : SweepIterator.t) (budget : SliceBudget.t)
  : M (bool * SweepIterator.t * SliceBudget.t) :=
  match fuel with
  | O => abort OutOfFuel
  | S fuel' =>
    if SweepIterator.empty atomsToSweep then
      _ ← forEachPartition (λ i,
            part ← getPartition i;
            MOZ_ASSERT (negb (bool_decide (is_Some (Partition.atomsAddedWhileSweeping part)))))
          PartitionCount 0;
      mret (true, atomsToSweep, budget)
    else
      let budget := SliceBudget.step budget in
      if SliceBudget.isOverBudget budget then mret (false, atomsToSweep, budget)
      else
        atom ← SweepIterator.front atomsToSweep;
        atomsToSweep ← (if gc atom then SweepIterator.removeFront atomsToSweep
                        else mret atomsToSweep);
        atomsToSweep ← SweepIterator.popFront fails atomsToSweep;
        sweepIncrementally_loop gc fails fuel' atomsToSweep budget
  end.

(** The number of entries in the main sets. *)
Definition entryCount (rt : JSRuntime) : nat :=
  sum_list (List.length ∘ Partition.atoms <$> partitions rt).

(** [AtomsTable::sweepIncrementally]. *)
Definition sweepIncrementally (gc : Collector) (fails : nat → bool)
    (atomsToSweep : SweepIterator.t) (budget : SliceBudget.t)
  : M (bool * SweepIterator.t * SliceBudget.t) :=
  n ← gets entryCount;
  sweepIncrementally_loop gc fails (S n) atomsToSweep budget.

(** The entry a pointer into a partition points at. *)
Definition entryAt (part : Partition.t) (r : SetRef) (i : nat) : option AtomStateEntry.t :=
  match r with
  | MainSet => Partition.atoms part !! i
  | AddedSet => Partition.atomsAddedWhileSweeping part ≫= (λ s, s !! i)
  end.

(** [p->setPinned(true)] through a pointer into a partition. *)
Definition setPinnedAt (part : Partition.t) (r : SetRef) (i : nat) : Partition.t :=
  match r with
  | MainSet =>
    Partition.mk (AtomSet.setPinned i (Partition.atoms part))
                 (Partition.atomsAddedWhileSweeping part)
  | AddedSet =>
    Partition.mk (Partition.atoms part)
                 (AtomSet.setPinned i <$> Partition.atomsAddedWhileSweeping part)
  end.

(** The lookup at the head of [AtomsTable::atomizeAndCopyChars]: the
    pointer [p] with which the function goes on, [None] on a miss. *)
Definition lookupForAdd (gc : Collector) (h : Heap) (part : Partition.t)
    (lookup : AtomHasher.Lookup) : option (SetRef * nat * AtomStateEntry.t) :=
  let atoms := Partition.atoms part in
  match Partition.atomsAddedWhileSweeping part with
  | None =>
    match AtomSet.lookup h atoms lookup with
    | Some (i, e) => Some (MainSet, i, e)
    | None => None
    end
  | Some atomsAddedWhileSweeping =>
    match AtomSet.lookup h atomsAddedWhileSweeping lookup with
    | Some (i, e) => Some (AddedSet, i, e)
    | None =>
      match AtomSet.lookup h atoms lookup with
      | Some (i2, e2) =>
        if negb (gc (AtomStateEntry.asPtrUnbarriered e2)) then Some (MainSet, i2, e2)
        else None
      | None => None
      end
    end
  end.

(** [addSet->add(p, entry)], where [addSet] is the secondary set when the
    partition has one and the main set otherwise. *)
Definition addToAddSet (part : Partition.t) (entry : AtomStateEntry.t) : Partition.t :=
  match Partition.atomsAddedWhileSweeping part with
  | Some added => Partition.mk (Partition.atoms part) (Some (AtomSet.add added entry))
  | None => Partition.mk (AtomSet.add (Partition.atoms part) entry) None
  end.

(** [AtomsTable::atomizeAndCopyChars]. *)
Definition atomizeAndCopyChars (gc : Collector) (oom : Allocator) (tbchars : Chars)
    (pin : PinningBehavior) (indexValue : option Z) (lookup : AtomHasher.Lookup)
  : M (option AtomId) :=
  index ← getPartitionIndex lookup;
  _ ← getPartition index;
  AutoLock index (
    part ← getPartition index;
    h ← gets heap;
    match lookupForAdd gc h part lookup with
    | Some (r, i, e) =>
      let atom := AtomStateEntry.asPtrUnbarriered e in
      cell ← readAtom atom;
      _ ← (if pinned pin && negb (JSAtom.isPinned cell) then
             _ ← setPinned atom;
             setPartition index (setPinnedAt part r i)
           else mret tt);
      mret (Some atom)
    | None =>
      r ← AllocateNewAtom oom tbchars pin indexValue lookup;
      match r with
      | None => mret None
      | Some atom =>
        if setAddFails oom then
          _ ← ReportOutOfMemory; mret None
        else
          _ ← setPartition index (addToAddSet part (AtomStateEntry.mk atom (pinned pin)));
          mret (Some atom)
      end
    end).

(** The lookup of [AtomsTable::pinExistingAtom]: the main set, and the
    secondary set if the main set does not have the atom. *)
Definition pinLookup (h : Heap) (part : Partition.t) (lookup : AtomHasher.Lookup)
  : option (SetRef * nat * AtomStateEntry.t) :=
  match AtomSet.lookup h (Partition.atoms part) lookup with
  | Some (i, e) => Some (MainSet, i, e)
  | None =>
    match Partition.atomsAddedWhileSweeping part with
    | Some added =>
      match AtomSet.lookup h added lookup with
      | Some (i, e) => Some (AddedSet, i, e)
      | None => None
      end
    | None => None
    end
  end.

(** [AtomsTable::pinExistingAtom]. *)
Definition pinExistingAtom (atom : AtomId) : M unit :=
  cell ← readAtom atom;
  _ ← MOZ_ASSERT (negb (JSAtom.isPinned cell));
  lookup ← Lookup_ofAtom atom;
  index ← getPartitionIndex lookup;
  _ ← getPartition index;
  AutoLock index (
    part ← getPartition index;
    h ← gets heap;
    let p := pinLookup h part lookup in
    _ ← MOZ_ASSERT (bool_decide (is_Some p));
    '(r, i, e) ← deref p;
    _ ← MOZ_ASSERT (AtomStateEntry.asPtrUnbarriered e =? atom);
    _ ← setPinned atom;
    setPartition index (setPinnedAt part r i)).

End WithEngine.
End AtomsTable.

(** ** Atomization *)

Section Atomize.
Context `{Engine}.

(** [JSRuntime::initMainAtomsTables]: the set filled during initialization
    is frozen as the permanent atoms set, and the main table is created. *)
Definition initMainAtomsTables (fails : nat → bool) : M bool :=
  populated ← gets permanentAtomsPopulated;
  _ ← MOZ_ASSERT (negb populated);
  staging ← gets permanentAtomsDuringInit_;
  _ ← modify (set_permanentAtoms staging);
  _ ← modify (set_permanentAtomsDuringInit None);
  ps ← gets partitions;
  _ ← MOZ_ASSERT (bool_decide (ps = []));
  AtomsTable.init fails.

(** Modelled from the spec: [JSString::validateLength] is declared outside
    this excerpt; the spec validates the length against a maximum, and a
    longer string is an error reported to the context. *)
Definition validateLength (length : nat) : M bool :=
  if length <=? MAX_LENGTH then mret true
  else _ ← ReportAllocationOverflow; mret false.

(** The test that follows a successful resolution,
    [zonePtr && !zone->atomCache().add(...)]: whether the atom has to be
    given up because the cache could not take it. *)
Definition zoneCacheAddFailed (oom : Allocator) (cx : JSContext)
    (zonePtr : option AtomSet.Ptr) (atom : AtomId) : M bool :=
  match zonePtr with
  | Some _ =>
    z ← deref (zone cx);
    added ← atomCache_add oom z (AtomStateEntry.mk atom false);
    mret (negb added)
  | None => mret false
  end.

(** [PermanentlyAtomizeAndCopyChars]. *)
Definition PermanentlyAtomizeAndCopyChars (oom : Allocator) (cx : JSContext)
    (zonePtr : option AtomSet.Ptr) (tbchars : Chars) (indexValue : option Z)
    (lookup : AtomHasher.Lookup) : M (option AtomId) :=
  populated ← gets permanentAtomsPopulated;
  _ ← MOZ_ASSERT (negb populated);
  staging ← gets permanentAtomsDuringInit_;
  atoms ← deref staging;
  h ← gets heap;
  match AtomSet.lookup h atoms lookup with
  | Some (_, e) => mret (Some (AtomStateEntry.asPtrUnbarriered e))
  | None =>
    r ← AllocateNewAtom oom tbchars DoNotPinAtom indexValue lookup;
    match r with
    | None => mret None
    | Some atom =>
      _ ← morphIntoPermanentAtom atom;
      if setAddFails oom then
        _ ← ReportOutOfMemory; mret None
      else
        _ ← modify (set_permanentAtomsDuringInit
                      (Some (AtomSet.add atoms (AtomStateEntry.mk atom true))));
        failed ← zoneCacheAddFailed oom cx zonePtr atom;
        if failed : bool then
          _ ← ReportOutOfMemory; mret None
        else mret (Some atom)
    end
  end.

(** [AtomizeAndCopyChars]. *)
Definition AtomizeAndCopyChars (gc : Collector) (oom : Allocator) (cx : JSContext)
    (tbchars : Chars) (pin : PinningBehavior) (indexValue : option Z)
  : M (option AtomId) :=
  match staticStrings_lookup (units tbchars) with
  | Some s => mret (Some s)
  | None =>
    let lookup := AtomHasher.ofChars tbchars in
    h ← gets heap;
    zonePtr ← match zone cx with
              | Some z =>
                if negb (pinned pin) then
                  cache ← atomCache z;
                  mret (Some (AtomSet.lookup h cache lookup))
                else mret None
              | None => mret None
              end;
    match zonePtr with
    | Some (Some (_, e)) => mret (Some (AtomStateEntry.asPtrUnbarriered e))
    | _ =>
      populated ← gets permanentAtomsPopulated;
      if negb populated then
        PermanentlyAtomizeAndCopyChars oom cx zonePtr tbchars indexValue lookup
      else
        frozen ← gets permanentAtoms_;
        permanentAtoms ← deref frozen;
        match AtomSet.lookup h permanentAtoms lookup with
        | Some (_, e) =>
          let atom := AtomStateEntry.asPtrUnbarriered e in
          failed ← zoneCacheAddFailed oom cx zonePtr atom;
          if failed : bool then
            _ ← ReportOutOfMemory; mret None
          else mret (Some atom)
        | None =>
          valid ← validateLength (List.length (units tbchars));
          if negb valid then mret None
          else
            r ← AtomsTable.atomizeAndCopyChars gc oom tbchars pin indexValue lookup;
            match r with
            | None => mret None
            | Some atom =>
              failed ← zoneCacheAddFailed oom cx zonePtr atom;
              if failed : bool then
                _ ← ReportOutOfMemory; mret None
              else mret (Some atom)
            end
        end
    end
  end.

(** [js::Atomize]: the bytes are read as Latin-1 characters. *)
Definition Atomize (gc : Collector) (oom : Allocator) (cx : JSContext)
    (bytes : list Z) (pin : PinningBehavior) (indexValue : option Z) : M (option AtomId) :=
  AtomizeAndCopyChars gc oom cx (Latin1Chars bytes) pin indexValue.

(** [js::AtomizeChars]. *)
Definition AtomizeChars (gc : Collector) (oom : Allocator) (cx : JSContext)
    (chars : Chars) (pin : PinningBehavior) : M (option AtomId) :=
  AtomizeAndCopyChars gc oom cx chars pin None.

(** [js::AtomizeString]: [flattenFails] tells whether [ensureLinear] fails
    on a rope. *)
Definition AtomizeString (gc : Collector) (oom : Allocator) (flattenFails : bool)
    (cx : JSContext) (str : JSString) (pin : PinningBehavior) : M (option AtomId) :=
  match str with
  | AtomString atom =>
    cell ← readAtom atom;
    _ ← (if pinned pin && negb (JSAtom.isPinned cell)
         then AtomsTable.pinExistingAtom atom
         else mret tt);
    mret (Some atom)
  | LinearString c index => AtomizeAndCopyChars gc oom cx c pin index
  | RopeString c index =>
    if flattenFails then _ ← ReportOutOfMemory; mret None
    else AtomizeAndCopyChars gc oom cx c pin index
  end.

End Atomize.

(** ** Tracing *)

(** [TracePermanentAtoms]: the result is the list of atoms handed to the
    tracer as roots. *)
Fixpoint TracePermanentAtoms (atoms : AtomSet.t) : M (list AtomId) :=
  match atoms with
  | [] => mret []
  | entry :: rest =>
    let atom := AtomStateEntry.asPtrUnbarriered entry in
    cell ← readAtom atom;
    _ ← MOZ_ASSERT (JSAtom.isPinned cell);
    roots ← TracePermanentAtoms rest;
    mret (atom :: roots)
  end.

(** [JSRuntime::tracePermanentAtoms]; [parentRuntime] tells whether the
    runtime has a parent. The static strings, which [StaticStrings::trace]
    traces, are not among the roots of the result. *)
Definition tracePermanentAtoms (parentRuntime : bool) : M (list AtomId) :=
  if parentRuntime then mret []
  else
    staging ← gets permanentAtomsDuringInit_;
    r1 ← match staging with
         | Some atoms => TracePermanentAtoms atoms
         | None => mret []
         end;
    frozen ← gets permanentAtoms_;
    r2 ← match frozen with
         | Some atoms => TracePermanentAtoms atoms
         | None => mret []
         end;
    mret (r1 ++ r2).

(** [js::TraceAtoms]. *)
Definition TraceAtoms `{Engine} : M (list AtomId) :=
  populated ← gets permanentAtomsPopulated;
  if populated : bool then AtomsTable.tracePinnedAtoms else mret [].

(** ** Locking the whole table *)


(** ** The beginning and the end of the runtime's atoms *)

(** The runtime whose permanent atoms a child runtime shares:
    [parentRuntime->permanentAtoms_] and [parentRuntime->commonNames]. *)
Record ParentRuntime := mkParent {
  parent_permanentAtoms : option AtomSet.t;
  parent_commonNames : list AtomId
}.

(** Which of the allocations of [JSRuntime::initializeAtoms] fail. *)
Record InitFailures := mkInitFailures {
  newAtomsTableFails : bool;          (* js_new<AtomsTable>() *)
  partitionFails : nat → bool;        (* js_new<Partition>(i) *)
  newAtomSetFails : bool;             (* js_new<AtomSet>(JS_PERMANENT_ATOM_SIZE) *)
  staticStringsFail : bool;           (* js_new<StaticStrings>() or its init *)
  newAtomStateFails : bool;           (* js_new<JSAtomState>() *)
  newWellKnownSymbolsFails : bool;    (* js_new<WellKnownSymbols>() *)
  symbolFails : nat → bool            (* JS::Symbol::new_ of symbol i *)
}.

Section Initialize.
Context `{Engine}.

(** The loop over [cachedNames]: the atoms of the names, or [None] when an
    atomization fails. *)
Fixpoint initializeAtoms_names (gc : Collector) (oom : Allocator) (cx : JSContext)
    (cachedNames : list (list Z)) : M (option (list AtomId)) :=
  match cachedNames with
  | [] => mret (Some [])
  | name :: rest =>
    atom ← Atomize gc oom cx name PinAtom None;
    match atom with
    | None => mret None
    | Some atom =>
      names ← initializeAtoms_names gc oom cx rest;
      mret (cons atom <$> names)
    end
  end.

(** The loop that creates the well-known symbols; the result is whether
    every symbol was created. *)
Fixpoint initializeAtoms_symbols (fails : nat → bool) (n i : nat) : M bool :=
  match n with
  | O => mret true
  | S n' =>
    if fails i then _ ← ReportOutOfMemory; mret false
    else initializeAtoms_symbols fails n' (S i)
  end.

(** [JSRuntime::initializeAtoms]. [cachedNames] are the common property
    names, the names of the prototypes and the descriptions of the
    well-known symbols, of which there are [WellKnownSymbolLimit]. The
    result is the [commonNames] of the runtime when the function returns
    [true], and [None] when it returns [false]. *)
Definition initializeAtoms (gc : Collector) (oom : Allocator) (fails : InitFailures)
    (cx : JSContext) (parentRuntime : option ParentRuntime)
    (cachedNames : list (list Z)) (WellKnownSymbolLimit : nat) : M (option (list AtomId)) :=
  ps ← gets partitions;
  _ ← MOZ_ASSERT (bool_decide (ps = []));
  staging ← gets permanentAtomsDuringInit_;
  _ ← MOZ_ASSERT (negb (bool_decide (is_Some staging)));
  frozen ← gets permanentAtoms_;
  _ ← MOZ_ASSERT (negb (bool_decide (is_Some frozen)));
  match parentRuntime with
  | Some parent =>
    _ ← modify (set_permanentAtoms (parent_permanentAtoms parent));
    if newAtomsTableFails fails then mret None
    else
      ok ← AtomsTable.init (partitionFails fails);
      mret (if ok : bool then Some (parent_commonNames parent) else None)
  | None =>
    if newAtomSetFails fails then mret None
    else
      _ ← modify (set_permanentAtomsDuringInit (Some []));
      if staticStringsFail fails then mret None
      else if newAtomStateFails fails then mret None
      else
        names ← initializeAtoms_names gc oom cx cachedNames;
        match names with
        | None => mret None
        | Some names =>
          if newWellKnownSymbolsFails fails then mret None
          else
            ok ← initializeAtoms_symbols (symbolFails fails) WellKnownSymbolLimit 0;
            mret (if ok : bool then Some names else None)
        end
  end.

(** [JSRuntime::finishAtoms]: [js_delete(atoms_.ref())] runs the destructor
    of the table when there is one; the other deletions release sets
    whose destructors check nothing. *)
Definition finishAtoms : M unit :=
  ps ← gets partitions;
  _ ← (if bool_decide (ps = []) then mret tt else AtomsTable.destructor);
  _ ← modify (set_partitions []);
  _ ← modify (set_permanentAtomsDuringInit None);
  modify (set_permanentAtoms None).

End Initialize.

(** ** Conversions to atoms *)

Inductive AllowGC := NoGC | CanGC.

(** A [JS::Value], as far as [ToAtom] tells values apart. *)
Inductive Value :=
  | ObjectValue (obj : nat)
  | StringValue (str : JSString)
  | Int32Value (i : Z)
  | DoubleValue (bits : Z)
  | BooleanValue (b : bool)
  | NullValue
  | SymbolValue (sym : nat)
  | BigIntValue (bi : Z)
  | UndefinedValue.

(** The atoms of [cx->names()] that [ToAtomSlow] returns. *)
Record JSAtomState := mkNames {
  names_true : AtomId;
  names_false : AtomId;
  names_null : AtomId;
  names_undefined : AtomId
}.

(** What the conversions take from other files of the engine. *)
Class Conversions := {
  (** [JS::UTF8CharsToNewTwoByteCharsZ(cx, utf8, &length)]. *)
  UTF8CharsToNewTwoByteCharsZ : list Z → M (option (list Z));
  (** [JSID_INT_MAX]. *)
  JSID_INT_MAX : Z;
  (** [BackfillIndexInCharBuffer(index, end)]: the characters from the
      pointer returned to [end]. *)
  BackfillIndexInCharBuffer : Z → list Z;
  (** [ToPrimitive(cx, JSTYPE_STRING, &v)]: the primitive, or [None]. *)
  ToPrimitive : Value → M (option Value);
  Int32ToAtom : Z → M (option AtomId);
  NumberToAtom : Z → M (option AtomId);
  BigIntToAtom : Z → M (option AtomId);
  (** [JS_ReportErrorNumberASCII(..., JSMSG_SYMBOL_TO_STRING)]. *)
  ReportSymbolToString : M unit;
  (** [cx->recoverFromOutOfMemory()]. *)
  recoverFromOutOfMemory : M unit
}.

(** A [jsid] made of an atom: [JSID_FROM_BITS(atom | JSID_TYPE_STRING)]. *)
Inductive jsid := JSID_String (atom : AtomId).

Section ToAtom.
Context `{Engine} `{Conversions}.

(** [cx->isThrowingOutOfMemory()]. *)
Definition isThrowingOutOfMemory (rt : JSRuntime) : bool :=
  match pendingException rt with Some OutOfMemory => true | _ => false end.

(** [js::AtomizeUTF8Chars]. *)
Definition AtomizeUTF8Chars (gc : Collector) (oom : Allocator) (cx : JSContext)
    (utf8Chars : list Z) : M (option AtomId) :=
  chars ← UTF8CharsToNewTwoByteCharsZ utf8Chars;
  match chars with
  | None => mret None
  | Some chars => AtomizeChars gc oom cx (TwoByteChars chars) DoNotPinAtom
  end.

(** [js::IndexToIdSlow]: the id stored in [idp], or [None] when the
    function returns [false]. *)
Definition IndexToIdSlow (gc : Collector) (oom : Allocator) (cx : JSContext)
    (index : Z) : M (option jsid) :=
  _ ← MOZ_ASSERT (JSID_INT_MAX <? index)%Z;
  atom ← AtomizeChars gc oom cx (TwoByteChars (BackfillIndexInCharBuffer index)) DoNotPinAtom;
  match atom with
  | None => mret None
  | Some atom => mret (Some (JSID_String atom))
  end.

(** The end of the branches of [ToAtomSlow] that may fail for want of
    memory: [if (!allowGC && !atom) cx->recoverFromOutOfMemory()]. *)
Definition recoverIfNoGC (allowGC : AllowGC) (atom : option AtomId) : M (option AtomId) :=
  match allowGC, atom with
  | NoGC, None => _ ← recoverFromOutOfMemory; mret None
  | _, _ => mret atom
  end.

(** [ToAtomSlow<allowGC>]; [helperThread] is [cx->helperThread()]. There
    are [BigInt] values in a build with [ENABLE_BIGINT]. *)
Definition ToAtomSlow (gc : Collector) (oom : Allocator) (flattenFails : bool)
    (names : JSAtomState) (helperThread : bool) (allowGC : AllowGC)
    (cx : JSContext) (arg : Value) : M (option AtomId) :=
  _ ← MOZ_ASSERT (negb (match arg with StringValue _ => true | _ => false end));
  v ← match arg with
      | ObjectValue _ =>
        _ ← MOZ_ASSERT (negb helperThread);
        match allowGC with
        | NoGC => mret None
        | CanGC => ToPrimitive arg
        end
      | _ => mret (Some arg)
      end;
  match v with
  | None => mret None
  | Some (StringValue str) =>
    atom ← AtomizeString gc oom flattenFails cx str DoNotPinAtom;
    recoverIfNoGC allowGC atom
  | Some (Int32Value i) =>
    atom ← Int32ToAtom i;
    recoverIfNoGC allowGC atom
  | Some (DoubleValue d) =>
    atom ← NumberToAtom d;
    recoverIfNoGC allowGC atom
  | Some (BooleanValue b) => mret (Some (if b then names_true names else names_false names))
  | Some NullValue => mret (Some (names_null names))
  | Some (SymbolValue _) =>
    _ ← MOZ_ASSERT (negb helperThread);
    _ ← match allowGC with
        | CanGC => ReportSymbolToString
        | NoGC => mret tt
        end;
    mret None
  | Some (BigIntValue bi) =>
    atom ← BigIntToAtom bi;
    recoverIfNoGC allowGC atom
  | Some UndefinedValue => mret (Some (names_undefined names))
  | Some (ObjectValue _) => _ ← MOZ_ASSERT false; mret (Some (names_undefined names))
  end.

(** [js::ToAtom<allowGC>]. *)
Definition ToAtom (gc : Collector) (oom : Allocator) (flattenFails : bool)
    (names : JSAtomState) (helperThread : bool) (allowGC : AllowGC)
    (cx : JSContext) (v : Value) : M (option AtomId) :=
  match v with
  | StringValue (AtomString atom) => mret (Some atom)
  | StringValue str =>
    atom ← AtomizeString gc oom flattenFails cx str DoNotPinAtom;
    match atom, allowGC with
    | None, NoGC =>
      throwing ← gets isThrowingOutOfMemory;
      _ ← MOZ_ASSERT (implb (negb helperThread) throwing);
      _ ← recoverFromOutOfMemory;
      mret None
    | _, _ => mret atom
    end
  | _ => ToAtomSlow gc oom flattenFails names helperThread allowGC cx v
  end.

End ToAtom.

(** ** Transcoding atoms *)

(** What [XDRAtom] takes from [XDRState<mode>], declared outside this
    file: the buffer with its cursor, and the functions that write to it
    and read from it. A result is the new state, with what was read, or
    the [JS::TranscodeResult] of the failure. *)
Class XDR := {
  XDRState : Type;
  TranscodeResult : Type;
  TranscodeResult_Throw : TranscodeResult;
  (** [MOZ_LITTLE_ENDIAN]. *)
  LITTLE_ENDIAN : bool;
  (** [codeUint32] of [XDRState<XDR_ENCODE>] and of [XDRState<XDR_DECODE>]. *)
  encodeUint32 : Z → XDRState → TranscodeResult + XDRState;
  decodeUint32 : XDRState → TranscodeResult + (Z * XDRState);
  (** [codeChars(chars, nchars)] of [XDRState<XDR_ENCODE>], on Latin-1 and
      on two-byte characters. *)
  encodeChars : Chars → XDRState → TranscodeResult + XDRState;
  (** [codeChars(char16_t*, nchars)] of [XDRState<XDR_DECODE>]. *)
  decodeChars : nat → XDRState → TranscodeResult + (list Z * XDRState);
  (** [peekData(&ptr, nbyte)]: the bytes at [ptr]. *)
  peekData : nat → XDRState → TranscodeResult + (list Z * XDRState);
  (** [codeAlign(n)] of [XDRState<XDR_DECODE>]. *)
  codeAlign : nat → XDRState → TranscodeResult + XDRState
}.

(** [uint32_t] arithmetic. *)
Definition uint32 (z : Z) : Z := z mod 2 ^ 32.

(** The word that stands before the characters of an atom:
    [(length << 1) | uint32_t(latin1)]. *)
Definition lengthAndEncoding (length : Z) (latin1 : bool) : Z :=
  Z.lor (uint32 (Z.shiftl length 1)) (if latin1 then 1 else 0).

(** [lengthAndEncoding >> 1] and [lengthAndEncoding & 0x1]. *)
Definition decodedLength (lengthAndEncoding : Z) : Z := Z.shiftr lengthAndEncoding 1.

Definition decodedLatin1 (lengthAndEncoding : Z) : bool :=
  negb (Z.land lengthAndEncoding 1 =? 0)%Z.

(** The [char16_t]s that a little-endian machine reads at a pointer to
    bytes. *)
Fixpoint char16s (bytes : list Z) : list Z :=
  match bytes with
  | lo :: hi :: rest => (lo + 256 * hi)%Z :: char16s rest
  | _ => []
  end.

Section XDRAtom.
Context `{Engine} `{XDR}.

(** [MOZ_TRY]: a failure is the result of the whole function. *)
Definition MOZ_TRY {A B} (r : TranscodeResult + A) (k : A → M (TranscodeResult + B))
  : M (TranscodeResult + B) :=
  match r with
  | inl e => mret (inl e)
  | inr a => k a
  end.

(** [XDRAtom<XDR_ENCODE>]. *)
Definition XDRAtom_encode (xdr : XDRState) (atomp : AtomId)
  : M (TranscodeResult + XDRState) :=
  cell ← readAtom atomp;
  let latin1 := JSAtom.hasLatin1Chars cell in
  let length := uint32 (Z.of_nat (JSAtom.length cell)) in
  let lengthAndEncoding := lengthAndEncoding length latin1 in
  MOZ_TRY (encodeUint32 lengthAndEncoding xdr) (λ xdr,
    let chars := take (Z.to_nat length) (JSAtom.chars cell) in
    if latin1 then mret (encodeChars (Latin1Chars chars) xdr)
    else mret (encodeChars (TwoByteChars chars) xdr)).

(** The end of [XDRAtom<XDR_DECODE>]. *)
Definition XDRAtom_result (xdr : XDRState) (atom : option AtomId)
  : M (TranscodeResult + (AtomId * XDRState)) :=
  match atom with
  | None => mret (inl TranscodeResult_Throw)
  | Some atom => mret (inr (atom, xdr))
  end.

(** [XDRAtom<XDR_DECODE>]: the atom stored in [atomp], with the state of
    the decoder. [podMallocFails] tells whether [cx->pod_malloc] fails,
    on a machine that needs the temporary buffer. The assertion that the
    pointer into the buffer is aligned is about an address, which the
    bytes read do not have. *)
Definition XDRAtom_decode (gc : Collector) (oom : Allocator) (podMallocFails : bool)
    (cx : JSContext) (xdr : XDRState) : M (TranscodeResult + (AtomId * XDRState)) :=
  MOZ_TRY (decodeUint32 xdr) (λ '(lengthAndEncoding, xdr),
    let length := Z.to_nat (decodedLength lengthAndEncoding) in
    let latin1 := decodedLatin1 lengthAndEncoding in
    if latin1 then
      if negb (length =? 0) then
        MOZ_TRY (peekData length xdr) (λ '(ptr, xdr),
          atom ← AtomizeChars gc oom cx (Latin1Chars (take length ptr)) DoNotPinAtom;
          XDRAtom_result xdr atom)
      else
        atom ← AtomizeChars gc oom cx (Latin1Chars []) DoNotPinAtom;
        XDRAtom_result xdr atom
    else if LITTLE_ENDIAN then
      if negb (length =? 0) then
        MOZ_TRY (codeAlign 2 xdr) (λ xdr,
          MOZ_TRY (peekData (length * 2) xdr) (λ '(ptr, xdr),
            atom ← AtomizeChars gc oom cx (TwoByteChars (take length (char16s ptr)))
                                DoNotPinAtom;
            XDRAtom_result xdr atom))
      else
        atom ← AtomizeChars gc oom cx (TwoByteChars []) DoNotPinAtom;
        XDRAtom_result xdr atom
    else
      if negb (length <=? 256) && podMallocFails then mret (inl TranscodeResult_Throw)
      else
        MOZ_TRY (decodeChars length xdr) (λ '(chars, xdr),
          atom ← AtomizeChars gc oom cx (TwoByteChars (take length chars)) DoNotPinAtom;
          XDRAtom_result xdr atom)).

End XDRAtom.

(** * Properties *)

(** ** Comparison of characters and keys *)

Lemma EqualChars_ArrayEqual s1 s2 n : EqualChars s1 s2 n = ArrayEqual s1 s2 n.
Proof.
  revert s1 s2; induction n as [|n IH]; intros [|c1 s1] [|c2 s2]; simpl; try done.
  rewrite IH. by destruct (c1 =? c2)%Z.
Qed.

Lemma ArrayEqual_sym a b n : ArrayEqual a b n = ArrayEqual b a n.
Proof.
  revert a b; induction n as [|n IH]; intros [|x a] [|y b]; simpl; try done.
  rewrite IH, (Z.eqb_sym x y). done.
Qed.

Lemma ArrayEqual_true a b n :
  ArrayEqual a b n = true ↔ n ≤ length a ∧ n ≤ length b ∧ take n a = take n b.
Proof.
  revert a b; induction n as [|n IH]; intros a b; simpl.
  - split; [intros _; repeat split; try lia; done | done].
  - destruct a as [|x a], b as [|y b]; simpl; try (split; [done | intros (?&?&?); lia]).
    destruct (Z.eqb_spec x y) as [->|Hne].
    + rewrite IH. split.
      * intros (?&?&->). repeat split; lia.
      * intros (?&?&Heq). injection Heq as Heq. repeat split; [lia | lia | done].
    + split; [done | intros (_&_&Heq); congruence].
Qed.

Lemma ArrayEqual_refl a : ArrayEqual a a (length a) = true.
Proof. apply ArrayEqual_true. done. Qed.

(** The comparison of an entry with a key looks at the characters of the
    key, at its length and at its hash, and not at the width that the key
    declares. *)
Lemma match_width heap e cs b1 b2 n a h :
  AtomHasher.match_ heap e (AtomHasher.mkLookup cs b1 n a h)
  = AtomHasher.match_ heap e (AtomHasher.mkLookup cs b2 n a h).
Proof.
  unfold AtomHasher.match_; simpl.
  destruct a; [done|]. destruct (heap !! _) as [k|]; [|done].
  destruct (negb _ || negb _); [done|].
  rewrite !EqualChars_ArrayEqual, (ArrayEqual_sym cs).
  by destruct (JSAtom.hasLatin1Chars k), b1, b2.
Qed.

(** What it takes for an entry to match a key made from characters. *)
Lemma match_content heap e l :
  AtomHasher.atom l = None →
  AtomHasher.match_ heap e l = true ↔
  ∃ k, heap !! AtomStateEntry.asPtrUnbarriered e = Some k
       ∧ JSAtom.length k = AtomHasher.length l
       ∧ JSAtom.hash k = AtomHasher.hash l
       ∧ ArrayEqual (JSAtom.chars k) (AtomHasher.chars l) (AtomHasher.length l) = true.
Proof.
  intros Hatom. unfold AtomHasher.match_. rewrite Hatom.
  destruct (heap !! _) as [k|]; [|split; [done | by intros (?&?&_)]].
  destruct (Nat.eqb_spec (JSAtom.length k) (AtomHasher.length l)) as [Hlen|Hlen];
    destruct (Z.eqb_spec (JSAtom.hash k) (AtomHasher.hash l)) as [Hh|Hh]; simpl;
    try (split; [done | intros (k'&[= <-]&?&?&_); done]).
  rewrite !EqualChars_ArrayEqual, (ArrayEqual_sym (AtomHasher.chars l)).
  split.
  - intros Heq. exists k. repeat split; try done.
    by destruct (JSAtom.hasLatin1Chars k), (AtomHasher.isLatin1 l).
  - intros (k'&[= <-]&_&_&Heq).
    by destruct (JSAtom.hasLatin1Chars k), (AtomHasher.isLatin1 l).
Qed.

Section KeyLemmas.
Context `{Engine}.

Lemma ofChars_atom c : AtomHasher.atom (AtomHasher.ofChars c) = None.
Proof. by destruct c. Qed.

Lemma ofChars_hash c : AtomHasher.hash (AtomHasher.ofChars c) = HashString (units c).
Proof. by destruct c. Qed.

Lemma ofChars_length c : AtomHasher.length (AtomHasher.ofChars c) = length (units c).
Proof. by destruct c. Qed.

Lemma ofChars_chars c : AtomHasher.chars (AtomHasher.ofChars c) = units c.
Proof. by destruct c. Qed.

(** Keys made from the same code units match the same entries. *)
Lemma match_units heap e c1 c2 :
  units c1 = units c2 →
  AtomHasher.match_ heap e (AtomHasher.ofChars c1)
  = AtomHasher.match_ heap e (AtomHasher.ofChars c2).
Proof.
  destruct c1 as [cs1|cs1], c2 as [cs2|cs2]; simpl; intros ->; try done;
    apply match_width.
Qed.

(** An entry matches a key made from characters exactly when its atom
    holds these code units under the hash of the key. *)
Lemma match_ofChars heap e c :
  AtomHasher.match_ heap e (AtomHasher.ofChars c) = true ↔
  ∃ k, heap !! AtomStateEntry.asPtrUnbarriered e = Some k
       ∧ JSAtom.chars k = units c ∧ JSAtom.hash k = HashString (units c).
Proof.
  rewrite match_content by apply ofChars_atom.
  rewrite ofChars_hash, ofChars_length, ofChars_chars.
  split; intros (k&Hk&H1); exists k; (split; [done|]).
  - destruct H1 as (Hlen&Hh&Heq). split; [|done].
    apply ArrayEqual_true in Heq as (_&_&Heq).
    unfold JSAtom.length in Hlen. rewrite <-Hlen in Heq at 1.
    by rewrite !firstn_all in Heq.
  - destruct H1 as (Hc&Hh). unfold JSAtom.length. rewrite Hc.
    repeat split; [done|]. apply ArrayEqual_refl.
Qed.

Lemma lookup_units heap set c1 c2 :
  units c1 = units c2 →
  AtomSet.lookup heap set (AtomHasher.ofChars c1)
  = AtomSet.lookup heap set (AtomHasher.ofChars c2).
Proof.
  intros Hu. unfold AtomSet.lookup. apply list_find_ext.
  intros e. by rewrite (match_units heap e c1 c2 Hu).
Qed.

End KeyLemmas.

(** ** Reasoning about runtime operations *)

(** The outcome of an operation with its final runtime changed by [f]. *)
Definition Outcome_map {A} (f : JSRuntime → JSRuntime) (o : Outcome A) : Outcome A :=
  match o with
  | Return a rt => Return a (f rt)
  | Abort e => Abort e
  end.

Lemma bind_Return {A B} (m : M A) (k : A → M B) rt b rt' :
  (m ≫= k) rt = Return b rt' ↔ ∃ a rt1, m rt = Return a rt1 ∧ k a rt1 = Return b rt'.
Proof.
  unfold mbind, M_bind. destruct (m rt) as [a rt1|e].
  - split; [intros Hk; by exists a, rt1 | by intros (?&?&[= <- <-]&?)].
  - split; [done | by intros (?&?&?&?)].
Qed.

Ltac unfold_ops :=
  unfold AtomsTable.atomizeAndCopyChars, AtomsTable.pinExistingAtom,
    AtomsTable.getPartitionIndex, AllocateNewAtom, Lookup_ofAtom,
    AutoLock, setPinned, morphIntoPermanentAtom, atomCache_add in *;
  unfold getPartition, setPartition, readAtom, atomCache,
    ReportOutOfMemory, ReportAllocationOverflow in *;
  unfold MOZ_ASSERT, deref, gets, modify, abort, mbind, M_bind, mret, M_ret in *.

Ltac unfold_setters :=
  unfold set_heap, set_permanentAtomsDuringInit, set_permanentAtoms, set_partitions,
    set_atomCaches, set_mutexLog, set_pendingException, permanentAtomsPopulated in *.

(** [wp m rt Q]: if [m] returns from [rt], the value and the final
    runtime satisfy [Q]. *)
Definition wp {A} (m : M A) (rt : JSRuntime) (Q : A → JSRuntime → Prop) : Prop :=
  match m rt with
  | Return a rt' => Q a rt'
  | Abort _ => True
  end.

Lemma wp_Return {A} (m : M A) rt Q a rt' : wp m rt Q → m rt = Return a rt' → Q a rt'.
Proof. unfold wp. intros Hwp Heq. by rewrite Heq in Hwp. Qed.

Lemma wp_intro {A} (m : M A) rt (Q : A → JSRuntime → Prop) :
  (∀ a rt', m rt = Return a rt' → Q a rt') → wp m rt Q.
Proof. unfold wp. destruct (m rt); eauto. Qed.

Lemma wp_mono {A} (m : M A) rt (Q Q' : A → JSRuntime → Prop) :
  wp m rt Q → (∀ a rt', Q a rt' → Q' a rt') → wp m rt Q'.
Proof. unfold wp. destruct (m rt); eauto. Qed.

Lemma wp_bind {A B} (m : M A) (k : A → M B) rt Q :
  wp m rt (λ a rt1, wp (k a) rt1 Q) → wp (m ≫= k) rt Q.
Proof. unfold wp, mbind, M_bind. by destruct (m rt). Qed.

Lemma wp_ret {A} (a : A) rt (Q : A → JSRuntime → Prop) : Q a rt → wp (mret a) rt Q.
Proof. done. Qed.

Lemma wp_gets {A} (f : JSRuntime → A) rt (Q : A → JSRuntime → Prop) :
  Q (f rt) rt → wp (gets f) rt Q.
Proof. done. Qed.

Lemma wp_modify f rt (Q : unit → JSRuntime → Prop) : Q tt (f rt) → wp (modify f) rt Q.
Proof. done. Qed.

Lemma wp_abort {A} e rt (Q : A → JSRuntime → Prop) : wp (abort e) rt Q.
Proof. done. Qed.

Lemma wp_assert b rt (Q : unit → JSRuntime → Prop) :
  (b = true → Q tt rt) → wp (MOZ_ASSERT b) rt Q.
Proof. destruct b; [intros HQ; by apply HQ | done]. Qed.

Lemma wp_deref {A} (p : option A) rt (Q : A → JSRuntime → Prop) :
  (∀ a, p = Some a → Q a rt) → wp (deref p) rt Q.
Proof. destruct p; [intros HQ; by apply HQ | done]. Qed.

Lemma wp_readAtom a rt (Q : JSAtom.t → JSRuntime → Prop) :
  (∀ cell, heap rt !! a = Some cell → Q cell rt) → wp (readAtom a) rt Q.
Proof. intros HQ. apply wp_bind, wp_gets, wp_deref, HQ. Qed.

Lemma wp_setPinned a rt (Q : unit → JSRuntime → Prop) :
  (∀ cell, heap rt !! a = Some cell →
     Q tt (set_heap (alter JSAtom.setPinned a (heap rt)) rt)) →
  wp (setPinned a) rt Q.
Proof. intros HQ. apply wp_bind, wp_readAtom. intros cell Hc. by apply wp_modify, HQ with cell. Qed.

Lemma wp_getPartition i rt (Q : Partition.t → JSRuntime → Prop) :
  (∀ part, partitions rt !! i = Some part → Q part rt) → wp (getPartition i) rt Q.
Proof. intros HQ. apply wp_bind, wp_gets, wp_deref, HQ. Qed.

Lemma wp_setPartition i p rt (Q : unit → JSRuntime → Prop) :
  Q tt (set_partitions (<[i := p]> (partitions rt)) rt) → wp (setPartition i p) rt Q.
Proof. done. Qed.

Lemma wp_atomCache z rt (Q : AtomSet.t → JSRuntime → Prop) :
  (∀ c, atomCaches rt !! z = Some c → Q c rt) → wp (atomCache z) rt Q.
Proof. intros HQ. apply wp_bind, wp_gets, wp_deref, HQ. Qed.

Lemma wp_AutoLock {A} i (body : M A) rt (Q : A → JSRuntime → Prop) :
  (∀ log, wp body (set_mutexLog log rt)
             (λ a rt', ∀ log', Q a (set_mutexLog log' rt'))) →
  wp (AutoLock i body) rt Q.
Proof.
  intros Hbody. unfold AutoLock. apply wp_bind, wp_gets.
  destruct (hasHelperThreadZones rt) eqn:Hz.
  - apply wp_bind, wp_modify, wp_bind. eapply wp_mono; [apply Hbody|].
    intros a rt' HQ. apply wp_bind, wp_modify, wp_ret, HQ.
  - apply wp_bind, wp_ret, wp_bind.
    specialize (Hbody (mutexLog rt)).
    replace (set_mutexLog (mutexLog rt) rt) with rt in Hbody by by destruct rt.
    eapply wp_mono; [apply Hbody|].
    intros a rt' HQ. apply wp_bind, wp_ret, wp_ret.
    specialize (HQ (mutexLog rt')). by destruct rt'.
Qed.

Lemma wp_AllocateNewAtom `{Engine} oom c pin idx lookup rt
    (Q : option AtomId → JSRuntime → Prop) :
  (newStringFails oom = true → Q None (set_pendingException (Some OutOfMemory) rt)) →
  (newStringFails oom = false → ∀ cell,
     JSAtom.chars cell = units c → JSAtom.hash cell = AtomHasher.hash lookup →
     JSAtom.isPinned cell = pinned pin → JSAtom.isPermanent cell = false →
     Q (Some (length (heap rt))) (set_heap (heap rt ++ [cell]) rt)) →
  wp (AllocateNewAtom oom c pin idx lookup) rt Q.
Proof.
  intros Hfail Hok. unfold AllocateNewAtom.
  destruct (newStringFails oom).
  - apply wp_bind, wp_modify, wp_ret. by apply Hfail.
  - apply wp_bind, wp_gets, wp_bind, wp_assert. intros _.
    apply wp_bind, wp_modify, wp_ret.
    apply Hok; try done; destruct pin, idx; done.
Qed.

Ltac rt_simpl :=
  cbn [heap permanentAtomsDuringInit_ permanentAtoms_ partitions atomCaches
       hasHelperThreadZones mutexLog pendingException
       set_heap set_permanentAtomsDuringInit set_permanentAtoms set_partitions
       set_atomCaches set_mutexLog set_pendingException
       Partition.atoms Partition.atomsAddedWhileSweeping
       AtomsTable.SweepIterator.partitionIndex AtomsTable.SweepIterator.atomsIter
       Enum.pos Enum.removed] in *.

(** A test whose outcome a hypothesis tells is decided by it; any other
    test is split into its cases. *)
Ltac case_scrutinee x :=
  first [ match goal with H : x = _ |- _ => rewrite H end
        | destruct x eqn:? ].

Ltac wp_step :=
  cbv beta iota; rt_simpl;
  lazymatch goal with
  | |- wp (_ ≫= _) _ _ => apply wp_bind
  | |- wp (mret _) _ _ => apply wp_ret
  | |- wp (gets _) _ _ => apply wp_gets
  | |- wp (modify _) _ _ => apply wp_modify
  | |- wp (abort _) _ _ => apply wp_abort
  | |- wp (MOZ_ASSERT _) _ _ => apply wp_assert; intros ?
  | |- wp (deref _) _ _ => apply wp_deref; intros ? ?
  | |- wp (readAtom _) _ _ => apply wp_readAtom; intros ? ?
  | |- wp (setPinned _) _ _ => apply wp_setPinned; intros ? ?
  | |- wp (getPartition _) _ _ => apply wp_getPartition; intros ? ?
  | |- wp (setPartition _ _) _ _ => apply wp_setPartition
  | |- wp (atomCache _) _ _ => apply wp_atomCache; intros ? ?
  | |- wp ReportOutOfMemory _ _ => apply wp_modify
  | |- wp ReportAllocationOverflow _ _ => apply wp_modify
  | |- wp (AutoLock _ _) _ _ => apply wp_AutoLock; intros ?
  | |- wp (AllocateNewAtom _ _ _ _ _) _ _ =>
    apply wp_AllocateNewAtom; [intros ? | intros ? ? ? ? ? ?]
  | |- wp (if ?b then _ else _) _ _ => case_scrutinee b
  | |- wp (match ?x with _ => _ end) _ _ => case_scrutinee x
  end.

(** ** What [AtomsTable::atomizeAndCopyChars] does *)

Section AtomizeSpec.
Context `{Engine}.

(** The result and the final table of a call that returns, read off the
    partition of the key as it was when the call began. *)
Definition atomizeAndCopyChars_post (gc : Collector) (oom : Allocator) (c : Chars)
    (pin : PinningBehavior) (lookup : AtomHasher.Lookup) (rt : JSRuntime)
    (r : option AtomId) (rt' : JSRuntime) : Prop :=
  let index := AtomsTable.indexOf lookup in
  ∃ part, partitions rt !! index = Some part ∧ index < AtomsTable.PartitionCount ∧
    permanentAtomsDuringInit_ rt' = permanentAtomsDuringInit_ rt ∧
    permanentAtoms_ rt' = permanentAtoms_ rt ∧
    atomCaches rt' = atomCaches rt ∧
    match AtomsTable.lookupForAdd gc (heap rt) part lookup with
    | Some (ref, i, e) =>
      let atom := AtomStateEntry.asPtrUnbarriered e in
      r = Some atom ∧ ∃ cell, heap rt !! atom = Some cell ∧
      if pinned pin && negb (JSAtom.isPinned cell)
      then heap rt' = alter JSAtom.setPinned atom (heap rt)
           ∧ partitions rt' = <[index := AtomsTable.setPinnedAt part ref i]> (partitions rt)
      else heap rt' = heap rt ∧ partitions rt' = partitions rt
    | None =>
      if newStringFails oom then r = None ∧ heap rt' = heap rt ∧ partitions rt' = partitions rt
      else ∃ cell, heap rt' = heap rt ++ [cell]
           ∧ JSAtom.chars cell = units c ∧ JSAtom.hash cell = AtomHasher.hash lookup
           ∧ JSAtom.isPinned cell = pinned pin ∧ JSAtom.isPermanent cell = false
           ∧ if setAddFails oom then r = None ∧ partitions rt' = partitions rt
             else r = Some (length (heap rt))
                  ∧ partitions rt' =
                    <[index := AtomsTable.addToAddSet part
                                 (AtomStateEntry.mk (length (heap rt)) (pinned pin))]>
                      (partitions rt)
    end.

Lemma atomizeAndCopyChars_spec gc oom c pin idx lookup rt :
  wp (AtomsTable.atomizeAndCopyChars gc oom c pin idx lookup) rt
     (atomizeAndCopyChars_post gc oom c pin lookup rt).
Proof.
  unfold AtomsTable.atomizeAndCopyChars, AtomsTable.getPartitionIndex.
  repeat wp_step; simplify_eq.
  all: match goal with Hlt : (_ <? _) = true |- _ => apply Nat.ltb_lt in Hlt end.
  all: intros log'; eexists; (split; [eassumption|]).
  all: match goal with Hl : AtomsTable.lookupForAdd _ _ _ _ = _ |- _ => rewrite Hl end.
  all: rt_simpl;
    repeat match goal with
           | Hb : _ = ?b |- context [if _ then _ else _] => rewrite Hb
           end.
  all: repeat split; try done.
  all: eexists; (split; [reflexivity|]);
    repeat match goal with
           | Hb : _ = ?b |- context [if _ then _ else _] => rewrite Hb
           end; done.
Qed.

End AtomizeSpec.

(** [twp m rt Q]: [m] returns from [rt], and the value and the final
    runtime satisfy [Q]. *)
Definition twp {A} (m : M A) (rt : JSRuntime) (Q : A → JSRuntime → Prop) : Prop :=
  match m rt with
  | Return a rt' => Q a rt'
  | Abort _ => False
  end.

Lemma twp_Return {A} (m : M A) rt Q : twp m rt Q ↔ ∃ a rt', m rt = Return a rt' ∧ Q a rt'.
Proof.
  unfold twp. destruct (m rt) as [a rt'|e].
  - split; [by exists a, rt' | by intros (?&?&[= <- <-]&?)].
  - split; [done | by intros (?&?&?&?)].
Qed.

Lemma twp_wp {A} (m : M A) rt (Q Q' : A → JSRuntime → Prop) :
  twp m rt Q → wp m rt Q' → twp m rt (λ a rt', Q a rt' ∧ Q' a rt').
Proof. unfold twp, wp. by destruct (m rt). Qed.

Lemma twp_mono {A} (m : M A) rt (Q Q' : A → JSRuntime → Prop) :
  twp m rt Q → (∀ a rt', Q a rt' → Q' a rt') → twp m rt Q'.
Proof. unfold twp. destruct (m rt); eauto. Qed.

Lemma twp_bind {A B} (m : M A) (k : A → M B) rt Q :
  twp m rt (λ a rt1, twp (k a) rt1 Q) → twp (m ≫= k) rt Q.
Proof. unfold twp, mbind, M_bind. by destruct (m rt). Qed.

Lemma twp_ret {A} (a : A) rt (Q : A → JSRuntime → Prop) : Q a rt → twp (mret a) rt Q.
Proof. done. Qed.

Lemma twp_gets {A} (f : JSRuntime → A) rt (Q : A → JSRuntime → Prop) :
  Q (f rt) rt → twp (gets f) rt Q.
Proof. done. Qed.

Lemma twp_modify f rt (Q : unit → JSRuntime → Prop) : Q tt (f rt) → twp (modify f) rt Q.
Proof. done. Qed.

Lemma twp_assert b rt (Q : unit → JSRuntime → Prop) :
  b = true → Q tt rt → twp (MOZ_ASSERT b) rt Q.
Proof. by intros ->. Qed.

Lemma twp_deref {A} (p : option A) a rt (Q : A → JSRuntime → Prop) :
  p = Some a → Q a rt → twp (deref p) rt Q.
Proof. by intros ->. Qed.

Lemma twp_readAtom a cell rt (Q : JSAtom.t → JSRuntime → Prop) :
  heap rt !! a = Some cell → Q cell rt → twp (readAtom a) rt Q.
Proof. intros Hc HQ. by apply twp_bind, twp_gets, twp_deref with cell. Qed.

Lemma twp_setPinned a cell rt (Q : unit → JSRuntime → Prop) :
  heap rt !! a = Some cell →
  Q tt (set_heap (alter JSAtom.setPinned a (heap rt)) rt) →
  twp (setPinned a) rt Q.
Proof. intros Hc HQ. apply twp_bind, twp_readAtom with cell; [done|]. by apply twp_modify. Qed.

Lemma twp_getPartition i part rt (Q : Partition.t → JSRuntime → Prop) :
  partitions rt !! i = Some part → Q part rt → twp (getPartition i) rt Q.
Proof. intros Hp HQ. by apply twp_bind, twp_gets, twp_deref with part. Qed.

Lemma twp_setPartition i p rt (Q : unit → JSRuntime → Prop) :
  Q tt (set_partitions (<[i := p]> (partitions rt)) rt) → twp (setPartition i p) rt Q.
Proof. done. Qed.

Lemma twp_atomCache z c rt (Q : AtomSet.t → JSRuntime → Prop) :
  atomCaches rt !! z = Some c → Q c rt → twp (atomCache z) rt Q.
Proof. intros Hc HQ. by apply twp_bind, twp_gets, twp_deref with c. Qed.

Lemma twp_AutoLock {A} i (body : M A) rt (Q : A → JSRuntime → Prop) :
  (∀ log, twp body (set_mutexLog log rt)
             (λ a rt', ∀ log', Q a (set_mutexLog log' rt'))) →
  twp (AutoLock i body) rt Q.
Proof.
  intros Hbody. unfold AutoLock. apply twp_bind, twp_gets.
  destruct (hasHelperThreadZones rt) eqn:Hz.
  - apply twp_bind, twp_modify, twp_bind. eapply twp_mono; [apply Hbody|].
    intros a rt' HQ. apply twp_bind, twp_modify, twp_ret, HQ.
  - apply twp_bind, twp_ret, twp_bind.
    specialize (Hbody (mutexLog rt)).
    replace (set_mutexLog (mutexLog rt) rt) with rt in Hbody by by destruct rt.
    eapply twp_mono; [apply Hbody|].
    intros a rt' HQ. apply twp_bind, twp_ret, twp_ret.
    specialize (HQ (mutexLog rt')). by destruct rt'.
Qed.

Lemma twp_AllocateNewAtom `{Engine} oom c pin idx lookup rt
    (Q : option AtomId → JSRuntime → Prop) :
  (newStringFails oom = true → Q None (set_pendingException (Some OutOfMemory) rt)) →
  (newStringFails oom = false → ∀ cell,
     JSAtom.chars cell = units c → JSAtom.hash cell = AtomHasher.hash lookup →
     JSAtom.isPinned cell = pinned pin → JSAtom.isPermanent cell = false →
     Q (Some (length (heap rt))) (set_heap (heap rt ++ [cell]) rt)) →
  twp (AllocateNewAtom oom c pin idx lookup) rt Q.
Proof.
  intros Hfail Hok. unfold AllocateNewAtom.
  destruct (newStringFails oom).
  - apply twp_bind, twp_modify, twp_ret. by apply Hfail.
  - apply twp_bind, twp_gets, twp_bind, twp_assert; [apply Z.eqb_refl|].
    apply twp_bind, twp_modify, twp_ret.
    apply Hok; try done; destruct pin, idx; done.
Qed.

(** Steps of a proof that an operation returns; assertions and
    dereferences leave their side condition as a goal. *)
Ltac twp_step :=
  cbv beta iota; rt_simpl;
  lazymatch goal with
  | |- twp (_ ≫= _) _ _ => apply twp_bind
  | |- twp (mret _) _ _ => apply twp_ret
  | |- twp (gets _) _ _ => apply twp_gets
  | |- twp (modify _) _ _ => apply twp_modify
  | |- twp (MOZ_ASSERT _) _ _ => apply twp_assert; [try done|]
  | |- twp (deref _) _ _ => eapply twp_deref; [try eassumption; try done|]
  | |- twp (readAtom _) _ _ => eapply twp_readAtom; [try eassumption; try done|]
  | |- twp (setPinned _) _ _ => eapply twp_setPinned; [try eassumption; try done|]
  | |- twp (getPartition _) _ _ => eapply twp_getPartition; [try eassumption; try done|]
  | |- twp (setPartition _ _) _ _ => apply twp_setPartition
  | |- twp (atomCache _) _ _ => eapply twp_atomCache; [try eassumption; try done|]
  | |- twp ReportOutOfMemory _ _ => apply twp_modify
  | |- twp ReportAllocationOverflow _ _ => apply twp_modify
  | |- twp (AutoLock _ _) _ _ => apply twp_AutoLock; intros ?
  | |- twp (AllocateNewAtom _ _ _ _ _) _ _ =>
    apply twp_AllocateNewAtom; [intros ? | intros ? ? ? ? ? ?]
  | |- twp (if ?b then _ else _) _ _ => case_scrutinee b
  | |- twp (match ?x with _ => _ end) _ _ => case_scrutinee x
  end.

Section Index.
Context `{Engine}.

(** A hash of 32 bits selects a partition of the table. *)
Lemma indexOf_lt l :
  (0 ≤ AtomHasher.hash l < 2 ^ 32)%Z → AtomsTable.indexOf l < AtomsTable.PartitionCount.
Proof.
  intros Hh. unfold AtomsTable.indexOf, AtomsTable.PartitionCount.
  pose proof PartitionShift_range as Hs.
  rewrite Z.shiftr_div_pow2 by lia.
  apply Nat2Z.inj_lt. rewrite Z2Nat.id by (apply Z.div_pos; lia).
  rewrite Nat2Z.inj_pow. change (Z.of_nat 2) with 2%Z.
  apply Z.div_lt_upper_bound; [lia|].
  rewrite <-Z.pow_add_r by lia.
  replace (32 - Z.of_nat PartitionShift + Z.of_nat PartitionShift)%Z with 32%Z by lia.
  lia.
Qed.

Lemma indexOf_ofChars_lt c :
  AtomsTable.indexOf (AtomHasher.ofChars c) < AtomsTable.PartitionCount.
Proof. apply indexOf_lt. rewrite ofChars_hash. apply HashString_uint32. Qed.

End Index.

Section AtomizeReturns.
Context `{Engine}.

(** Every entry of the set points at a cell of the heap. *)
Definition validSet (h : Heap) (set : AtomSet.t) : Prop :=
  Forall (λ e, AtomStateEntry.asPtrUnbarriered e < length h) set.

Definition validPartition (h : Heap) (part : Partition.t) : Prop :=
  validSet h (Partition.atoms part)
  ∧ ∀ added, Partition.atomsAddedWhileSweeping part = Some added → validSet h added.

Lemma lookup_Some h set l i e :
  AtomSet.lookup h set l = Some (i, e) →
  set !! i = Some e ∧ AtomHasher.match_ h e l = true
  ∧ ∀ j e', set !! j = Some e' → j < i → AtomHasher.match_ h e' l ≠ true.
Proof. unfold AtomSet.lookup. intros Hf. by apply list_find_Some in Hf. Qed.

Lemma lookup_None h set l :
  AtomSet.lookup h set l = None ↔ Forall (λ e, AtomHasher.match_ h e l ≠ true) set.
Proof. unfold AtomSet.lookup. apply list_find_None. Qed.

Lemma validSet_lookup h set l i e :
  validSet h set → AtomSet.lookup h set l = Some (i, e) →
  is_Some (h !! AtomStateEntry.asPtrUnbarriered e).
Proof.
  intros Hv (Hi&_)%lookup_Some. apply lookup_lt_is_Some.
  eapply Forall_lookup_1 in Hv; [|exact Hi]. done.
Qed.

Lemma lookupForAdd_valid gc h part l r i e :
  validPartition h part →
  AtomsTable.lookupForAdd gc h part l = Some (r, i, e) →
  is_Some (h !! AtomStateEntry.asPtrUnbarriered e).
Proof.
  intros [Hmain Hadded]. unfold AtomsTable.lookupForAdd.
  destruct (Partition.atomsAddedWhileSweeping part) as [added|].
  - specialize (Hadded added eq_refl).
    destruct (AtomSet.lookup h added l) as [[i1 e1]|] eqn:H1.
    + intros ?; simplify_eq. by eapply validSet_lookup in H1.
    + destruct (AtomSet.lookup h (Partition.atoms part) l) as [[i2 e2]|] eqn:H2; [|done].
      destruct (negb _); [|done]. intros ?; simplify_eq. by eapply validSet_lookup in H2.
  - destruct (AtomSet.lookup h (Partition.atoms part) l) as [[i2 e2]|] eqn:H2; [|done].
    intros ?; simplify_eq. by eapply validSet_lookup in H2.
Qed.

(** A call on a partition whose entries point into the heap returns. *)
Lemma atomizeAndCopyChars_returns gc oom c pin idx lookup rt part :
  AtomsTable.indexOf lookup < AtomsTable.PartitionCount →
  partitions rt !! AtomsTable.indexOf lookup = Some part →
  validPartition (heap rt) part →
  twp (AtomsTable.atomizeAndCopyChars gc oom c pin idx lookup) rt
      (atomizeAndCopyChars_post gc oom c pin lookup rt).
Proof.
  intros Hlt Hpart Hvalid.
  assert (Hret : twp (AtomsTable.atomizeAndCopyChars gc oom c pin idx lookup) rt
                     (λ _ _, True)).
  { unfold AtomsTable.atomizeAndCopyChars, AtomsTable.getPartitionIndex.
    apply twp_bind, twp_bind, twp_assert; [by apply Nat.ltb_lt|]. apply twp_ret.
    apply twp_bind. eapply twp_getPartition; [eassumption|].
    apply twp_AutoLock; intros log.
    apply twp_bind. eapply twp_getPartition; [rt_simpl; eassumption|].
    apply twp_bind, twp_gets. rt_simpl.
    destruct (AtomsTable.lookupForAdd gc (heap rt) part lookup) as [[[r i] e]|] eqn:Hl.
    - destruct (lookupForAdd_valid _ _ _ _ _ _ _ Hvalid Hl) as [cell Hcell].
      repeat twp_step; done.
    - repeat twp_step; done. }
  eapply twp_mono; [exact (twp_wp _ _ _ _ Hret (atomizeAndCopyChars_spec _ _ _ _ _ _ _))|].
  by intros r rt' [_ Hpost].
Qed.

End AtomizeReturns.

(** C3. While a partition is being swept incrementally, atomization looks
    in the secondary set first and then in the main set; an entry found
    only in the main set is reused only if the collector does not report
    its atom about to be finalized; on a total miss (and on a dead hit)
    the new atom goes into the secondary set. A partition that is not
    being swept is looked up and extended in its main set. *)
Theorem atomize_during_sweep `{Engine} gc oom c pin idx rt part :
  let lookup := AtomHasher.ofChars c in
  let index := AtomsTable.indexOf lookup in
  let new := AtomStateEntry.mk (length (heap rt)) (pinned pin) in
  let inserted r rt' target :=
    newStringFails oom = false → setAddFails oom = false →
    r = Some (length (heap rt)) ∧ partitions rt' !! index = Some target in
  partitions rt !! index = Some part →
  validPartition (heap rt) part →
  ∃ r rt',
    AtomsTable.atomizeAndCopyChars gc oom c pin idx lookup rt = Return r rt' ∧
    match Partition.atomsAddedWhileSweeping part with
    | Some added =>
      match AtomSet.lookup (heap rt) added lookup with
      | Some (_, e) => r = Some (AtomStateEntry.asPtrUnbarriered e)
      | None =>
        match AtomSet.lookup (heap rt) (Partition.atoms part) lookup with
        | Some (_, e) =>
          if gc (AtomStateEntry.asPtrUnbarriered e)
          then inserted r rt' (Partition.mk (Partition.atoms part) (Some (added ++ [new])))
          else r = Some (AtomStateEntry.asPtrUnbarriered e)
        | None =>
          inserted r rt' (Partition.mk (Partition.atoms part) (Some (added ++ [new])))
        end
      end
    | None =>
      match AtomSet.lookup (heap rt) (Partition.atoms part) lookup with
      | Some (_, e) => r = Some (AtomStateEntry.asPtrUnbarriered e)
      | None => inserted r rt' (Partition.mk (Partition.atoms part ++ [new]) None)
      end
    end.
Proof.
  intros lookup index new inserted Hpart Hvalid.
  pose proof (atomizeAndCopyChars_returns gc oom c pin idx lookup rt part
                (indexOf_ofChars_lt c) Hpart Hvalid) as Hrun.
  apply twp_Return in Hrun as (r & rt' & Hrun & part' & Hpart' & _ & _ & _ & _ & Hpost).
  fold index in Hpart'. simplify_eq.
  exists r, rt'. split; [done|].
  assert (Hins : ∀ target,
    AtomsTable.lookupForAdd gc (heap rt) part lookup = None →
    AtomsTable.addToAddSet part new = target → inserted r rt' target).
  { intros target Hmiss <- Hnew Hadd. rewrite Hmiss, Hnew in Hpost.
    destruct Hpost as (cell & _ & _ & _ & _ & _ & Hpost). rewrite Hadd in Hpost.
    destruct Hpost as [-> ->]. split; [done|].
    apply list_lookup_insert_eq. by eapply lookup_lt_Some. }
  unfold AtomsTable.lookupForAdd, AtomsTable.addToAddSet in *.
  destruct (Partition.atomsAddedWhileSweeping part) as [added|].
  - destruct (AtomSet.lookup (heap rt) added lookup) as [[i1 e1]|]; [by destruct Hpost|].
    destruct (AtomSet.lookup (heap rt) (Partition.atoms part) lookup) as [[i2 e2]|].
    + destruct (gc (AtomStateEntry.asPtrUnbarriered e2)); simpl in *;
        [by apply Hins | by destruct Hpost].
    + by apply Hins.
  - destruct (AtomSet.lookup (heap rt) (Partition.atoms part) lookup) as [[i2 e2]|];
      [by destruct Hpost | by apply Hins].
Qed.

(** ** Starting an incremental sweep *)

Section StartSweep.
Context `{Engine}.

(** A partition with a fresh, empty secondary set, and one without. *)
Definition withEmptySecondary (p : Partition.t) : Partition.t :=
  Partition.mk (Partition.atoms p) (Some []).

Definition withoutSecondary (p : Partition.t) : Partition.t :=
  Partition.mk (Partition.atoms p) None.

Lemma set_partitions_id rt : set_partitions (partitions rt) rt = rt.
Proof. by destruct rt. Qed.

Lemma set_partitions_twice ps1 ps2 rt :
  set_partitions ps1 (set_partitions ps2 rt) = set_partitions ps1 rt.
Proof. done. Qed.

Lemma withoutSecondary_id ps :
  Forall (λ p, Partition.atomsAddedWhileSweeping p = None) ps →
  withoutSecondary <$> ps = ps.
Proof.
  induction 1 as [|[atoms sec] ps Hp _ IH]; [done|].
  rewrite fmap_cons, IH. simpl in Hp. by subst.
Qed.

(** The allocation loop, from partition [i] with [n] partitions to go. *)
Lemma startIncrementalSweep_alloc_spec fails n : ∀ i rt,
  i + n = length (partitions rt) →
  Forall (λ p, Partition.atomsAddedWhileSweeping p = None) (drop i (partitions rt)) →
  ∃ ok ps',
    AtomsTable.startIncrementalSweep_alloc fails n i rt = Return ok (set_partitions ps' rt)
    ∧ withoutSecondary <$> ps' = withoutSecondary <$> partitions rt
    ∧ if ok : bool
      then (∀ j, i ≤ j < i + n → fails j = false)
           ∧ ps' = take i (partitions rt) ++ (withEmptySecondary <$> drop i (partitions rt))
      else ∃ j, i ≤ j < i + n ∧ fails j = true.
Proof.
  induction n as [|n IH]; intros i rt Hlen Hnone; simpl.
  - exists true, (partitions rt). rewrite set_partitions_id. repeat split; [lia|].
    rewrite drop_ge by lia. rewrite take_ge by lia. by rewrite app_nil_r.
  - destruct (lookup_lt_is_Some_2 (partitions rt) i) as [part Hpart]; [lia|].
    unfold mbind at 1, M_bind at 1. unfold getPartition, mbind at 1, M_bind at 1, gets.
    rewrite Hpart. simpl.
    destruct (fails i) eqn:Hf.
    { exists false, (partitions rt). rewrite set_partitions_id. repeat split.
      exists i. split; [lia | done]. }
    rewrite (drop_S _ _ _ Hpart) in Hnone. apply Forall_cons in Hnone as [Hsec Hnone].
    unfold mbind at 1, M_bind at 1. rewrite Hsec. simpl.
    unfold mbind at 1, M_bind at 1, setPartition, modify.
    set (rt1 := set_partitions _ rt).
    destruct (IH (S i) rt1) as (ok & ps' & Hrun & Hclear & Hok).
    { subst rt1. rt_simpl. rewrite length_insert. lia. }
    { subst rt1. rt_simpl. rewrite drop_insert_lt by lia. done. }
    exists ok, ps'. rewrite Hrun. subst rt1. rt_simpl. rewrite set_partitions_twice.
    repeat split.
    + rewrite Hclear, list_fmap_insert. apply list_insert_id.
      by rewrite list_lookup_fmap, Hpart.
    + destruct ok.
      * destruct Hok as [Hnofail ->]. split.
        -- intros j Hj. destruct (decide (j = i)) as [->|]; [done|]. apply Hnofail. lia.
        -- rewrite take_insert_lt by lia. rewrite (take_S_r _ _ _ Hpart).
           rewrite insert_app_r_alt by (rewrite length_take; lia).
           rewrite length_take, Nat.min_l by lia.
           replace (i - i) with 0 by lia. simpl.
           rewrite drop_insert_lt by lia.
           rewrite (drop_S _ _ _ Hpart). simpl. by rewrite <-app_assoc.
      * destruct Hok as (j & Hj & Hfj). exists j. split; [lia | done].
Qed.

(** The loop that takes the secondary sets away again. *)
Lemma discard_secondary_spec n : ∀ i rt,
  i + n = length (partitions rt) →
  forEachPartition (λ i,
      part ← getPartition i;
      setPartition i (Partition.mk (Partition.atoms part) None)) n i rt
  = Return tt (set_partitions
                 (take i (partitions rt) ++ (withoutSecondary <$> drop i (partitions rt))) rt).
Proof.
  induction n as [|n IH]; intros i rt Hlen; simpl.
  - rewrite drop_ge by lia. rewrite take_ge by lia.
    by rewrite app_nil_r, set_partitions_id.
  - destruct (lookup_lt_is_Some_2 (partitions rt) i) as [part Hpart]; [lia|].
    unfold mbind at 1, M_bind at 1. unfold mbind at 1, M_bind at 1, getPartition.
    unfold mbind at 1, M_bind at 1, gets. rewrite Hpart. simpl.
    unfold setPartition, modify. rewrite IH by (rt_simpl; rewrite length_insert; lia).
    rt_simpl. rewrite set_partitions_twice. f_equal. f_equal.
    rewrite take_insert_lt by lia. rewrite (take_S_r _ _ _ Hpart).
    rewrite insert_app_r_alt by (rewrite length_take; lia).
    rewrite length_take, Nat.min_l by lia.
    replace (i - i) with 0 by lia. simpl.
    rewrite drop_insert_lt by lia.
    rewrite (drop_S _ _ _ Hpart). simpl. by rewrite <-app_assoc.
Qed.

End StartSweep.

(** C5. [startIncrementalSweep] is all or nothing: called on a table none
    of whose partitions has a secondary set, it either gives every
    partition an empty secondary set and reports success, or, when one
    allocation fails, reports failure and leaves the runtime as it was
    before the call. *)
Theorem startIncrementalSweep_all_or_nothing `{Engine} fails rt :
  length (partitions rt) = AtomsTable.PartitionCount →
  Forall (λ p, Partition.atomsAddedWhileSweeping p = None) (partitions rt) →
  ∃ ok rt',
    AtomsTable.startIncrementalSweep fails rt = Return ok rt'
    ∧ if ok : bool
      then (∀ i, i < AtomsTable.PartitionCount → fails i = false)
           ∧ rt' = set_partitions (withEmptySecondary <$> partitions rt) rt
      else (∃ i, i < AtomsTable.PartitionCount ∧ fails i = true)
           ∧ rt' = rt.
Proof.
  intros Hlen Hnone. unfold AtomsTable.startIncrementalSweep.
  destruct (startIncrementalSweep_alloc_spec fails AtomsTable.PartitionCount 0 rt)
    as (ok & ps' & Hrun & Hclear & Hok); [lia | done |].
  unfold mbind at 1, M_bind at 1. rewrite Hrun.
  destruct ok.
  - destruct Hok as [Hnofail ->]. simpl.
    exists true, (set_partitions (withEmptySecondary <$> partitions rt) rt).
    split; [done|]. split; [|done]. intros i Hi. apply Hnofail. lia.
  - unfold mbind at 1, M_bind at 1.
    rewrite discard_secondary_spec
      by (rt_simpl; apply (f_equal length) in Hclear; rewrite !length_fmap in Hclear; lia).
    rt_simpl. simpl. rewrite drop_0, set_partitions_twice, Hclear, withoutSecondary_id by done.
    exists false, rt. split; [by rewrite set_partitions_id|]. split; [|done].
    destruct Hok as (j & Hj & Hfj). exists j. split; [lia | done].
Qed.

(** ** Operations that do not look at a part of the runtime

    [commutes f m]: running [m] after the change [f] of the runtime is
    running [m] and changing the final runtime by [f]; [m] neither reads
    nor writes what [f] sets. *)

Definition commutes {A} (f : JSRuntime → JSRuntime) (m : M A) : Prop :=
  ∀ rt, m (f rt) = Outcome_map f (m rt).

Lemma commutes_bind {A B} f (m : M A) (k : A → M B) :
  commutes f m → (∀ a, commutes f (k a)) → commutes f (m ≫= k).
Proof.
  intros Hm Hk rt. unfold mbind, M_bind. rewrite Hm.
  destruct (m rt) as [a rt1|e]; simpl; [apply Hk | done].
Qed.

Lemma commutes_ret {A} f (a : A) : commutes f (mret a).
Proof. done. Qed.

Lemma commutes_bind_eq {A B} f (m : M A) a (k : A → M B) :
  m = mret a → commutes f (k a) → commutes f (m ≫= k).
Proof. by intros ->. Qed.

Lemma commutes_abort {A} f e : commutes f (abort e : M A).
Proof. done. Qed.

Lemma commutes_gets {A} f (g : JSRuntime → A) : (∀ rt, g (f rt) = g rt) → commutes f (gets g).
Proof. intros Hg rt. unfold gets. by rewrite Hg. Qed.

Lemma commutes_modify f g : (∀ rt, g (f rt) = f (g rt)) → commutes f (modify g).
Proof. intros Hg rt. unfold modify. by rewrite Hg. Qed.

Lemma commutes_assert f b : commutes f (MOZ_ASSERT b).
Proof. by destruct b. Qed.

Lemma commutes_deref {A} f (p : option A) : commutes f (deref p).
Proof. by destruct p. Qed.

Lemma commutes_forEachPartition f body n : ∀ i,
  (∀ i, commutes f (body i)) → commutes f (forEachPartition body n i).
Proof.
  induction n as [|n IH]; intros i Hbody; simpl; [apply commutes_ret|].
  apply commutes_bind; [apply Hbody | intros _; by apply IH].
Qed.

Ltac commutes_step :=
  lazymatch goal with
  | |- commutes _ (_ ≫= _) => apply commutes_bind; [|intros ?]
  | |- commutes _ (mret _) => apply commutes_ret
  | |- commutes _ (abort _) => apply commutes_abort
  | |- commutes _ (MOZ_ASSERT _) => apply commutes_assert
  | |- commutes _ (deref _) => apply commutes_deref
  | |- commutes _ (gets _) => apply commutes_gets; intros ?; reflexivity
  | |- commutes _ (modify _) => apply commutes_modify; intros ?; reflexivity
  | |- commutes _ (if ?b then _ else _) => destruct b
  | |- commutes _ (match ?x with _ => _ end) => destruct x
  | |- commutes _ (let '(_, _) := ?x in _) => destruct x
  end.

Ltac commutes_ops :=
  unfold AtomsTable.atomizeAndCopyChars, AtomsTable.pinExistingAtom,
    AtomsTable.getPartitionIndex, AllocateNewAtom, Lookup_ofAtom,
    AutoLock, setPinned, morphIntoPermanentAtom;
  unfold getPartition, setPartition, readAtom,
    ReportOutOfMemory, ReportAllocationOverflow;
  repeat commutes_step.

Section Commutes.
Context `{Engine}.

(** The table does not look at the zones' caches. *)
Lemma atomizeAndCopyChars_caches caches gc oom c pin idx lookup :
  commutes (set_atomCaches caches)
           (AtomsTable.atomizeAndCopyChars gc oom c pin idx lookup).
Proof. commutes_ops. Qed.

Lemma pinExistingAtom_caches caches a :
  commutes (set_atomCaches caches) (AtomsTable.pinExistingAtom a).
Proof. commutes_ops. Qed.

Lemma PermanentlyAtomizeAndCopyChars_caches caches oom cx c idx lookup :
  commutes (set_atomCaches caches)
           (PermanentlyAtomizeAndCopyChars oom cx None c idx lookup).
Proof. unfold PermanentlyAtomizeAndCopyChars, zoneCacheAddFailed. commutes_ops. Qed.

(** An atomization whose zone pointer stays empty, because a pinned atom
    is wanted or the context has no zone, commutes with any change of the
    caches. *)
Lemma AtomizeAndCopyChars_caches caches gc oom cx c pin idx :
  pinned pin = true ∨ zone cx = None →
  commutes (set_atomCaches caches) (AtomizeAndCopyChars gc oom cx c pin idx).
Proof.
  intros Hbypass. unfold AtomizeAndCopyChars.
  destruct (staticStrings_lookup (units c)); [apply commutes_ret|].
  apply commutes_bind; [commutes_step|intros h].
  apply commutes_bind_eq with None.
  { destruct Hbypass as [-> | ->]; [by destruct (zone cx) | done]. }
  apply commutes_bind; [commutes_step|intros populated].
  destruct (negb populated); [apply PermanentlyAtomizeAndCopyChars_caches|].
  unfold validateLength, zoneCacheAddFailed. commutes_ops.
  all: apply atomizeAndCopyChars_caches.
Qed.

End Commutes.

Lemma twp_eq {A} (m : M A) rt a0 rt0 :
  twp m rt (λ a rt', a = a0 ∧ rt' = rt0) → m rt = Return a0 rt0.
Proof. intros (a & rt' & -> & -> & ->)%twp_Return. done. Qed.

Lemma twp_of_eq {A} (m : M A) rt a rt' (Q : A → JSRuntime → Prop) :
  m rt = Return a rt' → Q a rt' → twp m rt Q.
Proof. unfold twp. by intros ->. Qed.

Ltac twp_go := repeat (twp_step; simplify_eq; rt_simpl; try done; try congruence).

(** A hit in the cache of the zone, when no pinned atom is requested,
    ends the call with the runtime untouched. *)
Lemma AtomizeAndCopyChars_cache_hit `{Engine} gc oom cx c idx rt z cache i e :
  staticStrings_lookup (units c) = None →
  zone cx = Some z →
  atomCaches rt !! z = Some cache →
  AtomSet.lookup (heap rt) cache (AtomHasher.ofChars c) = Some (i, e) →
  AtomizeAndCopyChars gc oom cx c DoNotPinAtom idx rt
  = Return (Some (AtomStateEntry.asPtrUnbarriered e)) rt.
Proof.
  intros Hstatic Hzone Hcache Hhit. apply twp_eq.
  unfold AtomizeAndCopyChars. rewrite Hstatic, Hzone. simpl. twp_go.
Qed.

(** C9. When a pinned atom is requested, and when the context has no
    zone, atomization bypasses the zones' caches: whatever the caches
    hold, the call gives the same result and leaves the caches as they
    are, so they are neither consulted nor populated. The cache is used
    when the context has a zone and no pinned atom is requested: a hit
    in it is the result of the call. *)
Theorem pinning_bypasses_zone_cache `{Engine} gc oom c idx caches rt :
  (∀ cx,
     AtomizeAndCopyChars gc oom cx c PinAtom idx (set_atomCaches caches rt)
     = Outcome_map (set_atomCaches caches)
                   (AtomizeAndCopyChars gc oom cx c PinAtom idx rt))
  ∧ (∀ pin,
       AtomizeAndCopyChars gc oom (mkContext None) c pin idx (set_atomCaches caches rt)
       = Outcome_map (set_atomCaches caches)
                     (AtomizeAndCopyChars gc oom (mkContext None) c pin idx rt))
  ∧ (∀ cx z cache i e,
       staticStrings_lookup (units c) = None →
       zone cx = Some z →
       atomCaches rt !! z = Some cache →
       AtomSet.lookup (heap rt) cache (AtomHasher.ofChars c) = Some (i, e) →
       AtomizeAndCopyChars gc oom cx c DoNotPinAtom idx rt
       = Return (Some (AtomStateEntry.asPtrUnbarriered e)) rt).
Proof.
  refine (conj _ (conj _ _)).
  - intros cx. apply AtomizeAndCopyChars_caches. by left.
  - intros pin. apply AtomizeAndCopyChars_caches. by right.
  - intros cx z cache i e. apply AtomizeAndCopyChars_cache_hit.
Qed.

(** ** Failure of the zone cache *)

Lemma twp_to_wp {A} (m : M A) rt (Q : A → JSRuntime → Prop) : twp m rt Q → wp m rt Q.
Proof. unfold twp, wp. by destruct (m rt). Qed.

Ltac wp_go := repeat (wp_step; simplify_eq; rt_simpl; try done; try congruence).

Lemma wp_any {A} (m : M A) rt : wp m rt (λ _ _, True).
Proof. unfold wp. by destruct (m rt). Qed.

Lemma permanentAtomsPopulated_Some rt perm :
  permanentAtoms_ rt = Some perm → permanentAtomsPopulated rt = true.
Proof. unfold permanentAtomsPopulated. intros ->. by apply bool_decide_eq_true. Qed.

Lemma permanentAtomsPopulated_None rt :
  permanentAtoms_ rt = None → permanentAtomsPopulated rt = false.
Proof.
  unfold permanentAtomsPopulated. intros ->. apply bool_decide_eq_false. by intros [? ?].
Qed.

(** With the zone pointer set and the cache refusing the entry, the test
    after a resolution reports the failure and changes nothing. *)
Lemma zoneCacheAddFailed_fails oom cx z p atom rt :
  cacheAddFails oom = true → zone cx = Some z →
  zoneCacheAddFailed oom cx (Some p) atom rt = Return true rt.
Proof.
  intros Hfail Hzone. unfold zoneCacheAddFailed, atomCache_add.
  rewrite Hzone, Hfail. done.
Qed.

Lemma twp_ex {A} (m : M A) rt a0 (P : JSRuntime → Prop) :
  twp m rt (λ a rt', a = a0 ∧ P rt') → ∃ rt', m rt = Return a0 rt' ∧ P rt'.
Proof. intros (a & rt' & -> & -> & HP)%twp_Return. by exists rt'. Qed.

(** C7. A failure to put the resolved atom into the zone's cache fails
    the whole call: with the zone pointer set (a zone, no pinning, a miss
    in the static strings and in the cache) and the cache refusing the
    entry, a hit in the permanent set, a resolution by the table and a
    creation during initialization all end with no atom returned and
    out-of-memory reported, although the atom was found or created. *)
Theorem zone_cache_failure_fails_call `{Engine} gc oom cx z cache c idx rt :
  let lookup := AtomHasher.ofChars c in
  let call := AtomizeAndCopyChars gc oom cx c DoNotPinAtom idx in
  cacheAddFails oom = true →
  zone cx = Some z →
  atomCaches rt !! z = Some cache →
  staticStrings_lookup (units c) = None →
  AtomSet.lookup (heap rt) cache lookup = None →
  (∀ perm i e,
     permanentAtoms_ rt = Some perm →
     AtomSet.lookup (heap rt) perm lookup = Some (i, e) →
     call rt = Return None (set_pendingException (Some OutOfMemory) rt))
  ∧ (∀ perm a rt1,
       permanentAtoms_ rt = Some perm →
       AtomSet.lookup (heap rt) perm lookup = None →
       length (units c) ≤ MAX_LENGTH →
       AtomsTable.atomizeAndCopyChars gc oom c DoNotPinAtom idx lookup rt
       = Return (Some a) rt1 →
       call rt = Return None (set_pendingException (Some OutOfMemory) rt1))
  ∧ (∀ staging,
       permanentAtoms_ rt = None →
       permanentAtomsDuringInit_ rt = Some staging →
       AtomSet.lookup (heap rt) staging lookup = None →
       newStringFails oom = false → setAddFails oom = false →
       ∃ rt', call rt = Return None rt'
              ∧ pendingException rt' = Some OutOfMemory
              ∧ permanentAtomsDuringInit_ rt'
                = Some (staging ++ [AtomStateEntry.mk (length (heap rt)) true]))
  ∧ (∀ perm r rt',
       permanentAtoms_ rt = Some perm → call rt = Return r rt' → r = None).
Proof.
  intros lookup call Hfail Hzone Hcache Hstatic Hmiss. subst call lookup.
  assert (Hadd : ∀ atom rt1 (Q : bool → JSRuntime → Prop),
    Q true rt1 → twp (zoneCacheAddFailed oom cx (Some None) atom) rt1 Q).
  { intros atom rt1 Q HQ.
    eapply twp_of_eq; [eapply zoneCacheAddFailed_fails; eassumption | done]. }
  repeat split.
  - intros perm i e Hperm Hhit. apply twp_eq.
    assert (Hpop : negb (permanentAtomsPopulated rt) = false)
      by by rewrite (permanentAtomsPopulated_Some _ _ Hperm).
    unfold AtomizeAndCopyChars. rewrite Hstatic, Hzone. simpl.
    twp_go. apply Hadd. twp_go.
  - intros perm a rt1 Hperm Hpmiss Hlen Hshard. apply twp_eq.
    assert (Hpop : negb (permanentAtomsPopulated rt) = false)
      by by rewrite (permanentAtomsPopulated_Some _ _ Hperm).
    apply Nat.leb_le in Hlen.
    unfold AtomizeAndCopyChars, validateLength. rewrite Hstatic, Hzone. simpl.
    twp_go. eapply twp_of_eq; [exact Hshard|]. twp_go. apply Hadd. twp_go.
  - intros staging Hperm Hstaging Hsmiss Hnew Hadd'. apply twp_ex.
    pose proof (permanentAtomsPopulated_None _ Hperm) as Hpop'.
    assert (Hpop : negb (permanentAtomsPopulated rt) = true) by by rewrite Hpop'.
    unfold AtomizeAndCopyChars. rewrite Hstatic, Hzone. simpl.
    twp_go.
    unfold PermanentlyAtomizeAndCopyChars, morphIntoPermanentAtom.
    twp_go.
    { by apply list_lookup_middle. }
    twp_go. apply Hadd. twp_go.
  - intros perm r rt' Hperm Hcall.
    assert (Hpop : negb (permanentAtomsPopulated rt) = false)
      by by rewrite (permanentAtomsPopulated_Some _ _ Hperm).
    eapply (wp_Return _ _ (λ r _, r = None)); [|exact Hcall].
    unfold AtomizeAndCopyChars, validateLength. rewrite Hstatic, Hzone. simpl.
    wp_go; try (apply twp_to_wp, Hadd; wp_go).
    eapply wp_mono; [apply wp_any|]. intros [atom|] rt1 _; wp_go.
    apply twp_to_wp, Hadd; wp_go.
Qed.

(** ** The order of resolution *)

Section Returns.
Context `{Engine}.

Lemma zoneCacheAddFailed_twp oom cx zonePtr atom rt :
  (∀ z, zone cx = Some z → is_Some (atomCaches rt !! z)) →
  (is_Some zonePtr → is_Some (zone cx)) →
  twp (zoneCacheAddFailed oom cx zonePtr atom) rt (λ _ _, True).
Proof.
  intros Hcache Hzone. unfold zoneCacheAddFailed, atomCache_add.
  destruct zonePtr as [p|]; [|by twp_step].
  destruct Hzone as [z Hz]; [done|]. destruct (Hcache z Hz) as [cache Hc].
  rewrite Hz. repeat twp_step; done.
Qed.

(** After initialization a call returns when the zone of the context has
    its cache and the partition of the key points into the heap. *)
Lemma AtomizeAndCopyChars_returns gc oom cx c pin idx rt perm part :
  (∀ z, zone cx = Some z → is_Some (atomCaches rt !! z)) →
  permanentAtoms_ rt = Some perm →
  partitions rt !! AtomsTable.indexOf (AtomHasher.ofChars c) = Some part →
  validPartition (heap rt) part →
  ∃ r rt', AtomizeAndCopyChars gc oom cx c pin idx rt = Return r rt'.
Proof.
  intros Hcache Hperm Hpart Hvalid.
  assert (Htwp : twp (AtomizeAndCopyChars gc oom cx c pin idx) rt (λ _ _, True)).
  { unfold AtomizeAndCopyChars.
    destruct (staticStrings_lookup (units c)) as [s|]; [by twp_step|].
    assert (Hpop : negb (permanentAtomsPopulated rt) = false)
      by by rewrite (permanentAtomsPopulated_Some _ _ Hperm).
    do 2 twp_step. apply twp_bind.
    apply (twp_mono _ _ (λ zonePtr rt1, rt1 = rt ∧ (is_Some zonePtr → is_Some (zone cx)))).
    { destruct (zone cx) as [z|]; [|twp_step; split; [done | by intros [? [=]]]].
      destruct (Hcache z eq_refl) as [cache Hc].
      repeat twp_step; (split; [done|]); eauto. }
    intros zonePtr rt1 [-> Hzone].
    assert (Hadd : ∀ atom rt1 (Q : bool → JSRuntime → Prop),
      atomCaches rt1 = atomCaches rt → (∀ b rt2, Q b rt2) →
      twp (zoneCacheAddFailed oom cx zonePtr atom) rt1 Q).
    { intros atom rt1 Q Hsame HQ. eapply twp_mono.
      - apply zoneCacheAddFailed_twp; [|done]. intros z Hz. rewrite Hsame. auto.
      - intros b rt2 _. apply HQ. }
    assert (Hrest : ∀ Q : option AtomId → JSRuntime → Prop, (∀ r rt', Q r rt') →
      twp (populated ← gets permanentAtomsPopulated;
        if negb populated then
          PermanentlyAtomizeAndCopyChars oom cx zonePtr c idx (AtomHasher.ofChars c)
        else
          frozen ← gets permanentAtoms_;
          permanentAtoms ← deref frozen;
          match AtomSet.lookup (heap rt) permanentAtoms (AtomHasher.ofChars c) with
          | Some (_, e) =>
            let atom := AtomStateEntry.asPtrUnbarriered e in
            failed ← zoneCacheAddFailed oom cx zonePtr atom;
            if failed : bool then
              _ ← ReportOutOfMemory; mret None
            else mret (Some atom)
          | None =>
            valid ← validateLength (List.length (units c));
            if negb valid then mret None
            else
              r ← AtomsTable.atomizeAndCopyChars gc oom c pin idx (AtomHasher.ofChars c);
              match r with
              | None => mret None
              | Some atom =>
                failed ← zoneCacheAddFailed oom cx zonePtr atom;
                if failed : bool then
                  _ ← ReportOutOfMemory; mret None
                else mret (Some atom)
              end
          end) rt Q).
    { intros Q HQ. unfold validateLength.
      assert (Hcont : ∀ atom rt1, atomCaches rt1 = atomCaches rt →
        twp (zoneCacheAddFailed oom cx zonePtr atom) rt1
            (λ failed rt2,
               twp (if failed : bool then _ ← ReportOutOfMemory; mret None
                    else mret (Some atom)) rt2 Q)).
      { intros atom rt1 Hsame. apply Hadd; [done|].
        intros b rt2. repeat twp_step; apply HQ. }
      repeat twp_step; try apply HQ; try (by apply Hcont);
        try match goal with Hx : negb _ = _ |- _ => by simpl in Hx end.
      eapply twp_mono;
        [apply (atomizeAndCopyChars_returns gc oom c pin idx (AtomHasher.ofChars c) rt part);
         [apply indexOf_ofChars_lt | done | done]|].
      intros r1 rt1 (_ & _ & _ & _ & _ & Hsame & _).
      destruct r1 as [atom|]; [|twp_step; apply HQ].
      twp_step. by apply Hcont. }
    destruct zonePtr as [[[i e]|]|]; [by twp_step | by apply Hrest | by apply Hrest]. }
  apply twp_Return in Htwp as (r & rt' & Hrun & _). eauto.
Qed.

End Returns.


Section Order.
Context `{Engine}.

(** The end of a call that has resolved the content to [atom], in the
    runtime [rt1]: a call that has a zone pointer (a zone, and no
    pinning) enters the atom into the cache of the zone, and gives the
    atom up, with out of memory reported, when the cache refuses the
    entry; a call without zone pointer returns the atom. *)
Definition cacheOutcome (oom : Allocator) (cx : JSContext) (pin : PinningBehavior)
    (atom : AtomId) (rt1 : JSRuntime) : Outcome (option AtomId) :=
  match zone cx, pin with
  | Some z, DoNotPinAtom =>
    if cacheAddFails oom then Return None (set_pendingException (Some OutOfMemory) rt1)
    else
      match atomCaches rt1 !! z with
      | Some cache =>
        Return (Some atom)
          (set_atomCaches
             (<[z := AtomSet.add cache (AtomStateEntry.mk atom false)]> (atomCaches rt1)) rt1)
      | None => Abort InvalidPointer
      end
  | _, _ => Return (Some atom) rt1
  end.

Lemma zoneCacheAddFailed_outcome oom cx pin (zonePtr : option AtomSet.Ptr) atom rt1 :
  (is_Some zonePtr ↔ is_Some (zone cx) ∧ pin = DoNotPinAtom) →
  (failed ← zoneCacheAddFailed oom cx zonePtr atom;
   if failed : bool then _ ← ReportOutOfMemory; mret None else mret (Some atom)) rt1
  = cacheOutcome oom cx pin atom rt1.
Proof.
  intros Hptr. unfold cacheOutcome, zoneCacheAddFailed, atomCache_add, atomCache.
  destruct zonePtr as [p|].
  - destruct Hptr as [[[z Hz] ->] _]; [by eexists|]. rewrite Hz.
    unfold mbind, M_bind, deref, gets, modify, mret, M_ret, ReportOutOfMemory. simpl.
    destruct (cacheAddFails oom); simpl; [done|].
    by destruct (atomCaches rt1 !! z).
  - destruct (zone cx) as [z|]; [|done]. destruct pin; [|done].
    destruct Hptr as [_ Hptr]. destruct Hptr as [? [=]]. by eauto.
Qed.


(** C6. Atomization consults its sources in a fixed order, and a hit
    ends the call before the later ones are looked at. (a) A hit in the
    static strings returns with the runtime untouched. (b) After a miss
    there, a hit in the zone's cache returns with the runtime untouched,
    so neither takes a partition lock. (c) After a miss in both, a hit
    in the permanent set decides: the call ends as [cacheOutcome] says,
    with the atom of the set, and returns it unless the cache of the
    zone refuses the entry; the heap, the partitions and the mutexes
    stay as they were. (d) After a miss in the permanent set, a length
    over the maximum fails the call with only the error recorded. (e)
    Only then the table is called, on the runtime as it was: the call is
    the call of the table, followed, when the table has returned an
    atom, by the end that [cacheOutcome] gives, so the atom of the table
    is returned unless the cache refuses it. During initialization the
    partitions are not touched at all. After it the call returns,
    whenever the zone of the context has its cache and the partition of
    the key points into the heap. *)
Theorem atomize_resolution_order gc oom cx c pin idx rt :
  let lookup := AtomHasher.ofChars c in
  let call := AtomizeAndCopyChars gc oom cx c pin idx in
  let cacheMissed :=
    ∀ z, zone cx = Some z → pin = DoNotPinAtom →
         ∃ cache, atomCaches rt !! z = Some cache
                  ∧ AtomSet.lookup (heap rt) cache lookup = None in
  let shardsUntouched rt' :=
    heap rt' = heap rt ∧ partitions rt' = partitions rt ∧ mutexLog rt' = mutexLog rt in
  (∀ s, staticStrings_lookup (units c) = Some s → call rt = Return (Some s) rt)
  ∧ (∀ z cache i e,
       staticStrings_lookup (units c) = None →
       zone cx = Some z → pin = DoNotPinAtom →
       atomCaches rt !! z = Some cache →
       AtomSet.lookup (heap rt) cache lookup = Some (i, e) →
       call rt = Return (Some (AtomStateEntry.asPtrUnbarriered e)) rt)
  ∧ (∀ perm i e,
       staticStrings_lookup (units c) = None → cacheMissed →
       permanentAtoms_ rt = Some perm →
       AtomSet.lookup (heap rt) perm lookup = Some (i, e) →
       call rt = cacheOutcome oom cx pin (AtomStateEntry.asPtrUnbarriered e) rt
       ∧ ∀ r rt', call rt = Return r rt' → shardsUntouched rt')
  ∧ (∀ perm,
       staticStrings_lookup (units c) = None → cacheMissed →
       permanentAtoms_ rt = Some perm →
       AtomSet.lookup (heap rt) perm lookup = None →
       MAX_LENGTH < length (units c) →
       call rt = Return None (set_pendingException (Some AllocationOverflow) rt))
  ∧ (∀ perm,
       staticStrings_lookup (units c) = None → cacheMissed →
       permanentAtoms_ rt = Some perm →
       AtomSet.lookup (heap rt) perm lookup = None →
       length (units c) ≤ MAX_LENGTH →
       call rt
       = match AtomsTable.atomizeAndCopyChars gc oom c pin idx lookup rt with
         | Return (Some atom) rt1 => cacheOutcome oom cx pin atom rt1
         | Return None rt1 => Return None rt1
         | Abort f => Abort f
         end)
  ∧ (∀ r rt',
       permanentAtoms_ rt = None → call rt = Return r rt' →
       partitions rt' = partitions rt ∧ mutexLog rt' = mutexLog rt)
  ∧ (∀ perm part,
       (∀ z, zone cx = Some z → is_Some (atomCaches rt !! z)) →
       permanentAtoms_ rt = Some perm →
       partitions rt !! AtomsTable.indexOf lookup = Some part →
       validPartition (heap rt) part →
       ∃ r rt', call rt = Return r rt').
Proof.
  intros lookup call cacheMissed shardsUntouched. subst lookup call.
  (* the call after the misses in the static strings and in the cache *)
  assert (Hhead : ∀ perm,
    staticStrings_lookup (units c) = None → cacheMissed →
    permanentAtoms_ rt = Some perm →
    ∃ zonePtr : option AtomSet.Ptr,
      (is_Some zonePtr ↔ is_Some (zone cx) ∧ pin = DoNotPinAtom)
      ∧ AtomizeAndCopyChars gc oom cx c pin idx rt
        = match AtomSet.lookup (heap rt) perm (AtomHasher.ofChars c) with
          | Some (_, e) =>
            let atom := AtomStateEntry.asPtrUnbarriered e in
            (failed ← zoneCacheAddFailed oom cx zonePtr atom;
             if failed : bool then _ ← ReportOutOfMemory; mret None
             else mret (Some atom)) rt
          | None =>
            (valid ← validateLength (length (units c));
             if negb valid then mret None
             else
               r ← AtomsTable.atomizeAndCopyChars gc oom c pin idx (AtomHasher.ofChars c);
               match r with
               | None => mret None
               | Some atom =>
                 failed ← zoneCacheAddFailed oom cx zonePtr atom;
                 if failed : bool then _ ← ReportOutOfMemory; mret None
                 else mret (Some atom)
               end) rt
          end).
  { intros perm Hstatic Hmiss Hperm.
    pose proof (permanentAtomsPopulated_Some _ _ Hperm) as Hpop.
    unfold AtomizeAndCopyChars. rewrite Hstatic.
    destruct (zone cx) as [z|] eqn:Hzone; [destruct pin|].
    - destruct (Hmiss z eq_refl eq_refl) as (cache & Hcache & Hl).
      exists (Some None). split; [split; [by eauto | by eexists]|].
      unfold atomCache. unfold mbind, M_bind, gets, deref, mret, M_ret. simpl.
      rewrite Hcache. simpl. rewrite Hl. simpl. rewrite Hpop. simpl. rewrite Hperm. simpl.
      by destruct (AtomSet.lookup (heap rt) perm _) as [[i e]|].
    - exists None. split; [split; [by intros [? [=]] | by intros [_ [=]]]|].
      unfold mbind, M_bind, gets, deref, mret, M_ret. simpl.
      rewrite Hpop. simpl. rewrite Hperm. simpl.
      by destruct (AtomSet.lookup (heap rt) perm _) as [[i e]|].
    - exists None. split; [split; [by intros [? [=]] | by intros [[? [=]] _]]|].
      unfold mbind, M_bind, gets, deref, mret, M_ret. simpl.
      rewrite Hpop. simpl. rewrite Hperm. simpl.
      by destruct (AtomSet.lookup (heap rt) perm _) as [[i e]|]. }
  refine (conj _ (conj _ (conj _ (conj _ (conj _ (conj _ _)))))).
  - intros s Hs. unfold AtomizeAndCopyChars. by rewrite Hs.
  - intros z cache i e Hstatic Hzone -> Hcache Hhit. apply twp_eq.
    unfold AtomizeAndCopyChars. rewrite Hstatic, Hzone. simpl. twp_go.
  - intros perm i e Hstatic Hmiss Hperm Hhit.
    destruct (Hhead perm Hstatic Hmiss Hperm) as (zonePtr & Hptr & ->).
    rewrite Hhit. cbv zeta. rewrite (zoneCacheAddFailed_outcome _ _ pin) by done.
    split; [done|]. intros r rt'. unfold cacheOutcome.
    destruct (zone cx) as [z|]; [destruct pin|]; [|by intros [= _ <-]..].
    destruct (cacheAddFails oom); [by intros [= _ <-]|].
    destruct (atomCaches rt !! z); [by intros [= _ <-] | done].
  - intros perm Hstatic Hmiss Hperm Hpmiss Hlen.
    destruct (Hhead perm Hstatic Hmiss Hperm) as (zonePtr & Hptr & ->).
    rewrite Hpmiss. apply Nat.leb_gt in Hlen.
    unfold validateLength, mbind, M_bind. by rewrite Hlen.
  - intros perm Hstatic Hmiss Hperm Hpmiss Hlen.
    destruct (Hhead perm Hstatic Hmiss Hperm) as (zonePtr & Hptr & ->).
    rewrite Hpmiss. apply Nat.leb_le in Hlen.
    unfold validateLength. unfold mbind at 1, M_bind at 1. rewrite Hlen. simpl.
    unfold mbind at 1, M_bind at 1.
    destruct (AtomsTable.atomizeAndCopyChars gc oom c pin idx (AtomHasher.ofChars c) rt)
      as [[atom|] rt1|f]; [|done..].
    by apply zoneCacheAddFailed_outcome.
  - intros r rt' Hperm Hcall.
    pose proof (permanentAtomsPopulated_None _ Hperm) as Hpop'.
    assert (negb (permanentAtomsPopulated rt) = true) by by rewrite Hpop'.
    eapply (wp_Return _ _ (λ r rt',
              partitions rt' = partitions rt ∧ mutexLog rt' = mutexLog rt));
      [|exact Hcall].
    unfold AtomizeAndCopyChars.
    destruct (staticStrings_lookup (units c)); [by wp_go|].
    unfold PermanentlyAtomizeAndCopyChars, morphIntoPermanentAtom,
      zoneCacheAddFailed, atomCache_add.
    wp_go.
  - intros perm part Hcache Hperm Hpart Hvalid.
    by eapply AtomizeAndCopyChars_returns.
Qed.

End Order.

(** ** Pinning *)

Section Pin.
Context `{Engine}.

(** A key made from an atom matches the entries that point at the atom. *)
Lemma match_ofAtom h e a cell :
  AtomHasher.match_ h e (AtomHasher.ofAtom a cell)
  = Nat.eqb a (AtomStateEntry.asPtrUnbarriered e).
Proof. done. Qed.

Lemma lookup_ofAtom_Some h set a cell i e :
  AtomSet.lookup h set (AtomHasher.ofAtom a cell) = Some (i, e) →
  set !! i = Some e ∧ AtomStateEntry.asPtrUnbarriered e = a.
Proof.
  intros (Hi & Hm & _)%lookup_Some. split; [done|].
  rewrite match_ofAtom in Hm. by apply Nat.eqb_eq in Hm.
Qed.

Lemma lookup_ofAtom_is_Some h set a cell i e :
  set !! i = Some e → AtomStateEntry.asPtrUnbarriered e = a →
  is_Some (AtomSet.lookup h set (AtomHasher.ofAtom a cell)).
Proof.
  intros Hi Ha. unfold AtomSet.lookup.
  destruct (list_find _ set) as [[j e']|] eqn:Hfind; [done|].
  apply list_find_None in Hfind. eapply Forall_lookup_1 in Hfind; [|exact Hi].
  rewrite match_ofAtom, <-Ha, Nat.eqb_refl in Hfind. done.
Qed.

Lemma pinLookup_Some h part a cell r i e :
  AtomsTable.pinLookup h part (AtomHasher.ofAtom a cell) = Some (r, i, e) →
  AtomsTable.entryAt part r i = Some e ∧ AtomStateEntry.asPtrUnbarriered e = a.
Proof.
  unfold AtomsTable.pinLookup, AtomsTable.entryAt.
  destruct (AtomSet.lookup h (Partition.atoms part) _) as [[i1 e1]|] eqn:H1.
  { intros ?; simplify_eq. by apply lookup_ofAtom_Some in H1. }
  destruct (Partition.atomsAddedWhileSweeping part) as [added|]; [|done].
  destruct (AtomSet.lookup h added _) as [[i2 e2]|] eqn:H2; [|done].
  intros ?; simplify_eq. by apply lookup_ofAtom_Some in H2.
Qed.

Lemma pinLookup_is_Some h part a cell r i e :
  AtomsTable.entryAt part r i = Some e → AtomStateEntry.asPtrUnbarriered e = a →
  is_Some (AtomsTable.pinLookup h part (AtomHasher.ofAtom a cell)).
Proof.
  unfold AtomsTable.pinLookup, AtomsTable.entryAt. intros He Ha.
  destruct (AtomSet.lookup h (Partition.atoms part) _) as [[i1 e1]|] eqn:H1; [done|].
  destruct r.
  - destruct (lookup_ofAtom_is_Some h _ a cell i e He Ha) as [? Hs]. congruence.
  - destruct (Partition.atomsAddedWhileSweeping part) as [added|]; [|done]. simpl in He.
    destruct (lookup_ofAtom_is_Some h _ a cell i e He Ha) as [[i2 e2] ->]. done.
Qed.

Lemma entryAt_setPinnedAt part r i e :
  AtomsTable.entryAt part r i = Some e →
  AtomsTable.entryAt (AtomsTable.setPinnedAt part r i) r i
  = Some (AtomStateEntry.setPinned true e).
Proof.
  unfold AtomsTable.entryAt, AtomsTable.setPinnedAt, AtomSet.setPinned.
  destruct r; cbn [Partition.atoms Partition.atomsAddedWhileSweeping].
  - intros He. by rewrite list_lookup_alter_eq, He.
  - destruct (Partition.atomsAddedWhileSweeping part) as [added|]; [|done].
    cbn [fmap option_fmap option_map mbind option_bind].
    intros He. by rewrite list_lookup_alter_eq, He.
Qed.

End Pin.

(** C10. [pinExistingAtom] asserts that its argument is not pinned yet:
    on a pinned atom the assertion fails, and [AtomizeString], which
    calls it only for an atom that is not pinned, returns a pinned (or
    permanent) atom with the runtime unchanged. On an atom that is not
    pinned, whose cached hash is that of its characters and which has an
    entry in the main or the secondary set of its partition, the
    assertions of [pinExistingAtom] hold: it returns, and afterwards the
    pinned bit of the atom and that of its entry are set. *)
Theorem pinExistingAtom_precondition `{Engine} gc oom flattenFails cx atom cell rt :
  heap rt !! atom = Some cell →
  (JSAtom.isPinned cell = true →
     AtomsTable.pinExistingAtom atom rt = Abort AssertionFailure
     ∧ ∀ pin, AtomizeString gc oom flattenFails cx (AtomString atom) pin rt
              = Return (Some atom) rt)
  ∧ (JSAtom.isPinned cell = false →
     HashString (JSAtom.chars cell) = JSAtom.hash cell →
     ∀ part r i e,
       partitions rt !! AtomsTable.indexOf (AtomHasher.ofAtom atom cell) = Some part →
       AtomsTable.entryAt part r i = Some e →
       AtomStateEntry.asPtrUnbarriered e = atom →
       ∃ rt',
         AtomsTable.pinExistingAtom atom rt = Return tt rt'
         ∧ AtomizeString gc oom flattenFails cx (AtomString atom) PinAtom rt
           = Return (Some atom) rt'
         ∧ JSAtom.isPinned <$> heap rt' !! atom = Some true
         ∧ ∃ part' r' i' e',
             partitions rt' !! AtomsTable.indexOf (AtomHasher.ofAtom atom cell) = Some part'
             ∧ AtomsTable.entryAt part' r' i' = Some e'
             ∧ AtomStateEntry.asPtrUnbarriered e' = atom
             ∧ AtomStateEntry.isPinned e' = true).
Proof.
  intros Hcell. split.
  - intros Hpinned. split.
    + unfold AtomsTable.pinExistingAtom, readAtom, gets, deref, mbind, M_bind.
      rewrite Hcell. simpl. by rewrite Hpinned.
    + intros pin. unfold AtomizeString, readAtom, gets, deref, mbind, M_bind.
      rewrite Hcell. simpl. rewrite Hpinned. by destruct pin.
  - intros Hunpinned Hhash part r i e Hpart He Hptr.
    assert (Hpin : twp (AtomsTable.pinExistingAtom atom) rt (λ _ rt',
      JSAtom.isPinned <$> heap rt' !! atom = Some true
      ∧ ∃ part' r' i' e',
          partitions rt' !! AtomsTable.indexOf (AtomHasher.ofAtom atom cell) = Some part'
          ∧ AtomsTable.entryAt part' r' i' = Some e'
          ∧ AtomStateEntry.asPtrUnbarriered e' = atom
          ∧ AtomStateEntry.isPinned e' = true)).
    { unfold AtomsTable.pinExistingAtom, Lookup_ofAtom, AtomsTable.getPartitionIndex.
      assert (Hlt : AtomsTable.indexOf (AtomHasher.ofAtom atom cell)
                    < AtomsTable.PartitionCount).
      { apply indexOf_lt. simpl. rewrite <-Hhash. apply HashString_uint32. }
      apply Nat.ltb_lt in Hlt. apply Z.eqb_eq in Hhash.
      destruct (pinLookup_is_Some (heap rt) part atom cell r i e He Hptr)
        as [[[r1 i1] e1] Hfound].
      pose proof (pinLookup_Some _ _ _ _ _ _ _ Hfound) as [He1 Hptr1].
      assert (Hnp : negb (JSAtom.isPinned cell) = true) by by rewrite Hunpinned.
      twp_go.
      { rewrite Hfound. by apply bool_decide_eq_true. }
      twp_go.
      { rewrite Hptr1. apply Nat.eqb_refl. }
      intros log'. split.
      { by rewrite list_lookup_alter_eq, Hcell. }
      exists (AtomsTable.setPinnedAt part r1 i1), r1, i1, (AtomStateEntry.setPinned true e1).
      split; [apply list_lookup_insert_eq; by eapply lookup_lt_Some|].
      split; [by apply entryAt_setPinnedAt|]. done. }
    apply twp_Return in Hpin as ([] & rt' & Hrun & Hpost).
    exists rt'. split; [done|]. split; [|done].
    unfold AtomizeString. unfold mbind at 1, M_bind at 1, readAtom.
    unfold mbind at 1, M_bind at 1, gets, deref. rewrite Hcell. simpl.
    rewrite Hunpinned. simpl. unfold mbind, M_bind. by rewrite Hrun.
Qed.


(** ** Sweeping *)

(** [swept gc l l']: [l'] is [l] without some entries whose atoms the
    collector reports about to be finalized. *)
Inductive swept (gc : Collector) : AtomSet.t → AtomSet.t → Prop :=
  | swept_nil : swept gc [] []
  | swept_keep e l l' : swept gc l l' → swept gc (e :: l) (e :: l')
  | swept_drop e l l' :
      gc (AtomStateEntry.asPtrUnbarriered e) = true → swept gc l l' → swept gc (e :: l) l'.

Lemma swept_refl gc l : swept gc l l.
Proof. induction l; constructor; done. Qed.

Lemma swept_trans gc l1 l2 l3 : swept gc l1 l2 → swept gc l2 l3 → swept gc l1 l3.
Proof.
  intros H12. revert l3. induction H12 as [|e l l' _ IH|e l l' Hd _ IH]; intros l3 H23.
  - done.
  - inversion H23; subst; [apply swept_keep | apply swept_drop]; auto.
  - apply swept_drop; auto.
Qed.

Lemma swept_delete gc l i e :
  l !! i = Some e → gc (AtomStateEntry.asPtrUnbarriered e) = true → swept gc l (delete i l).
Proof.
  revert i. induction l as [|x l IH]; intros [|i] Hi Hd; simplify_eq/=.
  - apply swept_drop; [done | apply swept_refl].
  - apply swept_keep. by apply IH.
Qed.

Lemma swept_live gc l l' e :
  swept gc l l' → e ∈ l → gc (AtomStateEntry.asPtrUnbarriered e) = false → e ∈ l'.
Proof.
  induction 1 as [|x l l' _ IH|x l l' Hd _ IH]; intros He Hlive.
  - done.
  - apply elem_of_cons in He as [->|He]; [left | right; auto].
  - apply elem_of_cons in He as [->|He]; [congruence | auto].
Qed.

Lemma swept_sublist gc l l' : swept gc l l' → l' `sublist_of` l.
Proof. induction 1; [constructor | by constructor | by constructor]. Qed.

Lemma swept_length gc l l' : swept gc l l' → length l' ≤ length l.
Proof. intros Hs. apply sublist_length. by eapply swept_sublist. Qed.

Section Merge.
Context `{Engine}.

(** Every entry of the set points at a cell whose cached hash is the hash
    of its characters: what the key made from it asserts. *)
Definition hashedSet (h : Heap) (set : AtomSet.t) : Prop :=
  Forall (λ e, ∃ cell, h !! AtomStateEntry.asPtrUnbarriered e = Some cell
                       ∧ HashString (JSAtom.chars cell) = JSAtom.hash cell) set.

Lemma merge_loop_wp fails i rest : ∀ j rt,
  wp (AtomsTable.merge_loop fails i j rest) rt (λ _ rt',
    (rest = [] ∧ rt' = rt)
    ∨ ∃ part, partitions rt !! i = Some part
              ∧ rt' = set_partitions
                        (<[i := Partition.mk (Partition.atoms part ++ rest)
                                             (Partition.atomsAddedWhileSweeping part)]>
                           (partitions rt)) rt).
Proof.
  induction rest as [|entry rest IH]; intros j rt; simpl.
  - wp_go. by left.
  - unfold Lookup_ofAtom. wp_go.
    eapply wp_mono; [apply IH|]. intros [] rt' Hpost. rt_simpl. right.
    match goal with Hp : partitions rt !! i = Some ?p |- _ => exists p; split; [done|] end.
    destruct Hpost as [[Hrest Hrt] | (part' & Hpart' & Hrt)]; subst rt'.
    + subst rest. done.
    + rt_simpl. rewrite list_lookup_insert_eq in Hpart' by by eapply lookup_lt_Some.
      simplify_eq. cbn [Partition.atoms Partition.atomsAddedWhileSweeping AtomSet.add].
      unfold AtomSet.add. rewrite set_partitions_twice, list_insert_insert_eq, <-app_assoc. done.
Qed.

Lemma merge_loop_twp fails i rest : ∀ j rt,
  is_Some (partitions rt !! i) →
  hashedSet (heap rt) rest →
  (∀ k, fails k = false) →
  twp (AtomsTable.merge_loop fails i j rest) rt (λ _ _, True).
Proof.
  induction rest as [|entry rest IH]; intros j rt [part Hpart] Hhashed Hok; simpl.
  - by twp_go.
  - apply Forall_cons in Hhashed as [(cell & Hcell & Hhash) Hhashed].
    apply Z.eqb_eq in Hhash. pose proof (Hok j).
    unfold Lookup_ofAtom. twp_go.
    apply IH; rt_simpl; [|done|done].
    apply lookup_lt_is_Some. rewrite length_insert. by eapply lookup_lt_Some.
Qed.

(** The merge of a partition's secondary set, whenever it returns. *)
Lemma mergeAtomsAddedWhileSweeping_wp fails i rt :
  wp (AtomsTable.mergeAtomsAddedWhileSweeping fails i) rt (λ _ rt',
    ∃ part added,
      partitions rt !! i = Some part
      ∧ Partition.atomsAddedWhileSweeping part = Some added
      ∧ rt' = set_partitions
                (<[i := Partition.mk (Partition.atoms part ++ added) None]> (partitions rt))
                rt).
Proof.
  unfold AtomsTable.mergeAtomsAddedWhileSweeping. wp_go.
  eapply wp_mono; [apply merge_loop_wp|]. intros [] rt' Hpost. rt_simpl.
  match goal with Hp : partitions rt !! i = Some ?p |- _ => exists p end.
  eexists; split; [done|]. split; [done|].
  assert (i < length (partitions rt)) by by eapply lookup_lt_Some.
  destruct Hpost as [[Hrest Hrt] | (part' & Hpart' & Hrt)]; subst rt'.
  - subst. by rewrite app_nil_r.
  - rt_simpl. rewrite list_lookup_insert_eq in Hpart' by done. simplify_eq.
    cbn [Partition.atoms Partition.atomsAddedWhileSweeping].
    by rewrite set_partitions_twice, list_insert_insert_eq.
Qed.

Lemma mergeAtomsAddedWhileSweeping_twp fails i rt part added :
  partitions rt !! i = Some part →
  Partition.atomsAddedWhileSweeping part = Some added →
  hashedSet (heap rt) added →
  (∀ k, fails k = false) →
  twp (AtomsTable.mergeAtomsAddedWhileSweeping fails i) rt (λ _ rt',
    rt' = set_partitions
            (<[i := Partition.mk (Partition.atoms part ++ added) None]> (partitions rt)) rt).
Proof.
  intros Hpart Hadded Hhashed Hok.
  assert (Hret : twp (AtomsTable.mergeAtomsAddedWhileSweeping fails i) rt (λ _ _, True)).
  { unfold AtomsTable.mergeAtomsAddedWhileSweeping. twp_go.
    apply merge_loop_twp; rt_simpl; [|done|done].
    apply lookup_lt_is_Some. rewrite length_insert. by eapply lookup_lt_Some. }
  eapply twp_mono;
    [exact (twp_wp _ _ _ _ Hret (mergeAtomsAddedWhileSweeping_wp fails i rt))|].
  intros [] rt' [_ (part' & added' & ? & ? & ->)]. by simplify_eq.
Qed.

End Merge.

(** ** Failures of the merge

    The only failure of an allocation that a sweep does not survive is
    that of a [putNew] in the merge of a secondary set, which crashes the
    process. A sweep in which allocations may fail crashes or does what
    the sweep without failures does. *)

Definition neverFails : nat → bool := λ _, false.

(** [o] is the crash of the process, or is [o']. *)
Definition crashOr {A} (o o' : Outcome A) : Prop := o = Abort OOMCrash ∨ o = o'.

Lemma crashOr_refl {A} (o : Outcome A) : crashOr o o.
Proof. by right. Qed.

Lemma crashOr_bind {A B} (m m' : M A) (k k' : A → M B) rt :
  crashOr (m rt) (m' rt) →
  (∀ a rt1, crashOr (k a rt1) (k' a rt1)) →
  crashOr ((m ≫= k) rt) ((m' ≫= k') rt).
Proof.
  intros Hm Hk. unfold mbind, M_bind. destruct Hm as [-> | ->]; [by left|].
  destruct (m' rt) as [a rt1|e]; [apply Hk | by right].
Qed.

Lemma crashOr_bind_same {A B} (m : M A) (k k' : A → M B) rt :
  (∀ a rt1, crashOr (k a rt1) (k' a rt1)) →
  crashOr ((m ≫= k) rt) ((m ≫= k') rt).
Proof. intros Hk. apply crashOr_bind; [apply crashOr_refl | done]. Qed.

Ltac crash_step :=
  lazymatch goal with
  | |- crashOr ((_ ≫= _) _) ((_ ≫= _) _) =>
    first [ apply crashOr_bind_same; intros ? ? | apply crashOr_bind; [|intros ? ?] ]
  | |- crashOr ((if ?b then _ else _) _) _ => destruct b
  | |- crashOr ((match ?x with _ => _ end) _) _ => destruct x
  | |- crashOr ?o ?o => apply crashOr_refl
  end.

Section Crash.
Context `{Engine}.

Lemma merge_loop_crashOr fails i rest : ∀ j rt,
  crashOr (AtomsTable.merge_loop fails i j rest rt)
          (AtomsTable.merge_loop neverFails i j rest rt).
Proof.
  induction rest as [|entry rest IH]; intros j rt; simpl; [apply crashOr_refl|].
  crash_step. apply crashOr_bind; [|intros ? ?; apply IH].
  unfold neverFails. destruct (fails j); [by left | apply crashOr_refl].
Qed.

Lemma mergeAtomsAddedWhileSweeping_crashOr fails i rt :
  crashOr (AtomsTable.mergeAtomsAddedWhileSweeping fails i rt)
          (AtomsTable.mergeAtomsAddedWhileSweeping neverFails i rt).
Proof.
  unfold AtomsTable.mergeAtomsAddedWhileSweeping.
  do 3 crash_step. apply merge_loop_crashOr.
Qed.

Lemma settle_loop_crashOr fails fuel : ∀ it rt,
  crashOr (AtomsTable.SweepIterator.settle_loop fails fuel it rt)
          (AtomsTable.SweepIterator.settle_loop neverFails fuel it rt).
Proof.
  induction fuel as [|fuel IH]; intros it rt; simpl; [apply crashOr_refl|].
  crash_step. crash_step; [|apply crashOr_refl].
  apply crashOr_bind.
  - unfold AtomsTable.SweepIterator.finishSweepingPartition.
    apply crashOr_bind; [apply mergeAtomsAddedWhileSweeping_crashOr|].
    intros ? ?. apply crashOr_refl.
  - intros it1 rt2. crash_step; [apply crashOr_refl|]. crash_step. apply IH.
Qed.

Lemma settle_crashOr fails it rt :
  crashOr (AtomsTable.SweepIterator.settle fails it rt)
          (AtomsTable.SweepIterator.settle neverFails it rt).
Proof.
  unfold AtomsTable.SweepIterator.settle. do 2 crash_step. apply settle_loop_crashOr.
Qed.

Lemma popFront_crashOr fails it rt :
  crashOr (AtomsTable.SweepIterator.popFront fails it rt)
          (AtomsTable.SweepIterator.popFront neverFails it rt).
Proof.
  unfold AtomsTable.SweepIterator.popFront. do 2 crash_step. apply settle_crashOr.
Qed.

Lemma sweepIncrementally_loop_crashOr gc fails fuel : ∀ it budget rt,
  crashOr (AtomsTable.sweepIncrementally_loop gc fails fuel it budget rt)
          (AtomsTable.sweepIncrementally_loop gc neverFails fuel it budget rt).
Proof.
  induction fuel as [|fuel IH]; intros it budget rt; simpl; [apply crashOr_refl|].
  crash_step; [apply crashOr_refl|]. crash_step; [apply crashOr_refl|].
  do 2 crash_step. apply crashOr_bind; [apply popFront_crashOr|].
  intros ? ?. apply IH.
Qed.

Lemma sweepIncrementally_crashOr gc fails it budget rt :
  crashOr (AtomsTable.sweepIncrementally gc fails it budget rt)
          (AtomsTable.sweepIncrementally gc neverFails it budget rt).
Proof.
  unfold AtomsTable.sweepIncrementally. crash_step. apply sweepIncrementally_loop_crashOr.
Qed.

End Crash.

(** ** Incremental sweeping *)

Section Sweep.
Context `{Engine}.

(** ** The state of an incremental sweep *)

Definition cursorPos (it : AtomsTable.SweepIterator.t) : nat :=
  match AtomsTable.SweepIterator.atomsIter it with
  | Some e => Enum.pos e
  | None => 0
  end.

(** The partitions before [idx] have been merged and have no secondary
    set; the partitions from [idx] on have theirs. *)
Definition mergedBefore (idx : nat) (ps : list Partition.t) : Prop :=
  ∀ i part, ps !! i = Some part →
    (i < idx → Partition.atomsAddedWhileSweeping part = None)
    ∧ (idx ≤ i → is_Some (Partition.atomsAddedWhileSweeping part)).

(** The atoms of the secondary sets are cells with their hash cached. *)
Definition secondariesHashed (rt : JSRuntime) : Prop :=
  ∀ i part added,
    partitions rt !! i = Some part →
    Partition.atomsAddedWhileSweeping part = Some added →
    hashedSet (heap rt) added.

(** The cursor stands in the main set of its partition, at most at its
    end ([strict = false]) or on an entry ([strict = true]). *)
Definition cursorIn (strict : bool) (it : AtomsTable.SweepIterator.t)
    (ps : list Partition.t) : Prop :=
  AtomsTable.SweepIterator.partitionIndex it < AtomsTable.PartitionCount →
  ∃ e part,
    AtomsTable.SweepIterator.atomsIter it = Some e
    ∧ Enum.removed e = false
    ∧ ps !! AtomsTable.SweepIterator.partitionIndex it = Some part
    ∧ if strict then Enum.pos e < length (Partition.atoms part)
      else Enum.pos e ≤ length (Partition.atoms part).

(** An incremental sweep is in progress, with [it] as its cursor. *)
Definition sweeping (strict : bool) (it : AtomsTable.SweepIterator.t)
    (rt : JSRuntime) : Prop :=
  length (partitions rt) = AtomsTable.PartitionCount
  ∧ AtomsTable.SweepIterator.partitionIndex it ≤ AtomsTable.PartitionCount
  ∧ mergedBefore (AtomsTable.SweepIterator.partitionIndex it) (partitions rt)
  ∧ secondariesHashed rt
  ∧ cursorIn strict it (partitions rt).

(** What a stretch of sweeping that ends with the cursor in partition
    [idx'] has done to the partitions: a partition without a secondary
    set is as it was; one with a secondary set either still has it, and
    has lost dead entries of its main set, or has been passed by the
    cursor and merged as a whole. *)
Definition progress (gc : Collector) (ps : list Partition.t) (idx' : nat)
    (ps' : list Partition.t) : Prop :=
  length ps' = length ps
  ∧ ∀ i part, ps !! i = Some part →
      ∃ part', ps' !! i = Some part'
        ∧ match Partition.atomsAddedWhileSweeping part with
          | None => part' = part
          | Some added =>
            (Partition.atomsAddedWhileSweeping part' = Some added
             ∧ idx' ≤ i
             ∧ swept gc (Partition.atoms part) (Partition.atoms part'))
            ∨ (Partition.atomsAddedWhileSweeping part' = None
               ∧ i < idx'
               ∧ ∃ kept, swept gc (Partition.atoms part) kept
                         ∧ Partition.atoms part' = kept ++ added)
          end.

Lemma progress_refl gc idx ps : mergedBefore idx ps → progress gc ps idx ps.
Proof.
  intros Hm. split; [done|]. intros i part Hi. exists part. split; [done|].
  destruct (Partition.atomsAddedWhileSweeping part) as [added|] eqn:Hsec; [|done].
  left. repeat split; [|apply swept_refl].
  destruct (Hm i part Hi) as [Hlt _]. destruct (decide (idx ≤ i)); [done|].
  rewrite Hlt in Hsec by lia. done.
Qed.

Lemma progress_trans gc ps1 idx2 ps2 idx3 ps3 :
  progress gc ps1 idx2 ps2 → progress gc ps2 idx3 ps3 → idx2 ≤ idx3 →
  progress gc ps1 idx3 ps3.
Proof.
  intros [Hlen12 H12] [Hlen23 H23] Hle. split; [congruence|].
  intros i part1 Hi1.
  destruct (H12 i part1 Hi1) as (part2 & Hi2 & Hstep12).
  destruct (H23 i part2 Hi2) as (part3 & Hi3 & Hstep23).
  exists part3. split; [done|].
  destruct (Partition.atomsAddedWhileSweeping part1) as [added|] eqn:Hsec1.
  - destruct Hstep12 as [(Hsec2 & Hidx & Hswept12) | (Hsec2 & Hidx & kept & Hkept & Hatoms)];
      rewrite Hsec2 in Hstep23.
    + destruct Hstep23 as [(Hsec3 & Hidx3 & Hswept23)
                          | (Hsec3 & Hidx3 & kept & Hkept & Hatoms)].
      * left. repeat split; [done..|]. by eapply swept_trans.
      * right. repeat split; [done..|]. exists kept. split; [|done].
        by eapply swept_trans.
    + subst part3. right. repeat split; [done|lia|]. by exists kept.
  - subst part2. by rewrite Hsec1 in Hstep23.
Qed.

(** The entries of main sets that the cursor has not passed yet. *)
Definition work (it : AtomsTable.SweepIterator.t) (ps : list Partition.t) : nat :=
  sum_list ((length ∘ Partition.atoms) <$>
            drop (AtomsTable.SweepIterator.partitionIndex it) ps)
  - cursorPos it.


Lemma work_at it ps part :
  ps !! AtomsTable.SweepIterator.partitionIndex it = Some part →
  work it ps
  = length (Partition.atoms part)
    + sum_list ((length ∘ Partition.atoms) <$>
                drop (S (AtomsTable.SweepIterator.partitionIndex it)) ps)
    - cursorPos it.
Proof. intros Hpart. unfold work. by rewrite (drop_S _ _ _ Hpart). Qed.

(** A cursor that stands on an entry has work left. *)
Lemma work_pos it rt :
  sweeping true it rt →
  AtomsTable.SweepIterator.partitionIndex it < AtomsTable.PartitionCount →
  0 < work it (partitions rt).
Proof.
  intros (_ & _ & _ & _ & Hcur) Hlt.
  destruct (Hcur Hlt) as (e & part & He & _ & Hpart & Hpos).
  rewrite (work_at _ _ _ Hpart). unfold cursorPos. rewrite He. lia.
Qed.

Lemma work_end it ps :
  length ps ≤ AtomsTable.SweepIterator.partitionIndex it → work it ps = 0.
Proof. intros Hle. unfold work. by rewrite drop_ge by done. Qed.

Lemma mergedBefore_merge idx ps part added :
  mergedBefore idx ps → ps !! idx = Some part →
  mergedBefore (S idx)
    (<[idx := Partition.mk (Partition.atoms part ++ added) None]> ps).
Proof.
  intros Hm Hpart i part' Hi.
  destruct (decide (i = idx)) as [->|Hne].
  - rewrite list_lookup_insert_eq in Hi by by eapply lookup_lt_Some.
    simplify_eq. split; [done | lia].
  - rewrite list_lookup_insert_ne in Hi by done.
    destruct (Hm i part' Hi) as [Hlt Hge]. split; intros ?; [apply Hlt | apply Hge]; lia.
Qed.

Lemma progress_merge gc idx ps part added :
  mergedBefore idx ps → ps !! idx = Some part →
  Partition.atomsAddedWhileSweeping part = Some added →
  progress gc ps (S idx) (<[idx := Partition.mk (Partition.atoms part ++ added) None]> ps).
Proof.
  intros Hm Hpart Hadded. split; [by rewrite length_insert|].
  intros i part1 Hi.
  destruct (decide (i = idx)) as [->|Hne].
  - simplify_eq. eexists. split; [apply list_lookup_insert_eq; by eapply lookup_lt_Some|].
    rewrite Hadded. right. repeat split; [lia|]. eexists. split; [apply swept_refl | done].
  - exists part1. split; [by rewrite list_lookup_insert_ne|].
    destruct (Partition.atomsAddedWhileSweeping part1) as [added1|] eqn:Hsec; [|done].
    left. repeat split; [|apply swept_refl].
    destruct (Hm i part1 Hi) as [Hlt _]. destruct (decide (S idx ≤ i)); [done|].
    rewrite Hlt in Hsec by lia. done.
Qed.

Lemma secondariesHashed_insert rt idx part' :
  secondariesHashed rt →
  (∀ added, Partition.atomsAddedWhileSweeping part' = Some added →
            hashedSet (heap rt) added) →
  secondariesHashed (set_partitions (<[idx := part']> (partitions rt)) rt).
Proof.
  intros Hh Hnew i part added Hi Hadded. rt_simpl.
  apply list_lookup_insert_Some in Hi as [(-> & <- & _) | [_ Hi]]; [by apply Hnew|].
  by eapply Hh.
Qed.

Lemma settle_loop_twp gc fails fuel : ∀ it rt,
  sweeping false it rt →
  AtomsTable.SweepIterator.partitionIndex it < AtomsTable.PartitionCount →
  (∀ k, fails k = false) →
  AtomsTable.PartitionCount - AtomsTable.SweepIterator.partitionIndex it < fuel →
  twp (AtomsTable.SweepIterator.settle_loop fails fuel it) rt (λ it' rt',
    sweeping true it' rt'
    ∧ rt' = set_partitions (partitions rt') rt
    ∧ progress gc (partitions rt) (AtomsTable.SweepIterator.partitionIndex it')
               (partitions rt')
    ∧ AtomsTable.SweepIterator.partitionIndex it
      ≤ AtomsTable.SweepIterator.partitionIndex it'
    ∧ work it' (partitions rt') = work it (partitions rt)).
Proof.
  induction fuel as [|fuel IH]; intros it rt Hsw Hidx Hok Hfuel; [lia|].
  destruct Hsw as (Hcount & Hle & Hm & Hhashed & Hcur).
  destruct (Hcur Hidx) as (e & part & Hiter & Hrem & Hpart & Hpos).
  simpl. unfold AtomsTable.SweepIterator.atomsIter_empty.
  destruct (Enum.empty (Partition.atoms part) e) eqn:Hempty;
    [pose proof (proj1 (bool_decide_eq_true _) Hempty) as Hend
    |pose proof (proj1 (bool_decide_eq_false _) Hempty) as Hend].
  - (* the main set is finished: merge, and go to the next partition *)
    destruct (Hm _ _ Hpart) as [_ [added Hadded]]; [done|].
    remember (AtomsTable.SweepIterator.partitionIndex it) as idx eqn:Hidxdef.
    set (ps1 := <[idx := Partition.mk (Partition.atoms part ++ added) None]> (partitions rt)).
    assert (Hprog1 : progress gc (partitions rt) (S idx) ps1) by by apply progress_merge.
    assert (Hm1 : mergedBefore (S idx) ps1) by by apply mergedBefore_merge.
    assert (Hh1 : secondariesHashed (set_partitions ps1 rt)).
    { apply secondariesHashed_insert; [done|]. by intros ?. }
    assert (Hlen1 : length ps1 = AtomsTable.PartitionCount)
      by by (subst ps1; rewrite length_insert).
    assert (Hdrop : drop (S idx) ps1 = drop (S idx) (partitions rt))
      by (subst ps1; apply drop_insert_lt; lia).
    assert (Hwork : sum_list ((length ∘ Partition.atoms) <$> drop (S idx) ps1)
                    = work it (partitions rt)).
    { rewrite (work_at it _ part), Hdrop by (by rewrite <-Hidxdef).
      unfold cursorPos. rewrite Hiter, <-Hidxdef. lia. }
    repeat twp_step.
    unfold AtomsTable.SweepIterator.finishSweepingPartition. repeat twp_step.
    rewrite <-?Hidxdef.
    eapply twp_mono;
      [apply (mergeAtomsAddedWhileSweeping_twp fails _ rt part added); eauto|].
    intros [] rt1 ->. fold ps1.
    destruct (AtomsTable.SweepIterator.empty
                (AtomsTable.SweepIterator.mk (S idx) None)) eqn:Hemp;
      unfold AtomsTable.SweepIterator.empty in Hemp; rt_simpl.
    + apply Nat.eqb_eq in Hemp.
      repeat twp_step.
      { unfold AtomsTable.SweepIterator.empty in *. rt_simpl.
        refine (conj (conj _ (conj _ (conj _ (conj _ _)))) (conj _ (conj _ (conj _ _))));
          try done; try lia.
        * unfold cursorIn. rt_simpl. intros ?. lia.
        * unfold work, cursorPos. cbn. rewrite Nat.sub_0_r. exact Hwork. }
      unfold AtomsTable.SweepIterator.empty in *. rt_simpl.
      match goal with Hx : (S idx =? _) = false |- _ => apply Nat.eqb_neq in Hx end. lia.
    + apply Nat.eqb_neq in Hemp.
      destruct (lookup_lt_is_Some_2 ps1 (S idx)) as [next Hnext]; [lia|].
      destruct (Hm1 _ _ Hnext) as [_ Hsome]. specialize (Hsome (le_n _)).
      assert (Hemp' : AtomsTable.SweepIterator.empty
                (AtomsTable.SweepIterator.mk (S idx) None) = false)
        by by apply Nat.eqb_neq.
      unfold AtomsTable.SweepIterator.startSweepingPartition.
      repeat twp_step; [by apply bool_decide_eq_true|].
      eapply twp_mono; [apply IH|]; rt_simpl; try done; try lia.
      * refine (conj _ (conj _ (conj _ (conj _ _)))); try done.
        intros _. exists Enum.start, next. repeat split; try done. simpl. lia.
      * intros it' rt' (Hsw' & Hrt' & Hprog' & Hidx' & Hwork'). rt_simpl.
        refine (conj _ (conj _ (conj _ (conj _ _)))); try done; try lia.
        -- eapply progress_trans; [exact Hprog1 | exact Hprog' | done].
        -- rewrite Hwork'. unfold work at 1, cursorPos.
           cbn. rewrite Nat.sub_0_r. exact Hwork.
  - (* the cursor is on an entry *)
    repeat twp_step.
    refine (conj (conj _ (conj _ (conj _ (conj _ _)))) (conj _ (conj _ (conj _ _))));
      try done.
    + intros _. exists e, part. repeat split; try done. lia.
    + by rewrite set_partitions_id.
    + by apply progress_refl.
Qed.


Lemma settle_twp gc fails it rt :
  sweeping false it rt →
  AtomsTable.SweepIterator.partitionIndex it < AtomsTable.PartitionCount →
  (∀ k, fails k = false) →
  twp (AtomsTable.SweepIterator.settle fails it) rt (λ it' rt',
    sweeping true it' rt'
    ∧ rt' = set_partitions (partitions rt') rt
    ∧ progress gc (partitions rt) (AtomsTable.SweepIterator.partitionIndex it')
               (partitions rt')
    ∧ AtomsTable.SweepIterator.partitionIndex it
      ≤ AtomsTable.SweepIterator.partitionIndex it'
    ∧ work it' (partitions rt') = work it (partitions rt)).
Proof.
  intros Hsw Hidx Hok. unfold AtomsTable.SweepIterator.settle.
  assert (Hne : negb (AtomsTable.SweepIterator.empty it) = true).
  { apply negb_true_iff, Nat.eqb_neq. lia. }
  repeat twp_step.
  apply settle_loop_twp; try done. destruct Hsw as [-> _]. lia.
Qed.

Lemma mergedBefore_insert idx ps i part part' :
  mergedBefore idx ps → ps !! i = Some part →
  Partition.atomsAddedWhileSweeping part' = Partition.atomsAddedWhileSweeping part →
  mergedBefore idx (<[i := part']> ps).
Proof.
  intros Hm Hpart Hsec j partj Hj.
  apply list_lookup_insert_Some in Hj as [(-> & <- & _) | [_ Hj]]; [|by apply Hm].
  rewrite Hsec. by apply Hm.
Qed.

Lemma progress_sweep gc idx ps part atoms' :
  mergedBefore idx ps → ps !! idx = Some part →
  swept gc (Partition.atoms part) atoms' →
  progress gc ps idx
    (<[idx := Partition.mk atoms' (Partition.atomsAddedWhileSweeping part)]> ps).
Proof.
  intros Hm Hpart Hswept. split; [by rewrite length_insert|].
  intros i part1 Hi.
  destruct (decide (i = idx)) as [->|Hne].
  - rewrite Hpart in Hi. injection Hi as <-.
    eexists. split; [apply list_lookup_insert_eq; by eapply lookup_lt_Some|].
    destruct (Partition.atomsAddedWhileSweeping part) as [added|] eqn:Hsec.
    + left. by repeat split.
    + destruct (Hm _ _ Hpart) as [_ Hsome]. rewrite Hsec in Hsome.
      by destruct (Hsome (le_n _)).
  - exists part1. split; [by rewrite list_lookup_insert_ne|].
    destruct (Partition.atomsAddedWhileSweeping part1) as [added1|] eqn:Hsec; [|done].
    left. repeat split; [|apply swept_refl].
    destruct (Hm i part1 Hi) as [Hlt _]. destruct (decide (idx ≤ i)); [done|].
    rewrite Hlt in Hsec by lia. done.
Qed.

(** The cursor moves on in its partition, whose main set has become
    [atoms'], and settles. *)
Lemma advance_twp gc fails it rt e part atoms' pos' :
  sweeping true it rt →
  AtomsTable.SweepIterator.partitionIndex it < AtomsTable.PartitionCount →
  (∀ j, fails j = false) →
  AtomsTable.SweepIterator.atomsIter it = Some e →
  partitions rt !! AtomsTable.SweepIterator.partitionIndex it = Some part →
  swept gc (Partition.atoms part) atoms' →
  pos' ≤ length atoms' →
  S (length atoms' - pos') = length (Partition.atoms part) - Enum.pos e →
  twp (AtomsTable.SweepIterator.settle fails
         (AtomsTable.SweepIterator.mk (AtomsTable.SweepIterator.partitionIndex it)
            (Some (Enum.mk pos' false))))
      (set_partitions
         (<[AtomsTable.SweepIterator.partitionIndex it :=
              Partition.mk atoms' (Partition.atomsAddedWhileSweeping part)]>
            (partitions rt)) rt)
      (λ it' rt',
         sweeping true it' rt'
         ∧ rt' = set_partitions (partitions rt') rt
         ∧ progress gc (partitions rt) (AtomsTable.SweepIterator.partitionIndex it')
                    (partitions rt')
         ∧ AtomsTable.SweepIterator.partitionIndex it
           ≤ AtomsTable.SweepIterator.partitionIndex it'
         ∧ S (work it' (partitions rt')) = work it (partitions rt)).
Proof.
  intros (Hcount & Hle & Hm & Hhashed & Hcur) Hidx Hok Hiter Hpart Hswept Hpos' Hlen.
  remember (AtomsTable.SweepIterator.partitionIndex it) as idx eqn:Hidxdef.
  set (part' := Partition.mk atoms' (Partition.atomsAddedWhileSweeping part)).
  assert (Hpart' : <[idx := part']> (partitions rt) !! idx = Some part').
  { apply list_lookup_insert_eq. by eapply lookup_lt_Some. }
  assert (Hprog : progress gc (partitions rt) idx (<[idx := part']> (partitions rt)))
    by by apply progress_sweep.
  eapply twp_mono; [apply (settle_twp gc)|]; rt_simpl; try done.
  - refine (conj _ (conj _ (conj _ (conj _ _)))); rt_simpl; try done.
    + by rewrite length_insert.
    + by eapply mergedBefore_insert.
    + apply secondariesHashed_insert; [done|]. intros added Hadded. by eapply Hhashed.
    + intros _. exists (Enum.mk pos' false), part'. by repeat split.
  - intros it' rt' (Hsw' & Hrt' & Hprog' & Hidx' & Hwork'). rt_simpl.
    refine (conj _ (conj _ (conj _ (conj _ _)))); try done.
    + eapply progress_trans; [exact Hprog | exact Hprog' | done].
    + rewrite Hwork'. rewrite (work_at it _ part) by by rewrite <-Hidxdef.
      rewrite (work_at _ _ part') by done.
      unfold cursorPos. rewrite Hiter. rt_simpl.
      rewrite drop_insert_lt by lia. rewrite <-Hidxdef. subst part'. rt_simpl. lia.
Qed.

(** One round of the loop of [sweepIncrementally]: the entry under the
    cursor is removed if its atom is about to be finalized, and the
    cursor moves to the next entry, merging the partitions it leaves. *)
Lemma sweep_entry_twp {B} gc fails it rt (k : AtomsTable.SweepIterator.t → M B) Q :
  sweeping true it rt →
  AtomsTable.SweepIterator.partitionIndex it < AtomsTable.PartitionCount →
  (∀ j, fails j = false) →
  (∀ it' rt',
     sweeping true it' rt' →
     rt' = set_partitions (partitions rt') rt →
     progress gc (partitions rt) (AtomsTable.SweepIterator.partitionIndex it')
              (partitions rt') →
     AtomsTable.SweepIterator.partitionIndex it
       ≤ AtomsTable.SweepIterator.partitionIndex it' →
     S (work it' (partitions rt')) = work it (partitions rt) →
     twp (k it') rt' Q) →
  twp (atom ← AtomsTable.SweepIterator.front it;
       it1 ← (if gc atom then AtomsTable.SweepIterator.removeFront it else mret it);
       it2 ← AtomsTable.SweepIterator.popFront fails it1;
       k it2) rt Q.
Proof.
  intros (Hcount & Hle & Hm & Hhashed & Hcur) Hidx Hok Hk.
  destruct (Hcur Hidx) as (e & part & Hiter & Hrem & Hpart & Hpos).
  destruct (lookup_lt_is_Some_2 (Partition.atoms part) (Enum.pos e)) as [entry Hentry];
    [done|].
  assert (Hne : negb (AtomsTable.SweepIterator.empty it) = true).
  { apply negb_true_iff, Nat.eqb_neq. lia. }
  assert (Hgo : ∀ atoms' pos',
    swept gc (Partition.atoms part) atoms' → pos' ≤ length atoms' →
    S (length atoms' - pos') = length (Partition.atoms part) - Enum.pos e →
    twp (AtomsTable.SweepIterator.settle fails
           (AtomsTable.SweepIterator.mk (AtomsTable.SweepIterator.partitionIndex it)
              (Some (Enum.mk pos' false))))
        (set_partitions
           (<[AtomsTable.SweepIterator.partitionIndex it :=
                Partition.mk atoms' (Partition.atomsAddedWhileSweeping part)]>
              (partitions rt)) rt) (λ it' rt', twp (k it') rt' Q)).
  { intros atoms' pos' Hswept Hpos' Hlen.
    eapply twp_mono; [by eapply (advance_twp gc fails it rt e part atoms' pos')|].
    intros it' rt' (? & ? & ? & ? & ?). by apply Hk. }
  unfold AtomsTable.SweepIterator.front. repeat twp_step.
  - (* the atom is about to be finalized *)
    unfold AtomsTable.SweepIterator.removeFront, Enum.removeFront.
    repeat twp_step. unfold AtomsTable.SweepIterator.popFront. repeat twp_step.
    unfold Enum.popFront. rt_simpl. cbv iota.
    apply Hgo; [by eapply swept_delete | |];
      rewrite length_delete by done; lia.
  - (* the atom stays *)
    unfold AtomsTable.SweepIterator.popFront. repeat twp_step.
    unfold Enum.popFront. rewrite Hrem.
    specialize (Hgo (Partition.atoms part) (S (Enum.pos e)) (swept_refl _ _)).
    rewrite list_insert_id, set_partitions_id in Hgo by by destruct part.
    apply Hgo; lia.
Qed.


(** The assertions at the end of [sweepIncrementally] hold once no
    partition has a secondary set. *)
Lemma assert_merged_twp n : ∀ i rt,
  (∀ j part, partitions rt !! j = Some part → i ≤ j →
             Partition.atomsAddedWhileSweeping part = None) →
  i + n ≤ length (partitions rt) →
  twp (forEachPartition (λ i,
         part ← getPartition i;
         MOZ_ASSERT (negb (bool_decide (is_Some (Partition.atomsAddedWhileSweeping part)))))
       n i) rt (λ _ rt', rt' = rt).
Proof.
  induction n as [|n IH]; intros i rt Hnone Hlen; simpl.
  - by twp_step.
  - destruct (lookup_lt_is_Some_2 (partitions rt) i) as [part Hpart]; [lia|].
    pose proof (Hnone _ _ Hpart (le_n _)) as Hsec.
    repeat twp_step.
    + rewrite Hsec. apply negb_true_iff, bool_decide_eq_false. by intros [? ?].
    + apply IH; [|lia]. intros j partj Hj Hle. eapply Hnone; [done | lia].
Qed.

(** What a call of [sweepIncrementally] that starts with the cursor [it],
    the budget [budget] and the runtime [rt] has done when it returns
    [r] in the runtime [rt']. *)
Definition sweepIncrementally_post (gc : Collector) (it : AtomsTable.SweepIterator.t)
    (budget : SliceBudget.t) (rt : JSRuntime)
    (r : bool * AtomsTable.SweepIterator.t * SliceBudget.t) (rt' : JSRuntime) : Prop :=
  let '(done, it', budget') := r in
  sweeping true it' rt'
  ∧ rt' = set_partitions (partitions rt') rt
  ∧ progress gc (partitions rt) (AtomsTable.SweepIterator.partitionIndex it')
             (partitions rt')
  ∧ AtomsTable.SweepIterator.partitionIndex it
    ≤ AtomsTable.SweepIterator.partitionIndex it'
  ∧ (Z.of_nat (work it' (partitions rt'))
     = Z.of_nat (work it (partitions rt))
       - (SliceBudget.counter budget - SliceBudget.counter budget')
       + (if done then 0 else 1))%Z
  ∧ if done then AtomsTable.SweepIterator.partitionIndex it' = AtomsTable.PartitionCount
                 ∧ (AtomsTable.SweepIterator.empty it = true
                    ∨ (0 < SliceBudget.counter budget')%Z)
    else AtomsTable.SweepIterator.partitionIndex it' < AtomsTable.PartitionCount
         ∧ SliceBudget.counter budget' = Z.min 0 (SliceBudget.counter budget - 1).

Lemma sweepIncrementally_loop_twp gc fails fuel : ∀ it budget rt,
  sweeping true it rt →
  (∀ j, fails j = false) →
  work it (partitions rt) < fuel →
  twp (AtomsTable.sweepIncrementally_loop gc fails fuel it budget) rt
      (sweepIncrementally_post gc it budget rt).
Proof.
  induction fuel as [|fuel IH]; intros it budget rt Hsw Hok Hfuel; [lia|].
  pose proof Hsw as (Hcount & Hle & Hm & Hhashed & Hcur).
  simpl.
  destruct (AtomsTable.SweepIterator.empty it) eqn:Hemp;
    unfold AtomsTable.SweepIterator.empty in Hemp.
  - apply Nat.eqb_eq in Hemp. repeat twp_step.
    eapply twp_mono; [apply assert_merged_twp|].
    + intros j part Hj _. apply (Hm _ _ Hj). rewrite Hemp, <-Hcount.
      by eapply lookup_lt_Some.
    + lia.
    + intros [] rt' ->. twp_step.
      refine (conj _ (conj _ (conj _ (conj _ (conj _ (conj _ _)))))); try done; try lia.
      * by rewrite set_partitions_id.
      * by apply progress_refl.
      * left. unfold AtomsTable.SweepIterator.empty. by apply Nat.eqb_eq.
  - apply Nat.eqb_neq in Hemp.
    destruct (SliceBudget.isOverBudget (SliceBudget.step budget)) eqn:Hover.
    + twp_step.
      refine (conj _ (conj _ (conj _ (conj _ (conj _ (conj _ _)))))); try done; try lia.
      * by rewrite set_partitions_id.
      * by apply progress_refl.
      * unfold SliceBudget.step. simpl. lia.
      * unfold SliceBudget.isOverBudget, SliceBudget.step in *. simpl in *. lia.
    + apply (sweep_entry_twp gc); [done | lia | done |].
      intros it' rt' Hsw' Hrt' Hprog' Hidx' Hwork'.
      eapply twp_mono; [apply IH; [done | done | lia]|].
      intros [[done it''] budget''] rt'' (Hsw'' & Hrt'' & Hprog'' & Hidx'' & Hcnt & Hdone).
      refine (conj _ (conj _ (conj _ (conj _ (conj _ _))))); try done.
      * rewrite Hrt'' at 1. rewrite Hrt'. done.
      * eapply progress_trans; [exact Hprog' | exact Hprog'' | done].
      * lia.
      * unfold SliceBudget.step in Hcnt. simpl in Hcnt. lia.
      * destruct done.
        -- destruct Hdone as [Hend Hleft]. split; [done|]. right.
           destruct Hleft as [Hemp'|?]; [|done].
           apply Nat.eqb_eq in Hemp'. destruct Hsw'' as (Hcount'' & _).
           rewrite (work_end it'') in Hcnt by lia.
           rewrite (work_end it') in Hcnt by (destruct Hsw' as (Hcount' & _); lia).
           unfold SliceBudget.isOverBudget, SliceBudget.step in *. simpl in *. lia.
        -- destruct Hdone as [? Hmin]. split; [done|].
           unfold SliceBudget.isOverBudget, SliceBudget.step in *. simpl in *. lia.
Qed.


Lemma sum_list_drop_le {A} (f : A → nat) i : ∀ l,
  sum_list (f <$> drop i l) ≤ sum_list (f <$> l).
Proof.
  induction i as [|i IH]; intros l; [by rewrite drop_0|].
  destruct l as [|x l]; [done|].
  change (drop (S i) (x :: l)) with (drop i l).
  etrans; [apply IH|]. rewrite fmap_cons. simpl. lia.
Qed.

Lemma PartitionCount_pos : 0 < AtomsTable.PartitionCount.
Proof.
  unfold AtomsTable.PartitionCount. apply Nat.neq_0_lt_0, Nat.pow_nonzero. lia.
Qed.

(** A new [SweepIterator], made once [startIncrementalSweep] has given
    every partition its secondary set, stands on the first entry of the
    table, having merged the empty partitions before it. *)
Lemma SweepIterator_new_twp gc fails rt :
  length (partitions rt) = AtomsTable.PartitionCount →
  mergedBefore 0 (partitions rt) →
  secondariesHashed rt →
  (∀ j, fails j = false) →
  twp (AtomsTable.SweepIterator.new fails) rt (λ it rt',
    sweeping true it rt'
    ∧ rt' = set_partitions (partitions rt') rt
    ∧ progress gc (partitions rt) (AtomsTable.SweepIterator.partitionIndex it)
               (partitions rt')).
Proof.
  intros Hcount Hm Hhashed Hok. pose proof PartitionCount_pos as Hpos.
  destruct (lookup_lt_is_Some_2 (partitions rt) 0) as [part Hpart]; [lia|].
  destruct (Hm _ _ Hpart) as [_ Hsome]. specialize (Hsome (le_n _)).
  unfold AtomsTable.SweepIterator.new, AtomsTable.SweepIterator.startSweepingPartition.
  repeat twp_step; [by apply bool_decide_eq_true|].
  eapply twp_mono; [apply (settle_twp gc)|]; rt_simpl; try done.
  - refine (conj _ (conj _ (conj _ (conj _ _)))); rt_simpl; try done; [lia|].
    intros _. exists Enum.start, part. repeat split; try done. simpl. lia.
  - by intros it' rt' (? & ? & ? & _).
Qed.

Lemma sweepIncrementally_twp gc fails it budget rt :
  sweeping true it rt →
  (∀ j, fails j = false) →
  twp (AtomsTable.sweepIncrementally gc fails it budget) rt
      (sweepIncrementally_post gc it budget rt).
Proof.
  intros Hsw Hok. unfold AtomsTable.sweepIncrementally. repeat twp_step.
  apply sweepIncrementally_loop_twp; [done..|].
  unfold work, AtomsTable.entryCount.
  pose proof (sum_list_drop_le (length ∘ Partition.atoms)
                (AtomsTable.SweepIterator.partitionIndex it) (partitions rt)).
  lia.
Qed.

(** The outcome [o] of a call of [sweepIncrementally] is a return that
    leaves the sweep in a consistent state: every partition that had a
    secondary set either still has it, lies at or after the cursor and
    has only lost dead entries of its main set, or has been passed by the
    cursor, has lost its secondary set and has as its main set the swept
    main set followed by the whole secondary set. A return of [false]
    happens with the cursor on an entry, the budget exhausted and exactly
    [max 0 (counter - 1)] entries passed; a return of [true] leaves no
    partition with a secondary set. The value returned is decided by the
    budget: it is [true] exactly when the cursor was at the end already
    or the budget has more steps than there are entries the cursor has
    not passed, and the budget is then left with one step less for
    every such entry; in every other case the budget runs out on the
    way and the value is [false]. *)
Definition returnsMerged (gc : Collector) (it : AtomsTable.SweepIterator.t)
    (budget : SliceBudget.t) (rt : JSRuntime)
    (o : Outcome (bool * AtomsTable.SweepIterator.t * SliceBudget.t)) : Prop :=
  ∃ done it' budget' rt',
    o = Return (done, it', budget') rt'
    ∧ sweeping true it' rt'
    ∧ progress gc (partitions rt) (AtomsTable.SweepIterator.partitionIndex it')
               (partitions rt')
    ∧ (done = false →
       AtomsTable.SweepIterator.partitionIndex it' < AtomsTable.PartitionCount
       ∧ SliceBudget.isOverBudget budget' = true
       ∧ (Z.of_nat (work it (partitions rt)) - Z.of_nat (work it' (partitions rt'))
          = Z.max 0 (SliceBudget.counter budget - 1))%Z)
    ∧ (done = true →
       ∀ i part, partitions rt' !! i = Some part →
                 Partition.atomsAddedWhileSweeping part = None)
    ∧ (done = true
       ↔ AtomsTable.SweepIterator.empty it = true
         ∨ (Z.of_nat (work it (partitions rt)) < SliceBudget.counter budget)%Z)
    ∧ (done = true →
       SliceBudget.counter budget'
       = (SliceBudget.counter budget - Z.of_nat (work it (partitions rt)))%Z).

Lemma sweepIncrementally_returnsMerged gc fails it budget rt :
  sweeping true it rt →
  (∀ j, fails j = false) →
  returnsMerged gc it budget rt (AtomsTable.sweepIncrementally gc fails it budget rt).
Proof.
  intros Hsw Hok.
  pose proof (sweepIncrementally_twp gc fails it budget rt Hsw Hok) as Htwp.
  apply twp_Return in Htwp
    as ([[done it'] budget'] & rt' & Hrun & Hsw' & Hrt' & Hprog & Hidx & Hcnt & Hdone).
  exists done, it', budget', rt'.
  refine (conj Hrun (conj Hsw' (conj Hprog (conj _ (conj _ (conj _ _)))))).
  - intros ->. destruct Hdone as [Hlt Hmin]. split; [done|].
    unfold SliceBudget.isOverBudget. split; [apply Z.leb_le|]; lia.
  - intros -> i part Hi. destruct Hdone as [Hend _]. destruct Hsw' as (Hcount & _ & Hm & _).
    apply (Hm _ _ Hi). rewrite Hend, <-Hcount. by eapply lookup_lt_Some.
  - pose proof Hsw' as (Hcount' & _). destruct done.
    + destruct Hdone as [Hend Hleft]. rewrite (work_end it') in Hcnt by lia.
      split; [intros _|done]. destruct Hleft as [?|?]; [by left | right; lia].
    + destruct Hdone as [Hlt Hmin]. pose proof (work_pos it' rt' Hsw' Hlt) as Hpos.
      split; [done|]. intros [Hemp | Hbudget]; [|lia].
      apply Nat.eqb_eq in Hemp. lia.
  - intros ->. destruct Hdone as [Hend _]. destruct Hsw' as (Hcount' & _).
    rewrite (work_end it') in Hcnt by lia. lia.
Qed.

(** C4. A budgeted sweep keeps the merge invariant. Take a call of
    [sweepIncrementally] made while an incremental sweep is in progress.
    If the cursor is not at the end and the step of the budget exhausts
    it, the call returns [false] at once and changes nothing. The call
    crashes the process, when a [putNew] of a merge runs out of memory,
    or returns; when no such allocation fails it returns. It returns
    [false] as soon as the budget is exhausted ([returnsMerged]): the
    value is [true] only if the cursor was at the end or the budget had
    more steps than there were entries to pass, and a return of [false]
    has passed exactly the [max 0 (counter - 1)] entries that the budget
    allowed and leaves the budget exhausted. At every return the sweep
    is in a consistent state: no partition is partly merged, a secondary
    set is merged, as a whole and once, when the cursor leaves its
    partition, and is gone afterwards; a return of [true] leaves no
    partition with a secondary set. *)
Theorem sweepIncrementally_merge_invariant gc fails it budget rt :
  sweeping true it rt →
  (AtomsTable.SweepIterator.partitionIndex it < AtomsTable.PartitionCount →
   SliceBudget.isOverBudget (SliceBudget.step budget) = true →
   AtomsTable.sweepIncrementally gc fails it budget rt
   = Return (false, it, SliceBudget.step budget) rt)
  ∧ (AtomsTable.sweepIncrementally gc fails it budget rt = Abort OOMCrash
     ∨ returnsMerged gc it budget rt (AtomsTable.sweepIncrementally gc fails it budget rt))
  ∧ ((∀ j, fails j = false) →
     returnsMerged gc it budget rt (AtomsTable.sweepIncrementally gc fails it budget rt)).
Proof.
  intros Hsw. refine (conj _ (conj _ _)).
  - intros Hidx Hover. unfold AtomsTable.sweepIncrementally.
    apply twp_eq. repeat twp_step. simpl.
    assert (Hemp : AtomsTable.SweepIterator.empty it = false)
      by (apply Nat.eqb_neq; lia).
    rewrite Hemp, Hover. by twp_step.
  - destruct (sweepIncrementally_crashOr gc fails it budget rt) as [Hcrash | Hsame];
      [by left|].
    right. rewrite Hsame. apply sweepIncrementally_returnsMerged; done.
  - intros Hok. by apply sweepIncrementally_returnsMerged.
Qed.

End Sweep.

(** ** Pinned atoms and sweeps *)

(** The entries the collector does not report about to be finalized. *)
Definition live (gc : Collector) (atoms : AtomSet.t) : AtomSet.t :=
  filter (λ e, gc (AtomStateEntry.asPtrUnbarriered e) = false) atoms.

Lemma sweepAll_enum_live gc fuel : ∀ atoms pos,
  length atoms - pos ≤ fuel →
  AtomsTable.sweepAll_enum gc fuel atoms (Enum.mk pos false)
  = take pos atoms ++ live gc (drop pos atoms).
Proof.
  induction fuel as [|fuel IH]; intros atoms pos Hfuel; simpl.
  - rewrite drop_ge, take_ge by lia. unfold live. by rewrite filter_nil, app_nil_r.
  - unfold Enum.front. simpl.
    destruct (atoms !! pos) as [entry|] eqn:Hentry.
    + pose proof (lookup_lt_Some _ _ _ Hentry) as Hlt.
      rewrite (drop_S _ _ _ Hentry). unfold live.
      destruct (gc (AtomStateEntry.asPtrUnbarriered entry)) eqn:Hgc; simpl.
      * rewrite filter_cons_False by (rewrite Hgc; done). unfold Enum.popFront. simpl.
        rewrite IH by (rewrite length_delete by (by eexists); lia).
        rewrite delete_take_drop.
        assert (Hlen : length (take pos atoms) = pos) by (rewrite length_take; lia).
        rewrite take_app_length', drop_app_length' by done. done.
      * rewrite filter_cons_True by done. unfold Enum.popFront. simpl.
        rewrite IH by lia. rewrite (take_S_r _ _ _ Hentry), <-app_assoc. done.
    + apply lookup_ge_None in Hentry.
      rewrite drop_ge, take_ge by lia. unfold live. by rewrite filter_nil, app_nil_r.
Qed.

(** What [sweepAll] makes of a partition. *)
Definition sweptPartition (gc : Collector) (part : Partition.t) : Partition.t :=
  Partition.mk (live gc (Partition.atoms part)) (Partition.atomsAddedWhileSweeping part).

(** An entry of the table: of the main or of the secondary set of a
    partition. *)
Definition inTable (ps : list Partition.t) (e : AtomStateEntry.t) : Prop :=
  ∃ i part, ps !! i = Some part
    ∧ (e ∈ Partition.atoms part
       ∨ ∃ added, Partition.atomsAddedWhileSweeping part = Some added ∧ e ∈ added).

(** The pinned bits of the entries and of their atoms agree, as
    [tracePinnedAtomsInSet] asserts. *)
Definition pinsAgree (h : Heap) (set : AtomSet.t) : bool :=
  forallb (λ e, match h !! AtomStateEntry.asPtrUnbarriered e with
                | Some cell => eqb (AtomStateEntry.isPinned e) (JSAtom.isPinned cell)
                | None => false
                end) set.

Definition tablePinsAgree (rt : JSRuntime) : bool :=
  forallb (λ part, pinsAgree (heap rt) (Partition.atoms part)
                   && match Partition.atomsAddedWhileSweeping part with
                      | Some added => pinsAgree (heap rt) added
                      | None => true
                      end) (partitions rt).

Section Pinned.
Context `{Engine}.

Lemma sweepAll_loop_twp gc n : ∀ i rt,
  i + n = length (partitions rt) →
  twp (forEachPartition (λ i,
         AutoLock i (
           part ← getPartition i;
           let atoms := Partition.atoms part in
           setPartition i
             (Partition.mk (AtomsTable.sweepAll_enum gc (length atoms) atoms Enum.start)
                           (Partition.atomsAddedWhileSweeping part))))
       n i) rt
    (λ _ rt', partitions rt'
              = take i (partitions rt) ++ (sweptPartition gc <$> drop i (partitions rt))
              ∧ heap rt' = heap rt).
Proof.
  induction n as [|n IH]; intros i rt Hlen; simpl.
  - twp_step. rewrite drop_ge, take_ge by lia. by rewrite app_nil_r.
  - destruct (lookup_lt_is_Some_2 (partitions rt) i) as [part Hpart]; [lia|].
    twp_step. apply twp_AutoLock. intros log. repeat twp_step. intros log'.
    eapply twp_mono; [apply IH; rt_simpl; rewrite length_insert; lia|].
    intros [] rt' [Hps Hheap]. rt_simpl. split; [|done].
    rewrite Hps. unfold Enum.start. rewrite sweepAll_enum_live by lia.
    rewrite take_0, drop_0, app_nil_l.
    rewrite (drop_S _ _ _ Hpart), fmap_cons.
    rewrite drop_insert_lt by lia.
    rewrite (take_S_r _ i (sweptPartition gc part))
      by (apply list_lookup_insert_eq; lia).
    rewrite take_insert_ge by lia. by rewrite <-app_assoc.
Qed.

Lemma sweepAll_twp gc rt :
  length (partitions rt) = AtomsTable.PartitionCount →
  twp (AtomsTable.sweepAll gc) rt
    (λ _ rt', partitions rt' = sweptPartition gc <$> partitions rt
              ∧ heap rt' = heap rt).
Proof.
  intros Hlen. unfold AtomsTable.sweepAll.
  eapply twp_mono; [apply sweepAll_loop_twp; lia|].
  intros [] rt' [Hps Hheap]. by rewrite take_0, drop_0 in Hps.
Qed.

Lemma live_elem gc atoms e :
  e ∈ live gc atoms ↔ e ∈ atoms ∧ gc (AtomStateEntry.asPtrUnbarriered e) = false.
Proof. unfold live. rewrite list_elem_of_filter. tauto. Qed.

Lemma sweptPartition_inTable gc ps e :
  inTable ps e → gc (AtomStateEntry.asPtrUnbarriered e) = false →
  inTable (sweptPartition gc <$> ps) e.
Proof.
  intros (i & part & Hpart & Hin) Hlive.
  exists i, (sweptPartition gc part). split; [by rewrite list_lookup_fmap, Hpart|].
  destruct Hin as [Hin | Hin]; [left | by right]. by apply live_elem.
Qed.


Lemma progress_inTable gc ps idx ps' e :
  progress gc ps idx ps' → inTable ps e →
  gc (AtomStateEntry.asPtrUnbarriered e) = false → inTable ps' e.
Proof.
  intros [_ Hprog] (i & part & Hpart & Hin) Hlive.
  destruct (Hprog i part Hpart) as (part' & Hpart' & Hstep).
  exists i, part'. split; [done|].
  destruct (Partition.atomsAddedWhileSweeping part) as [added|] eqn:Hsec.
  - destruct Hstep as [(Hsec' & _ & Hswept) | (Hsec' & _ & kept & Hswept & Hatoms)].
    + destruct Hin as [Hin | (added' & ? & Hin)].
      * left. by eapply swept_live.
      * right. exists added. by simplify_eq.
    + left. rewrite Hatoms. apply elem_of_app.
      destruct Hin as [Hin | (added' & ? & Hin)].
      * left. by eapply swept_live.
      * right. by simplify_eq.
  - subst part'. destruct Hin as [Hin | (added' & ? & _)]; [by left | done].
Qed.

(** The roots [tracePinnedAtomsInSet] reports: the atoms of the pinned
    entries. *)
Definition pinnedAtoms (set : AtomSet.t) : list AtomId :=
  AtomStateEntry.asPtrUnbarriered <$> filter (λ e, AtomStateEntry.isPinned e = true) set.

Lemma tracePinnedAtomsInSet_twp set : ∀ rt,
  pinsAgree (heap rt) set = true →
  twp (AtomsTable.tracePinnedAtomsInSet set) rt
      (λ roots rt', roots = pinnedAtoms set ∧ rt' = rt).
Proof.
  induction set as [|entry set IH]; intros rt Hagree; simpl.
  - by twp_step.
  - simpl in Hagree. apply andb_true_iff in Hagree as [Hentry Hagree].
    destruct (heap rt !! AtomStateEntry.asPtrUnbarriered entry) as [cell|] eqn:Hcell;
      [|done].
    repeat twp_step.
    eapply twp_mono; [by apply IH|]. intros roots rt' [-> ->]. twp_step.
    split; [|done]. unfold pinnedAtoms.
    destruct (AtomStateEntry.isPinned entry) eqn:Hp.
    + by rewrite filter_cons_True, fmap_cons by done.
    + by rewrite filter_cons_False by (rewrite Hp; done).
Qed.

Lemma tracePinnedAtoms_loop_twp n : ∀ i rt,
  tablePinsAgree rt = true →
  i + n ≤ length (partitions rt) →
  twp (AtomsTable.tracePinnedAtoms_loop n i) rt (λ roots rt',
    rt' = rt
    ∧ ∀ j part e, partitions rt !! j = Some part → i ≤ j < i + n →
        AtomStateEntry.isPinned e = true →
        (e ∈ Partition.atoms part
         ∨ ∃ added, Partition.atomsAddedWhileSweeping part = Some added ∧ e ∈ added) →
        AtomStateEntry.asPtrUnbarriered e ∈ roots).
Proof.
  induction n as [|n IH]; intros i rt Hagree Hlen; simpl.
  - twp_step. split; [done|]. intros; lia.
  - destruct (lookup_lt_is_Some_2 (partitions rt) i) as [part Hpart]; [lia|].
    pose proof Hagree as Hall. unfold tablePinsAgree in Hall.
    rewrite forallb_forall in Hall.
    specialize (Hall part). rewrite <-list_elem_of_In in Hall.
    specialize (Hall (list_elem_of_lookup_2 _ _ _ Hpart)).
    apply andb_true_iff in Hall as [Hmain Hadded].
    repeat twp_step.
    eapply twp_mono; [by apply tracePinnedAtomsInSet_twp|]. intros r1 rt1 [-> ->].
    twp_step.
    assert (Hsec : twp
      match Partition.atomsAddedWhileSweeping part with
      | Some added => AtomsTable.tracePinnedAtomsInSet added
      | None => mret []
      end rt
      (λ r2 rt2, rt2 = rt
         ∧ ∀ added, Partition.atomsAddedWhileSweeping part = Some added →
                    r2 = pinnedAtoms added)).
    { destruct (Partition.atomsAddedWhileSweeping part) as [added|].
      - eapply twp_mono; [by apply tracePinnedAtomsInSet_twp|].
        intros r2 rt2 [-> ->]. split; [done|]. by intros ? [= <-].
      - by twp_step. }
    eapply twp_mono; [exact Hsec|]. intros r2 rt2 [-> Hr2].
    twp_step. eapply twp_mono; [apply IH; [done | lia]|].
    intros r3 rt3 [-> Hr3]. twp_step. split; [done|].
    intros j partj e Hj Hrange Hpinned Hin.
    rewrite !elem_of_app.
    destruct (decide (j = i)) as [->|Hne].
    + simplify_eq. destruct Hin as [Hin | (added & Hadd & Hin)].
      * left. unfold pinnedAtoms. apply list_elem_of_fmap_2.
        by apply list_elem_of_filter.
      * right; left. rewrite (Hr2 _ Hadd). unfold pinnedAtoms.
        apply list_elem_of_fmap_2. by apply list_elem_of_filter.
    + right; right. eapply Hr3; [exact Hj | lia | done | done].
Qed.

Lemma entryAt_elem part r i e :
  AtomsTable.entryAt part r i = Some e →
  e ∈ Partition.atoms part
  ∨ ∃ added, Partition.atomsAddedWhileSweeping part = Some added ∧ e ∈ added.
Proof.
  unfold AtomsTable.entryAt. destruct r.
  - intros He. left. by eapply list_elem_of_lookup_2.
  - destruct (Partition.atomsAddedWhileSweeping part) as [added|]; [|done].
    intros He. right. exists added. split; [done|]. by eapply list_elem_of_lookup_2.
Qed.

(** [pinExistingAtom] leaves a pinned entry for its atom in the table. *)
Lemma pinExistingAtom_wp atom rt :
  wp (AtomsTable.pinExistingAtom atom) rt (λ _ rt',
    ∃ e, inTable (partitions rt') e
         ∧ AtomStateEntry.asPtrUnbarriered e = atom
         ∧ AtomStateEntry.isPinned e = true).
Proof.
  unfold AtomsTable.pinExistingAtom, Lookup_ofAtom, AtomsTable.getPartitionIndex.
  wp_go. intros _.
  match goal with
  | Hf : AtomsTable.pinLookup _ _ _ = Some (?r, ?i, ?e) |- _ =>
    apply pinLookup_Some in Hf as [He Hptr];
    apply entryAt_setPinnedAt, entryAt_elem in He;
    exists (AtomStateEntry.setPinned true e)
  end.
  split; [|done]. eexists _, _. split; [|exact He].
  apply list_lookup_insert_eq. by eapply lookup_lt_Some.
Qed.

(** The roots of the table hold every pinned atom. *)
Lemma tracePinnedAtoms_twp rt :
  tablePinsAgree rt = true →
  length (partitions rt) = AtomsTable.PartitionCount →
  twp AtomsTable.tracePinnedAtoms rt (λ roots rt',
    rt' = rt
    ∧ ∀ e, inTable (partitions rt) e → AtomStateEntry.isPinned e = true →
           AtomStateEntry.asPtrUnbarriered e ∈ roots).
Proof.
  intros Hagree Hlen. unfold AtomsTable.tracePinnedAtoms.
  eapply twp_mono; [apply tracePinnedAtoms_loop_twp; [done | lia]|].
  intros roots rt' [-> Hroots]. split; [done|].
  intros e (j & part & Hj & Hin) Hpinned.
  eapply Hroots; [exact Hj | | done | done].
  apply lookup_lt_Some in Hj. lia.
Qed.

End Pinned.

(** C2. Pinning makes an atom durable through the collector, not through
    the sweeps. [pinExistingAtom] leaves in the table an entry of its
    atom with the pinned bit set. For such an entry [e] of a table whose
    pinned bits agree, [tracePinnedAtoms] hands the atom of [e] to the
    tracer as a root. Neither sweep looks at the pinned bit: [sweepAll]
    and [sweepIncrementally] (unless a merge crashes the process for
    want of memory) keep [e], in a table of the same size, when the
    collector does not report its atom about to be finalized, and
    [sweepAll] leaves [e] in no main set when the collector does. *)
Theorem pin_durability `{Engine} gc fails e rt :
  inTable (partitions rt) e →
  AtomStateEntry.isPinned e = true →
  length (partitions rt) = AtomsTable.PartitionCount →
  (∀ atom rt0 rt1,
     AtomsTable.pinExistingAtom atom rt0 = Return tt rt1 →
     ∃ e1, inTable (partitions rt1) e1
           ∧ AtomStateEntry.asPtrUnbarriered e1 = atom
           ∧ AtomStateEntry.isPinned e1 = true)
  ∧ (tablePinsAgree rt = true →
     ∃ roots, AtomsTable.tracePinnedAtoms rt = Return roots rt
              ∧ AtomStateEntry.asPtrUnbarriered e ∈ roots)
  ∧ (gc (AtomStateEntry.asPtrUnbarriered e) = false →
     (∃ rt', AtomsTable.sweepAll gc rt = Return tt rt'
             ∧ inTable (partitions rt') e
             ∧ length (partitions rt') = AtomsTable.PartitionCount)
     ∧ ∀ it budget,
         sweeping true it rt →
         AtomsTable.sweepIncrementally gc fails it budget rt = Abort OOMCrash
         ∨ ∃ r rt', AtomsTable.sweepIncrementally gc fails it budget rt = Return r rt'
                    ∧ inTable (partitions rt') e
                    ∧ length (partitions rt') = AtomsTable.PartitionCount)
  ∧ (gc (AtomStateEntry.asPtrUnbarriered e) = true →
     ∃ rt', AtomsTable.sweepAll gc rt = Return tt rt'
            ∧ ∀ i part', partitions rt' !! i = Some part' → e ∉ Partition.atoms part').
Proof.
  intros Hin Hpinned Hlen. refine (conj _ (conj _ (conj _ _))).
  - intros atom rt0 rt1 Hrun.
    exact (wp_Return _ _ _ _ _ (pinExistingAtom_wp atom rt0) Hrun).
  - intros Hagree.
    destruct (proj1 (twp_Return _ _ _) (tracePinnedAtoms_twp rt Hagree Hlen))
      as (roots & rt' & Hrun & -> & Hroots).
    exists roots. split; [done|]. by apply Hroots.
  - intros Hlive. split.
    + destruct (proj1 (twp_Return _ _ _) (sweepAll_twp gc rt Hlen))
        as ([] & rt' & Hrun & Hps & _).
      exists rt'. split; [done|]. rewrite Hps. split.
      * by apply sweptPartition_inTable.
      * by rewrite length_fmap.
    + intros it budget Hsw.
      destruct (sweepIncrementally_crashOr gc fails it budget rt) as [Hcrash | Hsame];
        [by left|].
      right. rewrite Hsame.
      pose proof (sweepIncrementally_twp gc neverFails it budget rt Hsw (λ _, eq_refl))
        as Htwp.
      apply twp_Return in Htwp
        as ([[done it'] budget'] & rt' & Hrun & Hsw' & _ & Hprog & _).
      exists (done, it', budget'), rt'. split; [done|]. split.
      * by eapply progress_inTable.
      * by destruct Hsw' as [? _].
  - intros Hdead.
    destruct (proj1 (twp_Return _ _ _) (sweepAll_twp gc rt Hlen))
      as ([] & rt' & Hrun & Hps & _).
    exists rt'. split; [done|]. intros i part' Hi. rewrite Hps in Hi.
    rewrite list_lookup_fmap in Hi.
    destruct (partitions rt !! i) as [part|]; [|done]. injection Hi as <-.
    simpl. rewrite live_elem. intros [_ Hlive]. congruence.
Qed.

(** ** Canonical atoms

    What the resolution of a content looks at: the characters and the
    hash of every cell, and the atoms the sets point at, in the order of
    their entries. Pinned bits, mutexes and pending exceptions are left
    out. *)

Module Shape.
Record t := mk {
  cells : list (list Z * Z);
  staging : option (list AtomId);
  permanent : option (list AtomId);
  parts : list (list AtomId * option (list AtomId));
  caches : list (list AtomId)
}.
End Shape.

Definition cellShape (cell : JSAtom.t) : list Z * Z := (JSAtom.chars cell, JSAtom.hash cell).

Definition ptrs (set : AtomSet.t) : list AtomId := AtomStateEntry.asPtrUnbarriered <$> set.

Definition partShape (part : Partition.t) : list AtomId * option (list AtomId) :=
  (ptrs (Partition.atoms part), ptrs <$> Partition.atomsAddedWhileSweeping part).

Definition shape (rt : JSRuntime) : Shape.t :=
  Shape.mk (cellShape <$> heap rt)
           (ptrs <$> permanentAtomsDuringInit_ rt)
           (ptrs <$> permanentAtoms_ rt)
           (partShape <$> partitions rt)
           (ptrs <$> atomCaches rt).

Section Canonical.
Context `{Engine}.

(** The atom [a] has the code units [cs], under their hash. *)
Definition holds (cells : list (list Z * Z)) (cs : list Z) (a : AtomId) : Prop :=
  cells !! a = Some (cs, HashString cs).

#[local] Instance holds_dec cells cs a : Decision (holds cells cs a).
Proof. unfold holds. apply _. Defined.

(** The first atom of a set that has the code units. *)
Definition find (cells : list (list Z * Z)) (cs : list Z) (set : list AtomId)
  : option AtomId :=
  snd <$> list_find (holds cells cs) set.

(** The atom [lookupForAdd] ends on. *)
Definition partAtom (gc : Collector) (cells : list (list Z * Z)) (cs : list Z)
    (part : list AtomId * option (list AtomId)) : option AtomId :=
  match part.2 with
  | None => find cells cs part.1
  | Some added =>
    match find cells cs added with
    | Some a => Some a
    | None =>
      match find cells cs part.1 with
      | Some a => if negb (gc a) then Some a else None
      | None => None
      end
    end
  end.

Definition unitsIndex (cs : list Z) : nat :=
  AtomsTable.indexOf (AtomHasher.ofLatin1Chars cs).

(** The atom the permanent set or the table has for the code units:
    during initialization that of the set being filled. *)
Definition tableAtom (gc : Collector) (A : Shape.t) (cs : list Z) : option AtomId :=
  match Shape.permanent A with
  | None => Shape.staging A ≫= find (Shape.cells A) cs
  | Some perm =>
    match find (Shape.cells A) cs perm with
    | Some a => Some a
    | None =>
      if length cs <=? MAX_LENGTH
      then Shape.parts A !! unitsIndex cs ≫= partAtom gc (Shape.cells A) cs
      else None
    end
  end.

(** The atom of the code units, if they have one. *)
Definition canonical (gc : Collector) (A : Shape.t) (cs : list Z) : option AtomId :=
  match staticStrings_lookup cs with
  | Some s => Some s
  | None => tableAtom gc A cs
  end.

(** Every set points at cells of the heap. *)
Definition validPtrs (n : nat) (set : list AtomId) : Prop := Forall (λ a, a < n) set.

Definition validShape (A : Shape.t) : Prop :=
  let n := length (Shape.cells A) in
  (∀ set, Shape.staging A = Some set → validPtrs n set)
  ∧ (∀ set, Shape.permanent A = Some set → validPtrs n set)
  ∧ Forall (λ part, validPtrs n part.1 ∧ ∀ added, part.2 = Some added → validPtrs n added)
           (Shape.parts A)
  ∧ Forall (validPtrs n) (Shape.caches A).

(** What a zone's cache has for a content is what the table has. *)
Definition cachesCoherent (gc : Collector) (A : Shape.t) : Prop :=
  ∀ z cache cs a,
    Shape.caches A !! z = Some cache →
    staticStrings_lookup cs = None →
    find (Shape.cells A) cs cache = Some a →
    tableAtom gc A cs = Some a.

(** *** Finding in grown sets *)

Lemma find_Some cells cs set a :
  find cells cs set = Some a → a ∈ set ∧ holds cells cs a.
Proof.
  unfold find. destruct (list_find _ set) as [[i x]|] eqn:Hf; [|done].
  intros [= <-]. apply list_find_Some in Hf as (Hi & Hx & _).
  split; [by eapply list_elem_of_lookup_2 | done].
Qed.


Lemma holds_app cells new cs a :
  a < length cells → holds (cells ++ new) cs a ↔ holds cells cs a.
Proof. intros Hlt. unfold holds. by rewrite lookup_app_l. Qed.

Lemma holds_inj cells cs1 cs2 a : holds cells cs1 a → holds cells cs2 a → cs1 = cs2.
Proof. unfold holds. congruence. Qed.

Lemma find_ext cells1 cells2 cs set :
  Forall (λ a, holds cells1 cs a ↔ holds cells2 cs a) set →
  find cells1 cs set = find cells2 cs set.
Proof.
  intros Hall. unfold find. f_equal.
  induction Hall as [|a set Ha _ IH]; [done|].
  cbn [list_find]. rewrite IH.
  destruct (decide (holds cells1 cs a)), (decide (holds cells2 cs a)); tauto || done.
Qed.

Lemma find_grown cells new cs set :
  validPtrs (length cells) set → find (cells ++ new) cs set = find cells cs set.
Proof.
  intros Hv. apply find_ext. eapply Forall_impl; [exact Hv|].
  intros a Ha. by apply holds_app.
Qed.

Lemma find_app cells cs set a :
  find cells cs (set ++ [a])
  = match find cells cs set with
    | Some b => Some b
    | None => if decide (holds cells cs a) then Some a else None
    end.
Proof.
  unfold find. destruct (list_find _ set) as [[i x]|] eqn:Hf.
  - by rewrite (list_find_app_l _ _ _ _ _ Hf).
  - rewrite (list_find_app_r _ _ _ Hf). cbn [list_find].
    by destruct (decide (holds cells cs a)).
Qed.


(** *** What an atomization does to the shape *)

Definition withCell (cs : list Z) (A : Shape.t) : Shape.t :=
  Shape.mk (Shape.cells A ++ [(cs, HashString cs)]) (Shape.staging A) (Shape.permanent A)
           (Shape.parts A) (Shape.caches A).

(** [addToAddSet]. *)
Definition addToPart (a : AtomId) (part : list AtomId * option (list AtomId))
  : list AtomId * option (list AtomId) :=
  match part.2 with
  | Some added => (part.1, Some (added ++ [a]))
  | None => (part.1 ++ [a], None)
  end.

(** The entry of a new atom goes into the set being filled during
    initialization, and into the partition of its hash afterwards. *)
Definition withEntry (cs : list Z) (a : AtomId) (A : Shape.t) : Shape.t :=
  match Shape.permanent A with
  | None =>
    Shape.mk (Shape.cells A) ((λ set, set ++ [a]) <$> Shape.staging A) None
             (Shape.parts A) (Shape.caches A)
  | Some perm =>
    Shape.mk (Shape.cells A) (Shape.staging A) (Some perm)
             (alter (addToPart a) (unitsIndex cs) (Shape.parts A)) (Shape.caches A)
  end.

Definition withCached (z : nat) (a : AtomId) (A : Shape.t) : Shape.t :=
  Shape.mk (Shape.cells A) (Shape.staging A) (Shape.permanent A) (Shape.parts A)
           (alter (λ cache, cache ++ [a]) z (Shape.caches A)).

(** The permanent set and the table: a hit, a failure, an atom allocated
    and lost, an atom allocated and entered. *)
Inductive tableStep (gc : Collector) (cs : list Z) (A : Shape.t)
  : option AtomId → Shape.t → Prop :=
  | table_hit a : tableAtom gc A cs = Some a → tableStep gc cs A (Some a) A
  | table_fail : tableStep gc cs A None A
  | table_alloc : tableStep gc cs A None (withCell cs A)
  | table_new :
      tableAtom gc A cs = None →
      match Shape.permanent A with
      | None => is_Some (Shape.staging A)
      | Some _ => length cs ≤ MAX_LENGTH ∧ is_Some (Shape.parts A !! unitsIndex cs)
      end →
      tableStep gc cs A (Some (length (Shape.cells A)))
                (withEntry cs (length (Shape.cells A)) (withCell cs A)).

(** A call of [AtomizeAndCopyChars] on the code units [cs]. *)
Inductive atomizeStep (gc : Collector) (cs : list Z) (A : Shape.t)
  : option AtomId → Shape.t → Prop :=
  | step_static s : staticStrings_lookup cs = Some s → atomizeStep gc cs A (Some s) A
  | step_cached z cache a :
      staticStrings_lookup cs = None →
      Shape.caches A !! z = Some cache →
      find (Shape.cells A) cs cache = Some a →
      atomizeStep gc cs A (Some a) A
  | step_table r1 A1 r A' :
      staticStrings_lookup cs = None →
      tableStep gc cs A r1 A1 →
      A' = A1 ∨ (∃ z a, r1 = Some a ∧ A' = withCached z a A1) →
      r = r1 ∨ r = None →
      atomizeStep gc cs A r A'.

Lemma holds_new cells cs d :
  holds (cells ++ [(cs, HashString cs)]) d (length cells) ↔ d = cs.
Proof.
  unfold holds. rewrite list_lookup_middle by done. split; [by intros [= ->] | by intros ->].
Qed.

Lemma validPtrs_mono n m set : n ≤ m → validPtrs n set → validPtrs m set.
Proof. intros Hle Hv. eapply Forall_impl; [exact Hv|]. intros a. simpl. lia. Qed.

Lemma validPtrs_app n set a : validPtrs n set → a < n → validPtrs n (set ++ [a]).
Proof. intros Hv Ha. apply Forall_app. split; [done | by constructor]. Qed.

Lemma validShape_withCell cs A : validShape A → validShape (withCell cs A).
Proof.
  intros (Hst & Hperm & Hparts & Hcaches). unfold validShape, withCell. simpl.
  rewrite length_app. simpl.
  assert (Hmono : ∀ set, validPtrs (length (Shape.cells A)) set →
                         validPtrs (length (Shape.cells A) + 1) set)
    by (intros set; apply validPtrs_mono; lia).
  repeat apply conj.
  - intros set Hset. auto.
  - intros set Hset. auto.
  - eapply Forall_impl; [exact Hparts|]. intros part [Hmain Hadded]. split; [auto|].
    intros added Hsec. auto.
  - eapply Forall_impl; [exact Hcaches|]. auto.
Qed.

Lemma validShape_withEntry cs a A :
  validShape A → a < length (Shape.cells A) → validShape (withEntry cs a A).
Proof.
  intros (Hst & Hperm & Hparts & Hcaches) Ha. unfold validShape, withEntry.
  destruct (Shape.permanent A) as [perm|] eqn:Hp; simpl.
  - repeat apply conj; try done.
    apply Forall_alter; [done|]. intros part _ [Hmain Hadded].
    unfold addToPart. destruct part as [main [added|]]; simpl in *.
    + split; [done|]. intros ? [= <-]. apply validPtrs_app; auto.
    + split; [by apply validPtrs_app | done].
  - repeat apply conj; try done.
    intros set Hset. destruct (Shape.staging A) as [st|]; [|done].
    injection Hset as <-. apply validPtrs_app; auto.
Qed.

Lemma validShape_withCached z a A :
  validShape A → a < length (Shape.cells A) → validShape (withCached z a A).
Proof.
  intros (Hst & Hperm & Hparts & Hcaches) Ha. unfold validShape, withCached. simpl.
  repeat apply conj; try done.
  apply Forall_alter; [done|]. intros cache _ Hv. by apply validPtrs_app.
Qed.


Lemma partAtom_holds gc cells cs part a :
  partAtom gc cells cs part = Some a → holds cells cs a.
Proof.
  unfold partAtom. destruct part as [main [added|]]; simpl.
  - destruct (find cells cs added) as [b|] eqn:Hadded.
    + intros [= <-]. by apply find_Some in Hadded as [_ ?].
    + destruct (find cells cs main) as [b|] eqn:Hmain; [|done].
      destruct (negb (gc b)); [|done]. intros [= <-]. by apply find_Some in Hmain as [_ ?].
  - intros Hmain. by apply find_Some in Hmain as [_ ?].
Qed.

Lemma tableAtom_holds gc A cs a : tableAtom gc A cs = Some a → holds (Shape.cells A) cs a.
Proof.
  unfold tableAtom. destruct (Shape.permanent A) as [perm|].
  - destruct (find _ cs perm) as [b|] eqn:Hperm.
    + intros [= <-]. by apply find_Some in Hperm as [_ ?].
    + destruct (length cs <=? MAX_LENGTH); [|done].
      destruct (Shape.parts A !! unitsIndex cs) as [part|]; [|done]. simpl.
      apply partAtom_holds.
  - destruct (Shape.staging A) as [st|]; [|done]. simpl.
    intros Hst. by apply find_Some in Hst as [_ ?].
Qed.

Lemma holds_lt cells cs a : holds cells cs a → a < length cells.
Proof. unfold holds. intros Ha. by eapply lookup_lt_Some. Qed.

Lemma partAtom_grown gc cells new cs part :
  validPtrs (length cells) part.1 →
  (∀ added, part.2 = Some added → validPtrs (length cells) added) →
  partAtom gc (cells ++ new) cs part = partAtom gc cells cs part.
Proof.
  intros Hmain Hadded. unfold partAtom. destruct part as [main [added|]]; simpl in *.
  - by rewrite !find_grown by auto.
  - by rewrite find_grown.
Qed.

(** A cell more changes nothing for the sets there are. *)
Lemma tableAtom_withCell gc cs A d :
  validShape A → tableAtom gc (withCell cs A) d = tableAtom gc A d.
Proof.
  intros (Hst & Hperm & Hparts & _). unfold tableAtom, withCell. simpl.
  destruct (Shape.permanent A) as [perm|].
  - rewrite find_grown by auto. destruct (find _ d perm); [done|].
    destruct (length d <=? MAX_LENGTH); [|done].
    destruct (Shape.parts A !! unitsIndex d) as [part|] eqn:Hpart; [|done]. simpl.
    eapply Forall_lookup_1 in Hparts as [Hmain Hadded]; [|exact Hpart].
    by apply partAtom_grown.
  - destruct (Shape.staging A) as [st|]; [|done]. simpl. apply find_grown. auto.
Qed.

Lemma find_app_other cells cs set a :
  ¬ holds cells cs a → find cells cs (set ++ [a]) = find cells cs set.
Proof.
  intros Hno. rewrite find_app. destruct (find cells cs set); [done|].
  by rewrite decide_False.
Qed.

Lemma find_app_new cells cs set a :
  find cells cs set = None → holds cells cs a → find cells cs (set ++ [a]) = Some a.
Proof. intros Hmiss Ha. by rewrite find_app, Hmiss, decide_True. Qed.

Lemma partAtom_addToPart_other gc cells cs a part :
  ¬ holds cells cs a → partAtom gc cells cs (addToPart a part) = partAtom gc cells cs part.
Proof.
  intros Hno. unfold partAtom, addToPart. destruct part as [main [added|]]; simpl.
  - by rewrite find_app_other.
  - by rewrite find_app_other.
Qed.

Lemma partAtom_addToPart_new gc cells cs a part :
  partAtom gc cells cs part = None → holds cells cs a →
  partAtom gc cells cs (addToPart a part) = Some a.
Proof.
  unfold partAtom, addToPart. destruct part as [main [added|]]; simpl.
  - destruct (find cells cs added) as [b|] eqn:Hadded; [done|].
    intros _ Ha. by rewrite find_app_new.
  - intros Hmain Ha. by rewrite find_app_new.
Qed.

(** The entry of an atom of another content changes nothing. *)
Lemma tableAtom_withEntry_other gc cs a A d :
  ¬ holds (Shape.cells A) d a →
  tableAtom gc (withEntry cs a A) d = tableAtom gc A d.
Proof.
  intros Hno. unfold tableAtom, withEntry.
  destruct (Shape.permanent A) as [perm|]; simpl.
  - destruct (find _ d perm); [done|].
    destruct (length d <=? MAX_LENGTH); [|done].
    destruct (decide (unitsIndex d = unitsIndex cs)) as [->|Hne].
    + rewrite list_lookup_alter_eq.
      destruct (Shape.parts A !! unitsIndex cs) as [part|]; [|done]. simpl.
      by apply partAtom_addToPart_other.
    + by rewrite list_lookup_alter_ne.
  - destruct (Shape.staging A) as [st|]; [|done]. simpl. by apply find_app_other.
Qed.

(** The entry of a new atom makes it the atom of its content. *)
Lemma tableAtom_withEntry_new gc cs a A :
  tableAtom gc A cs = None →
  match Shape.permanent A with
  | None => is_Some (Shape.staging A)
  | Some _ => length cs ≤ MAX_LENGTH ∧ is_Some (Shape.parts A !! unitsIndex cs)
  end →
  holds (Shape.cells A) cs a →
  tableAtom gc (withEntry cs a A) cs = Some a.
Proof.
  unfold tableAtom, withEntry.
  destruct (Shape.permanent A) as [perm|]; simpl.
  - destruct (find _ cs perm); [done|].
    intros Hmiss [Hlen [part Hpart]] Ha.
    apply Nat.leb_le in Hlen. rewrite Hlen in *.
    rewrite list_lookup_alter_eq, Hpart in *. simpl in *.
    by apply partAtom_addToPart_new.
  - intros Hmiss [st Hst] Ha. rewrite Hst in *. simpl in *. by apply find_app_new.
Qed.


(** *** The steps keep the atoms of the contents *)

Lemma tableStep_valid gc cs A r A' :
  validShape A → tableStep gc cs A r A' → validShape A'.
Proof.
  intros Hv [a Hhit| | |Hmiss Hroom]; try done.
  - by apply validShape_withCell.
  - apply validShape_withEntry; [by apply validShape_withCell|].
    unfold withCell. simpl. rewrite length_app. simpl. lia.
Qed.

Lemma tableStep_frame gc cs A r A' d x :
  validShape A → tableStep gc cs A r A' →
  tableAtom gc A d = Some x → tableAtom gc A' d = Some x.
Proof.
  intros Hv [a Hhit| | |Hmiss Hroom] Hd; try done.
  - by rewrite tableAtom_withCell.
  - rewrite tableAtom_withEntry_other; [by rewrite tableAtom_withCell|].
    unfold withCell. simpl. rewrite holds_new. intros ->. congruence.
Qed.

Lemma tableStep_result gc cs A a A' :
  validShape A → tableStep gc cs A (Some a) A' → tableAtom gc A' cs = Some a.
Proof.
  intros Hv Hstep. inversion Hstep as [a' Hhit| | |Hmiss Hroom]; subst; [done|].
  apply tableAtom_withEntry_new.
  - by rewrite tableAtom_withCell.
  - done.
  - unfold withCell. simpl. by apply holds_new.
Qed.

Lemma tableStep_coherent gc cs A r A' :
  validShape A → cachesCoherent gc A → tableStep gc cs A r A' → cachesCoherent gc A'.
Proof.
  intros Hv Hcoh Hstep. pose proof Hv as (_ & _ & _ & Hcaches).
  assert (Hgrown : ∀ z cache d a,
    Shape.caches A !! z = Some cache →
    staticStrings_lookup d = None →
    find (Shape.cells A ++ [(cs, HashString cs)]) d cache = Some a →
    tableAtom gc A d = Some a).
  { intros z cache d a Hz Hstatic Hfind. eapply Hcoh; [exact Hz | done |].
    rewrite find_grown in Hfind; [done|]. by eapply Forall_lookup_1 in Hcaches. }
  inversion Hstep as [a' Hhit| | |Hmiss Hroom]; subst; try done.
  - intros z cache d a Hz Hstatic Hfind. rewrite tableAtom_withCell by done.
    by eapply Hgrown.
  - intros z cache d a Hz Hstatic Hfind.
    eapply tableStep_frame; [exact Hv | exact Hstep |].
    unfold withEntry, withCell in Hz, Hfind.
    destruct (Shape.permanent A); simpl in Hz, Hfind; by eapply Hgrown.
Qed.

Lemma tableAtom_withCached gc z a A d :
  tableAtom gc (withCached z a A) d = tableAtom gc A d.
Proof. done. Qed.

Lemma coherent_withCached gc cs z a A :
  cachesCoherent gc A → tableAtom gc A cs = Some a →
  cachesCoherent gc (withCached z a A).
Proof.
  intros Hcoh Ha z' cache' d x Hz' Hstatic Hfind.
  rewrite tableAtom_withCached. unfold withCached in Hz', Hfind. simpl in Hz', Hfind.
  destruct (decide (z' = z)) as [->|Hne].
  - rewrite list_lookup_alter_eq in Hz'.
    destruct (Shape.caches A !! z) as [cache|] eqn:Hz; [|done].
    injection Hz' as <-. rewrite find_app in Hfind.
    destruct (find (Shape.cells A) d cache) as [b|] eqn:Hb.
    + injection Hfind as <-. by eapply Hcoh.
    + destruct (decide (holds (Shape.cells A) d a)) as [Hd|]; [|done].
      injection Hfind as <-.
      by rewrite (holds_inj _ _ _ _ Hd (tableAtom_holds _ _ _ _ Ha)).
  - rewrite list_lookup_alter_ne in Hz' by done. by eapply Hcoh.
Qed.

(** The invariant of the table: the sets point into the heap, and the
    caches agree with the table. *)
Definition tableInv (gc : Collector) (A : Shape.t) : Prop :=
  validShape A ∧ cachesCoherent gc A.

Lemma atomizeStep_inv gc cs A r A' :
  tableInv gc A → atomizeStep gc cs A r A' → tableInv gc A'.
Proof.
  intros [Hv Hcoh] [s Hs|z cache a Hstatic Hz Hfind|r1 A1 r0 A0 Hstatic Hstep Hcache Hr];
    try done.
  pose proof (tableStep_valid _ _ _ _ _ Hv Hstep) as Hv1.
  pose proof (tableStep_coherent _ _ _ _ _ Hv Hcoh Hstep) as Hcoh1.
  destruct Hcache as [->|(z & a & -> & ->)]; [done|].
  pose proof (tableStep_result _ _ _ _ _ Hv Hstep) as Ha.
  split.
  - apply validShape_withCached; [done|]. eapply holds_lt, tableAtom_holds, Ha.
  - by eapply coherent_withCached.
Qed.

Lemma atomizeStep_frame gc cs A r A' d x :
  tableInv gc A → atomizeStep gc cs A r A' →
  canonical gc A d = Some x → canonical gc A' d = Some x.
Proof.
  intros [Hv Hcoh] [s Hs|z cache a Hstatic Hz Hfind|r1 A1 r0 A0 Hstatic Hstep Hcache Hr];
    try done.
  unfold canonical. destruct (staticStrings_lookup d); [done|].
  intros Hd. eapply tableStep_frame in Hd; [|done..].
  by destruct Hcache as [->|(z & a & -> & ->)].
Qed.

Lemma atomizeStep_result gc cs A a A' :
  tableInv gc A → atomizeStep gc cs A (Some a) A' → canonical gc A' cs = Some a.
Proof.
  intros [Hv Hcoh] Hstep. unfold canonical.
  inversion Hstep as [s Hs|z cache a' Hstatic Hz Hfind|r1 A1 r0 A0 Hstatic Hstep1 Hcache Hr];
    subst.
  - by rewrite Hs.
  - rewrite Hstatic. by eapply Hcoh.
  - rewrite Hstatic. destruct Hr as [<-|?]; [|done].
    pose proof (tableStep_result _ _ _ _ _ Hv Hstep1) as Ha.
    by destruct Hcache as [->|(z & a' & _ & ->)].
Qed.


(** *** The shape of the runtime *)

Lemma match_holds h e c :
  AtomHasher.match_ h e (AtomHasher.ofChars c) = true
  ↔ holds (cellShape <$> h) (units c) (AtomStateEntry.asPtrUnbarriered e).
Proof.
  rewrite match_ofChars. unfold holds. rewrite list_lookup_fmap.
  split.
  - intros (k & -> & <- & <-). done.
  - destruct (h !! _) as [k|]; [|done]. intros [= <- <-]. by exists k.
Qed.

Lemma lookup_find h set c :
  (AtomStateEntry.asPtrUnbarriered ∘ snd) <$> AtomSet.lookup h set (AtomHasher.ofChars c)
  = find (cellShape <$> h) (units c) (ptrs set).
Proof.
  unfold AtomSet.lookup, find, ptrs. rewrite list_find_fmap.
  rewrite <-!option_fmap_compose.
  rewrite (list_find_ext _ (holds (cellShape <$> h) (units c)
                            ∘ AtomStateEntry.asPtrUnbarriered))
    by (intros e; apply match_holds).
  by destruct (list_find _ set) as [[i e]|].
Qed.

Lemma lookup_find_Some h set c i e :
  AtomSet.lookup h set (AtomHasher.ofChars c) = Some (i, e) →
  find (cellShape <$> h) (units c) (ptrs set) = Some (AtomStateEntry.asPtrUnbarriered e).
Proof. intros Hl. by rewrite <-lookup_find, Hl. Qed.

Lemma lookup_find_None h set c :
  AtomSet.lookup h set (AtomHasher.ofChars c) = None →
  find (cellShape <$> h) (units c) (ptrs set) = None.
Proof. intros Hl. by rewrite <-lookup_find, Hl. Qed.

Lemma lookupForAdd_partAtom gc h part c :
  (λ p, AtomStateEntry.asPtrUnbarriered p.2)
    <$> AtomsTable.lookupForAdd gc h part (AtomHasher.ofChars c)
  = partAtom gc (cellShape <$> h) (units c) (partShape part).
Proof.
  unfold AtomsTable.lookupForAdd, partAtom, partShape. simpl.
  destruct (Partition.atomsAddedWhileSweeping part) as [added|]; simpl.
  - destruct (AtomSet.lookup h added _) as [[i1 e1]|] eqn:H1.
    + by rewrite (lookup_find_Some _ _ _ _ _ H1).
    + rewrite (lookup_find_None _ _ _ H1).
      destruct (AtomSet.lookup h (Partition.atoms part) _) as [[i2 e2]|] eqn:H2.
      * rewrite (lookup_find_Some _ _ _ _ _ H2). by destruct (negb _).
      * by rewrite (lookup_find_None _ _ _ H2).
  - destruct (AtomSet.lookup h (Partition.atoms part) _) as [[i2 e2]|] eqn:H2.
    + by rewrite (lookup_find_Some _ _ _ _ _ H2).
    + by rewrite (lookup_find_None _ _ _ H2).
Qed.

Lemma indexOf_units c : AtomsTable.indexOf (AtomHasher.ofChars c) = unitsIndex (units c).
Proof. by destruct c. Qed.

Lemma cells_alter (f : JSAtom.t → JSAtom.t) a (h : list JSAtom.t) :
  (∀ cell, cellShape (f cell) = cellShape cell) →
  cellShape <$> alter f a h = cellShape <$> h.
Proof.
  intros Hf. rewrite (list_fmap_alter _ _ id) by (apply Forall_forall; intros; apply Hf).
  by apply list_alter_id.
Qed.

Lemma ptrs_setPinned i set : ptrs (AtomSet.setPinned i set) = ptrs set.
Proof.
  unfold ptrs, AtomSet.setPinned.
  rewrite (list_fmap_alter _ _ id) by (apply Forall_forall; done).
  by apply list_alter_id.
Qed.

Lemma partShape_setPinnedAt part r i :
  partShape (AtomsTable.setPinnedAt part r i) = partShape part.
Proof.
  unfold partShape, AtomsTable.setPinnedAt. destruct r; simpl.
  - by rewrite ptrs_setPinned.
  - destruct (Partition.atomsAddedWhileSweeping part); simpl; [|done].
    by rewrite ptrs_setPinned.
Qed.

Lemma partShape_addToAddSet part a b :
  partShape (AtomsTable.addToAddSet part (AtomStateEntry.mk a b))
  = addToPart a (partShape part).
Proof.
  unfold partShape, AtomsTable.addToAddSet, addToPart, AtomSet.add, ptrs.
  destruct (Partition.atomsAddedWhileSweeping part); simpl; by rewrite fmap_app.
Qed.

Lemma fmap_insert_alter {A B} (f : A → B) (g : B → B) (l : list A) i x y :
  l !! i = Some x → f y = g (f x) → f <$> <[i := y]> l = alter g i (f <$> l).
Proof.
  intros Hx Hy. rewrite list_fmap_insert, list_insert_alter.
  apply list_alter_ext; [|done]. intros z Hz.
  rewrite list_lookup_fmap, Hx in Hz. injection Hz as <-. done.
Qed.

Lemma fmap_insert_same {A B} (f : A → B) (l : list A) i x y :
  l !! i = Some x → f y = f x → f <$> <[i := y]> l = f <$> l.
Proof.
  intros Hx Hy. rewrite list_fmap_insert, Hy. apply list_insert_id.
  by rewrite list_lookup_fmap, Hx.
Qed.


Lemma tableAtom_partition gc rt c perm part :
  permanentAtoms_ rt = Some perm →
  AtomSet.lookup (heap rt) perm (AtomHasher.ofChars c) = None →
  length (units c) ≤ MAX_LENGTH →
  partitions rt !! AtomsTable.indexOf (AtomHasher.ofChars c) = Some part →
  tableAtom gc (shape rt) (units c)
  = (λ p, AtomStateEntry.asPtrUnbarriered p.2)
      <$> AtomsTable.lookupForAdd gc (heap rt) part (AtomHasher.ofChars c).
Proof.
  intros Hperm Hmiss Hlen Hpart. unfold tableAtom, shape. simpl.
  rewrite Hperm. simpl. rewrite (lookup_find_None _ _ _ Hmiss).
  apply Nat.leb_le in Hlen. rewrite Hlen.
  rewrite list_lookup_fmap, <-indexOf_units, Hpart. simpl.
  by rewrite lookupForAdd_partAtom.
Qed.

(** The call of the table, after a miss in the permanent set. *)
Lemma atomizeAndCopyChars_tableStep gc oom c pin idx rt perm :
  permanentAtoms_ rt = Some perm →
  AtomSet.lookup (heap rt) perm (AtomHasher.ofChars c) = None →
  length (units c) ≤ MAX_LENGTH →
  wp (AtomsTable.atomizeAndCopyChars gc oom c pin idx (AtomHasher.ofChars c)) rt
     (λ r rt', tableStep gc (units c) (shape rt) r (shape rt')).
Proof.
  intros Hperm Hmiss Hlen.
  eapply wp_mono; [apply atomizeAndCopyChars_spec|].
  intros r rt' (part & Hpart & Hidx & Hst' & Hperm' & Hcaches' & Hpost).
  pose proof (tableAtom_partition gc rt c perm part Hperm Hmiss Hlen Hpart) as Htable.
  assert (Hshape : ∀ h' ps',
    heap rt' = h' → partitions rt' = ps' →
    shape rt' = Shape.mk (cellShape <$> h') (Shape.staging (shape rt))
                         (Shape.permanent (shape rt)) (partShape <$> ps')
                         (Shape.caches (shape rt))).
  { intros h' ps' <- <-. unfold shape. simpl. by rewrite Hst', Hperm', Hcaches'. }
  destruct (AtomsTable.lookupForAdd gc (heap rt) part _) as [[[ref i] e]|] eqn:Hl.
  - destruct Hpost as (-> & cell & Hcell & Hpost). simpl in Htable.
    assert (Hsame : shape rt' = shape rt).
    { destruct (pinned pin && negb (JSAtom.isPinned cell)).
      - destruct Hpost as [Hh Hps]. rewrite (Hshape _ _ Hh Hps).
        rewrite cells_alter by done.
        rewrite (fmap_insert_same _ _ _ part) by (done || apply partShape_setPinnedAt).
        done.
      - destruct Hpost as [Hh Hps]. by rewrite (Hshape _ _ Hh Hps). }
    rewrite Hsame. by apply table_hit.
  - simpl in Htable. destruct (newStringFails oom).
    + destruct Hpost as (-> & Hh & Hps). rewrite (Hshape _ _ Hh Hps). apply table_fail.
    + destruct Hpost as (cell & Hh & Hchars & Hhash & _ & _ & Hpost).
      rewrite ofChars_hash in Hhash.
      assert (Hcells : cellShape <$> heap rt ++ [cell]
                       = (cellShape <$> heap rt) ++ [(units c, HashString (units c))]).
      { rewrite fmap_app. simpl. unfold cellShape. by rewrite Hchars, Hhash. }
      destruct (setAddFails oom).
      * destruct Hpost as [-> Hps]. rewrite (Hshape _ _ Hh Hps), Hcells. apply table_alloc.
      * destruct Hpost as [-> Hps]. rewrite (Hshape _ _ Hh Hps), Hcells.
        rewrite (fmap_insert_alter _ (addToPart (length (heap rt))) _ _ part)
          by (done || apply partShape_addToAddSet).
        pose proof (table_new gc (units c) (shape rt) Htable) as Hnew.
        unfold withEntry, withCell, shape in Hnew |- *. simpl in Hnew |- *.
        rewrite Hperm in Hnew |- *. simpl in Hnew |- *.
        rewrite length_fmap, <-indexOf_units in Hnew. apply Hnew.
        split; [done|]. rewrite list_lookup_fmap, Hpart. by eexists.
Qed.


(** What the insertion into the zone's cache, after the resolution [r1],
    makes of the shape. *)
Definition cacheStep (r1 : option AtomId) (A1 A' : Shape.t) : Prop :=
  A' = A1 ∨ ∃ z a, r1 = Some a ∧ A' = withCached z a A1.

Lemma zoneCacheAddFailed_wp oom cx zonePtr atom rt :
  wp (zoneCacheAddFailed oom cx zonePtr atom) rt
     (λ _ rt', cacheStep (Some atom) (shape rt) (shape rt')).
Proof.
  unfold zoneCacheAddFailed, atomCache_add.
  repeat wp_step; try by left.
  right. eexists _, atom. split; [done|].
  unfold shape, withCached. simpl. f_equal.
  eapply fmap_insert_alter; [eassumption|].
  unfold ptrs, AtomSet.add. by rewrite fmap_app.
Qed.

Lemma PermanentlyAtomizeAndCopyChars_wp gc oom cx zonePtr c idx rt :
  wp (PermanentlyAtomizeAndCopyChars oom cx zonePtr c idx (AtomHasher.ofChars c)) rt
     (λ r rt', ∃ r1 A1, tableStep gc (units c) (shape rt) r1 A1
                        ∧ cacheStep r1 A1 (shape rt')
                        ∧ (r = r1 ∨ r = None)).
Proof.
  unfold PermanentlyAtomizeAndCopyChars, morphIntoPermanentAtom. do 8 wp_step.
  match goal with
  | Hpop : negb (permanentAtomsPopulated rt) = true,
    Hst : permanentAtomsDuringInit_ rt = Some ?st |- _ =>
    rename Hpop into Hpop0; rename Hst into Hstaging; rename st into staging
  end.
  assert (Hperm : permanentAtoms_ rt = None).
  { unfold permanentAtomsPopulated in Hpop0. destruct (permanentAtoms_ rt); [|done].
    by rewrite bool_decide_eq_true_2 in Hpop0 by eauto. }
  assert (Htable : tableAtom gc (shape rt) (units c)
                   = (AtomStateEntry.asPtrUnbarriered ∘ snd)
                       <$> AtomSet.lookup (heap rt) staging (AtomHasher.ofChars c)).
  { unfold tableAtom, shape. simpl. rewrite Hperm, Hstaging. simpl. by rewrite lookup_find. }
  do 2 wp_step.
  destruct (AtomSet.lookup (heap rt) staging _) as [[i e]|] eqn:Hl; simpl in Htable.
  { wp_step. eexists _, _. split; [by apply table_hit|]. split; by left. }
  apply wp_bind, wp_AllocateNewAtom.
  { intros _. wp_step. eexists None, _. split; [apply table_fail|]. split; by left. }
  intros _ cell Hchars Hhash _ _. rewrite ofChars_hash in Hhash.
  set (a := length (heap rt)).
  assert (Hcells : ∀ f, (∀ x, cellShape (f x) = cellShape x) →
    cellShape <$> alter f a (heap rt ++ [cell])
    = (cellShape <$> heap rt) ++ [(units c, HashString (units c))]).
  { intros f Hf. rewrite cells_alter, fmap_app by done. simpl.
    unfold cellShape. by rewrite Hchars, Hhash. }
  repeat wp_step.
  - eexists None, _. split; [apply table_alloc|]. split; [|by left]. left.
    unfold shape, withCell. simpl. by rewrite Hcells.
  - eapply wp_mono; [apply zoneCacheAddFailed_wp|]. intros failed rt' Hcache.
    assert (Hnew : tableStep gc (units c) (shape rt) (Some a)
                     (withEntry (units c) a (withCell (units c) (shape rt)))).
    { pose proof (table_new gc (units c) (shape rt) Htable) as Hnew.
      unfold shape at 1 in Hnew. simpl in Hnew. rewrite Hperm, Hstaging in Hnew.
      simpl in Hnew. unfold shape at 1 in Hnew. simpl in Hnew.
      rewrite length_fmap in Hnew. apply Hnew. by eexists. }
    assert (Hshape : ∀ rt1,
      shape rt1 = withEntry (units c) a (withCell (units c) (shape rt)) →
      cacheStep (Some a) (shape rt1) (shape rt') →
      ∀ r, r = Some a ∨ r = None →
      ∃ r1 A1, tableStep gc (units c) (shape rt) r1 A1
               ∧ cacheStep r1 A1 (shape rt') ∧ (r = r1 ∨ r = None)).
    { intros rt1 Hrt1 Hc r Hr. eexists _, _. split; [exact Hnew|].
      rewrite <-Hrt1. done. }
    repeat wp_step; (eapply Hshape; [|exact Hcache|]; [|by auto]);
      unfold shape, withEntry, withCell; simpl; rewrite Hperm, Hstaging, Hcells by done;
      simpl; unfold ptrs, AtomSet.add; by rewrite fmap_app.
Qed.


Lemma tableStep_cacheStep gc cs A r A' :
  staticStrings_lookup cs = None →
  (∃ r1 A1, tableStep gc cs A r1 A1 ∧ cacheStep r1 A1 A' ∧ (r = r1 ∨ r = None)) →
  atomizeStep gc cs A r A'.
Proof. intros Hstatic (r2 & A2 & Hstep & Hcache & Hr). by eapply step_table. Qed.

(** A call of [AtomizeAndCopyChars] is a step of the shape. *)
Lemma AtomizeAndCopyChars_step gc oom cx c pin idx rt :
  wp (AtomizeAndCopyChars gc oom cx c pin idx) rt
     (λ r rt', atomizeStep gc (units c) (shape rt) r (shape rt')).
Proof.
  unfold AtomizeAndCopyChars.
  destruct (staticStrings_lookup (units c)) as [s|] eqn:Hstatic.
  { wp_step. by apply step_static. }
  do 2 wp_step. apply wp_bind.
  apply (wp_mono _ _ (λ zonePtr rt1,
    rt1 = rt ∧ ∀ i e, zonePtr = Some (Some (i, e)) →
      ∃ z cache, atomCaches rt !! z = Some cache
                 ∧ AtomSet.lookup (heap rt) cache (AtomHasher.ofChars c) = Some (i, e))).
  { repeat wp_step; (split; [done|]); intros i e [=]. eauto. }
  intros zonePtr rt1 [-> Hzone].
  assert (Hrest : ∀ (zp : option AtomSet.Ptr),
    wp (populated ← gets permanentAtomsPopulated;
        if negb populated then
          PermanentlyAtomizeAndCopyChars oom cx zp c idx (AtomHasher.ofChars c)
        else
          frozen ← gets permanentAtoms_;
          permanentAtoms ← deref frozen;
          match AtomSet.lookup (heap rt) permanentAtoms (AtomHasher.ofChars c) with
          | Some (_, e) =>
            let atom := AtomStateEntry.asPtrUnbarriered e in
            failed ← zoneCacheAddFailed oom cx zp atom;
            if failed : bool then
              _ ← ReportOutOfMemory; mret None
            else mret (Some atom)
          | None =>
            valid ← validateLength (List.length (units c));
            if negb valid then mret None
            else
              r ← AtomsTable.atomizeAndCopyChars gc oom c pin idx (AtomHasher.ofChars c);
              match r with
              | None => mret None
              | Some atom =>
                failed ← zoneCacheAddFailed oom cx zp atom;
                if failed : bool then
                  _ ← ReportOutOfMemory; mret None
                else mret (Some atom)
              end
          end) rt
       (λ r rt', atomizeStep gc (units c) (shape rt) r (shape rt'))).
  { intros zp. do 3 wp_step.
    { eapply wp_mono; [apply (PermanentlyAtomizeAndCopyChars_wp gc)|].
      intros r rt' Hstep. by eapply tableStep_cacheStep. }
    do 4 wp_step.
    match goal with Hp : permanentAtoms_ rt = Some ?p |- _ =>
      rename Hp into Hperm; rename p into perm end.
    destruct (AtomSet.lookup (heap rt) perm _) as [[i e]|] eqn:Hl.
    - (* a permanent atom *)
      assert (Htable : tableAtom gc (shape rt) (units c)
                       = Some (AtomStateEntry.asPtrUnbarriered e)).
      { unfold tableAtom, shape. simpl. rewrite Hperm. simpl.
        by rewrite (lookup_find_Some _ _ _ _ _ Hl). }
      wp_step. eapply wp_mono; [apply zoneCacheAddFailed_wp|]. intros failed rt' Hcache.
      repeat wp_step; (eapply tableStep_cacheStep; [done|]);
        eexists _, _; (split; [by apply table_hit|]); (split; [exact Hcache|]); auto.
    - unfold validateLength.
      destruct (length (units c) <=? MAX_LENGTH) eqn:Hlen.
      + apply Nat.leb_le in Hlen. do 2 wp_step. cbn [negb]. wp_step.
        eapply wp_mono; [by eapply atomizeAndCopyChars_tableStep|].
        intros r1 rt1 Hstep. destruct r1 as [atom|].
        * wp_step. eapply wp_mono; [apply zoneCacheAddFailed_wp|].
          intros failed rt' Hcache.
          repeat wp_step; (eapply tableStep_cacheStep; [done|]);
            eexists _, _; (split; [exact Hstep|]); (split; [exact Hcache|]); auto.
        * wp_step. eapply tableStep_cacheStep; [done|].
          eexists _, _. split; [exact Hstep|]. split; [by left | by left].
      + do 4 wp_step. cbn [negb]. wp_step. eapply tableStep_cacheStep; [done|].
        eexists None, _. split; [apply table_fail|]. split; by left. }
  destruct zonePtr as [[[i e]|]|].
  - destruct (Hzone i e eq_refl) as (z & cache & Hz & Hl).
    wp_step. eapply (step_cached _ _ _ z (ptrs cache)); [done| |].
    + unfold shape. simpl. by rewrite list_lookup_fmap, Hz.
    + apply (lookup_find_Some _ _ _ _ _ Hl).
  - apply Hrest.
  - apply Hrest.
Qed.

(** [pinExistingAtom] changes pinned bits only. *)
Lemma pinExistingAtom_shape atom rt :
  wp (AtomsTable.pinExistingAtom atom) rt (λ _ rt', shape rt' = shape rt).
Proof.
  unfold AtomsTable.pinExistingAtom, Lookup_ofAtom, AtomsTable.getPartitionIndex.
  wp_go. intros log'. unfold shape. rt_simpl.
  rewrite cells_alter by done. f_equal.
  eapply fmap_insert_same; [eassumption|]. apply partShape_setPinnedAt.
Qed.


(** *** The end of initialization *)

(** [initMainAtomsTables]: the set filled during initialization becomes
    the permanent set, and [k] empty partitions are made. *)
Definition withTable (k : nat) (A : Shape.t) : Shape.t :=
  Shape.mk (Shape.cells A) None (Shape.staging A)
           (Shape.parts A ++ replicate k ([], None)) (Shape.caches A).

Lemma withTable_frame gc k A d x :
  Shape.permanent A = None →
  tableAtom gc A d = Some x → tableAtom gc (withTable k A) d = Some x.
Proof.
  unfold tableAtom, withTable. simpl. intros ->.
  destruct (Shape.staging A) as [st|]; [|done]. simpl. by intros ->.
Qed.

Lemma withTable_inv gc k A :
  Shape.permanent A = None → tableInv gc A → tableInv gc (withTable k A).
Proof.
  intros Hperm [(Hst & _ & Hparts & Hcaches) Hcoh]. split.
  - unfold validShape, withTable. simpl. repeat apply conj; try done.
    apply Forall_app. split; [done|]. apply Forall_replicate. simpl.
    split; [constructor | done].
  - intros z cache d a Hz Hstatic Hfind. apply withTable_frame; [done|].
    by eapply Hcoh.
Qed.

Lemma init_loop_wp fails n : ∀ i rt,
  wp (AtomsTable.init_loop fails n i) rt (λ _ rt',
    ∃ k, rt' = set_partitions (partitions rt ++ replicate k (Partition.mk [] None)) rt).
Proof.
  induction n as [|n IH]; intros i rt; simpl.
  - wp_step. exists 0. simpl. by rewrite app_nil_r, set_partitions_id.
  - destruct (fails i).
    + wp_step. exists 0. simpl. by rewrite app_nil_r, set_partitions_id.
    + do 2 wp_step. eapply wp_mono; [apply IH|].
      intros ok rt' [k ->]. exists (S k). rt_simpl.
      by rewrite set_partitions_twice, <-app_assoc.
Qed.

Lemma initMainAtomsTables_wp fails rt :
  wp (initMainAtomsTables fails) rt (λ _ rt',
    permanentAtoms_ rt = None ∧ ∃ k, shape rt' = withTable k (shape rt)).
Proof.
  unfold initMainAtomsTables, AtomsTable.init. repeat wp_step.
  eapply wp_mono; [apply init_loop_wp|]. intros ok rt' [k ->].
  assert (Hperm : permanentAtoms_ rt = None).
  { match goal with Hp : negb (permanentAtomsPopulated rt) = true |- _ =>
      unfold permanentAtomsPopulated in Hp; destruct (permanentAtoms_ rt); [|done];
      by rewrite bool_decide_eq_true_2 in Hp by eauto end. }
  split; [done|]. exists k. unfold shape, withTable. rt_simpl. simpl.
  by rewrite fmap_app, fmap_replicate.
Qed.

(** *** Runs of atomizations and pins *)

(** An operation on the table that is not a sweep: an atomization,
    successful or not, the pinning of an atom, or the end of
    initialization. *)
Inductive tableOp (gc : Collector) (rt rt' : JSRuntime) : Prop :=
  | op_atomize oom cx c pin idx r :
      AtomizeAndCopyChars gc oom cx c pin idx rt = Return r rt' → tableOp gc rt rt'
  | op_pin atom :
      AtomsTable.pinExistingAtom atom rt = Return tt rt' → tableOp gc rt rt'
  | op_init fails ok :
      initMainAtomsTables fails rt = Return ok rt' → tableOp gc rt rt'.

Lemma tableOp_keeps gc rt rt' :
  tableOp gc rt rt' → tableInv gc (shape rt) →
  tableInv gc (shape rt')
  ∧ ∀ d x, canonical gc (shape rt) d = Some x → canonical gc (shape rt') d = Some x.
Proof.
  intros [oom cx c pin idx r Hrun | atom Hrun | fails ok Hrun] Hinv.
  - pose proof (wp_Return _ _ _ _ _ (AtomizeAndCopyChars_step gc oom cx c pin idx rt) Hrun)
      as Hstep.
    cbv beta in Hstep.
    split; [by eapply atomizeStep_inv|]. intros d x. by eapply atomizeStep_frame.
  - pose proof (wp_Return _ _ _ _ _ (pinExistingAtom_shape atom rt) Hrun) as Hshape.
    cbv beta in Hshape. by rewrite Hshape.
  - pose proof (wp_Return _ _ _ _ _ (initMainAtomsTables_wp fails rt) Hrun)
      as [Hperm [k Hshape]].
    assert (Hperm' : Shape.permanent (shape rt) = None)
      by (unfold shape; simpl; by rewrite Hperm).
    rewrite Hshape. split; [by apply withTable_inv|].
    intros d x. unfold canonical. destruct (staticStrings_lookup d); [done|].
    by apply withTable_frame.
Qed.

Lemma tableOps_keep gc rt rt' :
  rtc (tableOp gc) rt rt' → tableInv gc (shape rt) →
  tableInv gc (shape rt')
  ∧ ∀ d x, canonical gc (shape rt) d = Some x → canonical gc (shape rt') d = Some x.
Proof.
  induction 1 as [rt|rt rt1 rt2 Hop _ IH]; intros Hinv; [done|].
  destruct (tableOp_keeps _ _ _ Hop Hinv) as [Hinv1 Hframe1].
  destruct (IH Hinv1) as [Hinv2 Hframe2]. split; [done|]. auto.
Qed.

(** Between sweeps the atom of a content stays what an atomization has
    made it: whatever atomizations and pins follow, and through the end
    of initialization, a later atomization of the same code units that
    returns an atom returns that one. *)
Lemma atomize_same_atom gc oom1 oom2 cx1 cx2 c1 c2 pin1 pin2 idx1 idx2 rt0 rt1 rt2 rt3 a1 a2 :
  tableInv gc (shape rt0) →
  AtomizeAndCopyChars gc oom1 cx1 c1 pin1 idx1 rt0 = Return (Some a1) rt1 →
  rtc (tableOp gc) rt1 rt2 →
  units c2 = units c1 →
  AtomizeAndCopyChars gc oom2 cx2 c2 pin2 idx2 rt2 = Return (Some a2) rt3 →
  a2 = a1 ∧ tableInv gc (shape rt3) ∧ canonical gc (shape rt3) (units c1) = Some a1.
Proof.
  intros Hinv0 Hrun1 Hops Hunits Hrun2.
  pose proof (wp_Return _ _ _ _ _ (AtomizeAndCopyChars_step gc oom1 cx1 c1 pin1 idx1 rt0) Hrun1)
    as Hstep1.
  cbv beta in Hstep1.
  pose proof (atomizeStep_inv _ _ _ _ _ Hinv0 Hstep1) as Hinv1.
  pose proof (atomizeStep_result _ _ _ _ _ Hinv0 Hstep1) as Hcanon1.
  destruct (tableOps_keep _ _ _ Hops Hinv1) as [Hinv2 Hframe].
  pose proof (Hframe _ _ Hcanon1) as Hcanon2.
  pose proof (wp_Return _ _ _ _ _ (AtomizeAndCopyChars_step gc oom2 cx2 c2 pin2 idx2 rt2) Hrun2)
    as Hstep2.
  cbv beta in Hstep2. rewrite Hunits in Hstep2.
  pose proof (atomizeStep_inv _ _ _ _ _ Hinv2 Hstep2) as Hinv3.
  pose proof (atomizeStep_result _ _ _ _ _ Hinv2 Hstep2) as Hcanon3.
  pose proof (atomizeStep_frame _ _ _ _ _ _ _ Hinv2 Hstep2 Hcanon2) as Hcanon3'.
  split; [congruence|]. split; [done|]. done.
Qed.


End Canonical.

(** C8. Keys and entries are compared across encodings. The hash of a
    key is that of its code units, whatever their width, so the keys made
    from a narrow and from a wide representation of the same code points
    have the same hash and match the same entries: those whose atom has
    these code units under this hash. An entry whose atom differs from
    the key in length or in hash does not match, whatever the characters
    are. A key made from an atom matches the entries that point at this
    atom, and no others. Hence atomizations of the two representations
    that return an atom, with atomizations and pins between them, return
    the same atom. *)
Theorem cross_encoding_match `{Engine} gc heap e cs :
  AtomHasher.hash (AtomHasher.ofLatin1Chars cs)
  = AtomHasher.hash (AtomHasher.ofTwoByteChars cs)
  ∧ AtomHasher.match_ heap e (AtomHasher.ofLatin1Chars cs)
    = AtomHasher.match_ heap e (AtomHasher.ofTwoByteChars cs)
  ∧ (∀ c, AtomHasher.match_ heap e (AtomHasher.ofChars c) = true
          ↔ ∃ k, heap !! AtomStateEntry.asPtrUnbarriered e = Some k
                 ∧ JSAtom.chars k = units c
                 ∧ JSAtom.hash k = HashString (units c))
  ∧ (∀ l k, AtomHasher.atom l = None →
            heap !! AtomStateEntry.asPtrUnbarriered e = Some k →
            JSAtom.length k ≠ AtomHasher.length l ∨ JSAtom.hash k ≠ AtomHasher.hash l →
            AtomHasher.match_ heap e l = false)
  ∧ (∀ a cell, AtomHasher.match_ heap e (AtomHasher.ofAtom a cell)
               = Nat.eqb a (AtomStateEntry.asPtrUnbarriered e))
  ∧ (∀ oom1 oom2 cx1 cx2 pin1 pin2 idx1 idx2 rt0 rt1 rt2 rt3 a1 a2,
       tableInv gc (shape rt0) →
       AtomizeAndCopyChars gc oom1 cx1 (Latin1Chars cs) pin1 idx1 rt0 = Return (Some a1) rt1 →
       rtc (tableOp gc) rt1 rt2 →
       AtomizeAndCopyChars gc oom2 cx2 (TwoByteChars cs) pin2 idx2 rt2 = Return (Some a2) rt3 →
       a2 = a1).
Proof.
  refine (conj _ (conj _ (conj _ (conj _ (conj _ _))))).
  - done.
  - apply match_width.
  - intros c. apply match_ofChars.
  - intros l k Hatom Hk Hdiff. unfold AtomHasher.match_. rewrite Hatom, Hk.
    destruct Hdiff as [Hlen | Hhash].
    + apply Nat.eqb_neq in Hlen. by rewrite Hlen.
    + apply Z.eqb_neq in Hhash. rewrite Hhash. by rewrite orb_true_r.
  - intros a cell. done.
  - intros oom1 oom2 cx1 cx2 pin1 pin2 idx1 idx2 rt0 rt1 rt2 rt3 a1 a2 Hinv Hrun1 Hops Hrun2.
    by destruct (atomize_same_atom gc oom1 oom2 cx1 cx2 (Latin1Chars cs) (TwoByteChars cs)
                   pin1 pin2 idx1 idx2 rt0 rt1 rt2 rt3 a1 a2 Hinv Hrun1 Hops eq_refl Hrun2).
Qed.

(** * Further properties *)

(** ** The locks of the partitions *)

(** What a scope that holds the lock of partition [i] adds to the log of
    the mutexes. *)
Definition lockPair (rt : JSRuntime) (i : nat) : list MutexOp :=
  if hasHelperThreadZones rt then [Lock i; Unlock i] else [].

(** [m] neither reads nor writes the log of the mutexes. *)
Definition lockFree {A} (m : M A) : Prop := ∀ log, commutes (set_mutexLog log) m.

Lemma lockFree_log {A} (m : M A) rt a rt' :
  lockFree m → m rt = Return a rt' → mutexLog rt' = mutexLog rt.
Proof.
  intros Hfree Hrun. specialize (Hfree (mutexLog rt) rt).
  replace (set_mutexLog (mutexLog rt) rt) with rt in Hfree by by destruct rt.
  rewrite Hrun in Hfree. simpl in Hfree. by injection Hfree as ->.
Qed.

Lemma AutoLock_run {A} i (body : M A) rt :
  lockFree body →
  AutoLock i body rt
  = Outcome_map (set_mutexLog (mutexLog rt ++ lockPair rt i)) (body rt).
Proof.
  intros Hfree. unfold AutoLock, lockPair, mbind, M_bind, gets, modify, mret, M_ret.
  destruct (hasHelperThreadZones rt).
  - rewrite Hfree. destruct (body rt) as [a rt1|e]; [|done]. simpl.
    by rewrite <-app_assoc.
  - destruct (body rt) as [a rt1|e] eqn:Hrun; [|done]. simpl.
    rewrite app_nil_r, <-(lockFree_log _ _ _ _ Hfree Hrun). by destruct rt1.
Qed.

Section Locks.
Context `{Engine}.









Lemma wp_AutoLock_log {A} i (body : M A) rt :
  lockFree body →
  wp (AutoLock i body) rt (λ _ rt', mutexLog rt' = mutexLog rt ++ lockPair rt i).
Proof.
  intros Hfree. unfold wp. rewrite AutoLock_run by done.
  by destruct (body rt).
Qed.

Lemma atomizeAndCopyChars_log gc oom c pin idx lookup rt :
  wp (AtomsTable.atomizeAndCopyChars gc oom c pin idx lookup) rt
     (λ _ rt', mutexLog rt' = mutexLog rt ++ lockPair rt (AtomsTable.indexOf lookup)).
Proof.
  unfold AtomsTable.atomizeAndCopyChars, AtomsTable.getPartitionIndex.
  do 6 wp_step. apply wp_AutoLock_log. intros log.
  unfold AllocateNewAtom, setPinned, getPartition, setPartition, readAtom, ReportOutOfMemory.
  repeat commutes_step.
Qed.

Lemma pinExistingAtom_log atom rt :
  wp (AtomsTable.pinExistingAtom atom) rt
     (λ _ rt', ∃ cell, heap rt !! atom = Some cell
        ∧ mutexLog rt' = mutexLog rt
                         ++ lockPair rt (AtomsTable.indexOf (AtomHasher.ofAtom atom cell))).
Proof.
  unfold AtomsTable.pinExistingAtom, Lookup_ofAtom, AtomsTable.getPartitionIndex.
  do 16 wp_step. simplify_eq. eapply wp_mono; [apply wp_AutoLock_log|].
  - intros log.
    unfold setPinned, getPartition, setPartition, readAtom. repeat commutes_step.
  - intros ? rt1 Hlog. eauto.
Qed.

Lemma zoneCacheAddFailed_log oom cx zonePtr atom rt :
  wp (zoneCacheAddFailed oom cx zonePtr atom) rt (λ _ rt', mutexLog rt' = mutexLog rt).
Proof. unfold zoneCacheAddFailed, atomCache_add. wp_go. Qed.

Lemma AtomizeAndCopyChars_log gc oom cx c pin idx rt :
  wp (AtomizeAndCopyChars gc oom cx c pin idx) rt
     (λ _ rt', mutexLog rt' = mutexLog rt
               ∨ mutexLog rt' = mutexLog rt
                                ++ lockPair rt (AtomsTable.indexOf (AtomHasher.ofChars c))).
Proof.
  unfold AtomizeAndCopyChars, PermanentlyAtomizeAndCopyChars, validateLength.
  repeat first
    [ match goal with
      | |- wp (zoneCacheAddFailed _ _ _ _ ≫= _) _ _ =>
        apply wp_bind; eapply wp_mono; [apply zoneCacheAddFailed_log|];
        cbv beta; intros ? ? ?
      | |- wp (AtomsTable.atomizeAndCopyChars _ _ _ _ _ _ ≫= _) _ _ =>
        apply wp_bind; eapply wp_mono; [apply atomizeAndCopyChars_log|];
        cbv beta; intros ? ? ?
      | |- wp (morphIntoPermanentAtom _ ≫= _) _ _ =>
        unfold morphIntoPermanentAtom
      end
    | wp_step ];
    rt_simpl; try (by left); try (left; congruence); try (right; congruence).
Qed.

End Locks.

(** ** The full sweep *)

Section FullSweep.
Context `{Engine}.

(** The locks that [sweepAll] takes and releases, one partition after
    the other. *)
Definition sweepLocks (rt : JSRuntime) (i n : nat) : list MutexOp :=
  concat (lockPair rt <$> seq i n).

Lemma sweepAll_loop_run gc n : ∀ i rt,
  i + n = length (partitions rt) →
  forEachPartition (λ i,
    AutoLock i (
      part ← getPartition i;
      let atoms := Partition.atoms part in
      setPartition i
        (Partition.mk (AtomsTable.sweepAll_enum gc (length atoms) atoms Enum.start)
                      (Partition.atomsAddedWhileSweeping part))))
    n i rt
  = Return tt
      (set_mutexLog (mutexLog rt ++ sweepLocks rt i n)
         (set_partitions
            (take i (partitions rt) ++ (sweptPartition gc <$> drop i (partitions rt))) rt)).
Proof.
  induction n as [|n IH]; intros i rt Hlen; simpl.
  - rewrite drop_ge, take_ge by lia. unfold sweepLocks. simpl.
    rewrite !app_nil_r. by destruct rt.
  - destruct (lookup_lt_is_Some_2 (partitions rt) i) as [part Hpart]; [lia|].
    unfold mbind at 1, M_bind at 1.
    rewrite AutoLock_run
      by (intros log; unfold getPartition, setPartition; repeat commutes_step).
    match goal with
    | |- context [Outcome_map _ (?m rt)] =>
      assert (Hinner : m rt
        = Return tt (set_partitions (<[i := sweptPartition gc part]> (partitions rt)) rt))
    end.
    { unfold getPartition, setPartition, mbind, M_bind, gets, deref, modify.
      rewrite Hpart. simpl. unfold Enum.start. by rewrite sweepAll_enum_live by lia. }
    rewrite Hinner. simpl.
    rewrite IH by (simpl; rewrite length_insert; lia). simpl.
    unfold sweepLocks. simpl. rewrite <-app_assoc.
    unfold lockPair, set_mutexLog, set_partitions. simpl. do 2 f_equal.
    rewrite (drop_S _ _ _ Hpart), fmap_cons.
    rewrite drop_insert_lt by lia.
    rewrite (take_S_r _ i (sweptPartition gc part))
      by (apply list_lookup_insert_eq; lia).
    rewrite take_insert_ge by lia. by rewrite <-app_assoc.
Qed.

Lemma sweepAll_run gc rt :
  length (partitions rt) = AtomsTable.PartitionCount →
  AtomsTable.sweepAll gc rt
  = Return tt
      (set_mutexLog (mutexLog rt ++ sweepLocks rt 0 AtomsTable.PartitionCount)
         (set_partitions (sweptPartition gc <$> partitions rt) rt)).
Proof.
  intros Hlen. unfold AtomsTable.sweepAll. rewrite sweepAll_loop_run by lia.
  by rewrite take_0, drop_0.
Qed.

Lemma live_idemp gc atoms : live gc (live gc atoms) = live gc atoms.
Proof.
  unfold live. induction atoms as [|e atoms IH]; [done|].
  destruct (gc (AtomStateEntry.asPtrUnbarriered e)) eqn:Hgc.
  - rewrite filter_cons_False by (rewrite Hgc; done). done.
  - rewrite filter_cons_True by done. rewrite filter_cons_True by done. by rewrite IH.
Qed.

(** X2. [sweepAll] returns on a table that has all its partitions. Of
    every main set it keeps, in their order, exactly the entries whose
    atoms the collector does not report about to be finalized; the
    secondary sets, the heap, the permanent atoms and the caches are as
    they were. It holds one lock at a time: the mutex of each partition
    is released before the next one is taken. A second sweep with the
    same verdicts removes nothing more. *)
Theorem sweepAll_removes_exactly_the_dead gc rt :
  length (partitions rt) = AtomsTable.PartitionCount →
  ∃ rt',
    AtomsTable.sweepAll gc rt = Return tt rt'
    ∧ rt' = set_mutexLog (mutexLog rt ++ sweepLocks rt 0 AtomsTable.PartitionCount)
              (set_partitions (partitions rt') rt)
    ∧ length (partitions rt') = length (partitions rt)
    ∧ (∀ i part, partitions rt !! i = Some part →
         partitions rt' !! i
         = Some (Partition.mk (live gc (Partition.atoms part))
                              (Partition.atomsAddedWhileSweeping part)))
    ∧ ∃ rt'', AtomsTable.sweepAll gc rt' = Return tt rt''
              ∧ partitions rt'' = partitions rt'.
Proof.
  intros Hlen. eexists. split; [by apply sweepAll_run|]. simpl.
  refine (conj _ (conj _ (conj _ _))); try done.
  - by rewrite length_fmap.
  - intros i part Hpart. by rewrite list_lookup_fmap, Hpart.
  - eexists. split; [apply sweepAll_run; simpl; by rewrite length_fmap|]. simpl.
    rewrite <-list_fmap_compose. apply list_fmap_ext. intros _ part _.
    unfold sweptPartition. simpl. by rewrite live_idemp.
Qed.

End FullSweep.

(** ** The errors of a failed atomization *)

Section Errors.
Context `{Engine}.

(** A call that returns an atom leaves the pending exception alone; one
    that returns null has reported that memory ran out. *)
Definition reportsOutOfMemory (rt : JSRuntime) (r : option AtomId) (rt' : JSRuntime) : Prop :=
  match r with
  | Some _ => pendingException rt' = pendingException rt
  | None => pendingException rt' = Some OutOfMemory
  end.

Lemma atomizeAndCopyChars_reports gc oom c pin idx lookup rt :
  wp (AtomsTable.atomizeAndCopyChars gc oom c pin idx lookup) rt (reportsOutOfMemory rt).
Proof.
  unfold AtomsTable.atomizeAndCopyChars, AtomsTable.getPartitionIndex. wp_go.
Qed.

Lemma zoneCacheAddFailed_exception oom cx zonePtr atom rt :
  wp (zoneCacheAddFailed oom cx zonePtr atom) rt
     (λ _ rt', pendingException rt' = pendingException rt).
Proof. unfold zoneCacheAddFailed, atomCache_add. wp_go. Qed.

Lemma AtomizeAndCopyChars_reports gc oom cx c pin idx rt :
  wp (AtomizeAndCopyChars gc oom cx c pin idx) rt (λ r rt',
    match r with
    | Some _ => pendingException rt' = pendingException rt
    | None =>
      pendingException rt' = Some OutOfMemory
      ∨ pendingException rt' = Some AllocationOverflow ∧ MAX_LENGTH < length (units c)
    end).
Proof.
  unfold AtomizeAndCopyChars, PermanentlyAtomizeAndCopyChars, validateLength.
  repeat first
    [ match goal with
      | |- wp (zoneCacheAddFailed _ _ _ _ ≫= _) _ _ =>
        apply wp_bind; eapply wp_mono; [apply zoneCacheAddFailed_exception|];
        cbv beta; intros ? ? ?
      | |- wp (AtomsTable.atomizeAndCopyChars _ _ _ _ _ _ ≫= _) _ _ =>
        apply wp_bind; eapply wp_mono; [apply atomizeAndCopyChars_reports|];
        unfold reportsOutOfMemory; cbv beta; intros [?|] ? ?
      | |- wp (morphIntoPermanentAtom _ ≫= _) _ _ =>
        unfold morphIntoPermanentAtom
      end
    | wp_step ];
    rt_simpl; try done; try congruence; try (by left).
  all: right; split; [done|].
  all: match goal with Hx : (_ <=? _) = false |- _ => apply Nat.leb_gt in Hx end; done.
Qed.

End Errors.

Section LockScope.
Context `{Engine}.

(** X3. The lock of a partition is held for the time of one call. Take a
    runtime after initialization and a key whose partition points into
    the heap. [AtomsTable::atomizeAndCopyChars] returns, and all it adds
    to the log of the mutexes is the lock and the unlock of the partition
    of the key, when the runtime has helper-thread zones, and nothing
    when it has none; this holds when the atom is found, when it is
    created and when an allocation fails. [AtomizeAndCopyChars] returns
    with either nothing added to the log or that pair. Every call of
    [pinExistingAtom] that returns has added the pair of the partition
    of its atom. *)
Theorem partition_lock_is_scoped gc oom cx c pin idx rt perm part :
  let lookup := AtomHasher.ofChars c in
  let pair := lockPair rt (AtomsTable.indexOf lookup) in
  (∀ z, zone cx = Some z → is_Some (atomCaches rt !! z)) →
  permanentAtoms_ rt = Some perm →
  partitions rt !! AtomsTable.indexOf lookup = Some part →
  validPartition (heap rt) part →
  (∃ r rt', AtomsTable.atomizeAndCopyChars gc oom c pin idx lookup rt = Return r rt'
            ∧ mutexLog rt' = mutexLog rt ++ pair)
  ∧ (∃ r rt', AtomizeAndCopyChars gc oom cx c pin idx rt = Return r rt'
              ∧ (mutexLog rt' = mutexLog rt ∨ mutexLog rt' = mutexLog rt ++ pair))
  ∧ (∀ atom cell rt',
       heap rt !! atom = Some cell →
       AtomsTable.pinExistingAtom atom rt = Return tt rt' →
       mutexLog rt' = mutexLog rt
                      ++ lockPair rt (AtomsTable.indexOf (AtomHasher.ofAtom atom cell))).
Proof.
  intros lookup pair Hcache Hperm Hpart Hvalid. refine (conj _ (conj _ _)).
  - pose proof (atomizeAndCopyChars_returns gc oom c pin idx lookup rt part
                  (indexOf_ofChars_lt c) Hpart Hvalid) as (r & rt' & Hrun & _)%twp_Return.
    exists r, rt'. split; [done|].
    exact (wp_Return _ _ _ _ _ (atomizeAndCopyChars_log gc oom c pin idx lookup rt) Hrun).
  - destruct (AtomizeAndCopyChars_returns gc oom cx c pin idx rt perm part
                Hcache Hperm Hpart Hvalid) as (r & rt' & Hrun).
    exists r, rt'. split; [done|].
    exact (wp_Return _ _ _ _ _ (AtomizeAndCopyChars_log gc oom cx c pin idx rt) Hrun).
  - intros atom cell rt' Hcell Hrun.
    pose proof (wp_Return _ _ _ _ _ (pinExistingAtom_log atom rt) Hrun)
      as (cell' & Hcell' & Hlog).
    cbv beta in Hcell'. by simplify_eq.
Qed.

Lemma pinExistingAtom_exception atom rt :
  wp (AtomsTable.pinExistingAtom atom) rt
     (λ _ rt', pendingException rt' = pendingException rt).
Proof.
  unfold AtomsTable.pinExistingAtom, Lookup_ofAtom, AtomsTable.getPartitionIndex. wp_go.
Qed.

(** The code units of a string that is not an atom. *)
Definition stringUnits (str : JSString) : list Z :=
  match str with
  | AtomString _ => []
  | LinearString c _ | RopeString c _ => units c
  end.

Lemma AtomizeString_reports gc oom flattenFails cx str pin rt :
  wp (AtomizeString gc oom flattenFails cx str pin) rt (λ r rt',
    match r with
    | Some _ => pendingException rt' = pendingException rt
    | None =>
      pendingException rt' = Some OutOfMemory
      ∨ pendingException rt' = Some AllocationOverflow
        ∧ MAX_LENGTH < length (stringUnits str)
    end).
Proof.
  unfold AtomizeString. destruct str as [atom|c index|c index]; simpl stringUnits.
  - do 2 wp_step.
    destruct (pinned pin && negb (JSAtom.isPinned cell)).
    + apply wp_bind. eapply wp_mono; [apply pinExistingAtom_exception|].
      intros [] rt' Hex. by wp_step.
    + by repeat wp_step.
  - apply AtomizeAndCopyChars_reports.
  - destruct flattenFails; [|apply AtomizeAndCopyChars_reports].
    repeat wp_step. by left.
Qed.

(** X4. A failed atomization has reported its error. Whenever
    [AtomizeAndCopyChars] (and so [Atomize] and [AtomizeChars]) or
    [AtomizeString] returns null, the error has been reported, which
    the pending exception of the context records: an allocation
    overflow, which only strings of more than [MAX_LENGTH] characters
    get, or out of memory (a failed allocation of the string, of the
    entry of a set or of a zone's cache, or a rope that cannot be
    flattened). A call that returns an atom leaves the pending exception
    as it was. *)
Theorem failed_atomization_is_reported gc oom flattenFails cx rt :
  (∀ c pin idx r rt',
     AtomizeAndCopyChars gc oom cx c pin idx rt = Return r rt' →
     match r with
     | Some _ => pendingException rt' = pendingException rt
     | None =>
       pendingException rt' = Some OutOfMemory
       ∨ pendingException rt' = Some AllocationOverflow ∧ MAX_LENGTH < length (units c)
     end)
  ∧ (∀ str pin r rt',
       AtomizeString gc oom flattenFails cx str pin rt = Return r rt' →
       match r with
       | Some _ => pendingException rt' = pendingException rt
       | None =>
         pendingException rt' = Some OutOfMemory
         ∨ pendingException rt' = Some AllocationOverflow
           ∧ MAX_LENGTH < length (stringUnits str)
       end).
Proof.
  split.
  - intros c pin idx r rt' Hrun.
    exact (wp_Return _ _ _ _ _ (AtomizeAndCopyChars_reports gc oom cx c pin idx rt) Hrun).
  - intros str pin r rt' Hrun.
    exact (wp_Return _ _ _ _ _ (AtomizeString_reports gc oom flattenFails cx str pin rt) Hrun).
Qed.

(** X5. Every key selects a partition of the table. The index that
    [getPartitionIndex] computes from a key made of characters is the
    value of the upper [PartitionShift] bits of the hash of the code
    units; it is below [PartitionCount], so the assertion holds and the
    function returns; and it is the same for the Latin-1 and the
    two-byte encoding of the same code units. The key of an atom whose
    cached hash is the hash of its characters selects the partition of
    its characters. *)
Theorem getPartitionIndex_in_range c rt :
  let index := Z.to_nat (HashString (units c) / 2 ^ (32 - Z.of_nat PartitionShift)) in
  AtomsTable.getPartitionIndex (AtomHasher.ofChars c) rt = Return index rt
  ∧ index < AtomsTable.PartitionCount
  ∧ (∀ c', units c' = units c →
       AtomsTable.getPartitionIndex (AtomHasher.ofChars c') rt = Return index rt)
  ∧ (∀ a cell,
       heap rt !! a = Some cell → JSAtom.chars cell = units c →
       JSAtom.hash cell = HashString (units c) →
       (lookup ← Lookup_ofAtom a; AtomsTable.getPartitionIndex lookup) rt
       = Return index rt).
Proof.
  intros index.
  assert (Hindex : ∀ l, AtomHasher.hash l = HashString (units c) →
    AtomsTable.indexOf l = index).
  { intros l Hl. unfold AtomsTable.indexOf, index. rewrite Hl.
    pose proof PartitionShift_range. by rewrite Z.shiftr_div_pow2 by lia. }
  assert (Hlt : index < AtomsTable.PartitionCount).
  { rewrite <-(Hindex (AtomHasher.ofChars c)) by apply ofChars_hash.
    apply indexOf_ofChars_lt. }
  assert (Hrun : ∀ l, AtomHasher.hash l = HashString (units c) →
    AtomsTable.getPartitionIndex l rt = Return index rt).
  { intros l Hl. unfold AtomsTable.getPartitionIndex. rewrite (Hindex l Hl).
    apply Nat.ltb_lt in Hlt. unfold mbind, M_bind. by rewrite Hlt. }
  refine (conj _ (conj Hlt (conj _ _))).
  - apply Hrun, ofChars_hash.
  - intros c' Hc'. apply Hrun. by rewrite ofChars_hash, Hc'.
  - intros a cell Hcell Hchars Hhash.
    unfold Lookup_ofAtom, readAtom, mbind, M_bind, gets, deref. rewrite Hcell. simpl.
    rewrite Hchars, Hhash, Z.eqb_refl. simpl. by apply Hrun.
Qed.

End LockScope.

Section ConversionTheorems.
Context `{Engine} `{Conversions}.

(** X6. The conversions fail as their callers expect. [ToAtom] returns an
    atom string as it is, with the runtime untouched. On any other
    string of at most [MAX_LENGTH] characters, [ToAtom<NoGC>] is
    [AtomizeString] followed, when no atom came back, by
    [recoverFromOutOfMemory]: the assertion that the context is then
    throwing out of memory holds, on a helper thread or not; and
    [ToAtom<CanGC>] is [AtomizeString]. [IndexToIdSlow] fails its
    assertion on an index that is an integer id, and when it returns
    [false] an exception is pending. *)
Theorem ToAtom_recovers_from_out_of_memory gc oom flattenFails names helperThread cx str rt :
  length (stringUnits str) ≤ MAX_LENGTH →
  (∀ allowGC a, str = AtomString a →
     ToAtom gc oom flattenFails names helperThread allowGC cx (StringValue str) rt
     = Return (Some a) rt)
  ∧ ((∀ a, str ≠ AtomString a) →
     ToAtom gc oom flattenFails names helperThread NoGC cx (StringValue str) rt
     = (atom ← AtomizeString gc oom flattenFails cx str DoNotPinAtom;
        recoverIfNoGC NoGC atom) rt
     ∧ ToAtom gc oom flattenFails names helperThread CanGC cx (StringValue str) rt
       = AtomizeString gc oom flattenFails cx str DoNotPinAtom rt)
  ∧ (∀ index, (index ≤ JSID_INT_MAX)%Z →
       IndexToIdSlow gc oom cx index rt = Abort AssertionFailure)
  ∧ (∀ index rt',
       IndexToIdSlow gc oom cx index rt = Return None rt' →
       is_Some (pendingException rt')).
Proof.
  intros Hlen. refine (conj _ (conj _ (conj _ _))).
  - by intros allowGC a ->.
  - intros Hstr.
    assert (Hunfold : ∀ allowGC,
      ToAtom gc oom flattenFails names helperThread allowGC cx (StringValue str) rt
      = (atom ← AtomizeString gc oom flattenFails cx str DoNotPinAtom;
         match atom, allowGC with
         | None, NoGC =>
           throwing ← gets isThrowingOutOfMemory;
           _ ← MOZ_ASSERT (implb (negb helperThread) throwing);
           _ ← recoverFromOutOfMemory;
           mret None
         | _, _ => mret atom
         end) rt).
    { intros allowGC. destruct str; [by edestruct Hstr | done | done]. }
    split.
    + rewrite Hunfold. unfold mbind at 1 5, M_bind at 1 5.
      pose proof (AtomizeString_reports gc oom flattenFails cx str DoNotPinAtom rt) as Hrep.
      unfold wp in Hrep.
      destruct (AtomizeString gc oom flattenFails cx str DoNotPinAtom rt) as [[a|] rt'|e];
        [done | | done].
      destruct Hrep as [Hoom | [_ Hover]]; [|lia].
      unfold recoverIfNoGC, mbind, M_bind, gets, isThrowingOutOfMemory. rewrite Hoom.
      simpl. by destruct helperThread.
    + rewrite Hunfold. unfold mbind, M_bind.
      by destruct (AtomizeString gc oom flattenFails cx str DoNotPinAtom rt) as [[a|] rt'|e].
  - intros index Hindex. unfold IndexToIdSlow, mbind, M_bind.
    assert (Hlt : (JSID_INT_MAX <? index)%Z = false) by (apply Z.ltb_ge; lia).
    by rewrite Hlt.
  - intros index rt' Hrun. unfold IndexToIdSlow in Hrun.
    apply bind_Return in Hrun as ([] & rt1 & Hassert & Hrun).
    assert (rt1 = rt) as -> by (destruct (_ <? _)%Z; [by injection Hassert | done]).
    apply bind_Return in Hrun as (atom & rt2 & Hatom & Hrun).
    destruct atom as [atom|]; [done|]. injection Hrun as <-.
    pose proof (wp_Return _ _ _ _ _ (AtomizeAndCopyChars_reports gc oom cx _ _ _ rt) Hatom)
      as [-> | [-> _]]; eauto.
Qed.

End ConversionTheorems.

(** ** The entries of the table and the pinned bits *)

(** The entries of a partition, of its main and of its secondary set, and
    those of the whole table. *)
Definition partEntries (part : Partition.t) : AtomSet.t :=
  Partition.atoms part ++ default [] (Partition.atomsAddedWhileSweeping part).

Definition tableEntries (ps : list Partition.t) : AtomSet.t := ps ≫= partEntries.

(** The entry points at a cell, and its pinned bit is that of the cell. *)
Definition agrees (h : Heap) (e : AtomStateEntry.t) : Prop :=
  ∃ cell, h !! AtomStateEntry.asPtrUnbarriered e = Some cell
          ∧ AtomStateEntry.isPinned e = JSAtom.isPinned cell.

(** The table is well formed: no atom has two entries, and every entry
    agrees with its atom on the pinned bit. *)
Definition tableWf (rt : JSRuntime) : Prop :=
  NoDup (ptrs (tableEntries (partitions rt)))
  ∧ Forall (agrees (heap rt)) (tableEntries (partitions rt)).

(** The atom is a cell with its pinned bit set. *)
Definition pinnedAt (h : Heap) (a : AtomId) : Prop :=
  ∃ cell, h !! a = Some cell ∧ JSAtom.isPinned cell = true.

(** The atoms of the permanent set, and of the set that becomes it, are
    pinned, as [TracePermanentAtoms] asserts. *)
Definition permanentAtomsPinned (rt : JSRuntime) : Prop :=
  ∀ set, permanentAtomsDuringInit_ rt = Some set ∨ permanentAtoms_ rt = Some set →
         Forall (λ e, pinnedAt (heap rt) (AtomStateEntry.asPtrUnbarriered e)) set.

Lemma tableEntries_app ps1 ps2 :
  tableEntries (ps1 ++ ps2) = tableEntries ps1 ++ tableEntries ps2.
Proof. apply bind_app. Qed.

Lemma tableEntries_lookup ps i part :
  ps !! i = Some part →
  tableEntries ps
  = tableEntries (take i ps) ++ partEntries part ++ tableEntries (drop (S i) ps).
Proof.
  intros Hpart. rewrite <-(take_drop_middle ps i part Hpart) at 1.
  rewrite tableEntries_app. unfold tableEntries at 2. by rewrite bind_cons.
Qed.

Lemma tableEntries_insert ps i part part' :
  ps !! i = Some part →
  tableEntries (<[i := part']> ps)
  = tableEntries (take i ps) ++ partEntries part' ++ tableEntries (drop (S i) ps).
Proof.
  intros Hpart. pose proof (lookup_lt_Some _ _ _ Hpart) as Hlt.
  rewrite insert_take_drop by done.
  rewrite tableEntries_app. unfold tableEntries at 2. by rewrite bind_cons.
Qed.

Lemma inTable_tableEntries ps e : inTable ps e ↔ e ∈ tableEntries ps.
Proof.
  unfold tableEntries. rewrite list_elem_of_bind. split.
  - intros (i & part & Hpart & Hin). exists part. split; [|by eapply list_elem_of_lookup_2].
    unfold partEntries. rewrite elem_of_app.
    destruct Hin as [Hin | (added & -> & Hin)]; [by left | by right].
  - intros (part & Hin & Hpart).
    apply list_elem_of_lookup in Hpart as [i Hpart]. exists i, part. split; [done|].
    unfold partEntries in Hin. apply elem_of_app in Hin as [Hin | Hin]; [by left|].
    destruct (Partition.atomsAddedWhileSweeping part) as [added|];
      [|by apply elem_of_nil in Hin].
    right. by exists added.
Qed.

Lemma partEntries_setPinnedAt part r i e :
  AtomsTable.entryAt part r i = Some e →
  ∃ k, partEntries part !! k = Some e
       ∧ partEntries (AtomsTable.setPinnedAt part r i)
         = alter (AtomStateEntry.setPinned true) k (partEntries part).
Proof.
  unfold AtomsTable.entryAt, AtomsTable.setPinnedAt, partEntries, AtomSet.setPinned.
  destruct r; simpl.
  - intros He. exists i. pose proof (lookup_lt_Some _ _ _ He) as Hlt. split.
    + by rewrite lookup_app_l.
    + by rewrite alter_app_l.
  - destruct (Partition.atomsAddedWhileSweeping part) as [added|]; [|done]. simpl.
    intros He. exists (length (Partition.atoms part) + i). split.
    + rewrite lookup_app_r by lia. rewrite <-He. f_equal. lia.
    + by rewrite alter_app_r.
Qed.

Lemma tableEntries_setPinnedAt ps index part r i e :
  ps !! index = Some part →
  AtomsTable.entryAt part r i = Some e →
  ∃ k, tableEntries ps !! k = Some e
       ∧ tableEntries (<[index := AtomsTable.setPinnedAt part r i]> ps)
         = alter (AtomStateEntry.setPinned true) k (tableEntries ps).
Proof.
  intros Hpart He.
  destruct (partEntries_setPinnedAt _ _ _ _ He) as (k & Hk & Hset).
  pose proof (lookup_lt_Some _ _ _ Hk) as Hlt.
  exists (length (tableEntries (take index ps)) + k).
  rewrite (tableEntries_insert _ _ _ _ Hpart), (tableEntries_lookup _ _ _ Hpart), Hset.
  split.
  - rewrite lookup_app_r by lia. rewrite lookup_app_l by lia. rewrite <-Hk. f_equal. lia.
  - rewrite alter_app_r. by rewrite alter_app_l.
Qed.

Lemma partEntries_addToAddSet part e :
  partEntries (AtomsTable.addToAddSet part e) = partEntries part ++ [e].
Proof.
  unfold partEntries, AtomsTable.addToAddSet, AtomSet.add.
  destruct (Partition.atomsAddedWhileSweeping part) as [added|]; simpl.
  - by rewrite app_assoc.
  - by rewrite !app_nil_r.
Qed.

Lemma tableEntries_addToAddSet ps index part e :
  ps !! index = Some part →
  tableEntries (<[index := AtomsTable.addToAddSet part e]> ps) ≡ₚ tableEntries ps ++ [e].
Proof.
  intros Hpart.
  rewrite (tableEntries_insert _ _ _ _ Hpart), (tableEntries_lookup _ _ _ Hpart).
  rewrite partEntries_addToAddSet. rewrite <-!app_assoc.
  do 2 f_equiv. apply Permutation_app_comm.
Qed.

(** *** Well-formed sets of entries *)

Definition wf (h : Heap) (E : AtomSet.t) : Prop :=
  NoDup (ptrs E) ∧ Forall (agrees h) E.

Lemma agrees_lt h e : agrees h e → AtomStateEntry.asPtrUnbarriered e < length h.
Proof. intros (cell & Hcell & _). by eapply lookup_lt_Some. Qed.

Lemma agrees_app h cell e : agrees h e → agrees (h ++ [cell]) e.
Proof.
  intros (c & Hc & Hpin). exists c. split; [|done].
  rewrite lookup_app_l by by eapply lookup_lt_Some. done.
Qed.

Lemma wf_sublist h E E' : wf h E → E' `sublist_of` E → wf h E'.
Proof.
  intros [Hdup Hagree] Hsub. split.
  - eapply sublist_NoDup; [exact Hdup|]. unfold ptrs. by apply fmap_sublist.
  - apply Forall_forall. intros e He. rewrite Forall_forall in Hagree.
    apply Hagree. by eapply elem_of_sublist.
Qed.

Lemma wf_perm h E E' : wf h E → E' ≡ₚ E → wf h E'.
Proof. intros [Hdup Hagree] Hperm. unfold wf, ptrs. by rewrite Hperm. Qed.

Lemma wf_app_cell h cell E : wf h E → wf (h ++ [cell]) E.
Proof.
  intros [Hdup Hagree]. split; [done|].
  eapply Forall_impl; [exact Hagree|]. intros e. apply agrees_app.
Qed.

Lemma wf_new h cell E :
  wf h E →
  wf (h ++ [cell]) (E ++ [AtomStateEntry.mk (length h) (JSAtom.isPinned cell)]).
Proof.
  intros [Hdup Hagree]. split.
  - unfold ptrs. rewrite fmap_app. simpl. apply NoDup_app. split; [done|]. split.
    + intros a (e & -> & He)%list_elem_of_fmap Hin. apply list_elem_of_singleton in Hin.
      rewrite Forall_forall in Hagree. apply Hagree, agrees_lt in He. lia.
    + apply NoDup_singleton.
  - apply Forall_app. split.
    + eapply Forall_impl; [exact Hagree|]. intros e. apply agrees_app.
    + apply Forall_singleton. exists cell. simpl. split; [|done].
      by rewrite lookup_app_r, Nat.sub_diag by lia.
Qed.

Lemma wf_pin h E K e :
  wf h E → E !! K = Some e →
  wf (alter JSAtom.setPinned (AtomStateEntry.asPtrUnbarriered e) h)
     (alter (AtomStateEntry.setPinned true) K E).
Proof.
  intros [Hdup Hagree] HK. split.
  - change (alter (AtomStateEntry.setPinned true) K E) with (AtomSet.setPinned K E).
    by rewrite ptrs_setPinned.
  - apply Forall_lookup. intros j e' Hj.
    destruct (decide (j = K)) as [->|Hne].
    + rewrite list_lookup_alter_eq, HK in Hj. simpl in Hj. injection Hj as <-.
      eapply Forall_lookup_1 in Hagree as (cell & Hcell & _); [|exact HK].
      exists (JSAtom.setPinned cell). simpl. split; [|done].
      by rewrite list_lookup_alter_eq, Hcell.
    + rewrite list_lookup_alter_ne in Hj by done.
      eapply Forall_lookup_1 in Hagree as (cell & Hcell & Hpin); [|exact Hj].
      exists cell. split; [|done].
      rewrite list_lookup_alter_ne; [done|]. intros Heq.
      apply Hne. eapply NoDup_lookup; [exact Hdup| |].
      * unfold ptrs. by rewrite list_lookup_fmap, Hj.
      * unfold ptrs. rewrite list_lookup_fmap, HK. simpl. by rewrite Heq.
Qed.

(** *** What an atomization does to the heap and to the sets

    The atom that a call settles on, and what the call has done to the
    heap, to the entries of the table and to the set of the permanent
    atoms to be, when it settles. *)

Inductive resolved (pin : PinningBehavior) (static : option AtomId)
    (h : Heap) (E : AtomSet.t) (st perm : option AtomSet.t)
    (h' : Heap) (E' : AtomSet.t) (st' : option AtomSet.t) : option AtomId → Prop :=
  | res_none :
      h' = h → E' = E → st' = st →
      resolved pin static h E st perm h' E' st' None
  | res_alloc cell :
      h' = h ++ [cell] → E' = E → st' = st →
      resolved pin static h E st perm h' E' st' None
  | res_static s :
      static = Some s → h' = h → E' = E → st' = st →
      resolved pin static h E st perm h' E' st' (Some s)
  | res_cached a :
      pin = DoNotPinAtom → h' = h → E' = E → st' = st →
      resolved pin static h E st perm h' E' st' (Some a)
  | res_permanent set e :
      st = Some set ∨ perm = Some set → e ∈ set →
      h' = h → E' = E → st' = st →
      resolved pin static h E st perm h' E' st' (Some (AtomStateEntry.asPtrUnbarriered e))
  | res_table e cell :
      e ∈ E → h !! AtomStateEntry.asPtrUnbarriered e = Some cell →
      (pinned pin = true → JSAtom.isPinned cell = true) →
      h' = h → E' = E → st' = st →
      resolved pin static h E st perm h' E' st' (Some (AtomStateEntry.asPtrUnbarriered e))
  | res_pinned K e cell :
      pin = PinAtom →
      E !! K = Some e → h !! AtomStateEntry.asPtrUnbarriered e = Some cell →
      h' = alter JSAtom.setPinned (AtomStateEntry.asPtrUnbarriered e) h →
      E' = alter (AtomStateEntry.setPinned true) K E → st' = st →
      resolved pin static h E st perm h' E' st' (Some (AtomStateEntry.asPtrUnbarriered e))
  | res_new cell :
      h' = h ++ [cell] → JSAtom.isPinned cell = pinned pin →
      E' ≡ₚ E ++ [AtomStateEntry.mk (length h) (JSAtom.isPinned cell)] → st' = st →
      resolved pin static h E st perm h' E' st' (Some (length h))
  | res_staged cell set :
      st = Some set → h' = h ++ [cell] → JSAtom.isPinned cell = true →
      E' = E → st' = Some (set ++ [AtomStateEntry.mk (length h) true]) →
      resolved pin static h E st perm h' E' st' (Some (length h)).

Section Effect.
Context `{Engine}.

Lemma lookupForAdd_entryAt gc h part l r i e :
  AtomsTable.lookupForAdd gc h part l = Some (r, i, e) →
  AtomsTable.entryAt part r i = Some e.
Proof.
  unfold AtomsTable.lookupForAdd, AtomsTable.entryAt.
  destruct (Partition.atomsAddedWhileSweeping part) as [added|].
  - destruct (AtomSet.lookup h added l) as [[i1 e1]|] eqn:H1.
    + intros ?; simplify_eq. simpl. by apply lookup_Some in H1 as [? _].
    + destruct (AtomSet.lookup h (Partition.atoms part) l) as [[i2 e2]|] eqn:H2; [|done].
      destruct (negb _); [|done]. intros ?; simplify_eq. by apply lookup_Some in H2 as [? _].
  - destruct (AtomSet.lookup h (Partition.atoms part) l) as [[i2 e2]|] eqn:H2; [|done].
    intros ?; simplify_eq. by apply lookup_Some in H2 as [? _].
Qed.

(** The runtime [rt'] is [rt] but for the pending exception and the
    caches of the zones. *)
Definition sameAtoms (rt rt' : JSRuntime) : Prop :=
  heap rt' = heap rt ∧ partitions rt' = partitions rt
  ∧ permanentAtomsDuringInit_ rt' = permanentAtomsDuringInit_ rt
  ∧ permanentAtoms_ rt' = permanentAtoms_ rt.

Definition resolves (pin : PinningBehavior) (static : option AtomId)
    (rt rt' : JSRuntime) (a : option AtomId) : Prop :=
  permanentAtoms_ rt' = permanentAtoms_ rt
  ∧ resolved pin static (heap rt) (tableEntries (partitions rt))
      (permanentAtomsDuringInit_ rt) (permanentAtoms_ rt)
      (heap rt') (tableEntries (partitions rt')) (permanentAtomsDuringInit_ rt') a.

Lemma resolves_frame pin static rt0 rt rt1 rt2 a :
  sameAtoms rt0 rt → resolves pin static rt rt1 a → sameAtoms rt1 rt2 →
  resolves pin static rt0 rt2 a.
Proof.
  intros (Hh0 & Hp0 & Hs0 & Hperm0) [Hperm Hres] (Hh & Hp & Hs & Hperm2).
  unfold resolves. rewrite Hh, Hp, Hs, Hperm2, <-Hh0, <-Hp0, <-Hs0, <-Hperm0. done.
Qed.

Lemma atomizeAndCopyChars_resolves gc oom c pin lookup static rt r rt' :
  atomizeAndCopyChars_post gc oom c pin lookup rt r rt' →
  ∃ a, resolves pin static rt rt' a ∧ (r = a ∨ r = None).
Proof.
  intros (part & Hpart & _ & Hst & Hperm & _ & Hpost).
  destruct (AtomsTable.lookupForAdd gc (heap rt) part lookup) as [[[ref i] e]|] eqn:Hl.
  - destruct Hpost as (-> & cell & Hcell & Hpost).
    apply lookupForAdd_entryAt in Hl.
    eexists. split; [|by left]. split; [done|].
    destruct (pinned pin && negb (JSAtom.isPinned cell)) eqn:Hpin.
    + destruct Hpost as [Hh Hps].
      destruct (tableEntries_setPinnedAt _ _ _ _ _ _ Hpart Hl) as (K & HK & HE).
      eapply (res_pinned _ _ _ _ _ _ _ _ _ K e cell); [| done | done | done | | done].
      * by destruct pin.
      * by rewrite Hps.
    + destruct Hpost as [Hh Hps].
      eapply (res_table _ _ _ _ _ _ _ _ _ e cell); [| done | | done | by rewrite Hps | done].
      * apply inTable_tableEntries. eexists _, _. split; [exact Hpart|].
        by eapply entryAt_elem.
      * intros Hp. rewrite Hp in Hpin. simpl in Hpin. by apply negb_false_iff in Hpin.
  - destruct (newStringFails oom).
    + destruct Hpost as (-> & Hh & Hps). exists None. split; [|by left].
      split; [done|]. apply res_none; [done | by rewrite Hps | done].
    + destruct Hpost as (cell & Hh & _ & _ & Hpin & _ & Hpost).
      destruct (setAddFails oom).
      * destruct Hpost as [-> Hps]. exists None. split; [|by left].
        split; [done|]. eapply res_alloc; [done | by rewrite Hps | done].
      * destruct Hpost as [-> Hps]. eexists. split; [|by left].
        split; [done|]. eapply res_new; try done.
        rewrite Hps, Hpin. by apply tableEntries_addToAddSet.
Qed.

Lemma zoneCacheAddFailed_same oom cx zonePtr atom rt :
  wp (zoneCacheAddFailed oom cx zonePtr atom) rt (λ _ rt', sameAtoms rt rt').
Proof. unfold zoneCacheAddFailed, atomCache_add, sameAtoms. wp_go. Qed.

Lemma sameAtoms_refl rt : sameAtoms rt rt.
Proof. done. Qed.

Lemma sameAtoms_trans rt1 rt2 rt3 : sameAtoms rt1 rt2 → sameAtoms rt2 rt3 → sameAtoms rt1 rt3.
Proof. unfold sameAtoms. intros (?&?&?&?) (?&?&?&?). repeat split; congruence. Qed.

Lemma sameAtoms_exception e rt : sameAtoms rt (set_pendingException e rt).
Proof. done. Qed.

Lemma resolves_same pin static rt rt' a :
  sameAtoms rt rt' →
  resolved pin static (heap rt) (tableEntries (partitions rt))
    (permanentAtomsDuringInit_ rt) (permanentAtoms_ rt)
    (heap rt) (tableEntries (partitions rt)) (permanentAtomsDuringInit_ rt) a →
  resolves pin static rt rt' a.
Proof.
  intros (Hh & Hp & Hs & Hperm) Hres. unfold resolves. rewrite Hh, Hp, Hs, Hperm. done.
Qed.

End Effect.

(** A step that stops before the calls that have lemmas of their own. *)
Ltac wp_step_outer :=
  lazymatch goal with
  | |- wp (zoneCacheAddFailed _ _ _ _ ≫= _) _ _ => fail
  | |- wp (AtomsTable.atomizeAndCopyChars _ _ _ _ _ _ ≫= _) _ _ => fail
  | _ => wp_step
  end.

Section Master.
Context `{Engine}.

Lemma alter_new {A} (f : A → A) (l : list A) x :
  alter f (length l) (l ++ [x]) = l ++ [f x].
Proof.
  replace (length l) with (length l + 0) at 1 by lia. by rewrite alter_app_r.
Qed.

Lemma AtomizeAndCopyChars_resolves gc oom cx c pin idx rt :
  wp (AtomizeAndCopyChars gc oom cx c pin idx) rt (λ r rt',
    ∃ a, resolves pin (staticStrings_lookup (units c)) rt rt' a ∧ (r = a ∨ r = None)).
Proof.
  set (static := staticStrings_lookup (units c)).
  set (Q := λ (r : option AtomId) rt',
    ∃ a, resolves pin static rt rt' a ∧ (r = a ∨ r = None)).
  assert (Hfinish : ∀ zonePtr atom rt1,
    resolves pin static rt rt1 (Some atom) →
    wp (failed ← zoneCacheAddFailed oom cx zonePtr atom;
        if failed : bool then _ ← ReportOutOfMemory; mret None else mret (Some atom))
       rt1 Q).
  { intros zonePtr atom rt1 Hres. apply wp_bind.
    eapply wp_mono; [apply zoneCacheAddFailed_same|]. intros failed rt2 Hsame.
    destruct failed; repeat wp_step; exists (Some atom).
    - split; [|by right]. eapply resolves_frame; [apply sameAtoms_refl | exact Hres|].
      eapply sameAtoms_trans; [exact Hsame | apply sameAtoms_exception].
    - split; [|by left]. eapply resolves_frame; [apply sameAtoms_refl | exact Hres | done]. }
  unfold AtomizeAndCopyChars. fold static.
  destruct static as [s|] eqn:Hstatic.
  { wp_step. exists (Some s). split; [|by left].
    apply resolves_same; [done|]. by apply res_static. }
  do 2 wp_step. apply wp_bind.
  apply (wp_mono _ _ (λ zonePtr rt1,
           rt1 = rt ∧ ∀ i e, zonePtr = Some (Some (i, e)) → pin = DoNotPinAtom)).
  { destruct (zone cx) as [z|]; [|wp_step; split; [done|]; by intros].
    destruct pin; cbn [negb pinned]; repeat wp_step; (split; [done|]); by intros. }
  intros zonePtr rt1 [-> Hzone].
  assert (Hrest :
    wp (populated ← gets permanentAtomsPopulated;
        if negb populated then
          PermanentlyAtomizeAndCopyChars oom cx zonePtr c idx (AtomHasher.ofChars c)
        else
          frozen ← gets permanentAtoms_;
          permanentAtoms ← deref frozen;
          match AtomSet.lookup (heap rt) permanentAtoms (AtomHasher.ofChars c) with
          | Some (_, e) =>
            let atom := AtomStateEntry.asPtrUnbarriered e in
            failed ← zoneCacheAddFailed oom cx zonePtr atom;
            if failed : bool then _ ← ReportOutOfMemory; mret None else mret (Some atom)
          | None =>
            valid ← validateLength (length (units c));
            if negb valid then mret None
            else
              r ← AtomsTable.atomizeAndCopyChars gc oom c pin idx (AtomHasher.ofChars c);
              match r with
              | None => mret None
              | Some atom =>
                failed ← zoneCacheAddFailed oom cx zonePtr atom;
                if failed : bool then _ ← ReportOutOfMemory; mret None
                else mret (Some atom)
              end
          end) rt Q).
  { do 2 wp_step. destruct (negb (permanentAtomsPopulated rt)) eqn:Hpop.
    - unfold PermanentlyAtomizeAndCopyChars, morphIntoPermanentAtom. do 10 wp_step.
      match goal with
      | Hst : permanentAtomsDuringInit_ rt = Some ?st |- _ =>
        rename Hst into Hstaging; rename st into staging
      end.
      destruct (AtomSet.lookup (heap rt) staging _) as [[i e]|] eqn:Hl.
      + wp_step. eexists. split; [|by left].
        apply resolves_same; [done|].
        eapply res_permanent; try done; [by left|].
        apply lookup_Some in Hl as [Hl _]. by eapply list_elem_of_lookup_2.
      + apply wp_bind, wp_AllocateNewAtom.
        { intros _. wp_step. exists None. split; [|by left].
          apply resolves_same; [done|]. by apply res_none. }
        intros _ cell _ _ _ _. repeat wp_step_outer.
        * exists None. split; [|by left]. split; [done|]. rt_simpl.
          rewrite alter_new. by eapply res_alloc.
        * apply Hfinish. split; [done|]. rt_simpl. rewrite alter_new.
          eapply (res_staged _ _ _ _ _ _ _ _ _ _ staging); try done.
    - unfold validateLength. repeat wp_step_outer;
        try match goal with Hx : negb _ = _ |- _ => by simpl in Hx end.
      + apply Hfinish, resolves_same; [done|]. eapply res_permanent; try done; [by right|].
        match goal with
        | Hl : AtomSet.lookup _ _ _ = Some _ |- _ =>
          apply lookup_Some in Hl as [Hl _]; by eapply list_elem_of_lookup_2
        end.
      + apply wp_bind. eapply wp_mono; [apply atomizeAndCopyChars_spec|].
        intros r rt1 (a1 & Hres & Hr)%(atomizeAndCopyChars_resolves _ _ _ _ _ None).
        destruct r as [atom|]; [|wp_step; by exists a1].
        destruct Hr as [<- | ?]; [|done]. by apply Hfinish.
      + exists None. split; [|by left].
        apply resolves_same; [done|]. by apply res_none. }
  destruct zonePtr as [[[i e]|]|]; [|exact Hrest..].
  wp_step. eexists. split; [|by left].
  apply resolves_same; [done|]. apply res_cached; try done. by eapply Hzone.
Qed.

End Master.

Lemma resolved_wf pin static h E st perm h' E' st' a :
  resolved pin static h E st perm h' E' st' a → wf h E → wf h' E'.
Proof.
  intros Hres Hwf. destruct Hres; subst; try done.
  - by apply wf_app_cell.
  - by apply wf_pin.
  - eapply wf_perm; [|eassumption]. by apply wf_new.
  - by apply wf_app_cell.
Qed.

Lemma pinnedAt_app h cell a : pinnedAt h a → pinnedAt (h ++ [cell]) a.
Proof.
  intros (c & Hc & Hpin). exists c. split; [|done].
  rewrite lookup_app_l by by eapply lookup_lt_Some. done.
Qed.

Lemma pinnedAt_alter h b a :
  pinnedAt h a → pinnedAt (alter JSAtom.setPinned b h) a.
Proof.
  intros (c & Hc & Hpin). destruct (decide (a = b)) as [->|Hne].
  - exists (JSAtom.setPinned c). split; [|done]. by rewrite list_lookup_alter_eq, Hc.
  - exists c. split; [|done]. by rewrite list_lookup_alter_ne.
Qed.

Lemma resolved_pinnedAt pin static h E st perm h' E' st' a x :
  resolved pin static h E st perm h' E' st' a → pinnedAt h x → pinnedAt h' x.
Proof.
  intros Hres Hx. destruct Hres; subst; try done;
    try (by apply pinnedAt_app); by apply pinnedAt_alter.
Qed.

(** The atoms of the set [st'] are pinned when those of [st] were. *)
Lemma resolved_staging pin static h E st perm h' E' st' a set' :
  resolved pin static h E st perm h' E' st' a →
  (∀ set, st = Some set → Forall (λ e, pinnedAt h (AtomStateEntry.asPtrUnbarriered e)) set) →
  st' = Some set' →
  Forall (λ e, pinnedAt h' (AtomStateEntry.asPtrUnbarriered e)) set'.
Proof.
  intros Hres Hst Hset'.
  assert (Hold : ∀ set, st = Some set →
    Forall (λ e, pinnedAt h' (AtomStateEntry.asPtrUnbarriered e)) set).
  { intros set Hset. eapply Forall_impl; [by apply Hst|].
    intros e. by eapply resolved_pinnedAt. }
  destruct Hres; subst; try (by apply Hold).
  injection Hset' as <-. apply Forall_app. split; [by apply Hold|].
  apply Forall_singleton. simpl. eexists. split; [|eassumption].
  by rewrite lookup_app_r, Nat.sub_diag by lia.
Qed.

(** The atom that a call with [PinAtom] settles on is pinned, unless it
    is a static string. *)
Lemma resolved_pinned static h E st perm h' E' st' a :
  resolved PinAtom static h E st perm h' E' st' (Some a) →
  static = None →
  (∀ set, st = Some set ∨ perm = Some set →
          Forall (λ e, pinnedAt h (AtomStateEntry.asPtrUnbarriered e)) set) →
  pinnedAt h' a.
Proof.
  intros Hres Hstatic Hperm. inversion Hres; subst; try done.
  - match goal with
    | Hset : _ ∨ _, Hin : _ ∈ _ |- _ =>
      specialize (Hperm _ Hset); rewrite Forall_forall in Hperm; by apply Hperm
    end.
  - eexists. split; [eassumption|]. auto.
  - match goal with
    | Hcell : h !! _ = Some _ |- _ =>
      eexists; split; [by rewrite list_lookup_alter_eq, Hcell|]; done
    end.
  - eexists. split; [by rewrite lookup_app_r, Nat.sub_diag by lia|]. done.
  - eexists. split; [by rewrite lookup_app_r, Nat.sub_diag by lia|]. done.
Qed.

Section Invariant.
Context `{Engine}.

Lemma pinExistingAtom_resolves atom rt :
  wp (AtomsTable.pinExistingAtom atom) rt (λ _ rt',
    resolves PinAtom None rt rt' (Some atom) ∧ pinnedAt (heap rt') atom).
Proof.
  unfold AtomsTable.pinExistingAtom, Lookup_ofAtom, AtomsTable.getPartitionIndex.
  wp_go. intros log'.
  match goal with
  | Hf : AtomsTable.pinLookup _ _ _ = Some (?r, ?i, ?e) |- _ =>
    apply pinLookup_Some in Hf as [He Hptr]
  end.
  match goal with
  | Hpart : partitions rt !! _ = Some _ |- _ =>
    destruct (tableEntries_setPinnedAt _ _ _ _ _ _ Hpart He) as (K & HK & HE)
  end.
  subst atom.
  match goal with
  | Hcell : heap rt !! _ = Some cell |- _ => rename Hcell into Hcell0
  end.
  split.
  - split; [done|]. unfold resolves. rt_simpl. rewrite HE.
    by eapply (res_pinned _ _ _ _ _ _ _ _ _ K _ cell).
  - eexists. split; [by rewrite list_lookup_alter_eq, Hcell0|]. done.
Qed.

Lemma tableWf_resolves pin static rt rt' a :
  resolves pin static rt rt' a → tableWf rt → tableWf rt'.
Proof. intros [_ Hres] Hwf. by eapply resolved_wf. Qed.

Lemma permanentAtomsPinned_resolves pin static rt rt' a :
  resolves pin static rt rt' a → permanentAtomsPinned rt → permanentAtomsPinned rt'.
Proof.
  intros [Hperm Hres] Hpinned set [Hset | Hset].
  - eapply resolved_staging; [exact Hres | | exact Hset].
    intros set0 Hset0. apply Hpinned. by left.
  - rewrite Hperm in Hset. eapply Forall_impl; [apply Hpinned; by right|].
    intros e. by eapply resolved_pinnedAt.
Qed.

Lemma AtomizeString_resolves gc oom flattenFails cx str pin rt :
  wp (AtomizeString gc oom flattenFails cx str pin) rt (λ r rt',
    ∃ static a, resolves pin static rt rt' a ∧ (r = a ∨ r = None)).
Proof.
  unfold AtomizeString. destruct str as [atom|c index|c index].
  - do 2 wp_step.
    destruct (pinned pin && negb (JSAtom.isPinned cell)) eqn:Hpin.
    + apply wp_bind. eapply wp_mono; [apply pinExistingAtom_resolves|].
      intros [] rt' [Hres _]. wp_step. exists None, (Some atom). split; [|by left].
      destruct pin; [done|]. exact Hres.
    + repeat wp_step. exists (Some atom), (Some atom). split; [|by left].
      apply resolves_same; [done|]. by apply res_static.
  - eapply wp_mono; [apply AtomizeAndCopyChars_resolves|].
    intros r rt' (a & Hres & Hr). eauto.
  - destruct flattenFails.
    + repeat wp_step. exists None, None. split; [|by left].
      apply resolves_same; [done|]. by apply res_none.
    + eapply wp_mono; [apply AtomizeAndCopyChars_resolves|].
    intros r rt' (a & Hres & Hr). eauto.
Qed.

End Invariant.

Section Roots.
Context `{Engine}.

Lemma pinsAgree_Forall h set : pinsAgree h set = true ↔ Forall (agrees h) set.
Proof.
  unfold pinsAgree. induction set as [|e set IH]; simpl.
  - split; [by constructor | done].
  - rewrite andb_true_iff, Forall_cons, IH. unfold agrees.
    destruct (h !! AtomStateEntry.asPtrUnbarriered e) as [cell|].
    + split; intros [He ?]; (split; [|done]).
      * exists cell. split; [done|]. by apply eqb_prop.
      * destruct He as (? & [= <-] & ->). apply eqb_reflx.
    + split; intros [He ?]; [done|]. by destruct He as (? & [=] & _).
Qed.

Lemma pinnedAtoms_app s1 s2 : pinnedAtoms (s1 ++ s2) = pinnedAtoms s1 ++ pinnedAtoms s2.
Proof. unfold pinnedAtoms. by rewrite filter_app, fmap_app. Qed.

Lemma tracePinnedAtoms_loop_run n : ∀ i rt,
  Forall (agrees (heap rt)) (tableEntries (partitions rt)) →
  i + n ≤ length (partitions rt) →
  AtomsTable.tracePinnedAtoms_loop n i rt
  = Return (pinnedAtoms (tableEntries (take n (drop i (partitions rt))))) rt.
Proof.
  induction n as [|n IH]; intros i rt Hagree Hlen; [done|].
  destruct (lookup_lt_is_Some_2 (partitions rt) i) as [part Hpart]; [lia|].
  assert (Hpartagree : Forall (agrees (heap rt)) (partEntries part)).
  { rewrite (tableEntries_lookup _ _ _ Hpart) in Hagree.
    by apply Forall_app in Hagree as [_ [? _]%Forall_app]. }
  unfold partEntries in Hpartagree. apply Forall_app in Hpartagree as [Hmain Hsec].
  apply twp_eq. simpl. twp_step. eapply twp_getPartition; [exact Hpart|].
  twp_step. eapply twp_mono; [by apply tracePinnedAtomsInSet_twp, pinsAgree_Forall|].
  intros r1 rt1 [-> ->]. twp_step.
  apply (twp_mono _ _ (λ r2 rt2, rt2 = rt
    ∧ r2 = pinnedAtoms (default [] (Partition.atomsAddedWhileSweeping part)))).
  { destruct (Partition.atomsAddedWhileSweeping part) as [added|]; simpl in *.
    - eapply twp_mono; [by apply tracePinnedAtomsInSet_twp, pinsAgree_Forall|].
      by intros r2 rt2 [-> ->].
    - by twp_step. }
  intros r2 rt2 [-> ->]. twp_step.
  eapply twp_of_eq; [apply IH; [done | lia]|]. twp_step. split; [|done].
  rewrite (drop_S _ _ _ Hpart). cbn [take]. unfold tableEntries. rewrite bind_cons.
  unfold partEntries at 2. by rewrite !pinnedAtoms_app, <-app_assoc.
Qed.

Lemma tracePinnedAtoms_run rt :
  Forall (agrees (heap rt)) (tableEntries (partitions rt)) →
  length (partitions rt) = AtomsTable.PartitionCount →
  AtomsTable.tracePinnedAtoms rt = Return (pinnedAtoms (tableEntries (partitions rt))) rt.
Proof.
  intros Hagree Hlen. unfold AtomsTable.tracePinnedAtoms.
  rewrite tracePinnedAtoms_loop_run by (done || lia).
  by rewrite drop_0, take_ge by lia.
Qed.

(** X7. The roots of the table. On a well-formed table with all its
    partitions, [TraceAtoms] returns, its assertions hold, and it leaves
    the runtime as it was. Once the permanent atoms are populated the
    roots are the atoms of the pinned entries of the main and secondary
    sets, in the order of the partitions, each atom once, and they are
    the atoms of the table whose pinned bit is set; before that no atom
    of the table is a root. *)
Theorem TraceAtoms_roots rt :
  tableWf rt →
  length (partitions rt) = AtomsTable.PartitionCount →
  let roots := if permanentAtomsPopulated rt
               then pinnedAtoms (tableEntries (partitions rt)) else [] in
  TraceAtoms rt = Return roots rt
  ∧ NoDup roots
  ∧ (permanentAtomsPopulated rt = true →
     ∀ a, a ∈ roots ↔ a ∈ ptrs (tableEntries (partitions rt)) ∧ pinnedAt (heap rt) a).
Proof.
  intros [Hdup Hagree] Hlen roots. subst roots.
  unfold TraceAtoms, mbind, M_bind, gets.
  destruct (permanentAtomsPopulated rt).
  - rewrite tracePinnedAtoms_run by done. split; [done|]. split.
    + eapply sublist_NoDup; [exact Hdup|]. unfold pinnedAtoms, ptrs.
      apply fmap_sublist, sublist_filter.
    + intros _ a. unfold pinnedAtoms, ptrs. rewrite !list_elem_of_fmap. split.
      * intros (e & -> & [Hpin He]%list_elem_of_filter). split; [by exists e|].
        rewrite Forall_forall in Hagree. destruct (Hagree e He) as (cell & Hcell & Hp).
        exists cell. split; [done|]. congruence.
      * intros [(e & -> & He) (cell & Hcell & Hp)]. exists e. split; [done|].
        apply list_elem_of_filter. split; [|done].
        rewrite Forall_forall in Hagree. destruct (Hagree e He) as (cell' & Hcell' & Hp').
        congruence.
  - split; [done|]. split; [apply NoDup_nil_2 | done].
Qed.

(** A partition of [ps'] has entries of the partition of [ps] at the same
    index only, in their order. *)
Lemma tableEntries_sublist ps ps' :
  Forall2 (λ p' p, partEntries p' `sublist_of` partEntries p) ps' ps →
  tableEntries ps' `sublist_of` tableEntries ps.
Proof.
  induction 1 as [|p' p ps' ps Hp _ IH]; [done|].
  unfold tableEntries. rewrite !bind_cons. by apply sublist_app.
Qed.

Lemma sweptPartition_sublist gc part :
  partEntries (sweptPartition gc part) `sublist_of` partEntries part.
Proof.
  unfold partEntries, sweptPartition, live. simpl.
  apply sublist_app; [apply sublist_filter | done].
Qed.

Lemma progress_sublist gc ps idx ps' :
  progress gc ps idx ps' → tableEntries ps' `sublist_of` tableEntries ps.
Proof.
  intros [Hlen Hprog]. apply tableEntries_sublist.
  apply Forall2_same_length_lookup_2; [done|].
  intros i part' part Hi' Hi.
  destruct (Hprog i part Hi) as (part'' & Hi'' & Hstep). simplify_eq.
  unfold partEntries.
  destruct (Partition.atomsAddedWhileSweeping part) as [added|] eqn:Hsec.
  - destruct Hstep as [(Hsec' & _ & Hswept) | (Hsec' & _ & kept & Hswept & Hatoms)];
      rewrite Hsec'; simpl.
    + apply sublist_app; [by eapply swept_sublist | done].
    + rewrite Hatoms, app_nil_r. apply sublist_app; [by eapply swept_sublist | done].
  - subst part'. by rewrite Hsec.
Qed.

(** X8. The sweeps keep the table well formed: [sweepAll], and every call
    of [sweepIncrementally] that returns, whichever allocations of the
    merges fail, leave a table in which no atom has two entries and
    every entry agrees with its atom on the pinned bit. The entries left
    are entries of the table before, in their order within each
    partition; no sweep changes a cell of the heap. *)
Theorem sweeps_keep_table_well_formed gc fails it budget rt :
  tableWf rt →
  (length (partitions rt) = AtomsTable.PartitionCount →
   ∃ rt', AtomsTable.sweepAll gc rt = Return tt rt'
          ∧ tableWf rt' ∧ heap rt' = heap rt
          ∧ tableEntries (partitions rt') `sublist_of` tableEntries (partitions rt))
  ∧ (sweeping true it rt →
     ∀ r rt', AtomsTable.sweepIncrementally gc fails it budget rt = Return r rt' →
              tableWf rt' ∧ heap rt' = heap rt
              ∧ tableEntries (partitions rt') `sublist_of` tableEntries (partitions rt)).
Proof.
  intros Hwf. split.
  - intros Hlen.
    pose proof (sweepAll_twp gc rt Hlen) as (r & rt' & Hrun & Hps & Hheap)%twp_Return.
    destruct r. exists rt'. split; [done|].
    assert (Hsub : tableEntries (partitions rt') `sublist_of` tableEntries (partitions rt)).
    { rewrite Hps. apply tableEntries_sublist, Forall2_fmap_l, Forall_Forall2_diag.
      apply Forall_forall. intros part _. apply sweptPartition_sublist. }
    split; [|done]. unfold tableWf. rewrite Hheap. by eapply wf_sublist.
  - intros Hsw r rt' Hrun.
    destruct (sweepIncrementally_crashOr gc fails it budget rt) as [Hcrash | Hsame];
      [congruence|].
    rewrite Hsame in Hrun.
    pose proof (sweepIncrementally_twp gc neverFails it budget rt Hsw (λ _, eq_refl))
      as (r1 & rt1 & Hrun1 & Hpost)%twp_Return.
    rewrite Hrun in Hrun1. injection Hrun1 as <- <-.
    destruct r as [[done it'] budget']. destruct Hpost as (_ & Hrt' & Hprog & _).
    assert (Hheap : heap rt' = heap rt) by (by rewrite Hrt').
    apply progress_sublist in Hprog.
    split; [|done]. unfold tableWf. rewrite Hheap. by eapply wf_sublist.
Qed.

End Roots.

Section WellFormed.
Context `{Engine}.

(** X9. Atomization and pinning keep the table well formed. If no atom has
    two entries in the main and secondary sets and every entry agrees
    with its atom on the pinned bit, the same holds after any call of
    [AtomizeAndCopyChars], of [AtomizeString] and of
    [AtomsTable::pinExistingAtom] that returns, whether it finds the
    atom, pins it, creates it or fails for want of memory. *)
Theorem atomization_keeps_table_well_formed rt :
  tableWf rt →
  (∀ gc oom cx c pin idx r rt',
     AtomizeAndCopyChars gc oom cx c pin idx rt = Return r rt' → tableWf rt')
  ∧ (∀ gc oom flattenFails cx str pin r rt',
       AtomizeString gc oom flattenFails cx str pin rt = Return r rt' → tableWf rt')
  ∧ (∀ atom rt', AtomsTable.pinExistingAtom atom rt = Return tt rt' → tableWf rt').
Proof.
  intros Hwf. refine (conj _ (conj _ _)).
  - intros gc oom cx c pin idx r rt' Hrun.
    pose proof (wp_Return _ _ _ _ _ (AtomizeAndCopyChars_resolves gc oom cx c pin idx rt) Hrun)
      as (a & Hres & _).
    by eapply tableWf_resolves.
  - intros gc oom flattenFails cx str pin r rt' Hrun.
    pose proof (wp_Return _ _ _ _ _
                  (AtomizeString_resolves gc oom flattenFails cx str pin rt) Hrun)
      as (static & a & Hres & _).
    by eapply tableWf_resolves.
  - intros atom rt' Hrun.
    pose proof (wp_Return _ _ _ _ _ (pinExistingAtom_resolves atom rt) Hrun) as [Hres _].
    by eapply tableWf_resolves.
Qed.

Lemma TracePermanentAtoms_run set : ∀ rt,
  Forall (λ e, pinnedAt (heap rt) (AtomStateEntry.asPtrUnbarriered e)) set →
  TracePermanentAtoms set rt = Return (ptrs set) rt.
Proof.
  induction set as [|e set IH]; intros rt Hpinned; [done|].
  apply Forall_cons in Hpinned as [(cell & Hcell & Hpin) Hpinned].
  apply twp_eq. simpl. repeat twp_step.
  eapply twp_of_eq; [by apply IH|]. by twp_step.
Qed.

Lemma init_loop_frame fails n : ∀ i rt,
  wp (AtomsTable.init_loop fails n i) rt (λ _ rt',
    heap rt' = heap rt
    ∧ permanentAtoms_ rt' = permanentAtoms_ rt
    ∧ permanentAtomsDuringInit_ rt' = permanentAtomsDuringInit_ rt
    ∧ tableEntries (partitions rt') = tableEntries (partitions rt)).
Proof.
  induction n as [|n IH]; intros i rt; cbn [AtomsTable.init_loop]; [by wp_step|].
  destruct (fails i); [by wp_step|]. do 2 wp_step.
  eapply wp_mono; [apply IH|]. intros _ rt' (-> & -> & -> & ->). rt_simpl.
  repeat split. rewrite tableEntries_app. unfold tableEntries at 2.
  rewrite bind_singleton. unfold partEntries. simpl. by rewrite app_nil_r.
Qed.

Lemma initMainAtomsTables_pinned fails rt :
  wp (initMainAtomsTables fails) rt (λ _ rt',
    heap rt' = heap rt
    ∧ permanentAtoms_ rt' = permanentAtomsDuringInit_ rt
    ∧ permanentAtomsDuringInit_ rt' = None
    ∧ tableEntries (partitions rt') = []).
Proof.
  unfold initMainAtomsTables, AtomsTable.init.
  repeat lazymatch goal with
         | |- wp (AtomsTable.init_loop _ _ _) _ _ => fail
         | _ => wp_step
         end.
  eapply wp_mono; [apply init_loop_frame|]. intros _ rt' (-> & -> & -> & ->). rt_simpl.
  match goal with Hps : bool_decide (partitions rt = []) = true |- _ =>
    apply bool_decide_eq_true in Hps; rewrite Hps end.
  done.
Qed.

(** X10. The permanent atoms are pinned, as [TracePermanentAtoms] asserts.
    If every atom of the permanent set, and of the set that is being
    filled during initialization, has its pinned bit set, the same holds
    after any call of [AtomizeString] that returns, and after
    [initMainAtomsTables] has frozen the set. In such a runtime
    [tracePermanentAtoms] returns with the runtime as it was: in a
    runtime without a parent the roots are the atoms of the two sets, in
    a child runtime there are none. *)
Theorem permanent_atoms_stay_pinned rt :
  permanentAtomsPinned rt →
  (∀ gc oom flattenFails cx str pin r rt',
     AtomizeString gc oom flattenFails cx str pin rt = Return r rt' →
     permanentAtomsPinned rt')
  ∧ (∀ fails ok rt',
       initMainAtomsTables fails rt = Return ok rt' → permanentAtomsPinned rt')
  ∧ tracePermanentAtoms false rt
    = Return (ptrs (default [] (permanentAtomsDuringInit_ rt))
              ++ ptrs (default [] (permanentAtoms_ rt))) rt
  ∧ tracePermanentAtoms true rt = Return [] rt.
Proof.
  intros Hpinned. refine (conj _ (conj _ (conj _ _))); [| | |done].
  - intros gc oom flattenFails cx str pin r rt' Hrun.
    pose proof (wp_Return _ _ _ _ _
                  (AtomizeString_resolves gc oom flattenFails cx str pin rt) Hrun)
      as (static & a & Hres & _).
    by eapply permanentAtomsPinned_resolves.
  - intros fails ok rt' Hrun.
    pose proof (wp_Return _ _ _ _ _ (initMainAtomsTables_pinned fails rt) Hrun)
      as (Hheap & Hperm & Hst & _).
    intros set [Hset | Hset]; [congruence|].
    rewrite Hheap. apply Hpinned. left. congruence.
  - unfold tracePermanentAtoms. apply twp_eq. do 3 twp_step.
    apply (twp_mono _ _ (λ r1 rt1,
             rt1 = rt ∧ r1 = ptrs (default [] (permanentAtomsDuringInit_ rt)))).
    { destruct (permanentAtomsDuringInit_ rt) as [set|] eqn:Hset;
        [|twp_step; cbv beta; by split].
      eapply twp_of_eq; [apply TracePermanentAtoms_run, Hpinned; by left | done]. }
    intros r1 rt1 [-> ->]. do 3 twp_step.
    apply (twp_mono _ _ (λ r2 rt2,
             rt2 = rt ∧ r2 = ptrs (default [] (permanentAtoms_ rt)))).
    { destruct (permanentAtoms_ rt) as [set|] eqn:Hset; [|twp_step; cbv beta; by split].
      eapply twp_of_eq; [apply TracePermanentAtoms_run, Hpinned; by right | done]. }
    intros r2 rt2 [-> ->]. by twp_step.
Qed.

(** X11. A request to pin is honoured, and a request not to pin touches no
    atom. In a runtime whose permanent atoms are pinned, the atom that
    [AtomizeAndCopyChars] returns to a caller that asked for [PinAtom]
    has its pinned bit set, whether it was found in the permanent set or
    in the table or was created, unless it is a static string. A call
    with [DoNotPinAtom] leaves every cell of the heap as it was: all it
    may do to the heap is append the new atom. *)
Theorem pin_request_is_honoured gc oom cx c idx rt :
  permanentAtomsPinned rt →
  (∀ a rt',
     AtomizeAndCopyChars gc oom cx c PinAtom idx rt = Return (Some a) rt' →
     staticStrings_lookup (units c) = None →
     pinnedAt (heap rt') a)
  ∧ (∀ r rt',
       AtomizeAndCopyChars gc oom cx c DoNotPinAtom idx rt = Return r rt' →
       heap rt' = heap rt ∨ ∃ cell, heap rt' = heap rt ++ [cell]).
Proof.
  intros Hpinned. split.
  - intros a rt' Hrun Hstatic.
    pose proof (wp_Return _ _ _ _ _
                  (AtomizeAndCopyChars_resolves gc oom cx c PinAtom idx rt) Hrun)
      as (a' & [_ Hres] & [<- | ?]); [|done].
    by eapply resolved_pinned.
  - intros r rt' Hrun.
    pose proof (wp_Return _ _ _ _ _
                  (AtomizeAndCopyChars_resolves gc oom cx c DoNotPinAtom idx rt) Hrun)
      as (a & [_ Hres] & _).
    inversion Hres; subst; eauto. done.
Qed.

End WellFormed.

(** ** Transcoding *)

Lemma lengthAndEncoding_odd length latin1 :
  (0 ≤ length < 2 ^ 31)%Z →
  lengthAndEncoding length latin1 = (2 * length + if latin1 then 1 else 0)%Z.
Proof.
  intros Hlen. unfold lengthAndEncoding, uint32.
  rewrite Z.shiftl_mul_pow2 by lia. change (2 ^ 1)%Z with 2%Z.
  rewrite Z.mod_small by lia.
  destruct latin1.
  - replace (length * 2)%Z with (2 * length)%Z by lia.
    rewrite <-Z.add_nocarry_lor; [done|].
    change 1%Z with (Z.ones 1). rewrite Z.land_ones by lia. change (2 ^ 1)%Z with 2%Z.
    by rewrite Z.mul_comm, Z.mod_mul by lia.
  - rewrite Z.lor_0_r. lia.
Qed.

Lemma lengthAndEncoding_decoded length latin1 :
  (0 ≤ length < 2 ^ 31)%Z →
  (0 ≤ lengthAndEncoding length latin1 < 2 ^ 32)%Z
  ∧ decodedLength (lengthAndEncoding length latin1) = length
  ∧ decodedLatin1 (lengthAndEncoding length latin1) = latin1
  ∧ decodedLength (lengthAndEncoding (length + 2 ^ 31) latin1) = length.
Proof.
  intros Hlen.
  assert (Hhigh : lengthAndEncoding (length + 2 ^ 31) latin1
                  = lengthAndEncoding length latin1).
  { unfold lengthAndEncoding, uint32. f_equal.
    rewrite !Z.shiftl_mul_pow2 by lia. change (2 ^ 1)%Z with 2%Z.
    replace ((length + 2 ^ 31) * 2)%Z with (length * 2 + 1 * 2 ^ 32)%Z by lia.
    by rewrite Z.mod_add by lia. }
  rewrite Hhigh, lengthAndEncoding_odd by done.
  unfold decodedLength, decodedLatin1.
  rewrite Z.shiftr_div_pow2 by lia. change (2 ^ 1)%Z with 2%Z.
  assert (Hland : ∀ w, Z.land w 1 = (w mod 2)%Z).
  { intros w. change 1%Z with (Z.ones 1). by rewrite Z.land_ones by lia. }
  rewrite Hland.
  assert (Hdiv : ∀ r, (0 ≤ r < 2)%Z → ((2 * length + r) / 2 = length)%Z).
  { intros r Hr. symmetry. apply Z.div_unique with r; lia. }
  assert (Hmod : ∀ r, (0 ≤ r < 2)%Z → ((2 * length + r) mod 2 = r)%Z).
  { intros r Hr. symmetry. apply Z.mod_unique with length; lia. }
  destruct latin1; rewrite Hdiv, Hmod by lia; repeat split; lia.
Qed.

(** X12. The word before the characters of a transcoded atom keeps the
    length and the width. For a length below [2^31], as
    [JSString::MAX_LENGTH <= INT32_MAX] makes every length of a string,
    the word [(length << 1) | latin1] fits 32 bits, and the decoder's
    [lengthAndEncoding >> 1] and [lengthAndEncoding & 0x1] give back the
    length and the width. The shift is a shift of 32 bits: a length with
    bit 31 set would be decoded without it. *)
Theorem lengthAndEncoding_round_trip length latin1 :
  (0 ≤ length < 2 ^ 31)%Z →
  (0 ≤ lengthAndEncoding length latin1 < 2 ^ 32)%Z
  ∧ decodedLength (lengthAndEncoding length latin1) = length
  ∧ decodedLatin1 (lengthAndEncoding length latin1) = latin1
  ∧ decodedLength (lengthAndEncoding (length + 2 ^ 31) latin1) = length.
Proof. apply lengthAndEncoding_decoded. Qed.

Section XDRRoundTrip.
Context `{Engine} `{XDR}.

(** The characters of an atom, at the width the atom stores them. *)
Definition storedChars (latin1 : bool) (cs : list Z) : Chars :=
  if latin1 then Latin1Chars cs else TwoByteChars cs.

(** From the state [d1] the decoder reads the characters [cs] of an atom
    of the given width, and is in the state [d2] then. *)
Definition readsChars (latin1 : bool) (cs : list Z) (d1 d2 : XDRState) : Prop :=
  if latin1 then
    if decide (cs = []) then d2 = d1
    else ∃ ptr, peekData (length cs) d1 = inr (ptr, d2) ∧ take (length cs) ptr = cs
  else if LITTLE_ENDIAN then
    if decide (cs = []) then d2 = d1
    else ∃ d ptr, codeAlign 2 d1 = inr d
                  ∧ peekData (length cs * 2) d = inr (ptr, d2)
                  ∧ take (length cs) (char16s ptr) = cs
  else ∃ chars, decodeChars (length cs) d1 = inr (chars, d2)
                ∧ take (length cs) chars = cs.

Lemma XDRAtom_decode_run gc oom podMallocFails cx d d1 d2 latin1 cs rt :
  (Z.of_nat (length cs) < 2 ^ 31)%Z →
  decodeUint32 d = inr (lengthAndEncoding (Z.of_nat (length cs)) latin1, d1) →
  readsChars latin1 cs d1 d2 →
  XDRAtom_decode gc oom podMallocFails cx d rt = Return (inl TranscodeResult_Throw) rt
  ∨ XDRAtom_decode gc oom podMallocFails cx d rt
    = (atom ← AtomizeChars gc oom cx (storedChars latin1 cs) DoNotPinAtom;
       XDRAtom_result d2 atom) rt.
Proof.
  intros Hlen Hhead Hreads.
  destruct (lengthAndEncoding_decoded (Z.of_nat (length cs)) latin1)
    as (_ & Hdl & Hde & _); [lia|].
  unfold XDRAtom_decode. rewrite Hhead. cbn [MOZ_TRY]. rewrite Hdl, Hde, Nat2Z.id.
  unfold readsChars in Hreads.
  destruct latin1; [|destruct LITTLE_ENDIAN].
  - right. destruct cs as [|x cs]; [simpl in *; by subst|].
    destruct (decide (x :: cs = [])) as [?|_]; [done|].
    destruct Hreads as (ptr & Hpeek & Htake).
    cbn [length Nat.eqb negb MOZ_TRY]. cbn [length] in Hpeek, Htake.
    rewrite Hpeek. cbn [MOZ_TRY]. by rewrite Htake.
  - right. destruct cs as [|x cs]; [simpl in *; by subst|].
    destruct (decide (x :: cs = [])) as [?|_]; [done|].
    destruct Hreads as (d0 & ptr & -> & Hpeek & Htake).
    cbn [length Nat.eqb negb MOZ_TRY]. cbn [length] in Hpeek, Htake.
    rewrite Hpeek. cbn [MOZ_TRY]. by rewrite Htake.
  - destruct (negb (length cs <=? 256) && podMallocFails); [by left|]. right.
    destruct Hreads as (chars & Hdec & Htake). rewrite Hdec. cbn [MOZ_TRY].
    by rewrite Htake.
Qed.

(** X13. Decoding gives back the atom that was encoded. Let [a] be the
    atom an atomization has returned for the code units of [c], and let
    atomizations and pins have followed. [XDRAtom<XDR_ENCODE>] of [a]
    writes the word of its length and width and then its characters, and
    leaves the runtime as it was; a failure of the buffer is the result.
    [XDRAtom<XDR_DECODE>] on a buffer that gives back that word and
    those characters, whenever it returns, has either found the same
    atom [a], or failed with [TranscodeResult_Throw] for want of memory;
    on a buffer that fails to give the word it returns the failure and
    atomizes nothing. *)
Theorem XDRAtom_round_trip gc oom1 oom2 podMallocFails cx1 cx2 c pin idx rt0 rt1 rt2 a cell :
  let latin1 := JSAtom.hasLatin1Chars cell in
  let header := lengthAndEncoding (Z.of_nat (length (units c))) latin1 in
  tableInv gc (shape rt0) →
  AtomizeAndCopyChars gc oom1 cx1 c pin idx rt0 = Return (Some a) rt1 →
  rtc (tableOp gc) rt1 rt2 →
  heap rt2 !! a = Some cell →
  JSAtom.chars cell = units c →
  (Z.of_nat (length (units c)) < 2 ^ 31)%Z →
  (∀ xdr, XDRAtom_encode xdr a rt2
          = Return (match encodeUint32 header xdr with
                    | inl e => inl e
                    | inr xdr1 => encodeChars (storedChars latin1 (units c)) xdr1
                    end) rt2)
  ∧ (∀ d d1 d2 r rt3,
       decodeUint32 d = inr (header, d1) →
       readsChars latin1 (units c) d1 d2 →
       XDRAtom_decode gc oom2 podMallocFails cx2 d rt2 = Return r rt3 →
       r = inr (a, d2) ∨ r = inl TranscodeResult_Throw)
  ∧ (∀ d e, decodeUint32 d = inl e →
            XDRAtom_decode gc oom2 podMallocFails cx2 d rt2 = Return (inl e) rt2).
Proof.
  intros latin1 header Hinv Hatom Hops Hcell Hchars Hlen. refine (conj _ (conj _ _)).
  - intros xdr. unfold XDRAtom_encode, readAtom, mbind, M_bind, gets, deref.
    rewrite Hcell. simpl. unfold JSAtom.length. rewrite Hchars.
    unfold uint32. rewrite Z.mod_small by lia. fold latin1. fold header.
    rewrite Nat2Z.id, firstn_all.
    destruct (encodeUint32 header xdr) as [e|xdr1]; simpl; [done|].
    unfold storedChars. by destruct latin1.
  - intros d d1 d2 r rt3 Hhead Hreads Hrun.
    destruct (XDRAtom_decode_run gc oom2 podMallocFails cx2 d d1 d2 latin1 (units c) rt2
                Hlen Hhead Hreads) as [Hthrow | Hdec].
    { rewrite Hthrow in Hrun. injection Hrun as <- <-. by right. }
    rewrite Hdec in Hrun. apply bind_Return in Hrun as (atom & rt4 & Hatom2 & Hres).
    destruct atom as [a2|]; simpl in Hres; injection Hres as <- <-; [|by right].
    left. unfold AtomizeChars in Hatom2.
    destruct (atomize_same_atom gc oom1 oom2 cx1 cx2 c (storedChars latin1 (units c))
                pin DoNotPinAtom idx None rt0 rt1 rt2 rt4 a a2) as [-> _]; try done.
    unfold storedChars. by destruct latin1.
  - intros d e Hhead. unfold XDRAtom_decode. by rewrite Hhead.
Qed.

End XDRRoundTrip.

(** ** The end of the table *)

Section Finish.
Context `{Engine}.

(** The partition has no secondary set. *)
Definition notSweeping (part : Partition.t) : bool :=
  negb (bool_decide (is_Some (Partition.atomsAddedWhileSweeping part))).

Lemma destructor_loop_run n : ∀ i rt,
  forEachPartition (λ i,
      ps ← gets partitions;
      match ps !! i with
      | Some part => AtomsTable.Partition_destructor part
      | None => mret tt
      end) n i rt
  = if forallb notSweeping (take n (drop i (partitions rt)))
    then Return tt rt else Abort AssertionFailure.
Proof.
  induction n as [|n IH]; intros i rt; [done|].
  cbn [forEachPartition].
  match goal with
  | |- (?b ≫= _) rt = _ =>
    assert (Hstep : b rt = if default true (notSweeping <$> partitions rt !! i)
                           then Return tt rt else Abort AssertionFailure)
  end.
  { unfold mbind, M_bind, gets. destruct (partitions rt !! i) as [part|]; simpl; [|done].
    unfold AtomsTable.Partition_destructor, notSweeping, MOZ_ASSERT.
    by destruct (negb _). }
  unfold mbind at 1, M_bind at 1. rewrite Hstep.
  destruct (partitions rt !! i) as [part|] eqn:Hpart; simpl.
  - rewrite (drop_S _ _ _ Hpart). cbn [take forallb].
    destruct (notSweeping part); simpl; [apply IH | done].
  - apply lookup_ge_None in Hpart. rewrite IH. by rewrite !drop_ge, !take_nil by lia.
Qed.

(** The runtime without its table and its sets of permanent atoms. *)
Definition withoutAtoms (rt : JSRuntime) : JSRuntime :=
  set_permanentAtoms None (set_permanentAtomsDuringInit None (set_partitions [] rt)).

Lemma finishAtoms_run rt :
  length (partitions rt) ≤ AtomsTable.PartitionCount →
  finishAtoms rt
  = if forallb notSweeping (partitions rt)
    then Return tt (withoutAtoms rt) else Abort AssertionFailure.
Proof.
  intros Hlen.
  unfold finishAtoms, mbind at 1, M_bind at 1, gets.
  destruct (decide (partitions rt = [])) as [Hnil|Hnil].
  - rewrite bool_decide_eq_true_2 by done. rewrite Hnil. done.
  - rewrite bool_decide_eq_false_2 by done.
    unfold mbind at 1, M_bind at 1, AtomsTable.destructor.
    rewrite destructor_loop_run. rewrite drop_0, take_ge by lia.
    by destruct (forallb notSweeping (partitions rt)).
Qed.

(** X14. The table can be torn down between sweeps only. [finishAtoms]
    on a runtime without a table clears the sets of permanent atoms. On
    a runtime with its table, whether [init] has made all its partitions
    or only some, it runs the destructor of every partition there is:
    when no partition has a secondary set it returns and leaves a
    runtime without table or permanent atoms, as [initializeAtoms]
    asserts to find it, and when an incremental sweep is in progress the
    assertion of [~Partition] fails. So after a call of
    [sweepIncrementally] that returned [true] the table can be torn
    down, and after one that returned [false] it cannot. *)
Theorem finishAtoms_between_sweeps gc fails it budget rt :
  (partitions rt = [] → finishAtoms rt = Return tt (withoutAtoms rt))
  ∧ (length (partitions rt) ≤ AtomsTable.PartitionCount →
     finishAtoms rt
     = if forallb notSweeping (partitions rt)
       then Return tt (withoutAtoms rt) else Abort AssertionFailure)
  ∧ (sweeping true it rt →
     ∀ done it' budget' rt',
       AtomsTable.sweepIncrementally gc fails it budget rt
       = Return (done, it', budget') rt' →
       finishAtoms rt'
       = if done then Return tt (withoutAtoms rt') else Abort AssertionFailure).
Proof.
  refine (conj _ (conj (finishAtoms_run rt) _)).
  - intros Hnil. unfold finishAtoms, mbind, M_bind, gets. by rewrite Hnil.
  - intros Hsw done it' budget' rt' Hrun.
    destruct (sweepIncrementally_crashOr gc fails it budget rt) as [Hcrash | Hsame];
      [congruence|].
    rewrite Hsame in Hrun.
    destruct (sweepIncrementally_returnsMerged gc neverFails it budget rt Hsw (λ _, eq_refl))
      as (done1 & it1 & budget1 & rt1 & Hrun1 & Hsw' & _ & Hfalse & Htrue & _).
    rewrite Hrun in Hrun1. injection Hrun1 as <- <- <- <-.
    destruct Hsw' as (Hcount & _ & Hm & _).
    rewrite finishAtoms_run by lia.
    destruct done.
    + assert (Hall : forallb notSweeping (partitions rt') = true).
      { apply forallb_forall. intros part Hin. apply list_elem_of_In in Hin.
        apply list_elem_of_lookup in Hin as [i Hi].
        unfold notSweeping. by rewrite (Htrue eq_refl i part Hi). }
      by rewrite Hall.
    + destruct (Hfalse eq_refl) as (Hlt & _).
      destruct (lookup_lt_is_Some_2 (partitions rt')
                  (AtomsTable.SweepIterator.partitionIndex it')) as [part Hpart]; [lia|].
      destruct (Hm _ _ Hpart) as [_ Hsome]. specialize (Hsome (le_n _)).
      assert (Hall : forallb notSweeping (partitions rt') = false).
      { apply not_true_is_false. intros Hall. rewrite forallb_forall in Hall.
        specialize (Hall part). rewrite <-list_elem_of_In in Hall.
        specialize (Hall (list_elem_of_lookup_2 _ _ _ Hpart)).
        unfold notSweeping in Hall. by rewrite bool_decide_eq_true_2 in Hall. }
      by rewrite Hall.
Qed.

End Finish.

(** ** The creation of the table *)

(** The partitions that [AtomsTable::init] creates before an allocation
    fails. *)
Fixpoint partitionsMade (fails : nat → bool) (n i : nat) : nat :=
  match n with
  | O => 0
  | S n' => if fails i then 0 else S (partitionsMade fails n' (S i))
  end.

Section InitTables.
Context `{Engine}.

Lemma init_loop_run fails n : ∀ i rt,
  AtomsTable.init_loop fails n i rt
  = Return (partitionsMade fails n i =? n)
      (set_partitions
         (partitions rt ++ replicate (partitionsMade fails n i) (Partition.mk [] None)) rt).
Proof.
  induction n as [|n IH]; intros i rt; simpl.
  - by rewrite app_nil_r, set_partitions_id.
  - destruct (fails i); simpl.
    + by rewrite app_nil_r, set_partitions_id.
    + unfold mbind, M_bind, modify. rewrite IH. simpl. by rewrite <-app_assoc.
Qed.



End InitTables.

(** ** The atoms of the common names *)

Section CommonNames.
Context `{Engine}.

Lemma tableInv_fresh gc rt :
  partitions rt = [] → permanentAtoms_ rt = None →
  Forall (λ cache, cache = []) (atomCaches rt) →
  tableInv gc (shape (set_permanentAtomsDuringInit (Some []) rt)).
Proof.
  intros Hps Hperm Hcaches. split.
  - unfold validShape, shape. simpl. rewrite Hps, Hperm. simpl.
    refine (conj _ (conj _ (conj _ _))); try done.
    + intros set [= <-]. constructor.
    + apply Forall_fmap. eapply Forall_impl; [exact Hcaches|].
      intros cache ->. constructor.
  - intros z cache cs a Hz _ Hfind. unfold shape in Hz. simpl in Hz.
    rewrite list_lookup_fmap in Hz.
    destruct (atomCaches rt !! z) as [c0|] eqn:Hc0; [|done].
    eapply Forall_lookup_1 in Hcaches; [|exact Hc0]. subst c0.
    injection Hz as <-. done.
Qed.

(** The atoms of the names are the atoms of their contents. *)
Lemma initializeAtoms_names_wp gc oom cx cachedNames : ∀ rt,
  tableInv gc (shape rt) →
  wp (initializeAtoms_names gc oom cx cachedNames) rt (λ r rt',
    tableInv gc (shape rt')
    ∧ rtc (tableOp gc) rt rt'
    ∧ ∀ names, r = Some names →
        Forall2 (λ name a, canonical gc (shape rt') name = Some a) cachedNames names).
Proof.
  induction cachedNames as [|name rest IH]; intros rt Hinv; cbn [initializeAtoms_names].
  - wp_step. split; [done|]. split; [done|]. intros names [= <-]. constructor.
  - apply wp_bind. apply wp_intro. intros atom rt1 Hrun.
    assert (Hop : tableOp gc rt rt1) by (by eapply op_atomize).
    destruct (tableOp_keeps _ _ _ Hop Hinv) as [Hinv1 _].
    destruct atom as [atom|].
    + pose proof (wp_Return _ _ _ _ _
                    (AtomizeAndCopyChars_step gc oom cx (Latin1Chars name) PinAtom None rt)
                    Hrun) as Hstep.
      cbv beta in Hstep.
      pose proof (atomizeStep_result _ _ _ _ _ Hinv Hstep) as Hcanon.
      apply wp_bind. eapply wp_mono; [by apply IH|].
      intros names rt' (Hinv' & Hops & Hnames). wp_step.
      split; [done|]. split; [by eapply rtc_l|].
      intros ns Hns. destruct names as [names|]; [|done]. injection Hns as <-.
      constructor; [|by apply Hnames].
      by apply (tableOps_keep _ _ _ Hops Hinv1).
    + wp_step. split; [done|]. split; [by apply rtc_once|]. done.
Qed.

(** During initialization, from a context without zone, an atomization
    returns an atom unless an allocation fails. *)
Lemma AtomizeAndCopyChars_bootstrap gc oom cx c pin idx rt set :
  zone cx = None → permanentAtoms_ rt = None →
  permanentAtomsDuringInit_ rt = Some set →
  newStringFails oom = false → setAddFails oom = false →
  twp (AtomizeAndCopyChars gc oom cx c pin idx) rt (λ r rt',
    is_Some r ∧ permanentAtoms_ rt' = None ∧ is_Some (permanentAtomsDuringInit_ rt')
    ∧ partitions rt' = partitions rt).
Proof.
  intros Hzone Hperm Hset Hnew Hadd.
  unfold AtomizeAndCopyChars, PermanentlyAtomizeAndCopyChars, morphIntoPermanentAtom,
    zoneCacheAddFailed.
  assert (Hpop : negb (permanentAtomsPopulated rt) = true).
  { unfold permanentAtomsPopulated. rewrite Hperm.
    apply negb_true_iff, bool_decide_eq_false_2. by intros [? [=]]. }
  repeat twp_step; rt_simpl; try congruence; eauto.
  by rewrite lookup_app_r, Nat.sub_diag by lia.
Qed.

Lemma initializeAtoms_names_twp gc oom cx cachedNames : ∀ rt set,
  zone cx = None → permanentAtoms_ rt = None →
  permanentAtomsDuringInit_ rt = Some set →
  newStringFails oom = false → setAddFails oom = false →
  twp (initializeAtoms_names gc oom cx cachedNames) rt (λ r rt',
    is_Some r ∧ permanentAtoms_ rt' = None ∧ is_Some (permanentAtomsDuringInit_ rt')
    ∧ partitions rt' = partitions rt).
Proof.
  induction cachedNames as [|name rest IH]; intros rt set Hzone Hperm Hset Hnew Hadd;
    cbn [initializeAtoms_names].
  - twp_step. cbv beta. eauto.
  - apply twp_bind. unfold Atomize.
    eapply twp_mono; [by eapply AtomizeAndCopyChars_bootstrap|].
    intros r rt1 ([atom ->] & Hperm1 & [set1 Hset1] & Hps1). cbv beta iota.
    apply twp_bind. eapply twp_mono; [by eapply IH|].
    intros names rt' ([ns ->] & Hperm' & Hset' & Hps'). twp_step. cbv beta. simpl.
    split; [eauto|]. split; [done|]. split; [done|]. congruence.
Qed.

Lemma symbols_loop_run fails n : ∀ i rt,
  (∀ j, fails j = false) →
  initializeAtoms_symbols fails n i rt = Return true rt.
Proof.
  induction n as [|n IH]; intros i rt Hok; [done|]. simpl. by rewrite Hok, IH.
Qed.

(** What [initializeAtoms] makes of the runtime before it atomizes the
    names: the runtime with an empty set of permanent atoms to be. *)
Lemma initializeAtoms_own gc oom fails cx cachedNames limit rt :
  partitions rt = [] → permanentAtomsDuringInit_ rt = None → permanentAtoms_ rt = None →
  initializeAtoms gc oom fails cx None cachedNames limit rt
  = if newAtomSetFails fails then Return None rt
    else
      (if staticStringsFail fails then mret None
       else if newAtomStateFails fails then mret None
       else
         names ← initializeAtoms_names gc oom cx cachedNames;
         match names with
         | None => mret None
         | Some names =>
           if newWellKnownSymbolsFails fails then mret None
           else
             ok ← initializeAtoms_symbols (symbolFails fails) limit 0;
             mret (if ok : bool then Some names else None)
         end) (set_permanentAtomsDuringInit (Some []) rt).
Proof.
  intros Hps Hst Hperm. unfold initializeAtoms.
  unfold mbind, M_bind, gets, modify, mret, M_ret.
  rewrite Hps. simpl. rewrite Hst. simpl. rewrite Hperm. simpl.
  by destruct (newAtomSetFails fails).
Qed.

(** X16. The atoms of the common names. Take a runtime that has no atoms
    yet and whose zones have empty caches. When no allocation fails,
    [initializeAtoms], in a runtime without parent and from a context
    without zone, returns [true] with an atom for every cached name; it
    leaves the permanent atoms unpopulated and no table, as
    [initMainAtomsTables] asserts. Whenever it returns [true], the atoms
    it has stored are the atoms of the names: after any run of
    atomizations and pins and the end of initialization, an atomization
    of the characters of a name, in either encoding, that returns an
    atom returns the stored one. In a child runtime nothing is
    atomized: the permanent atoms and the common names are those of the
    parent, and the result is whether the table could be created. *)
Theorem initializeAtoms_common_names gc oom fails cx cachedNames limit rt :
  partitions rt = [] →
  permanentAtomsDuringInit_ rt = None →
  permanentAtoms_ rt = None →
  Forall (λ cache, cache = []) (atomCaches rt) →
  let run := initializeAtoms gc oom fails cx None cachedNames limit rt in
  (zone cx = None →
   newStringFails oom = false → setAddFails oom = false →
   newAtomSetFails fails = false → staticStringsFail fails = false →
   newAtomStateFails fails = false → newWellKnownSymbolsFails fails = false →
   (∀ j, symbolFails fails j = false) →
   ∃ names rt1,
     run = Return (Some names) rt1
     ∧ permanentAtoms_ rt1 = None ∧ is_Some (permanentAtomsDuringInit_ rt1)
     ∧ partitions rt1 = [])
  ∧ (∀ names rt1,
       run = Return (Some names) rt1 →
       length names = length cachedNames
       ∧ ∀ i name a rt2 oom' cx' c pin idx a2 rt3,
           cachedNames !! i = Some name → names !! i = Some a →
           rtc (tableOp gc) rt1 rt2 →
           units c = name →
           AtomizeAndCopyChars gc oom' cx' c pin idx rt2 = Return (Some a2) rt3 →
           a2 = a)
  ∧ (∀ parent,
       let made := partitionsMade (partitionFails fails) AtomsTable.PartitionCount 0 in
       let shared := set_permanentAtoms (parent_permanentAtoms parent) rt in
       initializeAtoms gc oom fails cx (Some parent) cachedNames limit rt
       = if newAtomsTableFails fails then Return None shared
         else Return (if made =? AtomsTable.PartitionCount
                      then Some (parent_commonNames parent) else None)
                (set_partitions (replicate made (Partition.mk [] None)) shared)).
Proof.
  intros Hps Hst Hperm Hcaches run. subst run.
  rewrite initializeAtoms_own by done.
  set (rt0 := set_permanentAtomsDuringInit (Some []) rt).
  pose proof (tableInv_fresh gc rt Hps Hperm Hcaches) as Hinv0. fold rt0 in Hinv0.
  refine (conj _ (conj _ _)).
  - intros Hzone Hnew Hadd -> -> -> Hwks Hsym.
    pose proof (initializeAtoms_names_twp gc oom cx cachedNames rt0 [] Hzone Hperm eq_refl
                  Hnew Hadd)
      as (r & rt1 & Hrun & [names ->] & Hperm1 & Hset1 & Hps1)%twp_Return.
    exists names, rt1. split; [|by rewrite Hps1].
    unfold mbind, M_bind. rewrite Hrun, Hwks. by rewrite symbols_loop_run.
  - intros names rt1 Hrun.
    destruct (newAtomSetFails fails); [done|].
    destruct (staticStringsFail fails); [done|].
    destruct (newAtomStateFails fails); [done|].
    apply bind_Return in Hrun as (r & rt1' & Hnames & Hrest).
    assert (r = Some names ∧ rt1' = rt1) as [-> ->].
    { destruct r as [ns|]; [|done].
      destruct (newWellKnownSymbolsFails fails); [done|].
      apply bind_Return in Hrest as (ok & rt2 & Hsym & Hret).
      destruct ok; [|done]. injection Hret as <- <-.
      split; [done|]. clear -Hsym. revert Hsym. generalize 0.
      generalize dependent rt1'. induction limit as [|n IH]; intros rt1' i; simpl.
      - by intros [= <-].
      - destruct (symbolFails fails i); [done|]. apply IH. }
    pose proof (wp_Return _ _ _ _ _
                  (initializeAtoms_names_wp gc oom cx cachedNames rt0 Hinv0) Hnames)
      as (Hinv1 & _ & Hcanon).
    specialize (Hcanon names eq_refl). split; [symmetry; by eapply Forall2_length|].
    intros i name a rt2 oom' cx' c pin idx a2 rt3 Hname Ha Hops Hunits Hatom.
    pose proof (Forall2_lookup_lr _ _ _ _ _ _ Hcanon Hname Ha) as Hc1. cbv beta in Hc1.
    destruct (tableOps_keep _ _ _ Hops Hinv1) as [Hinv2 Hframe].
    pose proof (Hframe _ _ Hc1) as Hc2.
    pose proof (wp_Return _ _ _ _ _ (AtomizeAndCopyChars_step gc oom' cx' c pin idx rt2) Hatom)
      as Hstep.
    cbv beta in Hstep. rewrite Hunits in Hstep.
    pose proof (atomizeStep_result _ _ _ _ _ Hinv2 Hstep) as Hc3.
    pose proof (atomizeStep_frame _ _ _ _ _ _ _ Hinv2 Hstep Hc2) as Hc3'.
    congruence.
  - intros parent made shared. unfold initializeAtoms.
    unfold mbind, M_bind, gets, modify, mret, M_ret.
    rewrite Hps. simpl. rewrite Hst. simpl. rewrite Hperm. simpl.
    destruct (newAtomsTableFails fails); [done|].
    unfold AtomsTable.init. rewrite init_loop_run. simpl.
    rewrite Hps. simpl. fold made. by destruct (made =? AtomsTable.PartitionCount).
Qed.

End CommonNames.

(** ** What a sweep that is run to its end leaves

    The table at the end of an incremental sweep, read off any of its
    states: the partitions before the cursor are merged already; of the
    partition of the cursor the entries before the cursor stay, and of
    those from the cursor on, as of the main sets of the partitions after
    it, the ones whose atoms are not about to be finalized; every
    secondary set is appended to its main set. *)

Definition finishPart (gc : Collector) (idx pos i : nat) (part : Partition.t) : Partition.t :=
  if decide (i < idx) then part
  else
    let atoms := Partition.atoms part in
    Partition.mk
      ((if decide (i = idx) then take pos atoms ++ live gc (drop pos atoms)
        else live gc atoms)
       ++ default [] (Partition.atomsAddedWhileSweeping part))
      None.

Definition finishFrom (gc : Collector) (idx pos : nat) (ps : list Partition.t)
  : list Partition.t :=
  imap (finishPart gc idx pos) ps.

Lemma finishFrom_lookup gc idx pos ps i :
  finishFrom gc idx pos ps !! i = finishPart gc idx pos i <$> ps !! i.
Proof. apply list_lookup_imap. Qed.

Lemma finishFrom_done gc idx pos ps : length ps ≤ idx → finishFrom gc idx pos ps = ps.
Proof.
  intros Hlen. apply list_eq. intros i. rewrite finishFrom_lookup.
  destruct (ps !! i) as [part|] eqn:Hi; [|done]. simpl.
  apply lookup_lt_Some in Hi. unfold finishPart.
  by rewrite decide_True by lia.
Qed.

Lemma live_nil gc : live gc [] = [].
Proof. done. Qed.

Lemma live_cons gc e atoms :
  live gc (e :: atoms)
  = if gc (AtomStateEntry.asPtrUnbarriered e) then live gc atoms else e :: live gc atoms.
Proof.
  unfold live. destruct (gc (AtomStateEntry.asPtrUnbarriered e)) eqn:Hgc.
  - by rewrite filter_cons_False by (rewrite Hgc; done).
  - by rewrite filter_cons_True by done.
Qed.

Lemma finishFrom_merge gc idx pos ps part added :
  ps !! idx = Some part →
  Partition.atomsAddedWhileSweeping part = Some added →
  length (Partition.atoms part) ≤ pos →
  finishFrom gc (S idx) 0 (<[idx := Partition.mk (Partition.atoms part ++ added) None]> ps)
  = finishFrom gc idx pos ps.
Proof.
  intros Hpart Hadded Hpos. apply list_eq. intros i. rewrite !finishFrom_lookup.
  destruct (decide (i = idx)) as [->|Hne].
  - rewrite list_lookup_insert_eq by by eapply lookup_lt_Some. rewrite Hpart. simpl.
    f_equal. unfold finishPart. repeat case_decide; try lia. rewrite Hadded. simpl.
    by rewrite take_ge, drop_ge, live_nil, app_nil_r by lia.
  - rewrite list_lookup_insert_ne by done.
    destruct (ps !! i) as [parti|]; [|done]. simpl. f_equal. unfold finishPart.
    repeat case_decide; try lia; try done; by rewrite take_0, drop_0.
Qed.

Lemma finishFrom_remove gc idx pos ps part e :
  ps !! idx = Some part →
  Partition.atoms part !! pos = Some e →
  gc (AtomStateEntry.asPtrUnbarriered e) = true →
  finishFrom gc idx pos
    (<[idx := Partition.mk (delete pos (Partition.atoms part))
                           (Partition.atomsAddedWhileSweeping part)]> ps)
  = finishFrom gc idx pos ps.
Proof.
  intros Hpart He Hgc. apply list_eq. intros i. rewrite !finishFrom_lookup.
  destruct (decide (i = idx)) as [->|Hne].
  - rewrite list_lookup_insert_eq by by eapply lookup_lt_Some. rewrite Hpart. simpl.
    f_equal. unfold finishPart. repeat case_decide; try lia. simpl. f_equal. f_equal.
    pose proof (lookup_lt_Some _ _ _ He) as Hlt.
    rewrite delete_take_drop.
    assert (Hlen : length (take pos (Partition.atoms part)) = pos)
      by (rewrite length_take; lia).
    rewrite take_app_length', drop_app_length' by done.
    by rewrite (drop_S _ _ _ He), live_cons, Hgc.
  - by rewrite list_lookup_insert_ne by done.
Qed.

Lemma finishFrom_pass gc idx pos ps part e :
  ps !! idx = Some part →
  Partition.atoms part !! pos = Some e →
  gc (AtomStateEntry.asPtrUnbarriered e) = false →
  finishFrom gc idx (S pos) ps = finishFrom gc idx pos ps.
Proof.
  intros Hpart He Hgc. apply list_eq. intros i. rewrite !finishFrom_lookup.
  destruct (ps !! i) as [parti|] eqn:Hi; [|done]. simpl. f_equal. unfold finishPart.
  repeat case_decide; try done. simplify_eq. f_equal. f_equal.
  by rewrite (take_S_r _ _ _ He), (drop_S _ _ _ He), live_cons, Hgc, <-app_assoc.
Qed.

(** Steps up to the next call that has a lemma of its own. *)
Ltac wp_to_call :=
  repeat lazymatch goal with
         | |- wp (AtomsTable.SweepIterator.settle_loop _ _ _) _ _ => fail
         | |- wp (AtomsTable.SweepIterator.settle _ _) _ _ => fail
         | |- wp (AtomsTable.sweepIncrementally_loop _ _ _ _ _) _ _ => fail
         | |- wp (AtomsTable.mergeAtomsAddedWhileSweeping _ _) _ _ => fail
         | |- wp (forEachPartition _ _ _) _ _ => fail
         | _ => wp_step
         end.

Section Target.
Context `{Engine}.

(** The table that the sweep in the state [it], [rt] is heading for. *)
Definition target (gc : Collector) (it : AtomsTable.SweepIterator.t) (rt : JSRuntime)
  : list Partition.t :=
  finishFrom gc (AtomsTable.SweepIterator.partitionIndex it) (cursorPos it) (partitions rt).

(** The cursor is not on a removed entry. *)
Definition fresh (it : AtomsTable.SweepIterator.t) : Prop :=
  ∀ e, AtomsTable.SweepIterator.atomsIter it = Some e → Enum.removed e = false.

Lemma settle_loop_target gc fails fuel : ∀ it rt,
  fresh it →
  wp (AtomsTable.SweepIterator.settle_loop fails fuel it) rt (λ it' rt',
    fresh it' ∧ target gc it' rt' = target gc it rt).
Proof.
  induction fuel as [|fuel IH]; intros it rt Hfresh;
    cbn [AtomsTable.SweepIterator.settle_loop]; [by wp_step|].
  unfold AtomsTable.SweepIterator.atomsIter_empty,
    AtomsTable.SweepIterator.finishSweepingPartition.
  wp_to_call; [|done].
  match goal with
  | He : AtomsTable.SweepIterator.atomsIter it = Some ?e0,
    Hp : partitions rt !! _ = Some ?p0,
    Hd : Enum.empty _ _ = true |- _ =>
    rename He into Hiter; rename e0 into e; rename Hp into Hpart; rename p0 into part;
    rename Hd into Hempty
  end.
  unfold Enum.empty in Hempty. apply bool_decide_eq_true in Hempty.
  eapply wp_mono; [apply mergeAtomsAddedWhileSweeping_wp|].
  intros [] rt1 (part' & added & Hpart' & Hadded & ->). simplify_eq.
  assert (Htarget : ∀ iter,
    cursorPos (AtomsTable.SweepIterator.mk
                 (S (AtomsTable.SweepIterator.partitionIndex it)) iter) = 0 →
    target gc (AtomsTable.SweepIterator.mk
                 (S (AtomsTable.SweepIterator.partitionIndex it)) iter)
      (set_partitions
         (<[AtomsTable.SweepIterator.partitionIndex it :=
              Partition.mk (Partition.atoms part ++ added) None]> (partitions rt)) rt)
    = target gc it rt).
  { intros iter Hpos. unfold target. rewrite Hpos. rt_simpl.
    apply finishFrom_merge; [done | done|]. unfold cursorPos. by rewrite Hiter. }
  unfold AtomsTable.SweepIterator.startSweepingPartition. wp_to_call.
  - split; [by intros ? [=]|]. by apply Htarget.
  - eapply wp_mono; [apply IH; by intros ? [= <-]|].
    intros it' rt' [Hfresh' Heq]. split; [done|].
    rewrite Heq. by apply (Htarget (Some Enum.start)).
Qed.

Lemma settle_target gc fails it rt :
  fresh it →
  wp (AtomsTable.SweepIterator.settle fails it) rt (λ it' rt',
    fresh it' ∧ target gc it' rt' = target gc it rt).
Proof.
  intros Hfresh. unfold AtomsTable.SweepIterator.settle. wp_to_call.
  by apply settle_loop_target.
Qed.

Lemma assert_merged_same n : ∀ i rt,
  wp (forEachPartition (λ i,
        part ← getPartition i;
        MOZ_ASSERT (negb (bool_decide (is_Some (Partition.atomsAddedWhileSweeping part)))))
      n i) rt (λ _ rt', rt' = rt).
Proof.
  induction n as [|n IH]; intros i rt; cbn [forEachPartition]; [by wp_step|].
  wp_to_call. apply IH.
Qed.

Lemma sweepIncrementally_loop_target gc fails fuel : ∀ it budget rt,
  (AtomsTable.SweepIterator.empty it = false → fresh it) →
  wp (AtomsTable.sweepIncrementally_loop gc fails fuel it budget) rt (λ r rt',
    target gc r.1.2 rt' = target gc it rt).
Proof.
  induction fuel as [|fuel IH]; intros it budget rt Hfresh;
    cbn [AtomsTable.sweepIncrementally_loop]; [by wp_step|].
  destruct (AtomsTable.SweepIterator.empty it).
  { wp_step. eapply wp_mono; [apply assert_merged_same|]. intros [] rt' ->. by wp_step. }
  specialize (Hfresh eq_refl).
  destruct (SliceBudget.isOverBudget (SliceBudget.step budget)); [by wp_step|].
  unfold AtomsTable.SweepIterator.front, AtomsTable.SweepIterator.removeFront,
    AtomsTable.SweepIterator.popFront, Enum.removeFront.
  wp_to_call.
  all: simplify_eq; rt_simpl.
  all: match goal with
       | He : AtomsTable.SweepIterator.atomsIter _ = Some ?e0,
         Hp : partitions _ !! _ = Some ?p0,
         Hf : Enum.front _ _ = Some ?x0 |- _ =>
         rename He into Hiter; rename e0 into e; rename Hp into Hpart; rename p0 into part;
         rename Hf into Hfront; rename x0 into entry
       end.
  all: unfold Enum.front in Hfront; pose proof (Hfresh e Hiter) as Hrem.
  all: (eapply wp_mono;
          [apply (settle_target gc); intros ? [= <-]; unfold Enum.popFront;
           by destruct (Enum.removed _)|]);
    intros it1 rt1 [Hfresh1 Heq1];
    (eapply wp_mono; [by apply IH|]);
    intros r rt2 Heq2; rewrite Heq2, Heq1;
    unfold target, cursorPos, Enum.popFront; rt_simpl; rewrite Hiter.
  - by eapply finishFrom_remove.
  - rewrite Hrem. rt_simpl. by eapply finishFrom_pass.
Qed.

Lemma new_target gc fails rt :
  wp (AtomsTable.SweepIterator.new fails) rt (λ it rt',
    fresh it ∧ target gc it rt' = finishFrom gc 0 0 (partitions rt)).
Proof.
  unfold AtomsTable.SweepIterator.new, AtomsTable.SweepIterator.startSweepingPartition.
  wp_to_call.
  eapply wp_mono; [apply (settle_target gc); by intros ? [= <-]|].
  intros it rt' [Hfresh Heq]. split; [done|]. by rewrite Heq.
Qed.

Lemma sweepIncrementally_target gc fails it budget rt :
  (AtomsTable.SweepIterator.empty it = false → fresh it) →
  wp (AtomsTable.sweepIncrementally gc fails it budget) rt (λ r rt',
    target gc r.1.2 rt' = target gc it rt).
Proof.
  intros Hfresh. unfold AtomsTable.sweepIncrementally. wp_to_call.
  by apply sweepIncrementally_loop_target.
Qed.

Lemma sweeping_fresh strict it rt :
  sweeping strict it rt → AtomsTable.SweepIterator.empty it = false → fresh it.
Proof.
  intros (Hcount & Hle & _ & _ & Hcur) Hemp e He.
  apply Nat.eqb_neq in Hemp.
  destruct Hcur as (e' & part & He' & Hrem & _); [lia|]. congruence.
Qed.

Lemma sweepIncrementally_completes gc fails it budget rt :
  sweeping true it rt →
  (∀ j, fails j = false) →
  (Z.of_nat (work it (partitions rt)) < SliceBudget.counter budget)%Z →
  ∃ it' rt',
    AtomsTable.sweepIncrementally gc fails it budget rt
    = Return (true, it',
              SliceBudget.mk (SliceBudget.counter budget
                              - Z.of_nat (work it (partitions rt)))) rt'
    ∧ AtomsTable.SweepIterator.empty it' = true
    ∧ partitions rt'
      = finishFrom gc (AtomsTable.SweepIterator.partitionIndex it) (cursorPos it)
                   (partitions rt)
    ∧ rt' = set_partitions (partitions rt') rt.
Proof.
  intros Hsw Hok Hbudget.
  pose proof (sweepIncrementally_twp gc fails it budget rt Hsw Hok) as Htwp.
  apply twp_Return in Htwp
    as ([[done it'] budget'] & rt' & Hrun & Hsw' & Hrt' & Hprog & Hidx & Hcnt & Hdone).
  pose proof (sweepIncrementally_target gc fails it budget rt
                (sweeping_fresh _ _ _ Hsw)) as Hwp.
  eapply wp_Return in Hwp; [|exact Hrun]. simpl in Hwp.
  destruct done.
  - pose proof Hsw' as (Hcount' & _). destruct Hdone as [Hdone _].
    rewrite work_end in Hcnt by lia.
    exists it', rt'. refine (conj _ (conj _ (conj _ Hrt'))).
    + rewrite Hrun. f_equal. f_equal. destruct budget' as [c']. simpl in *. f_equal. lia.
    + by apply Nat.eqb_eq.
    + unfold target in Hwp. rewrite <-Hwp. by rewrite finishFrom_done by lia.
  - destruct Hdone as [Hlt Hmin].
    pose proof (work_pos it' rt' Hsw' Hlt). lia.
Qed.

(** X17. A slice with budget to spare finishes the sweep. Take a call of
    [sweepIncrementally] made while an incremental sweep is in progress,
    with no [putNew] failing and a budget of more steps than there are
    entries of main sets that the cursor has not passed. The call returns
    [true]. Every partition then has no secondary set; a partition that
    the cursor had left is as it was, the partition of the cursor keeps
    the entries before the cursor and loses, of the others, those whose
    atoms are about to be finalized, as do the main sets of the partitions
    after it, and every secondary set has been appended to its main set.
    Nothing but the partitions has changed, and the budget has gone down
    by one step for every entry passed. *)
Theorem sweepIncrementally_finishes_within_budget gc fails it budget rt :
  sweeping true it rt →
  (∀ j, fails j = false) →
  (Z.of_nat (work it (partitions rt)) < SliceBudget.counter budget)%Z →
  ∃ it' rt',
    AtomsTable.sweepIncrementally gc fails it budget rt
    = Return (true, it',
              SliceBudget.mk (SliceBudget.counter budget
                              - Z.of_nat (work it (partitions rt)))) rt'
    ∧ AtomsTable.SweepIterator.empty it' = true
    ∧ partitions rt'
      = finishFrom gc (AtomsTable.SweepIterator.partitionIndex it) (cursorPos it)
                   (partitions rt)
    ∧ rt' = set_partitions (partitions rt') rt.
Proof. apply sweepIncrementally_completes. Qed.

Lemma sum_list_Forall2_le l1 l2 : Forall2 le l1 l2 → sum_list l1 ≤ sum_list l2.
Proof. induction 1; simpl; lia. Qed.

(** A stretch of sweeping that began with empty secondary sets has not
    made any main set longer. *)
Lemma progress_entryCount gc ps idx ps' :
  progress gc (withEmptySecondary <$> ps) idx ps' →
  sum_list (length ∘ Partition.atoms <$> ps') ≤ sum_list (length ∘ Partition.atoms <$> ps).
Proof.
  intros [Hlen Hprog]. rewrite length_fmap in Hlen.
  apply sum_list_Forall2_le, Forall2_fmap, Forall2_same_length_lookup_2; [done|].
  intros i part' part Hpart' Hpart.
  destruct (Hprog i (withEmptySecondary part)) as (part'' & Hpart'' & Hstep).
  { by rewrite list_lookup_fmap, Hpart. }
  simplify_eq. simpl in *.
  destruct Hstep as [(_ & _ & Hsw) | (_ & _ & kept & Hsw & ->)];
    apply swept_length in Hsw; [done|]. by rewrite length_app, Nat.add_0_r.
Qed.

Lemma finishFrom_start gc ps :
  Forall (λ p, Partition.atomsAddedWhileSweeping p = None) ps →
  finishFrom gc 0 0 (withEmptySecondary <$> ps) = sweptPartition gc <$> ps.
Proof.
  intros Hnone. apply list_eq. intros i. rewrite finishFrom_lookup, !list_lookup_fmap.
  destruct (ps !! i) as [part|] eqn:Hpart; [|done]. simpl. f_equal.
  rewrite Forall_lookup in Hnone. specialize (Hnone _ _ Hpart).
  unfold finishPart, sweptPartition. rewrite Hnone. simpl.
  repeat case_decide; try lia; by rewrite ?take_0, ?drop_0, app_nil_r.
Qed.

(** X18. An incremental sweep that is run to its end sweeps as [sweepAll]
    does. On a table with all its partitions, none with a secondary set,
    and with no allocation failing, [startIncrementalSweep] succeeds, the
    constructor of [SweepIterator] returns a cursor, and a call of
    [sweepIncrementally] with a budget of more steps than the main sets
    have entries returns [true]. The three calls change nothing but the
    partitions, and leave the partitions that [sweepAll] leaves when it
    is called on the same table: every main set without the entries whose
    atoms are about to be finalized, and no secondary set. *)
Theorem incremental_sweep_agrees_with_sweepAll gc fails1 fails2 budget rt :
  length (partitions rt) = AtomsTable.PartitionCount →
  Forall (λ p, Partition.atomsAddedWhileSweeping p = None) (partitions rt) →
  (∀ j, fails1 j = false) →
  (∀ j, fails2 j = false) →
  (Z.of_nat (AtomsTable.entryCount rt) < SliceBudget.counter budget)%Z →
  ∃ rt1 it rt2 it' budget' rt3 rt4,
    AtomsTable.startIncrementalSweep fails1 rt = Return true rt1
    ∧ AtomsTable.SweepIterator.new fails2 rt1 = Return it rt2
    ∧ AtomsTable.sweepIncrementally gc fails2 it budget rt2
      = Return (true, it', budget') rt3
    ∧ rt3 = set_partitions (partitions rt3) rt
    ∧ AtomsTable.sweepAll gc rt = Return tt rt4
    ∧ partitions rt3 = partitions rt4
    ∧ partitions rt3 = sweptPartition gc <$> partitions rt.
Proof.
  intros Hlen Hnone Hok1 Hok2 Hbudget.
  destruct (startIncrementalSweep_alloc_spec fails1 AtomsTable.PartitionCount 0 rt)
    as ([] & ps1 & Hrun1 & _ & Hps1); [lia | done | |].
  2: { destruct Hps1 as (j & _ & Hj). by rewrite Hok1 in Hj. }
  destruct Hps1 as [_ ->]. rewrite take_0, drop_0, app_nil_l in Hrun1.
  set (rt1 := set_partitions (withEmptySecondary <$> partitions rt) rt) in *.
  assert (Hstart : AtomsTable.startIncrementalSweep fails1 rt = Return true rt1).
  { unfold AtomsTable.startIncrementalSweep, mbind, M_bind. by rewrite Hrun1. }
  pose proof (SweepIterator_new_twp gc fails2 rt1) as Hnew.
  apply twp_Return in Hnew as (it & rt2 & Hrun2 & Hsw2 & Hrt2 & Hprog2); [|..|done].
  2: { subst rt1. rt_simpl. by rewrite length_fmap. }
  2: { subst rt1. rt_simpl. intros i part Hi.
       apply list_lookup_fmap_Some in Hi as (part0 & -> & _).
       split; [lia|]. intros _. by eexists. }
  2: { subst rt1. intros i part added Hi Hadded. revert Hi Hadded. rt_simpl. intros Hi Hadded.
       apply list_lookup_fmap_Some in Hi as (part0 & -> & _). simpl in Hadded.
       simplify_eq. apply Forall_nil_2. }
  pose proof (new_target gc fails2 rt1) as Htarget2.
  eapply wp_Return in Htarget2 as [_ Htarget2]; [|exact Hrun2].
  destruct (sweepIncrementally_completes gc fails2 it budget rt2)
    as (it' & rt3 & Hrun3 & _ & Hps3 & Hrt3); [done | done | |].
  { assert (work it (partitions rt2) ≤ AtomsTable.entryCount rt); [|lia].
    etrans; [|apply (progress_entryCount gc _ _ _ Hprog2)].
    unfold work.
    pose proof (sum_list_drop_le (length ∘ Partition.atoms)
                  (AtomsTable.SweepIterator.partitionIndex it) (partitions rt2)).
    lia. }
  pose proof (sweepAll_twp gc rt Hlen) as Hall.
  apply twp_Return in Hall as ([] & rt4 & Hrun4 & Hps4 & _).
  assert (Hps : partitions rt3 = sweptPartition gc <$> partitions rt).
  { rewrite Hps3. unfold target in Htarget2. rewrite Htarget2. subst rt1. rt_simpl.
    by apply finishFrom_start. }
  eexists rt1, it, rt2, it', _, rt3, rt4.
  refine (conj Hstart (conj Hrun2 (conj Hrun3 (conj _ (conj Hrun4 (conj _ Hps)))))).
  - rewrite Hrt3 at 1. rewrite Hrt2. by subst rt1.
  - by rewrite Hps4.
Qed.

End Target.

(** ** Canonical atoms through the sweeps

    What the sweeps do to the atom of a content that the collector does
    not report about to be finalized. *)

(** *** What a sweep makes of the partitions *)










Section SweepEffect.
Context `{Engine}.









(** A run that has changed partitions and locks only. *)
Definition partsOnly (rt rt' : JSRuntime) : Prop :=
  heap rt' = heap rt
  ∧ permanentAtomsDuringInit_ rt' = permanentAtomsDuringInit_ rt
  ∧ permanentAtoms_ rt' = permanentAtoms_ rt
  ∧ atomCaches rt' = atomCaches rt.

Lemma partsOnly_refl rt : partsOnly rt rt.
Proof. done. Qed.

Lemma partsOnly_trans rt1 rt2 rt3 : partsOnly rt1 rt2 → partsOnly rt2 rt3 → partsOnly rt1 rt3.
Proof. unfold partsOnly. intros (-> & -> & -> & ->) (-> & -> & -> & ->). done. Qed.










End SweepEffect.

(** *** The main sets at the end of the sweep *)















Section SweepShape.
Context `{Engine}.










End SweepShape.

(** *** The atom that is kept *)

Section KeptAtom.
Context `{Engine}.
Variables (cs : list Z) (a : AtomId).








(** *** What the sweeps do to the partition *)





(** *** What an atomization does to the partition *)




(** *** What an atomization does to the invariant *)







(** *** What the sweeps do to the invariant *)


End KeptAtom.

(** *** The atom of the first atomization *)

Section Established.
Context `{Engine}.





End Established.

(** *** Runs with sweeps

    The table between and during sweeps: the verdicts of the collector,
    the cursor of the incremental sweep, which is at the end of the
    table when no sweep is under way, and the runtime. *)
Module TableState.
Record t := mk {
  collector : Collector;
  cursor : AtomsTable.SweepIterator.t;
  runtime : JSRuntime
}.
End TableState.



Section Runs.
Context `{Engine}.








End Runs.


(** * Examples *)

(** ** A small engine

    An instance on which the operations run: a hash of 32 bits in the
    manner of mfbt's (a rotation, an exclusive or and a multiplication
    for every code unit), four partitions, a static-strings table that
    holds the string of the digit zero, and a maximum length of eight. *)

Definition RotateLeft5 (v : Z) : Z :=
  (Z.lor (Z.shiftl v 5) (Z.shiftr v 27)) mod 2 ^ 32.

Definition AddU32ToHash (hash value : Z) : Z :=
  (2654435769 * Z.lxor (RotateLeft5 hash) value) mod 2 ^ 32.

Definition HashKnownLength (cs : list Z) : Z := fold_left AddU32ToHash cs 0%Z.

Lemma HashKnownLength_uint32 cs : (0 ≤ HashKnownLength cs < 2 ^ 32)%Z.
Proof.
  unfold HashKnownLength.
  assert (Hgen : ∀ l h, (0 ≤ h < 2 ^ 32 → 0 ≤ fold_left AddU32ToHash l h < 2 ^ 32)%Z).
  { induction l as [|c l IH]; intros h Hh; simpl; [exact Hh|].
    apply IH. unfold AddU32ToHash. apply Z.mod_pos_bound. lia. }
  apply Hgen. lia.
Qed.

Definition smallStatics (cs : list Z) : option AtomId :=
  match cs with
  | [c] => if (c =? 48)%Z then Some 0 else None
  | _ => None
  end.

#[local] Program Instance smallEngine : Engine := {|
  HashString := HashKnownLength;
  HashString_uint32 := HashKnownLength_uint32;
  PartitionShift := 2;
  staticStrings_lookup := smallStatics;
  MAX_LENGTH := 8;
  CanStoreCharsAsLatin1 := forallb (λ c, (c <? 256)%Z)
|}.
Next Obligation. lia. Qed.

(** The cell of the static atom of the small engine. *)
Definition zeroAtom : JSAtom.t :=
  JSAtom.mk [48%Z] true (HashKnownLength [48%Z]) true true None.

(** A runtime of the small engine after initialization: the permanent set
    is frozen and empty, the partitions are empty, and there is one zone. *)
Definition smallRuntime : JSRuntime :=
  mkRuntime [zeroAtom] None (Some []) (replicate 4 (Partition.mk [] None)) [[]] true [] None.

(** ** A small run *)

Definition noFailure : Allocator := mkAllocator false false false.
Definition allLive : Collector := λ _, false.
Definition zone0 : JSContext := mkContext (Some 0).

(** The runtime an operation leaves. *)
Definition run {A} (m : M A) (rt : JSRuntime) : JSRuntime :=
  match m rt with Return _ rt' => rt' | Abort _ => rt end.

(** [smallRuntime] after the atomization of the string of the one
    character 97: the atom is the cell 1, in the partition 3. *)
Definition internedRuntime : JSRuntime :=
  Eval vm_compute in run (Atomize allLive noFailure zone0 [97%Z] DoNotPinAtom None) smallRuntime.

(** [internedRuntime] after that atom has been pinned. *)
Definition pinnedRuntime : JSRuntime :=
  Eval vm_compute in run (AtomsTable.pinExistingAtom 1) internedRuntime.

Definition pinnedEntry : AtomStateEntry.t := AtomStateEntry.mk 1 true.

(** A collector that reports the atom 1 about to be finalized. *)
Definition atom1Dead : Collector := λ a, a =? 1.

(** The pinned atom 1 is a root of the table, and a sweep by a collector
    that reports it live keeps its entry. *)
Lemma pin_durability_witness :
  inTable (partitions pinnedRuntime) pinnedEntry
  ∧ (∃ roots, AtomsTable.tracePinnedAtoms pinnedRuntime = Return roots pinnedRuntime
              ∧ 1 ∈ roots)
  ∧ (∃ rt', AtomsTable.sweepAll allLive pinnedRuntime = Return tt rt'
            ∧ inTable (partitions rt') pinnedEntry
            ∧ length (partitions rt') = 4).
Proof.
  assert (Hin : inTable (partitions pinnedRuntime) pinnedEntry).
  { exists 3, (Partition.mk [pinnedEntry] None). split; [reflexivity|]. left. constructor. }
  assert (Hlen : length (partitions pinnedRuntime) = AtomsTable.PartitionCount)
    by reflexivity.
  destruct (pin_durability allLive (λ _, false) pinnedEntry pinnedRuntime
              Hin eq_refl Hlen) as (_ & Hroots & Hsweep & _).
  split; [exact Hin|]. split; [exact (Hroots eq_refl)|].
  exact (proj1 (Hsweep eq_refl)).
Defined.

(** A pinned atom that the collector reports about to be finalized loses
    its entry: [pinExistingAtom] pins the atom 1 and its entry, and a
    [sweepAll], or an incremental sweep, with such a collector leaves
    every partition empty. *)
Lemma pinned_entry_swept_when_dead :
  AtomsTable.pinExistingAtom 1 internedRuntime = Return tt pinnedRuntime
  ∧ partitions pinnedRuntime !! 3 = Some (Partition.mk [pinnedEntry] None)
  ∧ (∃ rt', AtomsTable.sweepAll atom1Dead pinnedRuntime = Return tt rt'
            ∧ partitions rt' = replicate 4 (Partition.mk [] None))
  ∧ (∃ it budget rt',
       (_ ← AtomsTable.startIncrementalSweep (λ _, false);
        it ← AtomsTable.SweepIterator.new (λ _, false);
        AtomsTable.sweepIncrementally atom1Dead (λ _, false) it (SliceBudget.mk 10))
         pinnedRuntime
       = Return (true, it, budget) rt'
       ∧ partitions rt' = replicate 4 (Partition.mk [] None)).
Proof.
  split; [reflexivity|]. split; [reflexivity|].
  split; [eexists; split; [vm_compute; reflexivity | reflexivity]|].
  eexists _, _, _. split; [vm_compute; reflexivity | reflexivity].
Qed.

(** ** The theorems on the small run *)

(** The key of the string of the one character 97. *)
Definition key97 : AtomHasher.Lookup := AtomHasher.ofChars (Latin1Chars [97%Z]).

(** [internedRuntime] once an incremental sweep has been started. *)
Definition sweepingRuntime : JSRuntime :=
  Eval vm_compute in run (AtomsTable.startIncrementalSweep (λ _, false)) internedRuntime.

(** [sweepingRuntime] once the iterator of the sweep has been made: the
    cursor stands on the entry of the atom 1, in the partition 3. *)
Definition cursorRuntime : JSRuntime :=
  Eval vm_compute in run (AtomsTable.SweepIterator.new (λ _, false)) sweepingRuntime.

Definition cursor3 : AtomsTable.SweepIterator.t :=
  AtomsTable.SweepIterator.mk 3 (Some Enum.start).

Definition entry1 : AtomStateEntry.t := AtomStateEntry.mk 1 false.
Definition entry2 : AtomStateEntry.t := AtomStateEntry.mk 2 false.

(** During the sweep, with the atom 1 reported about to be finalized, the
    atomization of its content makes the atom 2, in the secondary set. *)
Lemma atomize_during_sweep_witness :
  ∃ rt',
    AtomsTable.atomizeAndCopyChars atom1Dead noFailure (Latin1Chars [97%Z])
      DoNotPinAtom None key97 sweepingRuntime = Return (Some 2) rt'
    ∧ partitions rt' !! 3 = Some (Partition.mk [entry1] (Some [entry2])).
Proof.
  assert (Hvalid : validPartition (heap sweepingRuntime) (Partition.mk [entry1] (Some []))).
  { split; [repeat constructor|]. intros added [= <-]. constructor. }
  assert (Hpart : partitions sweepingRuntime !! AtomsTable.indexOf key97
                  = Some (Partition.mk [entry1] (Some [])))
    by (vm_compute; reflexivity).
  destruct (atomize_during_sweep atom1Dead noFailure (Latin1Chars [97%Z]) DoNotPinAtom None
              sweepingRuntime (Partition.mk [entry1] (Some [])) Hpart Hvalid)
    as (r & rt' & Hrun & Hpost).
  vm_compute in Hpost. destruct (Hpost eq_refl eq_refl) as [-> Hpart'].
  exists rt'. split; [exact Hrun | exact Hpart'].
Defined.

(** The start of a sweep succeeds when no allocation fails, and leaves the
    runtime as it was when the allocation for the partition 2 fails. *)
Lemma startIncrementalSweep_all_or_nothing_witness :
  AtomsTable.startIncrementalSweep (λ _, false) internedRuntime
  = Return true sweepingRuntime
  ∧ AtomsTable.startIncrementalSweep (λ i, i =? 2) internedRuntime
    = Return false internedRuntime.
Proof.
  assert (Hlen : length (partitions internedRuntime) = AtomsTable.PartitionCount)
    by reflexivity.
  assert (Hnone : Forall (λ p, Partition.atomsAddedWhileSweeping p = None)
                         (partitions internedRuntime))
    by (repeat constructor).
  split.
  - destruct (startIncrementalSweep_all_or_nothing (λ _, false) internedRuntime Hlen Hnone)
      as (ok & rt' & Hrun & Hpost).
    destruct ok.
    + destruct Hpost as [_ ->]. exact Hrun.
    + destruct Hpost as [(i & _ & Hi) _]. discriminate Hi.
  - destruct (startIncrementalSweep_all_or_nothing (λ i, i =? 2) internedRuntime Hlen Hnone)
      as (ok & rt' & Hrun & Hpost).
    destruct ok.
    + destruct Hpost as [Hi _]. specialize (Hi 2 ltac:(vm_compute; lia)). discriminate Hi.
    + destruct Hpost as [_ ->]. exact Hrun.
Defined.

(** The cursor made by [SweepIterator::SweepIterator] on [sweepingRuntime]
    is that of a sweep in progress. *)
Lemma sweeping_cursorRuntime : sweeping true cursor3 cursorRuntime.
Proof.
  assert (Hm : mergedBefore 0 (partitions sweepingRuntime)).
  { intros i part Hi. split; [lia|]. intros _.
    do 4 (destruct i as [|i]; [injection Hi as <-; by eexists|]). discriminate Hi. }
  assert (Hh : secondariesHashed sweepingRuntime).
  { intros i part added Hi Hadded.
    do 4 (destruct i as [|i]; [injection Hi as <-; injection Hadded as <-; constructor|]).
    discriminate Hi. }
  assert (Hlen : length (partitions sweepingRuntime) = AtomsTable.PartitionCount)
    by reflexivity.
  destruct (proj1 (twp_Return _ _ _)
              (SweepIterator_new_twp allLive (λ _, false) sweepingRuntime
                 Hlen Hm Hh (λ _, eq_refl)))
    as (it & rt' & Hrun & Hsw & _).
  vm_compute in Hrun. injection Hrun as <- <-. exact Hsw.
Qed.

(** With a budget of one step the sweep returns at once; with a budget of
    ten it removes the dead atom 1 and ends with every partition merged. *)
Lemma sweepIncrementally_merge_invariant_witness :
  AtomsTable.sweepIncrementally atom1Dead (λ _, false) cursor3 (SliceBudget.mk 1)
    cursorRuntime
  = Return (false, cursor3, SliceBudget.mk 0) cursorRuntime
  ∧ ∃ it' budget' rt',
      AtomsTable.sweepIncrementally atom1Dead (λ _, false) cursor3 (SliceBudget.mk 10)
        cursorRuntime
      = Return (true, it', budget') rt'
      ∧ partitions rt' = replicate 4 (Partition.mk [] None).
Proof.
  split.
  - apply (sweepIncrementally_merge_invariant atom1Dead (λ _, false) cursor3
             (SliceBudget.mk 1) cursorRuntime sweeping_cursorRuntime).
    + vm_compute. lia.
    + reflexivity.
  - destruct (sweepIncrementally_merge_invariant atom1Dead (λ _, false) cursor3
                (SliceBudget.mk 10) cursorRuntime sweeping_cursorRuntime)
      as (_ & _ & Hreturns).
    destruct (Hreturns (λ _, eq_refl)) as (done & it' & budget' & rt' & Hrun & _).
    pose proof Hrun as Hrun'. vm_compute in Hrun'.
    injection Hrun' as <- <- <- <-.
    eexists _, _, _. split; [exact Hrun | reflexivity].
Defined.

(** An allocator with which only the insertion into a zone's cache
    fails. *)
Definition cacheFails : Allocator := mkAllocator false false true.

(** The table resolves the content to the new atom 1, and the call
    returns no atom because the cache of the zone refuses the entry. *)
Lemma zone_cache_failure_fails_call_witness :
  ∃ rt1,
    AtomsTable.atomizeAndCopyChars allLive cacheFails (Latin1Chars [97%Z]) DoNotPinAtom
      None key97 smallRuntime = Return (Some 1) rt1
    ∧ AtomizeAndCopyChars allLive cacheFails zone0 (Latin1Chars [97%Z]) DoNotPinAtom None
        smallRuntime
      = Return None (set_pendingException (Some OutOfMemory) rt1).
Proof.
  assert (Hstatic : staticStrings_lookup (units (Latin1Chars [97%Z])) = None)
    by reflexivity.
  assert (Hmiss : AtomSet.lookup (heap smallRuntime) [] key97 = None) by reflexivity.
  destruct (zone_cache_failure_fails_call allLive cacheFails zone0 0 []
              (Latin1Chars [97%Z]) None smallRuntime
              eq_refl eq_refl eq_refl Hstatic Hmiss) as (_ & Hshard & _).
  eexists. split; [vm_compute; reflexivity|].
  eapply Hshard; [reflexivity | reflexivity | vm_compute; lia | vm_compute; reflexivity].
Defined.

(** On the pinned atom 1 the assertion of [pinExistingAtom] fails and
    [AtomizeString] changes nothing; on the atom 1 before it is pinned
    both return and set the pinned bit. *)
Lemma pinExistingAtom_precondition_witness :
  (AtomsTable.pinExistingAtom 1 pinnedRuntime = Abort AssertionFailure
   ∧ AtomizeString allLive noFailure false zone0 (AtomString 1) PinAtom pinnedRuntime
     = Return (Some 1) pinnedRuntime)
  ∧ ∃ rt',
      AtomsTable.pinExistingAtom 1 internedRuntime = Return tt rt'
      ∧ AtomizeString allLive noFailure false zone0 (AtomString 1) PinAtom internedRuntime
        = Return (Some 1) rt'
      ∧ JSAtom.isPinned <$> heap rt' !! 1 = Some true.
Proof.
  split.
  - assert (Hcell : heap pinnedRuntime !! 1
                    = Some (JSAtom.mk [97%Z] true 4077199129%Z true false None))
      by reflexivity.
    destruct (pinExistingAtom_precondition allLive noFailure false zone0 1 _
                pinnedRuntime Hcell) as [Hpinned _].
    destruct (Hpinned eq_refl) as [Habort Hsame]. split; [exact Habort | apply Hsame].
  - assert (Hcell : heap internedRuntime !! 1
                    = Some (JSAtom.mk [97%Z] true 4077199129%Z false false None))
      by reflexivity.
    destruct (pinExistingAtom_precondition allLive noFailure false zone0 1 _
                internedRuntime Hcell) as [_ Hunpinned].
    assert (Hhash : HashString [97%Z] = 4077199129%Z) by (vm_compute; reflexivity).
    assert (Hpart : partitions internedRuntime
                      !! AtomsTable.indexOf
                           (AtomHasher.ofAtom 1
                              (JSAtom.mk [97%Z] true 4077199129%Z false false None))
                    = Some (Partition.mk [entry1] None)) by (vm_compute; reflexivity).
    destruct (Hunpinned eq_refl Hhash (Partition.mk [entry1] None) MainSet 0 entry1
                Hpart eq_refl eq_refl)
      as (rt' & Hpin & Hstr & Hbit & _).
    exists rt'. split; [exact Hpin|]. split; [exact Hstr | exact Hbit].
Defined.

(** With a pinned atom requested the call gives the same result, the
    atom 1, whether the cache of the zone holds it or is empty. *)
Lemma pinning_bypasses_zone_cache_witness :
  AtomizeAndCopyChars allLive noFailure zone0 (Latin1Chars [97%Z]) PinAtom None
    (set_atomCaches [[]] internedRuntime)
  = Outcome_map (set_atomCaches [[]])
      (AtomizeAndCopyChars allLive noFailure zone0 (Latin1Chars [97%Z]) PinAtom None
         internedRuntime).
Proof.
  exact (proj1 (pinning_bypasses_zone_cache allLive noFailure (Latin1Chars [97%Z]) None
                  [[]] internedRuntime) zone0).
Defined.

(** ** Canonical atoms on the small run *)

Definition noZone : JSContext := mkContext None.

Lemma tableInv_smallRuntime gc : tableInv gc (shape smallRuntime).
Proof.
  split.
  - refine (conj _ (conj _ (conj _ _))).
    + done.
    + intros set [= <-]. constructor.
    + repeat constructor; done.
    + repeat constructor.
  - intros z cache cs a Hz _ Hfind. destruct z as [|z]; [|done].
    injection Hz as <-. done.
Qed.

(** A runtime of the small engine during initialization: the set of the
    permanent atoms is being filled, and the table is still to be made. *)
Definition bootRuntime : JSRuntime :=
  mkRuntime [zeroAtom] (Some []) None [] [[]] true [] None.

(** [bootRuntime] after the atomization of the one character 97, which
    makes the permanent atom 1, and then after the end of
    initialization. *)
Definition bootInterned : JSRuntime :=
  Eval vm_compute in
    run (Atomize allLive noFailure zone0 [97%Z] DoNotPinAtom None) bootRuntime.

Definition bootDone : JSRuntime :=
  Eval vm_compute in run (initMainAtomsTables (λ _, false)) bootInterned.


(** [bootDone] with the cache of its zone emptied. *)
Definition bootPurged : JSRuntime := set_atomCaches [[]] bootDone.

Definition nineChars : Chars := Latin1Chars (replicate 9 97%Z).

(** (a) The string of the digit zero is found in the static strings and
    (b) the content of the atom 1 in the cache of the zone. (c) With the
    cache emptied, the permanent atom 1 is returned and entered into the
    cache, and given up when the cache refuses it. (d) A string of nine
    characters fails with an allocation overflow. (e) The table makes
    the atom 1, which is returned and cached, and given up when the cache
    refuses it. *)
Lemma atomize_resolution_order_witness :
  AtomizeAndCopyChars allLive noFailure zone0 (Latin1Chars [48%Z]) DoNotPinAtom None
    internedRuntime = Return (Some 0) internedRuntime
  ∧ AtomizeAndCopyChars allLive noFailure zone0 (Latin1Chars [97%Z]) DoNotPinAtom None
      internedRuntime = Return (Some 1) internedRuntime
  ∧ AtomizeAndCopyChars allLive noFailure zone0 (Latin1Chars [97%Z]) DoNotPinAtom None
      bootPurged = Return (Some 1) bootDone
  ∧ AtomizeAndCopyChars allLive cacheFails zone0 (Latin1Chars [97%Z]) DoNotPinAtom None
      bootPurged = Return None (set_pendingException (Some OutOfMemory) bootPurged)
  ∧ AtomizeAndCopyChars allLive noFailure zone0 nineChars DoNotPinAtom None smallRuntime
    = Return None (set_pendingException (Some AllocationOverflow) smallRuntime)
  ∧ AtomizeAndCopyChars allLive noFailure zone0 (Latin1Chars [97%Z]) DoNotPinAtom None
      smallRuntime = Return (Some 1) internedRuntime
  ∧ ∃ rt1,
      AtomsTable.atomizeAndCopyChars allLive cacheFails (Latin1Chars [97%Z]) DoNotPinAtom
        None key97 smallRuntime = Return (Some 1) rt1
      ∧ AtomizeAndCopyChars allLive cacheFails zone0 (Latin1Chars [97%Z]) DoNotPinAtom None
          smallRuntime = Return None (set_pendingException (Some OutOfMemory) rt1).
Proof.
  assert (Hmiss : ∀ rt c, atomCaches rt = [[]] →
    ∀ z, zone zone0 = Some z → DoNotPinAtom = DoNotPinAtom →
         ∃ cache, atomCaches rt !! z = Some cache
                  ∧ AtomSet.lookup (heap rt) cache (AtomHasher.ofChars c) = None).
  { intros rt c Hcaches z [= <-] _. exists []. by rewrite Hcaches. }
  refine (conj _ (conj _ (conj _ (conj _ (conj _ (conj _ _)))))).
  - destruct (atomize_resolution_order allLive noFailure zone0 (Latin1Chars [48%Z])
                DoNotPinAtom None internedRuntime) as (Hstatic & _).
    apply Hstatic. reflexivity.
  - destruct (atomize_resolution_order allLive noFailure zone0 (Latin1Chars [97%Z])
                DoNotPinAtom None internedRuntime) as (_ & Hcache & _).
    apply (Hcache 0 [entry1] 0 entry1); reflexivity.
  - destruct (atomize_resolution_order allLive noFailure zone0 (Latin1Chars [97%Z])
                DoNotPinAtom None bootPurged) as (_ & _ & Hperm & _).
    destruct (Hperm [AtomStateEntry.mk 1 true] 0 (AtomStateEntry.mk 1 true))
      as [-> _]; [reflexivity | by apply Hmiss | reflexivity | reflexivity |].
    reflexivity.
  - destruct (atomize_resolution_order allLive cacheFails zone0 (Latin1Chars [97%Z])
                DoNotPinAtom None bootPurged) as (_ & _ & Hperm & _).
    destruct (Hperm [AtomStateEntry.mk 1 true] 0 (AtomStateEntry.mk 1 true))
      as [-> _]; [reflexivity | by apply Hmiss | reflexivity | reflexivity |].
    reflexivity.
  - destruct (atomize_resolution_order allLive noFailure zone0 nineChars
                DoNotPinAtom None smallRuntime) as (_ & _ & _ & Hlong & _).
    apply (Hlong []); [reflexivity | by apply Hmiss | reflexivity | reflexivity |].
    vm_compute. lia.
  - destruct (atomize_resolution_order allLive noFailure zone0 (Latin1Chars [97%Z])
                DoNotPinAtom None smallRuntime) as (_ & _ & _ & _ & Htable & _).
    rewrite (Htable []); [|reflexivity | by apply Hmiss | reflexivity | reflexivity |].
    + vm_compute. reflexivity.
    + vm_compute. lia.
  - destruct (atomize_resolution_order allLive cacheFails zone0 (Latin1Chars [97%Z])
                DoNotPinAtom None smallRuntime) as (_ & _ & _ & _ & Htable & _).
    eexists. split; [vm_compute; reflexivity|].
    rewrite (Htable []); [|reflexivity | by apply Hmiss | reflexivity | reflexivity |].
    + vm_compute. reflexivity.
    + vm_compute. lia.
Defined.













(** The Latin-1 and the two-byte representation of the same code unit are
    atomized to the same atom 1. *)
Lemma cross_encoding_match_witness :
  AtomizeAndCopyChars allLive noFailure zone0 (Latin1Chars [97%Z]) DoNotPinAtom None
    smallRuntime = Return (Some 1) internedRuntime
  ∧ ∃ rt3, AtomizeAndCopyChars allLive noFailure noZone (TwoByteChars [97%Z]) DoNotPinAtom
             None internedRuntime = Return (Some 1) rt3.
Proof.
  assert (Hrun1 : AtomizeAndCopyChars allLive noFailure zone0 (Latin1Chars [97%Z])
                    DoNotPinAtom None smallRuntime = Return (Some 1) internedRuntime)
    by (vm_compute; reflexivity).
  split; [exact Hrun1|].
  destruct (AtomizeAndCopyChars allLive noFailure noZone (TwoByteChars [97%Z]) DoNotPinAtom
              None internedRuntime) as [[a2|] rt3|] eqn:Hrun2; try (vm_compute in Hrun2; discriminate Hrun2).
  exists rt3. f_equal. f_equal.
  destruct (cross_encoding_match allLive [] entry1 [97%Z]) as (_ & _ & _ & _ & _ & Hsame).
  exact (Hsame noFailure noFailure zone0 noZone DoNotPinAtom DoNotPinAtom None None
           smallRuntime internedRuntime internedRuntime rt3 1 a2
           (tableInv_smallRuntime allLive) Hrun1 (rtc_refl _ _) Hrun2).
Defined.

(** ** The further properties on the small run *)


(** A full sweep by a collector that reports the atom 1 about to be
    finalized empties the partition 3. *)
Lemma sweepAll_removes_exactly_the_dead_witness :
  ∃ rt', AtomsTable.sweepAll atom1Dead pinnedRuntime = Return tt rt'
         ∧ partitions rt' !! 3 = Some (Partition.mk [] None)
         ∧ mutexLog rt'
           = mutexLog pinnedRuntime
             ++ [Lock 0; Unlock 0; Lock 1; Unlock 1; Lock 2; Unlock 2; Lock 3; Unlock 3].
Proof.
  assert (Hlen : length (partitions pinnedRuntime) = AtomsTable.PartitionCount)
    by reflexivity.
  destruct (sweepAll_removes_exactly_the_dead atom1Dead pinnedRuntime Hlen)
    as (rt' & Hrun & Hrt' & _ & Hparts & _).
  exists rt'. split; [exact Hrun|]. split.
  - exact (Hparts 3 (Partition.mk [pinnedEntry] None) eq_refl).
  - rewrite Hrt'. reflexivity.
Defined.

(** The atomization of the one character 97 takes and releases the
    mutex of the partition 3. *)
Lemma partition_lock_is_scoped_witness :
  ∃ r rt', AtomsTable.atomizeAndCopyChars allLive noFailure (Latin1Chars [97%Z])
             DoNotPinAtom None key97 smallRuntime = Return r rt'
           ∧ mutexLog rt' = [Lock 3; Unlock 3].
Proof.
  assert (Hcache : ∀ z, zone zone0 = Some z → is_Some (atomCaches smallRuntime !! z)).
  { intros z [= <-]. by eexists. }
  assert (Hpart : partitions smallRuntime !! AtomsTable.indexOf key97
                  = Some (Partition.mk [] None)) by (vm_compute; reflexivity).
  assert (Hvalid : validPartition (heap smallRuntime) (Partition.mk [] None)).
  { split; [constructor|]. intros added [=]. }
  destruct (partition_lock_is_scoped allLive noFailure zone0 (Latin1Chars [97%Z])
              DoNotPinAtom None smallRuntime [] (Partition.mk [] None)
              Hcache eq_refl Hpart Hvalid) as ((r & rt' & Hrun & Hlog) & _).
  exists r, rt'. split; [exact Hrun | exact Hlog].
Defined.

(** ** Conversions of the small engine

    Decimal digits for an index, and number conversions that find no
    memory. *)

Fixpoint decimalDigits (fuel : nat) (n : Z) (acc : list Z) : list Z :=
  match fuel with
  | O => acc
  | S fuel' =>
    let acc := (48 + n mod 10)%Z :: acc in
    if (n <? 10)%Z then acc else decimalDigits fuel' (n / 10)%Z acc
  end.

#[local] Instance smallConversions : Conversions := {|
  UTF8CharsToNewTwoByteCharsZ := λ utf8, mret (Some utf8);
  JSID_INT_MAX := 2 ^ 31 - 1;
  BackfillIndexInCharBuffer := λ index, decimalDigits 10 index [];
  ToPrimitive := λ _, mret (Some UndefinedValue);
  Int32ToAtom := λ _, _ ← ReportOutOfMemory; mret None;
  NumberToAtom := λ _, _ ← ReportOutOfMemory; mret None;
  BigIntToAtom := λ _, _ ← ReportOutOfMemory; mret None;
  ReportSymbolToString := mret tt;
  recoverFromOutOfMemory := modify (set_pendingException None)
|}.

(** An allocator with which the allocation of the string fails. *)
Definition noString : Allocator := mkAllocator true false false.

Definition smallNames : JSAtomState := mkNames 0 0 0 0.

(** [ToAtom<NoGC>] of a string whose atom cannot be allocated returns
    null with no exception pending. *)
Lemma ToAtom_recovers_from_out_of_memory_witness :
  ∃ rt', ToAtom allLive noString false smallNames false NoGC zone0
           (StringValue (LinearString (Latin1Chars [97%Z]) None)) smallRuntime
         = Return None rt'
         ∧ pendingException rt' = None.
Proof.
  assert (Hlen : length (stringUnits (LinearString (Latin1Chars [97%Z]) None)) ≤ MAX_LENGTH)
    by (vm_compute; lia).
  destruct (ToAtom_recovers_from_out_of_memory allLive noString false smallNames false zone0
              (LinearString (Latin1Chars [97%Z]) None) smallRuntime Hlen)
    as (_ & Hstring & _).
  destruct Hstring as [Hno _]; [by intros a|].
  rewrite Hno. eexists. split; [vm_compute; reflexivity | reflexivity].
Defined.

(** The pinned atom 1 is the one root of the table of [pinnedRuntime]. *)
Lemma tableWf_pinnedRuntime : tableWf pinnedRuntime.
Proof.
  split.
  - vm_compute. apply NoDup_singleton.
  - vm_compute. repeat constructor. by eexists.
Qed.

Lemma TraceAtoms_roots_witness : TraceAtoms pinnedRuntime = Return [1] pinnedRuntime.
Proof.
  assert (Hlen : length (partitions pinnedRuntime) = AtomsTable.PartitionCount)
    by reflexivity.
  exact (proj1 (TraceAtoms_roots pinnedRuntime tableWf_pinnedRuntime Hlen)).
Defined.

(** The table that a full sweep of [pinnedRuntime] leaves is well
    formed. *)
Lemma sweeps_keep_table_well_formed_witness :
  ∃ rt', AtomsTable.sweepAll atom1Dead pinnedRuntime = Return tt rt' ∧ tableWf rt'.
Proof.
  assert (Hlen : length (partitions pinnedRuntime) = AtomsTable.PartitionCount)
    by reflexivity.
  destruct (sweeps_keep_table_well_formed atom1Dead (λ _, false) cursor3 (SliceBudget.mk 1)
              pinnedRuntime tableWf_pinnedRuntime) as [Hall _].
  destruct (Hall Hlen) as (rt' & Hrun & Hwf & _).
  exists rt'. split; [exact Hrun | exact Hwf].
Defined.

Lemma tableWf_internedRuntime : tableWf internedRuntime.
Proof.
  split.
  - vm_compute. apply NoDup_singleton.
  - vm_compute. repeat constructor. by eexists.
Qed.

(** The table stays well formed when the atom 1 is pinned. *)
Lemma atomization_keeps_table_well_formed_witness : tableWf pinnedRuntime.
Proof.
  assert (Hrun : AtomsTable.pinExistingAtom 1 internedRuntime = Return tt pinnedRuntime)
    by reflexivity.
  destruct (atomization_keeps_table_well_formed internedRuntime tableWf_internedRuntime)
    as (_ & _ & Hpin).
  exact (Hpin 1 pinnedRuntime Hrun).
Defined.

Lemma permanentAtomsPinned_bootInterned : permanentAtomsPinned bootInterned.
Proof.
  intros set [Hset | Hset]; [|discriminate Hset].
  injection Hset as <-. repeat constructor. by eexists.
Qed.

(** The atom 1, made during initialization, is the one permanent root,
    and is pinned still when the set has been frozen. *)
Lemma permanent_atoms_stay_pinned_witness :
  tracePermanentAtoms false bootInterned = Return [1] bootInterned
  ∧ permanentAtomsPinned bootDone.
Proof.
  assert (Hrun : initMainAtomsTables (λ _, false) bootInterned = Return true bootDone)
    by (vm_compute; reflexivity).
  destruct (permanent_atoms_stay_pinned bootInterned permanentAtomsPinned_bootInterned)
    as (_ & Hinit & Htrace & _).
  split; [exact Htrace | exact (Hinit _ _ _ Hrun)].
Defined.

Lemma permanentAtomsPinned_internedRuntime : permanentAtomsPinned internedRuntime.
Proof.
  intros set [Hset | Hset]; [discriminate Hset|]. injection Hset as <-. constructor.
Qed.

(** An atomization of the content of the atom 1 that asks for a pinned
    atom returns the atom 1 with its pinned bit set. *)
Lemma pin_request_is_honoured_witness :
  ∃ rt', AtomizeAndCopyChars allLive noFailure zone0 (Latin1Chars [97%Z]) PinAtom None
           internedRuntime = Return (Some 1) rt'
         ∧ pinnedAt (heap rt') 1.
Proof.
  destruct (AtomizeAndCopyChars allLive noFailure zone0 (Latin1Chars [97%Z]) PinAtom None
              internedRuntime) as [[a|] rt'|] eqn:Hrun;
    try (vm_compute in Hrun; discriminate Hrun).
  assert (a = 1) as -> by (vm_compute in Hrun; by injection Hrun).
  exists rt'. split; [reflexivity|].
  destruct (pin_request_is_honoured allLive noFailure zone0 (Latin1Chars [97%Z]) None
              internedRuntime permanentAtomsPinned_internedRuntime) as [Hpin _].
  apply (Hpin 1 rt'); [exact Hrun | reflexivity].
Defined.

(** The word of a Latin-1 atom of three characters is 7. *)
Lemma lengthAndEncoding_round_trip_witness :
  lengthAndEncoding 3 true = 7%Z
  ∧ decodedLength (lengthAndEncoding 3 true) = 3%Z
  ∧ decodedLatin1 (lengthAndEncoding 3 true) = true.
Proof.
  destruct (lengthAndEncoding_round_trip 3 true) as (_ & Hlength & Hlatin1 & _); [lia|].
  split; [reflexivity|]. split; [exact Hlength | exact Hlatin1].
Defined.

(** ** A small transcoding buffer

    The state is the list of the bytes written, or of the bytes still to
    be read; words and two-byte characters are little endian, and the
    buffer needs no padding. *)

Definition bytesOfUint32 (w : Z) : list Z :=
  [w mod 256; (w / 256) mod 256; (w / 65536) mod 256; (w / 16777216) mod 256]%Z.

Definition bytesOfChar16 (c : Z) : list Z := [c mod 256; (c / 256) mod 256]%Z.

Definition readBytes (n : nat) (buf : list Z) : unit + (list Z * list Z) :=
  if n <=? length buf then inr (take n buf, drop n buf) else inl tt.

#[local] Instance smallXDR : XDR := {|
  XDRState := list Z;
  TranscodeResult := unit;
  TranscodeResult_Throw := tt;
  LITTLE_ENDIAN := true;
  encodeUint32 := λ w buf, inr (buf ++ bytesOfUint32 w);
  decodeUint32 := λ buf,
    match buf with
    | b0 :: b1 :: b2 :: b3 :: rest =>
      inr ((b0 + 256 * b1 + 65536 * b2 + 16777216 * b3)%Z, rest)
    | _ => inl tt
    end;
  encodeChars := λ chars buf,
    match chars with
    | Latin1Chars cs => inr (buf ++ cs)
    | TwoByteChars cs => inr (buf ++ (cs ≫= bytesOfChar16))
    end;
  decodeChars := λ n buf,
    match readBytes (n * 2) buf with
    | inl e => inl e
    | inr (bytes, rest) => inr (char16s bytes, rest)
    end;
  peekData := readBytes;
  codeAlign := λ _ buf, inr buf
|}.

(** The cell of the atom 1 of [internedRuntime]. *)
Definition cell97 : JSAtom.t := JSAtom.mk [97%Z] true 4077199129%Z false false None.

(** The bytes of the atom 1: the word 3 and the byte 97. *)
Definition encoded97 : @XDRState smallXDR := [3; 0; 0; 0; 97]%Z.

Definition emptyBuffer : @XDRState smallXDR := [].

(** The atom 1 is written as the word 3 and the byte 97, and is read
    back from these bytes. *)
Lemma XDRAtom_round_trip_witness :
  XDRAtom_encode emptyBuffer 1 internedRuntime = Return (inr encoded97) internedRuntime
  ∧ ∃ rt3, XDRAtom_decode allLive noFailure false noZone encoded97 internedRuntime
           = Return (inr (1, emptyBuffer)) rt3.
Proof.
  assert (Hrun : AtomizeAndCopyChars allLive noFailure zone0 (Latin1Chars [97%Z])
                   DoNotPinAtom None smallRuntime = Return (Some 1) internedRuntime)
    by (vm_compute; reflexivity).
  assert (Hcell : heap internedRuntime !! 1 = Some cell97) by reflexivity.
  assert (Hlen : (Z.of_nat (length (units (Latin1Chars [97%Z]))) < 2 ^ 31)%Z)
    by (vm_compute; reflexivity).
  destruct (XDRAtom_round_trip allLive noFailure noFailure false zone0 noZone
              (Latin1Chars [97%Z]) DoNotPinAtom None smallRuntime internedRuntime
              internedRuntime 1 cell97 (tableInv_smallRuntime allLive) Hrun
              (rtc_refl _ _) Hcell eq_refl Hlen) as (Hencode & Hdecode & _).
  split; [exact (Hencode emptyBuffer)|].
  destruct (XDRAtom_decode allLive noFailure false noZone encoded97 internedRuntime)
    as [r rt3|] eqn:Hdec; [|vm_compute in Hdec; discriminate Hdec].
  assert (Hreads : readsChars true [97%Z] [97%Z] emptyBuffer).
  { exists [97%Z]. split; reflexivity. }
  exists rt3. f_equal.
  destruct (Hdecode encoded97 [97%Z] emptyBuffer r rt3 eq_refl Hreads Hdec) as [Hr | Hr];
    [exact Hr|].
  rewrite Hr in Hdec. vm_compute in Hdec. discriminate Hdec.
Defined.


(** A runtime of the small engine before its atoms are initialized. *)
Definition freshRuntime : JSRuntime :=
  mkRuntime [zeroAtom] None None [] [[]] true [] None.

Definition noInitFailure : InitFailures :=
  mkInitFailures false (λ _, false) false false false false (λ _, false).

(** With the two names of the one character 97 and 98 and two symbols,
    [initializeAtoms] makes the atoms 1 and 2 and leaves no table. *)
Lemma initializeAtoms_common_names_witness :
  ∃ rt1, initializeAtoms allLive noFailure noInitFailure noZone None [[97%Z]; [98%Z]] 2
           freshRuntime = Return (Some [1; 2]) rt1
         ∧ partitions rt1 = [].
Proof.
  assert (Hcaches : Forall (λ cache, cache = []) (atomCaches freshRuntime))
    by (repeat constructor).
  destruct (initializeAtoms_common_names allLive noFailure noInitFailure noZone
              [[97%Z]; [98%Z]] 2 freshRuntime eq_refl eq_refl eq_refl Hcaches)
    as (Hruns & _).
  destruct (Hruns eq_refl eq_refl eq_refl eq_refl eq_refl eq_refl eq_refl (λ _, eq_refl))
    as (names & rt1 & Hrun & _ & _ & Hps).
  exists rt1. split; [|exact Hps].
  rewrite Hrun. f_equal. vm_compute in Hrun. by injection Hrun as <- _.
Defined.

(** With a budget of ten steps the sweep of [cursorRuntime] ends: it has
    passed the one entry, removed it, and used one step. *)
Lemma sweepIncrementally_finishes_within_budget_witness :
  ∃ it' rt',
    AtomsTable.sweepIncrementally atom1Dead (λ _, false) cursor3 (SliceBudget.mk 10)
      cursorRuntime
    = Return (true, it', SliceBudget.mk 9) rt'
    ∧ partitions rt' = replicate 4 (Partition.mk [] None).
Proof.
  assert (Hbudget : (Z.of_nat (work cursor3 (partitions cursorRuntime))
                     < SliceBudget.counter (SliceBudget.mk 10))%Z)
    by (vm_compute; reflexivity).
  destruct (sweepIncrementally_finishes_within_budget atom1Dead (λ _, false) cursor3
              (SliceBudget.mk 10) cursorRuntime sweeping_cursorRuntime (λ _, eq_refl)
              Hbudget) as (it' & rt' & Hrun & _ & Hps & _).
  exists it', rt'. split; [exact Hrun | exact Hps].
Defined.

(** An incremental sweep of [pinnedRuntime] with a budget of ten steps
    leaves every partition empty, as [sweepAll] does. *)
Lemma incremental_sweep_agrees_with_sweepAll_witness :
  ∃ rt1 it rt2 it' budget' rt3 rt4,
    AtomsTable.startIncrementalSweep (λ _, false) pinnedRuntime = Return true rt1
    ∧ AtomsTable.SweepIterator.new (λ _, false) rt1 = Return it rt2
    ∧ AtomsTable.sweepIncrementally atom1Dead (λ _, false) it (SliceBudget.mk 10) rt2
      = Return (true, it', budget') rt3
    ∧ AtomsTable.sweepAll atom1Dead pinnedRuntime = Return tt rt4
    ∧ partitions rt3 = partitions rt4
    ∧ partitions rt3 = replicate 4 (Partition.mk [] None).
Proof.
  assert (Hlen : length (partitions pinnedRuntime) = AtomsTable.PartitionCount)
    by reflexivity.
  assert (Hnone : Forall (λ p, Partition.atomsAddedWhileSweeping p = None)
                         (partitions pinnedRuntime))
    by (repeat constructor).
  assert (Hbudget : (Z.of_nat (AtomsTable.entryCount pinnedRuntime)
                     < SliceBudget.counter (SliceBudget.mk 10))%Z)
    by (vm_compute; reflexivity).
  destruct (incremental_sweep_agrees_with_sweepAll atom1Dead (λ _, false) (λ _, false)
              (SliceBudget.mk 10) pinnedRuntime Hlen Hnone (λ _, eq_refl) (λ _, eq_refl)
              Hbudget)
    as (rt1 & it & rt2 & it' & budget' & rt3 & rt4 & H1 & H2 & H3 & _ & H4 & H5 & H6).
  exists rt1, it, rt2, it', budget', rt3, rt4.
  refine (conj H1 (conj H2 (conj H3 (conj H4 (conj H5 _))))).
  rewrite H6. reflexivity.
Defined.
